(** * Souffle semantic analysis core: a shallow embedding

    The development follows [AstSemanticChecker.cpp] and
    [AstTypeAnalysis.cpp].  AST nodes are tagged variants; a node keeps
    its address (the identity the C++ code uses as a map key) and its
    source location.  Collaborators whose sources are not part of the
    two files (the type lattice, the precedence graph, the grounded-term
    analysis, functor tables) are interfaces: type classes or arguments. *)

From Stdlib Require Import ZArith List Bool Lia Ascii String.
From stdpp Require Import gmap strings list fin_maps pretty.

Local Open Scope string_scope.
Local Open Scope list_scope.

(** ** Source locations, identifiers, node identity *)

Definition SrcLocation := nat.
Definition AstTypeIdentifier := string.
Definition AstRelationIdentifier := list string.

(** What a [const AstNode*] lets the code observe besides the node's
    fields: its address and [getSrcLoc()]. *)
Record NodeInfo := mkNodeInfo { nodeAddr : nat; nodeSrcLoc : SrcLocation }.

(** Modelled from the spec: FunctorOps.h is not among the sources; the
    code names [FunctorOp::MAX] and [FunctorOp::MIN] only. *)
Inductive FunctorOp := MAX | MIN | OtherFunctorOp (code : nat).

(** Properties of intrinsic functors the code asks for
    ([isNumerical], [isSymbolic], [acceptsNumbers(i)], [acceptsSymbols(i)]). *)
Class FunctorOpInfo := {
  isNumericalFunctorOp : FunctorOp -> bool;
  isSymbolicFunctorOp : FunctorOp -> bool;
  functorOpAcceptsNumbers : FunctorOp -> nat -> bool;
  functorOpAcceptsSymbols : FunctorOp -> nat -> bool
}.

(** [AstAggregator::Op] *)
Inductive AstAggregatorOp := aggr_min | aggr_max | aggr_count | aggr_sum.

(** [BinaryConstraintOp]: the code names [EQ] and [NE]; the ordering and
    matching operators are kept by their code. *)
Inductive BinaryConstraintOp := EQ | NE | OtherConstraintOp (code : nat).

(** ** The AST *)

Unset Elimination Schemes.
Inductive AstArgument : Type :=
| AstVariable (i : NodeInfo) (name : string)
| AstUnnamedVariable (i : NodeInfo)
| AstNumberConstant (i : NodeInfo) (idx : Z)
| AstStringConstant (i : NodeInfo) (sym : string)
| AstNullConstant (i : NodeInfo)
| AstCounter (i : NodeInfo)
| AstTypeCast (i : NodeInfo) (type : AstTypeIdentifier) (value : AstArgument)
| AstIntrinsicFunctor (i : NodeInfo) (function : FunctorOp) (args : list AstArgument)
| AstUserDefinedFunctor (i : NodeInfo) (name : string) (args : list AstArgument)
| AstRecordInit (i : NodeInfo) (type : AstTypeIdentifier) (args : list AstArgument)
| AstAggregator (i : NodeInfo) (op : AstAggregatorOp)
    (expression : option AstArgument) (body : list AstLiteral)
with AstAtom : Type :=
| mkAstAtom (srcLoc : SrcLocation) (name : AstRelationIdentifier) (arguments : list AstArgument)
with AstLiteral : Type :=
| AtomLiteral (atom : AstAtom)
| AstNegation (srcLoc : SrcLocation) (atom : AstAtom)
| AstBinaryConstraint (srcLoc : SrcLocation) (op : BinaryConstraintOp) (lhs rhs : AstArgument)
| AstBooleanConstraint (srcLoc : SrcLocation) (truthValue : bool).
Set Elimination Schemes.

Definition getInfo (a : AstArgument) : NodeInfo :=
  match a with
  | AstVariable i _ | AstUnnamedVariable i | AstNumberConstant i _
  | AstStringConstant i _ | AstNullConstant i | AstCounter i
  | AstTypeCast i _ _ | AstIntrinsicFunctor i _ _ | AstUserDefinedFunctor i _ _
  | AstRecordInit i _ _ | AstAggregator i _ _ _ => i
  end.

Definition getAddr (a : AstArgument) : nat := nodeAddr (getInfo a).
Definition getSrcLoc (a : AstArgument) : SrcLocation := nodeSrcLoc (getInfo a).

Definition atomSrcLoc (a : AstAtom) : SrcLocation := let 'mkAstAtom l _ _ := a in l.
Definition atomName (a : AstAtom) : AstRelationIdentifier := let 'mkAstAtom _ n _ := a in n.
Definition atomArguments (a : AstAtom) : list AstArgument := let 'mkAstAtom _ _ args := a in args.
Definition atomArity (a : AstAtom) : nat := length (atomArguments a).

Definition literalSrcLoc (l : AstLiteral) : SrcLocation :=
  match l with
  | AtomLiteral a => atomSrcLoc a
  | AstNegation s _ | AstBinaryConstraint s _ _ _ | AstBooleanConstraint s _ => s
  end.

(** [AstLiteral::getAtom()]: the atom of an atom or a negation, null otherwise. *)
Definition literalGetAtom (l : AstLiteral) : option AstAtom :=
  match l with
  | AtomLiteral a | AstNegation _ a => Some a
  | _ => None
  end.

(** ** Depth-first visitation

    [visitDepthFirst] hands every node of a subtree to the visitor,
    parents before children.  [AstNode] is the sum of the node
    categories; the [nodesOf...] functions list a subtree in visiting
    order and the [visit...] functions keep the nodes of one class. *)

Inductive AstNode :=
| NodeArgument (a : AstArgument)
| NodeAtom (a : AstAtom)
| NodeLiteral (l : AstLiteral).

Fixpoint nodesOfArgument (a : AstArgument) : list AstNode :=
  NodeArgument a ::
  match a with
  | AstTypeCast _ _ v => nodesOfArgument v
  | AstIntrinsicFunctor _ _ args
  | AstUserDefinedFunctor _ _ args
  | AstRecordInit _ _ args => flat_map nodesOfArgument args
  | AstAggregator _ _ e body =>
      match e with Some x => nodesOfArgument x | None => [] end
      ++ flat_map nodesOfLiteral body
  | _ => []
  end
with nodesOfAtom (a : AstAtom) : list AstNode :=
  NodeAtom a :: match a with mkAstAtom _ _ args => flat_map nodesOfArgument args end
with nodesOfLiteral (l : AstLiteral) : list AstNode :=
  match l with
  | AtomLiteral a => nodesOfAtom a
  | AstNegation _ a => NodeLiteral l :: nodesOfAtom a
  | AstBinaryConstraint _ _ x y => NodeLiteral l :: nodesOfArgument x ++ nodesOfArgument y
  | AstBooleanConstraint _ _ => [NodeLiteral l]
  end.

Definition visitArguments (ns : list AstNode) : list AstArgument :=
  omap (fun n => match n with NodeArgument a => Some a | _ => None end) ns.
Definition visitAtoms (ns : list AstNode) : list AstAtom :=
  omap (fun n => match n with NodeAtom a => Some a | _ => None end) ns.

(** ** Clauses, relations, types and programs *)

Record AstExecutionOrder := mkAstExecutionOrder {
  orderSize : nat;
  orderIsComplete : bool;
  orderSrcLoc : SrcLocation
}.

(** [AstExecutionPlan::getOrders()]: version number to order. *)
Definition AstExecutionPlan := list (nat * AstExecutionOrder).

Record AstClause := mkAstClause {
  clauseSrcLoc : SrcLocation;
  getHead : AstAtom;
  getBodyLiterals : list AstLiteral;
  getExecutionPlan : option AstExecutionPlan;
  isGenerated : bool
}.

Definition getAtoms (c : AstClause) : list AstLiteral :=
  List.filter (fun l => match l with AtomLiteral _ => true | _ => false end) (getBodyLiterals c).
Definition getNegations (c : AstClause) : list AstLiteral :=
  List.filter (fun l => match l with AstNegation _ _ => true | _ => false end) (getBodyLiterals c).
Definition getConstraints (c : AstClause) : list AstLiteral :=
  List.filter (fun l => match l with
                        | AstBinaryConstraint _ _ _ _ | AstBooleanConstraint _ _ => true
                        | _ => false end) (getBodyLiterals c).

(** Modelled from the spec: [AstClause::isFact] (AstClause.h) is not
    among the sources.  The spec calls a fact a clause with an empty
    body. *)
Definition isFact (c : AstClause) : bool :=
  match getBodyLiterals c with [] => true | _ => false end.

(** [AstClause::getChildNodes()]: the head, then the body. *)
Definition nodesOfClause (c : AstClause) : list AstNode :=
  nodesOfAtom (getHead c) ++ flat_map nodesOfLiteral (getBodyLiterals c).

Record AstAttribute := mkAstAttribute {
  attrSrcLoc : SrcLocation;
  getAttributeName : string;
  getTypeName : AstTypeIdentifier
}.

Inductive RelationRepresentation := EQREL | OtherRepresentation (code : nat).

Record AstRelation := mkAstRelation {
  relSrcLoc : SrcLocation;
  relName : AstRelationIdentifier;
  getAttributes : list AstAttribute;
  getRepresentation : RelationRepresentation;
  isInline : bool;
  isSuppressed : bool;
  getClauses : list AstClause
}.

Definition getArity (r : AstRelation) : nat := length (getAttributes r).
Definition setSuppressed (r : AstRelation) : AstRelation :=
  mkAstRelation (relSrcLoc r) (relName r) (getAttributes r) (getRepresentation r)
    (isInline r) true (getClauses r).

Record AstRecordField := mkAstRecordField { fieldName : string; fieldType : AstTypeIdentifier }.

Inductive AstType :=
| AstPrimitiveType (srcLoc : SrcLocation) (name : AstTypeIdentifier) (numeric : bool)
| AstUnionType (srcLoc : SrcLocation) (name : AstTypeIdentifier) (types : list AstTypeIdentifier)
| AstRecordType (srcLoc : SrcLocation) (name : AstTypeIdentifier) (fields : list AstRecordField).

Definition typeName (t : AstType) : AstTypeIdentifier :=
  match t with
  | AstPrimitiveType _ n _ | AstUnionType _ n _ | AstRecordType _ n _ => n
  end.

Inductive Kind := SYMBOL | NUMBER | RECORD.

Global Instance Kind_eq_dec : EqDecision Kind.
Proof. solve_decision. Defined.

(** A functor declaration: name, argument kinds, return kind. *)
Record AstFunctorDeclaration := mkAstFunctorDeclaration {
  functorName : string;
  functorArgKinds : list Kind;
  functorReturnKind : Kind
}.

Definition getArgCount (d : AstFunctorDeclaration) : nat := length (functorArgKinds d).
Definition declIsSymbolic (d : AstFunctorDeclaration) : bool :=
  bool_decide (functorReturnKind d = SYMBOL).
Definition declIsNumerical (d : AstFunctorDeclaration) : bool :=
  bool_decide (functorReturnKind d = NUMBER).
Definition declAcceptsSymbols (d : AstFunctorDeclaration) (i : nat) : bool :=
  bool_decide (functorArgKinds d !! i = Some SYMBOL).
Definition declAcceptsNumbers (d : AstFunctorDeclaration) (i : nat) : bool :=
  bool_decide (functorArgKinds d !! i = Some NUMBER).

Record AstIO := mkAstIO {
  ioSrcLoc : SrcLocation;
  ioName : AstRelationIdentifier;
  getIODirectiveMap : gmap string string
}.

Record AstProgram := mkAstProgram {
  getTypes : list AstType;
  getRelations : list AstRelation;
  getFunctorDeclarations : list AstFunctorDeclaration;
  getOrphanClauses : list AstClause;
  getLoads : list AstIO;
  getPrintSizes : list AstIO;
  getStores : list AstIO
}.

(** Name lookups; [None] is the null sentinel. *)
Definition getRelation (p : AstProgram) (n : AstRelationIdentifier) : option AstRelation :=
  List.find (fun r => bool_decide (relName r = n)) (getRelations p).
Definition getType (p : AstProgram) (n : AstTypeIdentifier) : option AstType :=
  List.find (fun t => bool_decide (typeName t = n)) (getTypes p).
Definition getFunctorDeclaration (p : AstProgram) (n : string) : option AstFunctorDeclaration :=
  List.find (fun d => bool_decide (functorName d = n)) (getFunctorDeclarations p).

(** The type environment built by [TypeEnvironmentAnalysis]. *)
Inductive EnvType :=
| EnvPrimitiveType (name : AstTypeIdentifier)
| EnvUnionType (name : AstTypeIdentifier)
| EnvRecordType (name : AstTypeIdentifier) (fields : list AstRecordField).

Definition TypeEnvironment := AstTypeIdentifier -> option EnvType.

Definition isType (env : TypeEnvironment) (n : AstTypeIdentifier) : bool :=
  match env n with Some _ => true | None => false end.
Definition isRecordType (t : EnvType) : bool :=
  match t with EnvRecordType _ _ => true | _ => false end.

(** The precomputed [IOType] analysis. *)
Record IOType := mkIOType {
  isInput : AstRelation -> bool;
  isOutput : AstRelation -> bool
}.

(** ** Diagnostics and configuration *)

Inductive Severity := ERROR | WARNING.

Record DiagnosticMessage := mkDiagnosticMessage {
  msgText : string;
  msgLoc : option SrcLocation
}.

Record Diagnostic := mkDiagnostic {
  diagSeverity : Severity;
  diagPrimary : DiagnosticMessage;
  diagAdditional : list DiagnosticMessage
}.

(** The report is a sink; it is kept in the order of emission. *)
Definition ErrorReport := list Diagnostic.

Definition addDiagnostic (report : ErrorReport) (d : Diagnostic) : ErrorReport := report ++ [d].
Definition addError (report : ErrorReport) (msg : string) (l : SrcLocation) : ErrorReport :=
  addDiagnostic report (mkDiagnostic ERROR (mkDiagnosticMessage msg (Some l)) []).
Definition addErrorNoLoc (report : ErrorReport) (msg : string) : ErrorReport :=
  addDiagnostic report (mkDiagnostic ERROR (mkDiagnosticMessage msg None) []).
Definition addWarning (report : ErrorReport) (msg : string) (l : SrcLocation) : ErrorReport :=
  addDiagnostic report (mkDiagnostic WARNING (mkDiagnosticMessage msg (Some l)) []).

Definition isError (d : Diagnostic) : bool :=
  match diagSeverity d with ERROR => true | WARNING => false end.
Definition errorsOf (report : ErrorReport) : ErrorReport := List.filter isError report.

(** [toString] of a relation identifier: the dotted form. *)
Definition toString (n : AstRelationIdentifier) : string := String.concat "." n.

(** [Global::config()]: a string-to-string table. *)
Definition Config := gmap string string.
Definition config_has (c : Config) (k : string) : bool :=
  match c !! k with Some _ => true | None => false end.
Definition config_get (c : Config) (k : string) : string := default "" (c !! k).
Definition config_unset (c : Config) (k : string) : Config := delete k c.

(** ** The semantic checker: atoms, literals, arguments

    A check that can run into one of the code's assertions returns
    [option]: [None] is the assertion failure. *)

Definition foldM {A B} (f : B -> A -> option B) (l : list A) (b : B) : option B :=
  fold_left (fun acc a => acc ≫= fun r => f r a) l (Some b).

(** Whether an unnamed variable occurs in an argument. *)
Fixpoint hasUnnamedVariable (arg : AstArgument) : bool :=
  match arg with
  | AstUnnamedVariable _ => true
  | AstVariable _ _ => false
  | AstNumberConstant _ _ | AstStringConstant _ _ | AstNullConstant _ => false
  | AstCounter _ => false
  | AstTypeCast _ _ value => hasUnnamedVariable value
  | AstIntrinsicFunctor _ _ args => existsb hasUnnamedVariable args
  | AstUserDefinedFunctor _ _ args => existsb hasUnnamedVariable args
  | AstRecordInit _ _ args => existsb hasUnnamedVariable args
  | AstAggregator _ _ _ _ => false
  end.

(** The overload on literals. *)
Definition hasUnnamedVariableLit (lit : AstLiteral) : bool :=
  match lit with
  | AtomLiteral atom => existsb hasUnnamedVariable (atomArguments atom)
  | AstNegation _ atom => existsb hasUnnamedVariable (atomArguments atom)
  | AstBooleanConstraint _ _ => false
  | AstBinaryConstraint _ _ lhs rhs => hasUnnamedVariable lhs || hasUnnamedVariable rhs
  end.

Fixpoint checkArgument (report : ErrorReport) (program : AstProgram) (arg : AstArgument)
    {struct arg} : ErrorReport :=
  match arg with
  | AstAggregator _ _ _ body =>
      (* checkAggregator *)
      fold_left (fun r literal => checkLiteral r program literal) body report
  | AstIntrinsicFunctor _ _ args
  | AstUserDefinedFunctor _ _ args =>
      fold_left (fun r a => checkArgument r program a) args report
  | _ => report
  end
with checkAtom (report : ErrorReport) (program : AstProgram) (atom : AstAtom)
    {struct atom} : ErrorReport :=
  match atom with
  | mkAstAtom srcLoc name arguments =>
      let r := getRelation program name in
      let report :=
        match r with
        | None => addError report ("Undefined relation " +:+ toString name) srcLoc
        | Some _ => report
        end in
      let report :=
        match r with
        | Some rel =>
            if negb (Nat.eqb (getArity rel) (length arguments))
            then addError report ("Mismatching arity of relation " +:+ toString name) srcLoc
            else report
        | None => report
        end in
      fold_left (fun r a => checkArgument r program a) arguments report
  end
with checkLiteral (report : ErrorReport) (program : AstProgram) (literal : AstLiteral)
    {struct literal} : ErrorReport :=
  match literal with
  | AtomLiteral atom => checkAtom report program atom
  | AstNegation _ atom => checkAtom report program atom
  | AstBinaryConstraint srcLoc _ lhs rhs =>
      let report := checkArgument report program lhs in
      let report := checkArgument report program rhs in
      if hasUnnamedVariableLit literal
      then addError report "Underscore in binary relation" srcLoc
      else report
  | AstBooleanConstraint _ _ => report
  end.

Definition checkAggregator (report : ErrorReport) (program : AstProgram)
    (body : list AstLiteral) : ErrorReport :=
  fold_left (fun r literal => checkLiteral r program literal) body report.

(** ** Facts *)

Fixpoint isConstantArithExpr `{FunctorOpInfo} (argument : AstArgument) : bool :=
  match argument with
  | AstNumberConstant _ _ => true
  | AstIntrinsicFunctor _ function args =>
      if negb (isNumericalFunctorOp function) then false
      else forallb isConstantArithExpr args
  | _ => false
  end.

(** The final [else] of the source is [assert(false && "Unknown case")];
    of the argument classes only the aggregator reaches it. *)
Fixpoint checkConstant `{FunctorOpInfo} (report : ErrorReport) (argument : AstArgument)
    : option ErrorReport :=
  match argument with
  | AstVariable i name =>
      Some (addError report ("Variable " +:+ name +:+ " in fact") (nodeSrcLoc i))
  | AstUnnamedVariable i => Some (addError report "Underscore in fact" (nodeSrcLoc i))
  | AstIntrinsicFunctor i _ _ =>
      if negb (isConstantArithExpr argument)
      then Some (addError report "Function in fact" (nodeSrcLoc i))
      else Some report
  | AstUserDefinedFunctor i _ _ =>
      Some (addError report "User-defined functor in fact" (nodeSrcLoc i))
  | AstTypeCast _ _ value => checkConstant report value
  | AstCounter i => Some (addError report "Counter in fact" (nodeSrcLoc i))
  | AstNumberConstant _ _ | AstStringConstant _ _ | AstNullConstant _ => Some report
  | AstRecordInit _ _ args =>
      fold_left (fun acc arg => acc ≫= fun r => checkConstant r arg) args (Some report)
  | AstAggregator _ _ _ _ => None
  end.

(** Check if facts contain only constants.  The head of a built clause
    is never null, so the first early return of the source has no
    counterpart; the second one (undeclared relation) is kept. *)
Definition checkFact `{FunctorOpInfo} (report : ErrorReport) (program : AstProgram)
    (fact : AstClause) : option ErrorReport :=
  if negb (isFact fact) then None
  else
    let head := getHead fact in
    match getRelation program (atomName head) with
    | None => Some report
    | Some _ => foldM checkConstant (atomArguments head) report
    end.

(** ** Clauses *)

(** [std::map<std::string, V>]: an association list kept in key order,
    which is the order the code iterates in. *)
Fixpoint smap_alter {V} (f : option V -> V) (k : string) (m : list (string * V))
    : list (string * V) :=
  match m with
  | [] => [(k, f None)]
  | (k', v) :: m' =>
      match String.compare k k' with
      | Eq => (k, f (Some v)) :: m'
      | Lt => (k, f None) :: m
      | Gt => (k', v) :: smap_alter f k m'
      end
  end.

Fixpoint smap_lookup {V} (k : string) (m : list (string * V)) : option V :=
  match m with
  | [] => None
  | (k', v) :: m' => if String.eqb k k' then Some v else smap_lookup k m'
  end.

Definition visitVariables (ns : list AstNode) : list (NodeInfo * string) :=
  omap (fun n => match n with NodeArgument (AstVariable i x) => Some (i, x) | _ => None end) ns.
Definition visitCounters (ns : list AstNode) : list NodeInfo :=
  omap (fun n => match n with NodeArgument (AstCounter i) => Some i | _ => None end) ns.

Definition startsWithUnderscore (s : string) : bool :=
  match s with
  | String c _ => Ascii.eqb c "_"%char
  | EmptyString => false
  end.

Definition checkClause `{FunctorOpInfo} (report : ErrorReport) (program : AstProgram)
    (clause : AstClause) (recursiveClauses : AstClause -> bool) : option ErrorReport :=
  (* check head atom *)
  let report := checkAtom report program (getHead clause) in
  (* check for absence of underscores in head *)
  let report :=
    if hasUnnamedVariableLit (AtomLiteral (getHead clause))
    then addError report "Underscore in head of rule" (atomSrcLoc (getHead clause))
    else report in
  (* check body literals *)
  let report := fold_left (fun r lit => checkLiteral r program lit) (getAtoms clause) report in
  let report := fold_left (fun r lit => checkLiteral r program lit) (getNegations clause) report in
  let report := fold_left (fun r lit => checkLiteral r program lit) (getConstraints clause) report in
  (* check facts *)
  report ← (if isFact clause then checkFact report program clause else Some report);
  (* check for use-once variables *)
  let vars := visitVariables (nodesOfClause clause) in
  let var_count :=
    fold_left (fun m v => smap_alter (fun o => S (default 0 o)) (snd v) m) vars [] in
  let var_pos :=
    fold_left (fun m v => smap_alter (fun _ => nodeSrcLoc (fst v)) (snd v) m) vars [] in
  let report :=
    if negb (isGenerated clause) then
      fold_left (fun r cur =>
                   if Nat.eqb (snd cur) 1 && negb (startsWithUnderscore (fst cur))
                   then addWarning r ("Variable " +:+ fst cur +:+ " only occurs once")
                          (default 0 (smap_lookup (fst cur) var_pos))
                   else r) var_count report
    else report in
  (* check execution plan *)
  let report :=
    match getExecutionPlan clause with
    | Some orders =>
        let numAtoms := length (getAtoms clause) in
        fold_left (fun r cur =>
                     if negb (Nat.eqb (orderSize (snd cur)) numAtoms)
                        || negb (orderIsComplete (snd cur))
                     then addError r "Invalid execution plan" (orderSrcLoc (snd cur))
                     else r) orders report
    | None => report
    end in
  (* check auto-increment *)
  let report :=
    if recursiveClauses clause then
      fold_left (fun r ctr => addError r "Auto-increment functor in a recursive rule"
                                (nodeSrcLoc ctr))
        (visitCounters (nodesOfClause clause)) report
    else report in
  Some report.

(** ** Relations

    The checks below touch [Global::config()]; the configuration is
    threaded through them next to the report. *)

Definition checkRelationDeclaration (report : ErrorReport) (config : Config)
    (typeEnv : TypeEnvironment) (program : AstProgram) (relation : AstRelation)
    (ioTypes : IOType) : ErrorReport * Config :=
  fold_left
    (fun (st : ErrorReport * Config) (i : nat) =>
       match getAttributes relation !! i with
       | None => st
       | Some attr =>
           let '(report, config) := st in
           let typeName := getTypeName attr in
           (* check whether type exists *)
           let report :=
             if negb (String.eqb typeName "number") && negb (String.eqb typeName "symbol")
                && negb (bool_decide (is_Some (getType program typeName)))
             then addError report
                    ("Undefined type in attribute " +:+ getAttributeName attr +:+ ":" +:+ typeName)
                    (attrSrcLoc attr)
             else report in
           (* check whether name occurs more than once *)
           let report :=
             fold_left
               (fun r j =>
                  match getAttributes relation !! j with
                  | Some attr_j =>
                      if String.eqb (getAttributeName attr) (getAttributeName attr_j)
                      then addError r
                             ("Doubly defined attribute name " +:+ getAttributeName attr
                                +:+ ":" +:+ typeName)
                             (attrSrcLoc attr)
                      else r
                  | None => r
                  end) (seq 0 i) report in
           (* check whether type is a record type *)
           match typeEnv typeName with
           | Some type =>
               if isRecordType type then
                 let config := config_unset config "engine" in
                 let report :=
                   if isInput ioTypes relation
                   then addError report
                          ("Input relations must not have record types. Attribute "
                             +:+ getAttributeName attr +:+ " has record type " +:+ typeName)
                          (attrSrcLoc attr)
                   else report in
                 let report :=
                   if isOutput ioTypes relation
                   then addWarning report
                          ("Record types in output relations are not printed verbatim: attribute "
                             +:+ getAttributeName attr +:+ " has record type " +:+ typeName)
                          (attrSrcLoc attr)
                   else report in
                 (report, config)
               else (report, config)
           | None => (report, config)
           end
       end)
    (seq 0 (getArity relation)) (report, config).

(** The first block of [checkRelation]: the rules for [equivalence]
    relations. *)
Definition checkEquivalence (report : ErrorReport) (relation : AstRelation) : ErrorReport :=
  match getRepresentation relation with
  | EQREL =>
      if Nat.eqb (getArity relation) 2 then
        match getAttributes relation !! 0, getAttributes relation !! 1 with
        | Some a0, Some a1 =>
            if negb (String.eqb (getTypeName a0) (getTypeName a1))
            then addError report
                   ("Domains of equivalence relation " +:+ toString (relName relation)
                      +:+ " are different")
                   (relSrcLoc relation)
            else report
        | _, _ => report
        end
      else addError report
             ("Equivalence relation " +:+ toString (relName relation) +:+ " is not binary")
             (relSrcLoc relation)
  | _ => report
  end.

Definition checkRelation `{FunctorOpInfo} (report : ErrorReport) (config : Config)
    (typeEnv : TypeEnvironment) (program : AstProgram) (relation : AstRelation)
    (recursiveClauses : AstClause -> bool) (ioTypes : IOType)
    : option (ErrorReport * Config) :=
  let report := checkEquivalence report relation in
  (* start with declaration *)
  let '(report, config) :=
    checkRelationDeclaration report config typeEnv program relation ioTypes in
  (* check clauses *)
  report ← foldM (fun r c => checkClause r program c recursiveClauses)
             (getClauses relation) report;
  (* check whether this relation is empty *)
  let report :=
    if Nat.eqb (length (getClauses relation)) 0 && negb (isInput ioTypes relation)
       && negb (isSuppressed relation)
    then addWarning report
           ("No rules/facts defined for relation " +:+ toString (relName relation))
           (relSrcLoc relation)
    else report in
  Some (report, config).

Definition checkRules `{FunctorOpInfo} (report : ErrorReport) (config : Config)
    (typeEnv : TypeEnvironment) (program : AstProgram)
    (recursiveClauses : AstClause -> bool) (ioTypes : IOType)
    : option (ErrorReport * Config) :=
  st ← foldM (fun (st : ErrorReport * Config) cur =>
                checkRelation (fst st) (snd st) typeEnv program cur recursiveClauses ioTypes)
          (getRelations program) (report, config);
  report ← foldM (fun r cur => checkClause r program cur recursiveClauses)
             (getOrphanClauses program) (fst st);
  Some (report, snd st).

(** ** IO directives

    [USE_MPI] is the preprocessor symbol of the same name. *)

Definition checkIODirective (USE_MPI : bool) (program : AstProgram)
    (st : ErrorReport * Config) (directive : AstIO) : ErrorReport * Config :=
  let '(report, config) := st in
  let config :=
    if USE_MPI then
      match getIODirectiveMap directive !! "IO" with
      | Some v => if String.eqb v "sqlite" then config_unset config "engine" else config
      | None => config
      end
    else config in
  let report :=
    match getRelation program (ioName directive) with
    | None => addError report ("Undefined relation " +:+ toString (ioName directive))
                (ioSrcLoc directive)
    | Some _ => report
    end in
  (report, config).

Definition checkIODirectives (USE_MPI : bool) (report : ErrorReport) (config : Config)
    (program : AstProgram) : ErrorReport * Config :=
  let st := fold_left (checkIODirective USE_MPI program) (getLoads program) (report, config) in
  let st := fold_left (checkIODirective USE_MPI program) (getPrintSizes program) st in
  fold_left (checkIODirective USE_MPI program) (getStores program) st.

(** ** Type usage *)

(** The bounds of [AstDomain] (RamTypes.h). *)
Class AstDomainBounds := { MIN_AST_DOMAIN : Z; MAX_AST_DOMAIN : Z }.

Definition visitTypeCasts (ns : list AstNode) : list (NodeInfo * AstTypeIdentifier * AstArgument) :=
  omap (fun n => match n with
                 | NodeArgument (AstTypeCast i t v) => Some (i, t, v)
                 | _ => None end) ns.
Definition visitRecordInits (ns : list AstNode)
    : list (NodeInfo * AstTypeIdentifier * list AstArgument) :=
  omap (fun n => match n with
                 | NodeArgument (AstRecordInit i t args) => Some (i, t, args)
                 | _ => None end) ns.
Definition visitNumberConstants (ns : list AstNode) : list (NodeInfo * Z) :=
  omap (fun n => match n with
                 | NodeArgument (AstNumberConstant i idx) => Some (i, idx)
                 | _ => None end) ns.
Definition visitUserDefinedFunctors (ns : list AstNode)
    : list (NodeInfo * string * list AstArgument) :=
  omap (fun n => match n with
                 | NodeArgument (AstUserDefinedFunctor i f args) => Some (i, f, args)
                 | _ => None end) ns.

(** The clauses [checkTypeUsage] looks at: those of the declared relations. *)
Definition relationClauses (program : AstProgram) : list AstClause :=
  flat_map getClauses (getRelations program).

Definition checkTypeUsage `{AstDomainBounds} (report : ErrorReport) (config : Config)
    (typeEnv : TypeEnvironment) (program : AstProgram) : ErrorReport * Config :=
  (* get list of nodes to check *)
  let nodes := flat_map nodesOfClause (relationClauses program) in
  (* type casts name a valid type *)
  let report :=
    fold_left (fun r '(i, t, _) =>
                 if negb (isType typeEnv t)
                 then addError r ("Type cast is to undeclared type " +:+ t) (nodeSrcLoc i)
                 else r) (visitTypeCasts nodes) report in
  (* record initialisations declare valid record types and have correct size *)
  let '(report, config) :=
    fold_left (fun (st : ErrorReport * Config) '(i, t, args) =>
                 let '(r, config) := st in
                 let config := config_unset config "engine" in
                 match typeEnv t with
                 | Some type =>
                     match type with
                     | EnvRecordType _ fields =>
                         if negb (Nat.eqb (length args) (length fields))
                         then (addError r "Wrong number of arguments given to record"
                                 (nodeSrcLoc i), config)
                         else (r, config)
                     | EnvPrimitiveType n | EnvUnionType n =>
                         (addError r ("Type " +:+ n +:+ " is not a record type") (nodeSrcLoc i),
                          config)
                     end
                 | None =>
                     (addError r ("Type " +:+ t +:+ " has not been declared") (nodeSrcLoc i),
                      config)
                 end) (visitRecordInits nodes) (report, config) in
  (* number constants are within the allowed domain *)
  let report :=
    fold_left (fun r '(i, idx) =>
                 if (Z.ltb MAX_AST_DOMAIN idx || Z.ltb idx MIN_AST_DOMAIN)%bool
                 then addError r ("Number constant not in range [" +:+ pretty MIN_AST_DOMAIN
                                    +:+ ", " +:+ pretty MAX_AST_DOMAIN +:+ "]") (nodeSrcLoc i)
                 else r) (visitNumberConstants nodes) report in
  (* check the existence and arity of all user-defined functors *)
  let report :=
    fold_left (fun r '(i, f, args) =>
                 match getFunctorDeclaration program f with
                 | None => addError r "User-defined functor hasn't been declared" (nodeSrcLoc i)
                 | Some funDecl =>
                     if negb (Nat.eqb (getArgCount funDecl) (length args))
                     then addError r "Mismatching number of arguments of functor" (nodeSrcLoc i)
                     else r
                 end) (visitUserDefinedFunctors nodes) report in
  (report, config).

(** ** Type analysis: which clauses can be typed

    The function answers [true] for a clause that can be type-checked. *)
Definition isInvalidClause (program : AstProgram) (clause : AstClause) : bool :=
  let nodes := nodesOfClause clause in
  let valid := true in
  (* -- check atoms -- *)
  let valid :=
    fold_left (fun valid atom =>
                 match getRelation program (atomName atom) with
                 | None => false                      (* undefined relation *)
                 | Some rel =>
                     if negb (Nat.eqb (getArity rel) (atomArity atom))
                     then false                       (* non-matching arity *)
                     else
                       (* all attributes should have defined types *)
                       if forallb (fun attr =>
                                     let typeName := getTypeName attr in
                                     String.eqb typeName "symbol" || String.eqb typeName "number"
                                     || bool_decide (is_Some (getType program typeName)))
                            (getAttributes rel)
                       then valid else false
                 end) (visitAtoms nodes) valid in
  (* -- check user-defined functors -- *)
  let valid :=
    fold_left (fun valid '(_, f, args) =>
                 match getFunctorDeclaration program f with
                 | None => false                      (* undefined functor *)
                 | Some funDecl =>
                     if negb (Nat.eqb (getArgCount funDecl) (length args))
                     then false                       (* non-matching arity *)
                     else valid
                 end) (visitUserDefinedFunctors nodes) valid in
  (* -- check records -- *)
  let valid :=
    fold_left (fun valid '(_, t, args) =>
                 match getType program t with
                 | Some (AstRecordType _ _ fields) =>
                     if negb (Nat.eqb (length args) (length fields))
                     then false                       (* invalid record arity *)
                     else valid
                 | _ => false                         (* record should have a record type *)
                 end) (visitRecordInits nodes) valid in
  (* -- check typecasts -- *)
  let valid :=
    fold_left (fun valid '(_, t, _) =>
                 if String.eqb t "symbol" || String.eqb t "number" then valid
                 else if bool_decide (is_Some (getType program t)) then valid
                 else false                           (* undefined type *)
              ) (visitTypeCasts nodes) valid in
  valid.

(** ** The type lattice

    Modelled from the spec: TypeLattice.h and TypeLattice.cpp are not
    among the sources.  The lattice is the interface the solver and the
    checker use: the ad-hoc types [Top], [Constant(k)], [TopPrimitive(k)],
    the canonical lookup [getAnalysisType], the subtype test, [meet] and
    [join], [isValid()], and [isValidType()] of an analysis type.  The
    carrier of analysis types is the parameter [AnalysisType]. *)
Class TypeLattice (AnalysisType : Type) := {
  TopAnalysisType : AnalysisType;
  ConstantAnalysisType : Kind -> AnalysisType;
  TopPrimitiveAnalysisType : Kind -> AnalysisType;
  getAnalysisType : AstTypeIdentifier -> AnalysisType;
  getAnalysisTypeOfRecord : EnvType -> AnalysisType;
  isSubtype : AnalysisType -> AnalysisType -> bool;
  meet : AnalysisType -> AnalysisType -> AnalysisType;
  join : AnalysisType -> AnalysisType -> AnalysisType;
  isValid : bool;
  isValidType : AnalysisType -> bool;
  analysisTypeToString : AnalysisType -> string;
  getTypeEnvironment : TypeEnvironment
}.

(** ** The type solver *)

Section Solver.
Context {AnalysisType : Type} `{TypeLattice AnalysisType} `{FunctorOpInfo}.

Record FixedConstraint := mkFixedConstraint {
  fixedArgument : AstArgument;
  imposedType : AnalysisType
}.

Inductive TypeConstraint :=
| Fixed (c : FixedConstraint)
| VariableConstraint (lhs rhs : AstArgument)
| UnionConstraint (argument firstBound secondBound : AstArgument)
| ImplicationConstraint (consequent : FixedConstraint) (requirements : list FixedConstraint).

(** The per-clause state of a [TypeSolver]: the variable-representative
    table, the current type of every argument (keyed by the address of
    its representative) and the constraints. *)
Record TypeSolver := mkTypeSolver {
  representatives : gmap string AstArgument;
  typeMapping : gmap nat AnalysisType;
  constraints : list TypeConstraint
}.

Definition emptySolver : TypeSolver := mkTypeSolver ∅ ∅ [].

Definition addConstraint (solver : TypeSolver) (c : TypeConstraint) : TypeSolver :=
  mkTypeSolver (representatives solver) (typeMapping solver) (constraints solver ++ [c]).

(** [TypeSolver::getRepresentative]: the table is [mutable], so the
    call returns the updated solver as well. *)
Definition getRepresentative (solver : TypeSolver) (arg : AstArgument)
    : AstArgument * TypeSolver :=
  match arg with
  | AstVariable _ name =>
      (* check if already represented *)
      match representatives solver !! name with
      | Some r => (r, solver)
      | None =>
          (* otherwise, set it as the representative *)
          (arg, mkTypeSolver (<[name := arg]> (representatives solver))
                  (typeMapping solver) (constraints solver))
      end
  | _ => (arg, solver)      (* non-variables are not affected *)
  end.

(** Modelled from the spec: AstTypeAnalysis.h is not among the sources.
    The solver holds a mapping from each argument to a current type and
    all occurrences of a variable map to one canonical argument, so
    [setType], [hasType] and [getType] go through the representative.
    [getType] asserts that the argument has a type. *)
Definition setType (solver : TypeSolver) (arg : AstArgument) (type : AnalysisType)
    : TypeSolver :=
  let '(r, solver) := getRepresentative solver arg in
  mkTypeSolver (representatives solver) (<[getAddr r := type]> (typeMapping solver))
    (constraints solver).

Definition getType_solver (solver : TypeSolver) (arg : AstArgument)
    : option (AnalysisType * TypeSolver) :=
  let '(r, solver) := getRepresentative solver arg in
  match typeMapping solver !! getAddr r with
  | Some t => Some (t, solver)
  | None => None
  end.

(** *** Constraints

    Modelled from the spec: TypeConstraint.h and TypeConstraint.cpp are
    not among the sources.
    - [Fixed(arg, T)] requires [type(arg) <= T]; resolving sets
      [type(arg) := meet(type(arg), T)].
    - [Variable(target, source)] requires [type(target) <= type(source)];
      resolving sets [type(target) := meet(type(target), type(source))].
    - [Union(result, a, b)] requires
      [type(result) <= join(type(a), type(b))]; resolving tightens the
      result to that join.
    - [Implication(consequent, requirements)]: if every requirement is
      satisfied then the consequent must be; resolving resolves the
      consequent if all requirements hold and does nothing otherwise. *)

Definition isSatisfiedFixed (c : FixedConstraint) (solver : TypeSolver)
    : option (bool * TypeSolver) :=
  '(t, solver) ← getType_solver solver (fixedArgument c);
  Some (isSubtype t (imposedType c), solver).

Definition resolveFixed (c : FixedConstraint) (solver : TypeSolver) : option TypeSolver :=
  '(t, solver) ← getType_solver solver (fixedArgument c);
  Some (setType solver (fixedArgument c) (meet t (imposedType c))).

(** All requirements of an implication hold. *)
Fixpoint requirementsHold (reqs : list FixedConstraint) (solver : TypeSolver)
    : option (bool * TypeSolver) :=
  match reqs with
  | [] => Some (true, solver)
  | r :: reqs' =>
      match isSatisfiedFixed r solver with
      | Some (b, solver) =>
          if b then requirementsHold reqs' solver else Some (false, solver)
      | None => None
      end
  end.

Definition isSatisfied (c : TypeConstraint) (solver : TypeSolver)
    : option (bool * TypeSolver) :=
  match c with
  | Fixed f => isSatisfiedFixed f solver
  | VariableConstraint lhs rhs =>
      '(tl, solver) ← getType_solver solver lhs;
      '(tr, solver) ← getType_solver solver rhs;
      Some (isSubtype tl tr, solver)
  | UnionConstraint argument firstBound secondBound =>
      '(ta, solver) ← getType_solver solver argument;
      '(t1, solver) ← getType_solver solver firstBound;
      '(t2, solver) ← getType_solver solver secondBound;
      Some (isSubtype ta (join t1 t2), solver)
  | ImplicationConstraint consequent requirements =>
      match requirementsHold requirements solver with
      | Some (b, solver) =>
          if b then isSatisfiedFixed consequent solver else Some (true, solver)
      | None => None
      end
  end.

Definition resolve (c : TypeConstraint) (solver : TypeSolver) : option TypeSolver :=
  match c with
  | Fixed f => resolveFixed f solver
  | VariableConstraint lhs rhs =>
      '(tl, solver) ← getType_solver solver lhs;
      '(tr, solver) ← getType_solver solver rhs;
      Some (setType solver lhs (meet tl tr))
  | UnionConstraint argument firstBound secondBound =>
      '(ta, solver) ← getType_solver solver argument;
      '(t1, solver) ← getType_solver solver firstBound;
      '(t2, solver) ← getType_solver solver secondBound;
      Some (setType solver argument (meet ta (join t1 t2)))
  | ImplicationConstraint consequent requirements =>
      match requirementsHold requirements solver with
      | Some (b, solver) => if b then resolveFixed consequent solver else Some solver
      | None => None
      end
  end.

(** *** resolveConstraints *)

(** One execution of the body of the [while] loop: every constraint
    that is not satisfied is resolved, in order. *)
Definition resolvePass (cs : list TypeConstraint) (solver : TypeSolver)
    : option (bool * TypeSolver) :=
  fold_left
    (fun acc cons =>
       match acc with
       | Some (changed, solver) =>
           match isSatisfied cons solver with
           | Some (sat, solver) =>
               if negb sat then
                 match resolve cons solver with
                 | Some solver => Some (true, solver)
                 | None => None
                 end
               else Some (changed, solver)
           | None => None
           end
       | None => None
       end)
    cs (Some (false, solver)).

(** The [while (changed)] loop with a bound on the number of passes.
    Outer [None]: the bound was reached; inner [None]: an assertion
    failed. *)
Fixpoint resolveLoop (fuel : nat) (solver : TypeSolver) : option (option TypeSolver) :=
  match fuel with
  | 0 => None
  | S fuel' =>
      match resolvePass (constraints solver) solver with
      | None => Some None
      | Some (changed, solver') =>
          if changed then resolveLoop fuel' solver' else Some (Some solver')
      end
  end.

Definition resolveConstraints (fuel : nat) (clause : AstClause) (solver : TypeSolver)
    : option (option TypeSolver) :=
  (* restore everything to the top type *)
  let solver := mkTypeSolver (representatives solver) ∅ (constraints solver) in
  let solver :=
    fold_left (fun s arg => setType s arg TopAnalysisType)
      (visitArguments (nodesOfClause clause)) solver in
  (* apply each constraint until all are satisfied (fixed point reached) *)
  resolveLoop fuel solver.

(** *** generateConstraints: the ConstraintFinder visitor

    [visitNode] visits the children of a node; the [visit...] functions
    are the overrides.  A null dereference or a failed assertion of the
    source is [None]. *)

Definition constantOf (arg : AstArgument) (k : Kind) : TypeConstraint :=
  Fixed (mkFixedConstraint arg (ConstantAnalysisType k)).

(** The loop that adds one requirement per functor argument. *)
Fixpoint functorRequirements (acceptsSymbols acceptsNumbers : nat -> bool) (i : nat)
    (args : list AstArgument) (solver : TypeSolver)
    : option (list FixedConstraint * TypeSolver) :=
  match args with
  | [] => Some ([], solver)
  | a :: args' =>
      let '(arg, solver) := getRepresentative solver a in
      if acceptsSymbols i then
        '(reqs, solver) ← functorRequirements acceptsSymbols acceptsNumbers (S i) args' solver;
        Some (mkFixedConstraint arg (ConstantAnalysisType SYMBOL) :: reqs, solver)
      else if acceptsNumbers i then
        '(reqs, solver) ← functorRequirements acceptsSymbols acceptsNumbers (S i) args' solver;
        Some (mkFixedConstraint arg (ConstantAnalysisType NUMBER) :: reqs, solver)
      else None
  end.

(** The constraints a functor of output kind [kind] forces. *)
Definition functorConstraints (functor : AstArgument) (kind : Kind)
    (acceptsSymbols acceptsNumbers : nat -> bool) (args : list AstArgument)
    (solver : TypeSolver) : option TypeSolver :=
  (* restrict the output type of the functor *)
  let solver :=
    addConstraint solver (Fixed (mkFixedConstraint functor (TopPrimitiveAnalysisType kind))) in
  (* functor applied to constants must give a constant *)
  '(reqs, solver) ← functorRequirements acceptsSymbols acceptsNumbers 0 args solver;
  Some (addConstraint solver
          (ImplicationConstraint (mkFixedConstraint functor (ConstantAnalysisType kind)) reqs)).

(** Scenario (1) of a record constructor: one implication per argument. *)
Fixpoint recordArgumentConstraints (record : AstArgument) (args : list AstArgument)
    (fields : list AstRecordField) (solver : TypeSolver) : TypeSolver :=
  match args, fields with
  | a :: args', f :: fields' =>
      let '(arg, solver) := getRepresentative solver a in
      let fieldType := getAnalysisType (fieldType f) in
      let requirement := mkFixedConstraint record (TopPrimitiveAnalysisType RECORD) in
      let consequent := mkFixedConstraint arg fieldType in
      recordArgumentConstraints record args' fields'
        (addConstraint solver (ImplicationConstraint consequent [requirement]))
  | _, _ => solver
  end.

(** Scenario (2): the requirements of the final implication. *)
Fixpoint recordRequirements (args : list AstArgument) (fields : list AstRecordField)
    (solver : TypeSolver) : list FixedConstraint * TypeSolver :=
  match args, fields with
  | a :: args', f :: fields' =>
      let '(arg, solver) := getRepresentative solver a in
      let '(reqs, solver) := recordRequirements args' fields' solver in
      (mkFixedConstraint arg (getAnalysisType (fieldType f)) :: reqs, solver)
  | _, _ => ([], solver)
  end.

(** The loop of [visitAtom]: one [Fixed] constraint per argument. *)
Fixpoint atomArgumentConstraints (args : list AstArgument) (attrs : list AstAttribute)
    (solver : TypeSolver) : TypeSolver :=
  match args, attrs with
  | a :: args', attr :: attrs' =>
      let '(arg, solver) := getRepresentative solver a in
      let expectedType := getAnalysisType (getTypeName attr) in
      atomArgumentConstraints args' attrs'
        (addConstraint solver (Fixed (mkFixedConstraint arg expectedType)))
  | _, _ => solver
  end.

Fixpoint visitArgument (program : AstProgram) (arg : AstArgument) (solver : TypeSolver)
    {struct arg} : option TypeSolver :=
  match arg with
  | AstVariable _ _ | AstUnnamedVariable _ => Some solver
  | AstCounter _ => Some (addConstraint solver (constantOf arg NUMBER))
  | AstNumberConstant _ _ => Some (addConstraint solver (constantOf arg NUMBER))
  | AstStringConstant _ _ => Some (addConstraint solver (constantOf arg SYMBOL))
  | AstNullConstant _ => Some (addConstraint solver (constantOf arg RECORD))
  | AstTypeCast _ type value =>
      (* extract child constraints *)
      solver ← visitArgument program value solver;
      (* argument must be of the resultant type *)
      Some (addConstraint solver (Fixed (mkFixedConstraint arg (getAnalysisType type))))
  | AstIntrinsicFunctor _ function args =>
      solver ← fold_left (fun acc a => acc ≫= visitArgument program a) args (Some solver);
      match function with
      | MAX | MIN =>
          (* result of max and min must be one of the types *)
          match args !! 0, args !! 1 with
          | Some a0, Some a1 =>
              let '(lhs, solver) := getRepresentative solver a0 in
              let '(rhs, solver) := getRepresentative solver a1 in
              Some (addConstraint solver (UnionConstraint arg lhs rhs))
          | _, _ => None
          end
      | _ =>
          if isSymbolicFunctorOp function then
            functorConstraints arg SYMBOL (functorOpAcceptsSymbols function)
              (functorOpAcceptsNumbers function) args solver
          else if isNumericalFunctorOp function then
            functorConstraints arg NUMBER (functorOpAcceptsSymbols function)
              (functorOpAcceptsNumbers function) args solver
          else None
      end
  | AstUserDefinedFunctor _ name args =>
      solver ← fold_left (fun acc a => acc ≫= visitArgument program a) args (Some solver);
      funDecl ← getFunctorDeclaration program name;
      if declIsSymbolic funDecl then
        functorConstraints arg SYMBOL (declAcceptsSymbols funDecl) (declAcceptsNumbers funDecl)
          args solver
      else if declIsNumerical funDecl then
        functorConstraints arg NUMBER (declAcceptsSymbols funDecl) (declAcceptsNumbers funDecl)
          args solver
      else None
  | AstRecordInit _ type args =>
      solver ← fold_left (fun acc a => acc ≫= visitArgument program a) args (Some solver);
      match getTypeEnvironment type with
      | Some (EnvRecordType n fields) =>
          if negb (Nat.eqb (length args) (length fields)) then None
          else
            let recordType := getAnalysisTypeOfRecord (EnvRecordType n fields) in
            (* cover (1) *)
            let solver := recordArgumentConstraints arg args fields solver in
            (* cover (2) *)
            let '(reqs, solver) := recordRequirements args fields solver in
            Some (addConstraint solver
                    (ImplicationConstraint (mkFixedConstraint arg recordType) reqs))
      | _ => None
      end
  | AstAggregator _ op expression body =>
      solver ← match expression with
               | Some e => visitArgument program e solver
               | None => Some solver
               end;
      solver ← fold_left (fun acc l => acc ≫= visitLiteral program l) body (Some solver);
      match op with
      | aggr_count | aggr_sum =>
          (* aggregator type is just a number *)
          Some (addConstraint solver
                  (Fixed (mkFixedConstraint arg (TopPrimitiveAnalysisType NUMBER))))
      | aggr_min | aggr_max =>
          (* aggregator type must match target expression *)
          match expression with
          | Some e =>
              let '(targetExpression, solver) := getRepresentative solver e in
              Some (addConstraint solver (VariableConstraint arg targetExpression))
          | None => None
          end
      end
  end
with visitAtom (program : AstProgram) (atom : AstAtom) (solver : TypeSolver)
    {struct atom} : option TypeSolver :=
  match atom with
  | mkAstAtom _ name arguments =>
      (* extract child constraints *)
      solver ← fold_left (fun acc a => acc ≫= visitArgument program a) arguments (Some solver);
      (* atom arguments must have the correct type *)
      rel ← getRelation program name;
      if negb (Nat.eqb (getArity rel) (length arguments)) then None
      else Some (atomArgumentConstraints arguments (getAttributes rel) solver)
  end
with visitLiteral (program : AstProgram) (literal : AstLiteral) (solver : TypeSolver)
    {struct literal} : option TypeSolver :=
  match literal with
  | AtomLiteral atom => visitAtom program atom solver
  | AstNegation _ (mkAstAtom _ _ arguments) =>
      (* only extract child constraints of the internal atom *)
      fold_left (fun acc a => acc ≫= visitArgument program a) arguments (Some solver)
  | AstBinaryConstraint _ op lhs rhs =>
      (* extract child constraints *)
      solver ← visitArgument program lhs solver;
      solver ← visitArgument program rhs solver;
      (* equality implies equivalent types *)
      match op with
      | EQ =>
          let '(l, solver) := getRepresentative solver lhs in
          let '(r, solver) := getRepresentative solver rhs in
          let solver := addConstraint solver (VariableConstraint l r) in
          Some (addConstraint solver (VariableConstraint r l))
      | _ => Some solver
      end
  | AstBooleanConstraint _ _ => Some solver
  end.

(** [visitNode] on a list of argument children. *)
Definition visitArguments_ (program : AstProgram) (args : list AstArgument)
    (solver : TypeSolver) : option TypeSolver :=
  fold_left (fun acc a => acc ≫= visitArgument program a) args (Some solver).

Definition visitClause (program : AstProgram) (clause : AstClause) (solver : TypeSolver)
    : option TypeSolver :=
  (* get constraints from body literals only *)
  solver ← fold_left (fun acc l => acc ≫= visitLiteral program l)
             (getBodyLiterals clause) (Some solver);
  (* get constraints generated by the children of the head;
     the head itself should be ignored *)
  visitArguments_ program (atomArguments (getHead clause)) solver.

Definition generateConstraints (program : AstProgram) (clause : AstClause)
    (solver : TypeSolver) : option TypeSolver :=
  visitClause program clause solver.

(** The constructor of [TypeSolver]: generate, then resolve. *)
Definition newTypeSolver (fuel : nat) (program : AstProgram) (clause : AstClause)
    : option (option TypeSolver) :=
  match generateConstraints program clause emptySolver with
  | None => Some None
  | Some solver => resolveConstraints fuel clause solver
  end.

(** ** TypeAnalysis::run *)

Record TypeAnalysis := mkTypeAnalysis {
  typeSolutions : gmap nat AnalysisType;
  typedClauses : list AstClause;
  hasInvalidClauses : bool
}.

(** [typeAnalysis.getType(arg)] *)
Definition getType_analysis (ta : TypeAnalysis) (arg : AstArgument) : option AnalysisType :=
  typeSolutions ta !! getAddr arg.

(** Store the result for each argument of the clause. *)
Definition storeSolutions (clause : AstClause) (solver : TypeSolver)
    (solutions : gmap nat AnalysisType) : option (gmap nat AnalysisType) :=
  fst <$>
  fold_left (fun acc arg =>
               '(solutions, solver) ← acc;
               '(t, solver) ← getType_solver solver arg;
               Some (<[getAddr arg := t]> solutions, solver))
    (visitArguments (nodesOfClause clause)) (Some (solutions, solver)).

(** The body of the loop over the clauses of [run]. *)
Definition runClause (fuel : nat) (program : AstProgram)
    (acc : option (option TypeAnalysis)) (clause : AstClause)
    : option (option TypeAnalysis) :=
  match acc with
  | Some (Some ta) =>
      (* check if it can be typechecked *)
      if negb (isInvalidClause program clause) then
        Some (Some (mkTypeAnalysis (typeSolutions ta) (typedClauses ta) true))
      else
        (* perform the type analysis *)
        match newTypeSolver fuel program clause with
        | Some (Some solver) =>
            (* store the result for each argument *)
            Some (solutions ← storeSolutions clause solver (typeSolutions ta);
                  Some (mkTypeAnalysis solutions (typedClauses ta ++ [clause])
                          (hasInvalidClauses ta)))
        | Some None => Some None
        | None => None
        end
  | _ => acc
  end.

Definition run (fuel : nat) (program : AstProgram) : option (option TypeAnalysis) :=
  (* clear up existing data *)
  let init := mkTypeAnalysis ∅ [] false in
  (* run a type analysis on each clause *)
  if isValid then
    fold_left (runClause fuel program) (relationClauses program) (Some (Some init))
  else Some (Some init).

(** ** checkTypeCorrectness: the check of atoms

    The block "check all other atoms" of [checkTypeCorrectness], over
    the typed clauses. *)
Definition checkAtomArgumentTypes (report : ErrorReport) (typeAnalysis : TypeAnalysis)
    (rel : AstRelation) (args : list AstArgument) : option ErrorReport :=
  foldM (fun report '(i, arg) =>
           actualType ← getType_analysis typeAnalysis arg;
           if negb (isValidType actualType) then
             (* invalid types have already been reported *)
             Some report
           else
             attr ← getAttributes rel !! i;
             let attributeType := getTypeName attr in
             let expectedType := getAnalysisType attributeType in
             if negb (isSubtype actualType expectedType)
             then Some (addError report
                          ("Relation expects value of type " +:+ attributeType
                             +:+ " but got argument of type "
                             +:+ analysisTypeToString actualType)
                          (getSrcLoc arg))
             else Some report)
    (zip (seq 0 (length args)) args) report.

Definition checkTypeCorrectnessAtoms (report : ErrorReport) (typeAnalysis : TypeAnalysis)
    (program : AstProgram) : option ErrorReport :=
  let nodes := typedClauses typeAnalysis in
  foldM (fun report atom =>
           rel ← getRelation program (atomName atom);
           checkAtomArgumentTypes report typeAnalysis rel (atomArguments atom))
    (visitAtoms (flat_map nodesOfClause nodes)) report.

End Solver.

Arguments FixedConstraint : clear implicits.
Arguments TypeConstraint : clear implicits.
Arguments TypeSolver : clear implicits.
Arguments TypeAnalysis : clear implicits.

(** ** Stratification *)

(** The precomputed [PrecedenceGraph] with the queries the check uses. *)
Record PrecedenceGraph := mkPrecedenceGraph {
  vertices : list AstRelation;
  reaches : AstRelation -> AstRelation -> bool;
  clique : AstRelation -> list AstRelation
}.

(** [hasClauseWithNegatedRelation] and [hasClauseWithAggregatedRelation]
    (AstUtils): they classify a dependency; [Some literal] is the answer
    [true] together with the literal left in [foundLiteral]. *)
Class DependencyQueries := {
  hasClauseWithNegatedRelation :
    AstRelation -> AstRelation -> AstProgram -> option AstLiteral;
  hasClauseWithAggregatedRelation :
    AstRelation -> AstRelation -> AstProgram -> option AstLiteral
}.

(** The inner loop over the clique, up to its [break]: the relation for
    which a dependency was found, whether it is a negation, and the
    literal found. *)
Fixpoint findUnstratified `{DependencyQueries} (program : AstProgram) (cur : AstRelation)
    (clique : list AstRelation) : option (AstRelation * bool * AstLiteral) :=
  match clique with
  | [] => None
  | cyclicRelation :: rest =>
      match hasClauseWithNegatedRelation cyclicRelation cur program with
      | Some foundLiteral => Some (cyclicRelation, true, foundLiteral)
      | None =>
          match hasClauseWithAggregatedRelation cyclicRelation cur program with
          | Some foundLiteral => Some (cyclicRelation, false, foundLiteral)
          | None => findUnstratified program cur rest
          end
      end
  end.

Definition stratificationDiagnostic (cur : AstRelation) (clique : list AstRelation)
    (hasNegation : bool) (foundLiteral : AstLiteral) : Diagnostic :=
  let relationsListStr := String.concat "," (map (fun r => toString (relName r)) clique) in
  let negOrAgg := if hasNegation then "negation" else "aggregation" in
  mkDiagnostic ERROR
    (mkDiagnosticMessage ("Unable to stratify relation(s) {" +:+ relationsListStr +:+ "}") None)
    [ mkDiagnosticMessage ("Relation " +:+ toString (relName cur)) (Some (relSrcLoc cur));
      mkDiagnosticMessage ("has cyclic " +:+ negOrAgg) (Some (literalSrcLoc foundLiteral)) ].

Definition checkStratification `{DependencyQueries} (report : ErrorReport)
    (program : AstProgram) (precedenceGraph : PrecedenceGraph) : ErrorReport :=
  (* check for cyclic dependencies *)
  fold_left
    (fun report cur =>
       if reaches precedenceGraph cur cur then
         let clique := clique precedenceGraph cur in
         match findUnstratified program cur clique with
         | Some (_, hasNegation, foundLiteral) =>
             addDiagnostic report
               (stratificationDiagnostic cur clique hasNegation foundLiteral)
         | None => report
         end
       else report)
    (vertices precedenceGraph) report.

(** ** The witness problem *)

(** [getGroundedTerms] (AstGroundAnalysis): for every argument of the
    clause, whether it is grounded.  The result is a map keyed by the
    argument pointer; it is kept as the list of its entries. *)
Class GroundAnalysis := {
  getGroundedTerms : AstClause -> list (AstArgument * bool)
}.

(** [m[p]] on a [std::map<const AstArgument*, bool>]: a missing key
    reads [false]. *)
Definition groundedAt (m : list (AstArgument * bool)) (addr : nat) : bool :=
  match List.find (fun e => Nat.eqb (getAddr (fst e)) addr) m with
  | Some e => snd e
  | None => false
  end.

Definition mapAccum {A B S} (f : A -> S -> B * S) : list A -> S -> list B * S :=
  fix go l s :=
    match l with
    | [] => ([], s)
    | x :: l' =>
        let '(y, s) := f x s in
        let '(ys, s) := go l' s in
        (y :: ys, s)
    end.

(** [clone()]: a copy whose nodes have fresh addresses, handed out in
    visiting order from the allocation pointer [next]. *)
Fixpoint cloneArgument (a : AstArgument) (next : nat) : AstArgument * nat :=
  let i := mkNodeInfo next (getSrcLoc a) in
  match a with
  | AstVariable _ name => (AstVariable i name, S next)
  | AstUnnamedVariable _ => (AstUnnamedVariable i, S next)
  | AstNumberConstant _ idx => (AstNumberConstant i idx, S next)
  | AstStringConstant _ sym => (AstStringConstant i sym, S next)
  | AstNullConstant _ => (AstNullConstant i, S next)
  | AstCounter _ => (AstCounter i, S next)
  | AstTypeCast _ type value =>
      let '(value, next) := cloneArgument value (S next) in
      (AstTypeCast i type value, next)
  | AstIntrinsicFunctor _ function args =>
      let '(args, next) := mapAccum cloneArgument args (S next) in
      (AstIntrinsicFunctor i function args, next)
  | AstUserDefinedFunctor _ name args =>
      let '(args, next) := mapAccum cloneArgument args (S next) in
      (AstUserDefinedFunctor i name args, next)
  | AstRecordInit _ type args =>
      let '(args, next) := mapAccum cloneArgument args (S next) in
      (AstRecordInit i type args, next)
  | AstAggregator _ op expression body =>
      let '(expression, next) :=
        match expression with
        | Some e => let '(e, next) := cloneArgument e (S next) in (Some e, next)
        | None => (None, S next)
        end in
      let '(body, next) := mapAccum cloneLiteral body next in
      (AstAggregator i op expression body, next)
  end
with cloneAtom (a : AstAtom) (next : nat) : AstAtom * nat :=
  match a with
  | mkAstAtom srcLoc name arguments =>
      let '(arguments, next) := mapAccum cloneArgument arguments next in
      (mkAstAtom srcLoc name arguments, next)
  end
with cloneLiteral (l : AstLiteral) (next : nat) : AstLiteral * nat :=
  match l with
  | AtomLiteral atom =>
      let '(atom, next) := cloneAtom atom next in (AtomLiteral atom, next)
  | AstNegation srcLoc atom =>
      let '(atom, next) := cloneAtom atom next in (AstNegation srcLoc atom, next)
  | AstBinaryConstraint srcLoc op lhs rhs =>
      let '(lhs, next) := cloneArgument lhs next in
      let '(rhs, next) := cloneArgument rhs next in
      (AstBinaryConstraint srcLoc op lhs rhs, next)
  | AstBooleanConstraint srcLoc b => (AstBooleanConstraint srcLoc b, next)
  end.

(** The state the witness check threads: the allocation pointer and the
    [static int numReplaced] of the node mapper. *)
Record WitnessState := mkWitnessState { nextAddr : nat; numReplaced : nat }.

(** [std::set<std::string>::insert] *)
Fixpoint sset_insert (k : string) (s : list string) : list string :=
  match s with
  | [] => [k]
  | k' :: s' =>
      match String.compare k k' with
      | Eq => s
      | Lt => k :: s
      | Gt => k' :: sset_insert k s'
      end
  end.

(** The default source location of a node built without one. *)
Definition noSrcLoc : SrcLocation := 0.

(** The node mapper [M]: an aggregator becomes a new variable
    [+aggr_var_N]; any other node is kept and its children are mapped.
    The third component of the state is [aggregatorVariables]. *)
Fixpoint replaceAggregators (a : AstArgument) (st : WitnessState * list string)
    : AstArgument * (WitnessState * list string) :=
  match a with
  | AstAggregator _ _ _ _ =>
      let '(ws, aggregatorVariables) := st in
      let newVariableName := "+aggr_var_" +:+ pretty (numReplaced ws) in
      (AstVariable (mkNodeInfo (nextAddr ws) noSrcLoc) newVariableName,
       (mkWitnessState (S (nextAddr ws)) (S (numReplaced ws)),
        sset_insert newVariableName aggregatorVariables))
  | AstTypeCast i type value =>
      let '(value, st) := replaceAggregators value st in
      (AstTypeCast i type value, st)
  | AstIntrinsicFunctor i function args =>
      let '(args, st) := mapAccum replaceAggregators args st in
      (AstIntrinsicFunctor i function args, st)
  | AstUserDefinedFunctor i name args =>
      let '(args, st) := mapAccum replaceAggregators args st in
      (AstUserDefinedFunctor i name args, st)
  | AstRecordInit i type args =>
      let '(args, st) := mapAccum replaceAggregators args st in
      (AstRecordInit i type args, st)
  | _ => (a, st)
  end.

Definition replaceAggregatorsAtom (a : AstAtom) (st : WitnessState * list string)
    : AstAtom * (WitnessState * list string) :=
  match a with
  | mkAstAtom srcLoc name arguments =>
      let '(arguments, st) := mapAccum replaceAggregators arguments st in
      (mkAstAtom srcLoc name arguments, st)
  end.

Definition replaceAggregatorsLiteral (l : AstLiteral) (st : WitnessState * list string)
    : AstLiteral * (WitnessState * list string) :=
  match l with
  | AtomLiteral atom =>
      let '(atom, st) := replaceAggregatorsAtom atom st in (AtomLiteral atom, st)
  | AstNegation srcLoc atom =>
      let '(atom, st) := replaceAggregatorsAtom atom st in (AstNegation srcLoc atom, st)
  | AstBinaryConstraint srcLoc op lhs rhs =>
      let '(lhs, st) := replaceAggregators lhs st in
      let '(rhs, st) := replaceAggregators rhs st in
      (AstBinaryConstraint srcLoc op lhs rhs, st)
  | AstBooleanConstraint _ _ => (l, st)
  end.

(** What one call of [usesInvalidWitness] computes before it recurses. *)
Record WitnessLevel := mkWitnessLevel {
  originalClause : AstClause;
  aggregatorlessClause : AstClause;
  identicalSubnodeMap : gmap nat nat;
  levelResult : list SrcLocation;
  newlyGroundedArguments : list AstArgument
}.

Definition syntheticClause (body : list AstLiteral) : AstClause :=
  mkAstClause noSrcLoc (mkAstAtom noSrcLoc ["*"] []) body None false.

Definition witnessLevel `{GroundAnalysis} (literals : list AstLiteral)
    (groundedArguments : list AstArgument) (ws : WitnessState)
    : WitnessLevel * WitnessState :=
  (* create two versions of the original clause, literal by literal *)
  let '(clones, next) :=
    mapAccum (fun lit next =>
                let '(firstClone, next) := cloneLiteral lit next in
                let '(secondClone, next) := cloneLiteral lit next in
                ((firstClone, secondClone), next)) literals (nextAddr ws) in
  let firstClones := map fst clones in
  let secondClones := map snd clones in
  (* the mapping between equivalent literal subnodes *)
  let identicalSubnodeMap : gmap nat nat :=
    fold_left (fun m '(firstClone, secondClone) =>
                 let firstCloneArguments := visitArguments (nodesOfLiteral firstClone) in
                 let secondCloneArguments := visitArguments (nodesOfLiteral secondClone) in
                 fold_left (fun m '(second, first) => <[getAddr second := getAddr first]> m)
                   (zip secondCloneArguments firstCloneArguments) m)
      clones ∅ in
  (* replace the aggregators in clause 2 with variables *)
  let '(replaced, (ws, aggregatorVariables)) :=
    mapAccum replaceAggregatorsLiteral secondClones
      (mkWitnessState next (numReplaced ws), []) in
  (* force the new aggregator variables to be grounded in the aggregatorless clause *)
  let '(aggregatorArgs, next) :=
    mapAccum (fun str next => (AstVariable (mkNodeInfo next noSrcLoc) str, S next))
      aggregatorVariables (nextAddr ws) in
  (* force the given grounded arguments to be grounded in both clauses *)
  let '(groundedPairs, next) :=
    mapAccum (fun arg next =>
                let '(a2, next) := cloneArgument arg next in
                let '(a1, next) := cloneArgument arg next in
                ((a2, a1), next)) groundedArguments next in
  let groundingAtomAggregatorless :=
    mkAstAtom noSrcLoc ["grounding_atom"] (aggregatorArgs ++ map fst groundedPairs) in
  let groundingAtomOriginal :=
    mkAstAtom noSrcLoc ["grounding_atom"] (map snd groundedPairs) in
  let aggregatorlessClause :=
    syntheticClause (replaced ++ [AtomLiteral groundingAtomAggregatorless]) in
  let originalClause := syntheticClause (firstClones ++ [AtomLiteral groundingAtomOriginal]) in
  (* compare the grounded analysis of both generated clauses *)
  let originalGrounded := getGroundedTerms originalClause in
  let aggregatorlessGrounded := getGroundedTerms aggregatorlessClause in
  let result :=
    omap (fun pair : AstArgument * bool =>
            if negb (snd pair)
               && match identicalSubnodeMap !! getAddr (fst pair) with
                  | Some first => groundedAt originalGrounded first
                  | None => false
                  end
            then Some (getSrcLoc (fst pair)) else None) aggregatorlessGrounded in
  (* every argument of clause 2 can now be considered grounded *)
  let '(newlyGrounded, next) :=
    mapAccum (fun pair next => cloneArgument (fst pair) next) aggregatorlessGrounded next in
  (* all previously grounded are still grounded *)
  let '(stillGrounded, next) := mapAccum cloneArgument groundedArguments next in
  (mkWitnessLevel originalClause aggregatorlessClause identicalSubnodeMap result
     (newlyGrounded ++ stillGrounded),
   mkWitnessState next (numReplaced ws)).

(** The recursion of [usesInvalidWitness]: [visitDepthFirst] hands every
    aggregator below a literal to the visitor, which checks the body of
    the aggregator with the arguments grounded so far. *)
Fixpoint subWitnessArgument `{GroundAnalysis} (grounded : list AstArgument)
    (a : AstArgument) (ws : WitnessState) {struct a} : list SrcLocation * WitnessState :=
  match a with
  | AstAggregator _ _ expression body =>
      (* the visitor: usesInvalidWitness(aggrBodyLiterals, newlyGroundedArguments) *)
      let '(level, ws) := witnessLevel body grounded ws in
      let '(sub, ws) :=
        mapAccum (subWitnessLiteral (newlyGroundedArguments level)) body ws in
      let subresult := levelResult level ++ concat sub in
      (* the traversal goes on below the aggregator *)
      let '(r1, ws) :=
        match expression with
        | Some e => subWitnessArgument grounded e ws
        | None => ([], ws)
        end in
      let '(r2, ws) := mapAccum (subWitnessLiteral grounded) body ws in
      (subresult ++ r1 ++ concat r2, ws)
  | AstTypeCast _ _ value => subWitnessArgument grounded value ws
  | AstIntrinsicFunctor _ _ args
  | AstUserDefinedFunctor _ _ args
  | AstRecordInit _ _ args =>
      let '(r, ws) := mapAccum (subWitnessArgument grounded) args ws in
      (concat r, ws)
  | _ => ([], ws)
  end
with subWitnessLiteral `{GroundAnalysis} (grounded : list AstArgument)
    (l : AstLiteral) (ws : WitnessState) {struct l} : list SrcLocation * WitnessState :=
  match l with
  | AtomLiteral (mkAstAtom _ _ arguments)
  | AstNegation _ (mkAstAtom _ _ arguments) =>
      let '(r, ws) := mapAccum (subWitnessArgument grounded) arguments ws in
      (concat r, ws)
  | AstBinaryConstraint _ _ lhs rhs =>
      let '(r1, ws) := subWitnessArgument grounded lhs ws in
      let '(r2, ws) := subWitnessArgument grounded rhs ws in
      (r1 ++ r2, ws)
  | AstBooleanConstraint _ _ => ([], ws)
  end.

Definition usesInvalidWitness `{GroundAnalysis} (literals : list AstLiteral)
    (groundedArguments : list AstArgument) (ws : WitnessState)
    : list SrcLocation * WitnessState :=
  let '(level, ws) := witnessLevel literals groundedArguments ws in
  (* everything on this level is fine, check subaggregators of each literal *)
  let '(sub, ws) := mapAccum (subWitnessLiteral (newlyGroundedArguments level)) literals ws in
  (levelResult level ++ concat sub, ws).

(** The visitor of [checkWitnessProblem] on one clause. *)
Definition checkWitnessProblemClause `{GroundAnalysis} (clause : AstClause)
    (st : ErrorReport * WitnessState) : ErrorReport * WitnessState :=
  let '(report, ws) := st in
  (* add in all head variables as new ungrounded body literals *)
  let '(headVariables, next) :=
    mapAccum (fun (v : NodeInfo * string) next =>
                (AstVariable (mkNodeInfo next (nodeSrcLoc (fst v))) (snd v), S next))
      (visitVariables (nodesOfAtom (getHead clause))) (nextAddr ws) in
  let headNegation := AstNegation noSrcLoc (mkAstAtom noSrcLoc ["*"] headVariables) in
  let bodyLiterals := getBodyLiterals clause ++ [headNegation] in
  (* perform the check *)
  let '(invalidArguments, ws) :=
    usesInvalidWitness bodyLiterals [] (mkWitnessState next (numReplaced ws)) in
  (fold_left (fun r invalidArgument =>
                addError r
                  ("Witness problem: argument grounded by an aggregator's inner scope "
                     +:+ "is used ungrounded in outer scope")
                  invalidArgument) invalidArguments report,
   ws).

(** All clauses of the program, in visiting order. *)
Definition programClauses (program : AstProgram) : list AstClause :=
  relationClauses program ++ getOrphanClauses program.

Definition checkWitnessProblem `{GroundAnalysis} (report : ErrorReport)
    (program : AstProgram) (ws : WitnessState) : ErrorReport * WitnessState :=
  fold_left (fun st clause => checkWitnessProblemClause clause st)
    (programClauses program) (report, ws).

(** ** The grounded-term analysis, from its description

    Modelled from the spec: AstGroundAnalysis is not among the sources.
    [getGroundedTerms] is a fixed-point computation over the arguments
    of the clause: positive atom arguments are grounded; the two sides
    of an equality ground each other; constants, counters,
    functors over grounded arguments and records over grounded arguments
    are grounded; aggregator result positions are grounded; negations
    and inequalities ground nothing.  All occurrences of a variable
    share one value. *)

Definition groundVar (a : AstArgument) : string + nat :=
  match a with
  | AstVariable _ name => inl name
  | _ => inr (getAddr a)
  end.

(** [imply premises conclusion]: if all premises are grounded, so is the
    conclusion. *)
Record GroundConstraint := imply {
  groundPremises : list (string + nat);
  groundConclusion : string + nat
}.

Fixpoint groundConstraintsArgument (a : AstArgument) : list GroundConstraint :=
  match a with
  | AstVariable _ _ | AstUnnamedVariable _ => []
  | AstNumberConstant _ _ | AstStringConstant _ _ | AstNullConstant _ | AstCounter _ =>
      [imply [] (groundVar a)]
  | AstTypeCast _ _ value => groundConstraintsArgument value
  | AstIntrinsicFunctor _ _ args
  | AstUserDefinedFunctor _ _ args
  | AstRecordInit _ _ args =>
      imply (map groundVar args) (groundVar a) :: flat_map groundConstraintsArgument args
  | AstAggregator _ _ expression body =>
      imply [] (groundVar a)
      :: match expression with Some e => groundConstraintsArgument e | None => [] end
      ++ flat_map groundConstraintsLiteral body
  end
with groundConstraintsLiteral (l : AstLiteral) : list GroundConstraint :=
  match l with
  | AtomLiteral (mkAstAtom _ _ arguments) =>
      map (fun a => imply [] (groundVar a)) arguments
      ++ flat_map groundConstraintsArgument arguments
  | AstNegation _ (mkAstAtom _ _ arguments) => flat_map groundConstraintsArgument arguments
  | AstBinaryConstraint _ op lhs rhs =>
      match op with
      | EQ => [imply [groundVar lhs] (groundVar rhs); imply [groundVar rhs] (groundVar lhs)]
      | _ => []
      end
      ++ groundConstraintsArgument lhs ++ groundConstraintsArgument rhs
  | AstBooleanConstraint _ _ => []
  end.

Definition groundStep (cs : list GroundConstraint) (g : gset (string + nat))
    : gset (string + nat) :=
  fold_left (fun g c =>
               if forallb (fun p => bool_decide (p ∈ g)) (groundPremises c)
               then {[groundConclusion c]} ∪ g else g) cs g.

Definition groundFixpoint (cs : list GroundConstraint) : gset (string + nat) :=
  Nat.iter (S (length cs)) (groundStep cs) ∅.

Definition specGetGroundedTerms (clause : AstClause) : list (AstArgument * bool) :=
  let cs := flat_map groundConstraintsArgument (atomArguments (getHead clause))
            ++ flat_map groundConstraintsLiteral (getBodyLiterals clause) in
  let g := groundFixpoint cs in
  map (fun a => (a, bool_decide (groundVar a ∈ g))) (visitArguments (nodesOfClause clause)).

Definition specGroundAnalysis : GroundAnalysis :=
  {| getGroundedTerms := specGetGroundedTerms |}.

(** ** checkProgram *)

(** [splitString] (Util.h): the pieces between delimiters, as
    [std::getline] yields them (no piece after a trailing delimiter). *)
Fixpoint splitStringFrom (str : string) (delimiter : ascii) (token : string) : list string :=
  match str with
  | EmptyString => match token with EmptyString => [] | _ => [token] end
  | String c rest =>
      if Ascii.eqb c delimiter then token :: splitStringFrom rest delimiter EmptyString
      else splitStringFrom rest delimiter (token +:+ String c EmptyString)
  end.
Definition splitString (str : string) (delimiter : ascii) : list string :=
  splitStringFrom str delimiter EmptyString.

(** Suppress warnings for given relations: the pre-pass of
    [checkProgram].  It reads the configuration and sets relation
    qualifiers. *)
Definition suppressWarnings (config : Config) (program : AstProgram) : AstProgram :=
  let withRelations rels :=
    mkAstProgram (getTypes program) rels (getFunctorDeclarations program)
      (getOrphanClauses program) (getLoads program) (getPrintSizes program)
      (getStores program) in
  if config_has config "suppress-warnings" then
    let suppressedRelations := splitString (config_get config "suppress-warnings") ","%char in
    if existsb (String.eqb "*") suppressedRelations then
      (* mute all relations *)
      withRelations (map setSuppressed (getRelations program))
    else
      (* mute only the given relations (if they exist) *)
      withRelations
        (fold_left (fun rels relname =>
                      let comps := splitString relname "."%char in
                      match comps with
                      | [] => rels
                      | _ =>
                          match List.find (fun r => bool_decide (relName r = comps)) rels with
                          | Some found =>
                              map (fun r => if bool_decide (relName r = relName found)
                                            then setSuppressed r else r) rels
                          | None => rels
                          end
                      end) suppressedRelations (getRelations program))
  else program.

(** The passes of [checkProgram] that take the report and never name
    [Global::config()]; their bodies play no role below. *)
Class ReportPasses := {
  checkTypes : ErrorReport -> AstProgram -> option ErrorReport;
  checkNamespaces : ErrorReport -> AstProgram -> option ErrorReport;
  checkInlining : ErrorReport -> AstProgram -> PrecedenceGraph -> IOType -> option ErrorReport;
  checkGroundedness : ErrorReport -> AstProgram -> option ErrorReport;
  checkTypeCorrectness : ErrorReport -> AstProgram -> option ErrorReport
}.

Definition checkProgram `{FunctorOpInfo} `{AstDomainBounds} `{GroundAnalysis}
    `{DependencyQueries} `{ReportPasses} (USE_MPI : bool)
    (report : ErrorReport) (config : Config) (ws : WitnessState) (program : AstProgram)
    (typeEnv : TypeEnvironment) (precedenceGraph : PrecedenceGraph)
    (recursiveClauses : AstClause -> bool) (ioTypes : IOType)
    : option (ErrorReport * Config) :=
  (* suppress warnings for given relations *)
  let program := suppressWarnings config program in
  (* -- conduct checks -- *)
  report ← checkTypes report program;
  '(report, config) ← checkRules report config typeEnv program recursiveClauses ioTypes;
  report ← checkNamespaces report program;
  let '(report, config) := checkIODirectives USE_MPI report config program in
  let '(report, _) := checkWitnessProblem report program ws in
  report ← checkInlining report program precedenceGraph ioTypes;
  report ← checkGroundedness report program;
  let '(report, config) := checkTypeUsage report config typeEnv program in
  report ← checkTypeCorrectness report program;
  let report := checkStratification report program precedenceGraph in
  Some (report, config).
(** ** Facts, as the specification words them

    An argument reduces to a constant when it is a constant, a record of
    arguments that do (nested records included), a cast of one, or an
    intrinsic functor applied to arguments that do.  The offending
    positions are the variables, underscores, counters, user-defined
    functors and non-constant functors that occur in the argument. *)

Fixpoint reducesToConstant (a : AstArgument) : bool :=
  match a with
  | AstNumberConstant _ _ | AstStringConstant _ _ | AstNullConstant _ => true
  | AstTypeCast _ _ value => reducesToConstant value
  | AstIntrinsicFunctor _ _ args => forallb reducesToConstant args
  | AstRecordInit _ _ args => forallb reducesToConstant args
  | _ => false
  end.

Inductive FactOffence :=
| VariableInFact (name : string)
| UnderscoreInFact
| CounterInFact
| UserFunctorInFact
| FunctionInFact.

Definition factOffenceMessage (o : FactOffence) : string :=
  match o with
  | VariableInFact name => "Variable " +:+ name +:+ " in fact"
  | UnderscoreInFact => "Underscore in fact"
  | CounterInFact => "Counter in fact"
  | UserFunctorInFact => "User-defined functor in fact"
  | FunctionInFact => "Function in fact"
  end.

(** Whether a position offends, and how. *)
Definition offenceOf (a : AstArgument) : option (FactOffence * SrcLocation) :=
  match a with
  | AstVariable i name => Some (VariableInFact name, nodeSrcLoc i)
  | AstUnnamedVariable i => Some (UnderscoreInFact, nodeSrcLoc i)
  | AstCounter i => Some (CounterInFact, nodeSrcLoc i)
  | AstUserDefinedFunctor i _ _ => Some (UserFunctorInFact, nodeSrcLoc i)
  | AstIntrinsicFunctor i _ _ =>
      if reducesToConstant a then None else Some (FunctionInFact, nodeSrcLoc i)
  | _ => None
  end.

Definition offendingPositions (a : AstArgument) : list (FactOffence * SrcLocation) :=
  omap offenceOf (visitArguments (nodesOfArgument a)).

Definition factError (o : FactOffence * SrcLocation) : Diagnostic :=
  mkDiagnostic ERROR (mkDiagnosticMessage (factOffenceMessage (fst o)) (Some (snd o))) [].

(** ** Facts, as [checkConstant] treats them

    A functor passes as a constant arithmetic expression when every node
    of it is a number constant or a numerical intrinsic functor.  The
    check looks through casts and record constructors, and at a functor
    it stops: the arguments of a functor are not looked into. *)

Definition numberOrNumericalFunctor `{FunctorOpInfo} (n : AstNode) : bool :=
  match n with
  | NodeArgument (AstNumberConstant _ _) => true
  | NodeArgument (AstIntrinsicFunctor _ function _) => isNumericalFunctorOp function
  | _ => false
  end.

Definition constantArithmetic `{FunctorOpInfo} (a : AstArgument) : bool :=
  forallb numberOrNumericalFunctor (nodesOfArgument a).

Fixpoint acceptedInFact `{FunctorOpInfo} (a : AstArgument) : bool :=
  match a with
  | AstNumberConstant _ _ | AstStringConstant _ _ | AstNullConstant _ => true
  | AstIntrinsicFunctor _ _ _ => constantArithmetic a
  | AstTypeCast _ _ value => acceptedInFact value
  | AstRecordInit _ _ args => forallb acceptedInFact args
  | _ => false
  end.

Fixpoint factOffences `{FunctorOpInfo} (a : AstArgument)
    : list (FactOffence * SrcLocation) :=
  match a with
  | AstVariable i name => [(VariableInFact name, nodeSrcLoc i)]
  | AstUnnamedVariable i => [(UnderscoreInFact, nodeSrcLoc i)]
  | AstCounter i => [(CounterInFact, nodeSrcLoc i)]
  | AstUserDefinedFunctor i _ _ => [(UserFunctorInFact, nodeSrcLoc i)]
  | AstIntrinsicFunctor i _ _ =>
      if constantArithmetic a then [] else [(FunctionInFact, nodeSrcLoc i)]
  | AstTypeCast _ _ value => factOffences value
  | AstRecordInit _ _ args => flat_map factOffences args
  | _ => []
  end.

(** An argument without functors and aggregators: variables,
    underscores, counters and constants under casts and records. *)
Definition functorFree (a : AstArgument) : bool :=
  forallb (fun n => match n with
                    | NodeArgument (AstIntrinsicFunctor _ _ _)
                    | NodeArgument (AstUserDefinedFunctor _ _ _)
                    | NodeArgument (AstAggregator _ _ _ _) => false
                    | _ => true
                    end) (nodesOfArgument a).

(** ** Clauses unfit for typing, as the specification words them *)

Definition referencesUndefinedRelation (program : AstProgram) (clause : AstClause) : Prop :=
  exists atom, In atom (visitAtoms (nodesOfClause clause))
    /\ getRelation program (atomName atom) = None.

Definition hasAtomArityMismatch (program : AstProgram) (clause : AstClause) : Prop :=
  exists atom rel, In atom (visitAtoms (nodesOfClause clause))
    /\ getRelation program (atomName atom) = Some rel
    /\ getArity rel <> atomArity atom.

Definition declaredTypeName (program : AstProgram) (t : AstTypeIdentifier) : Prop :=
  t = "number" \/ t = "symbol" \/ is_Some (getType program t).

Definition usesUndeclaredAttributeType (program : AstProgram) (clause : AstClause) : Prop :=
  exists atom rel attr, In atom (visitAtoms (nodesOfClause clause))
    /\ getRelation program (atomName atom) = Some rel
    /\ In attr (getAttributes rel)
    /\ ~ declaredTypeName program (getTypeName attr).

Definition callsBadUserFunctor (program : AstProgram) (clause : AstClause) : Prop :=
  exists i f args, In (i, f, args) (visitUserDefinedFunctors (nodesOfClause clause))
    /\ (getFunctorDeclaration program f = None
        \/ exists funDecl, getFunctorDeclaration program f = Some funDecl
             /\ getArgCount funDecl <> length args).

Definition usesBadRecordConstructor (program : AstProgram) (clause : AstClause) : Prop :=
  exists i t args, In (i, t, args) (visitRecordInits (nodesOfClause clause))
    /\ ((forall l n fields, getType program t <> Some (AstRecordType l n fields))
        \/ exists l n fields, getType program t = Some (AstRecordType l n fields)
             /\ length args <> length fields).

Definition castsToUndeclaredType (program : AstProgram) (clause : AstClause) : Prop :=
  exists i t v, In (i, t, v) (visitTypeCasts (nodesOfClause clause))
    /\ t <> "number" /\ t <> "symbol" /\ getType program t = None.

Definition unfitForTyping (program : AstProgram) (clause : AstClause) : Prop :=
  referencesUndefinedRelation program clause
  \/ hasAtomArityMismatch program clause
  \/ usesUndeclaredAttributeType program clause
  \/ callsBadUserFunctor program clause
  \/ usesBadRecordConstructor program clause
  \/ castsToUndeclaredType program clause.

(** The test the type analysis applies to each kind of node. *)
Definition atomCanBeTyped (program : AstProgram) (atom : AstAtom) : bool :=
  match getRelation program (atomName atom) with
  | None => false
  | Some rel =>
      Nat.eqb (getArity rel) (atomArity atom)
      && forallb (fun attr =>
                    String.eqb (getTypeName attr) "symbol"
                    || String.eqb (getTypeName attr) "number"
                    || bool_decide (is_Some (getType program (getTypeName attr))))
           (getAttributes rel)
  end.

Definition functorCanBeTyped (program : AstProgram)
    (x : NodeInfo * string * list AstArgument) : bool :=
  match getFunctorDeclaration program (snd (fst x)) with
  | None => false
  | Some funDecl => Nat.eqb (getArgCount funDecl) (length (snd x))
  end.

Definition recordCanBeTyped (program : AstProgram)
    (x : NodeInfo * AstTypeIdentifier * list AstArgument) : bool :=
  match getType program (snd (fst x)) with
  | Some (AstRecordType _ _ fields) => Nat.eqb (length (snd x)) (length fields)
  | _ => false
  end.

Definition castCanBeTyped (program : AstProgram)
    (x : NodeInfo * AstTypeIdentifier * AstArgument) : bool :=
  String.eqb (snd (fst x)) "symbol" || String.eqb (snd (fst x)) "number"
  || bool_decide (is_Some (getType program (snd (fst x)))).


(** ** What makes the checker unset ["engine"] *)

Definition isRecordTypeName (typeEnv : TypeEnvironment) (t : AstTypeIdentifier) : bool :=
  match typeEnv t with
  | Some type => isRecordType type
  | None => false
  end.

(** Some declared relation has an attribute of a record type. *)
Definition hasRecordTypedAttribute (typeEnv : TypeEnvironment) (program : AstProgram) : bool :=
  existsb (fun rel => existsb (fun attr => isRecordTypeName typeEnv (getTypeName attr))
                        (getAttributes rel))
    (getRelations program).

(** Some clause of a declared relation contains a record constructor. *)
Definition hasRecordConstructor (program : AstProgram) : bool :=
  match visitRecordInits (flat_map nodesOfClause (relationClauses program)) with
  | [] => false
  | _ => true
  end.

(** Some IO directive asks for sqlite. *)
Definition isSqliteDirective (directive : AstIO) : bool :=
  match getIODirectiveMap directive !! "IO" with
  | Some v => String.eqb v "sqlite"
  | None => false
  end.
Definition hasSqliteDirective (program : AstProgram) : bool :=
  existsb isSqliteDirective (getLoads program ++ getPrintSizes program ++ getStores program).

Definition unsetsEngine (USE_MPI : bool) (typeEnv : TypeEnvironment)
    (program : AstProgram) : bool :=
  hasRecordTypedAttribute typeEnv program
  || hasRecordConstructor program
  || (USE_MPI && hasSqliteDirective program).

Definition unsetEngineIf (b : bool) (config : Config) : Config :=
  if b then config_unset config "engine" else config.


(** ** The contract of the precedence graph

    [reaches] is reachability along at least one edge, so it is
    transitive; for a vertex [v], [clique(v)] holds [v] and the vertices
    that reach [v] and are reached from it. *)
Record PrecedenceGraphContract (g : PrecedenceGraph) : Prop := {
  reaches_transitive : forall a b c,
    reaches g a b = true -> reaches g b c = true -> reaches g a c = true;
  clique_members : forall v u,
    In v (vertices g) ->
    (In u (clique g v) <->
       u = v \/ (In u (vertices g) /\ reaches g v u = true /\ reaches g u v = true))
}.

(** A clause of [r] depends on [s] via negation or aggregation. *)
Definition dependsUnstratified `{DependencyQueries} (program : AstProgram)
    (r s : AstRelation) : Prop :=
  is_Some (hasClauseWithNegatedRelation r s program)
  \/ is_Some (hasClauseWithAggregatedRelation r s program).

(** The diagnostics the stratification check adds for one vertex. *)
Definition stratificationDiagnosticsOf `{DependencyQueries} (program : AstProgram) (g : PrecedenceGraph)
    (cur : AstRelation) : list Diagnostic :=
  if reaches g cur cur then
    match findUnstratified program cur (clique g cur) with
    | Some (_, hasNegation, foundLiteral) =>
        [stratificationDiagnostic cur (clique g cur) hasNegation foundLiteral]
    | None => []
    end
  else [].


(** ** The laws of the lattice the solver relies on

    The subtype relation is a partial order, [meet] yields a lower
    bound of both arguments, and the lattice has finite height: there is
    a rank that strictly decreases along strict subtyping. *)
Class TypeLatticeLaws {AnalysisType : Type} `{TypeLattice AnalysisType} : Prop := {
  isSubtype_refl : forall a, isSubtype a a = true;
  isSubtype_trans : forall a b c,
    isSubtype a b = true -> isSubtype b c = true -> isSubtype a c = true;
  isSubtype_antisym : forall a b,
    isSubtype a b = true -> isSubtype b a = true -> a = b;
  meet_lower_l : forall a b, isSubtype (meet a b) a = true;
  meet_lower_r : forall a b, isSubtype (meet a b) b = true;
  finite_height : exists height : AnalysisType -> nat,
    forall a b, isSubtype a b = true -> a <> b -> height a < height b
}.

(** The representative a table assigns to an argument. *)
Definition repOf (table : gmap string AstArgument) (arg : AstArgument) : AstArgument :=
  match arg with
  | AstVariable _ name => default arg (table !! name)
  | _ => arg
  end.

(** An argument that is a plain variable, named or not. *)
Definition isPlainVariable (arg : AstArgument) : bool :=
  match arg with
  | AstVariable _ _ | AstUnnamedVariable _ => true
  | _ => false
  end.

(** The rank of a type mapping: the sum of the heights of its types. *)
Definition typeMeasure {AnalysisType : Type} (height : AnalysisType -> nat)
    (m : gmap nat AnalysisType) : nat :=
  map_fold (fun _ t acc => height t + acc) 0 m.

(** [m'] is below [m]: the same arguments, each with a subtype of its
    former type. *)
Definition descends {AnalysisType : Type} `{TypeLattice AnalysisType}
    (m m' : gmap nat AnalysisType) : Prop :=
  forall k, match m' !! k with
            | Some t' => exists t, m !! k = Some t /\ isSubtype t' t = true
            | None => m !! k = None
            end.

(** Every constraint of the solver is satisfied. *)
Definition allSatisfied {AnalysisType : Type} `{TypeLattice AnalysisType}
    (s : TypeSolver AnalysisType) : Prop :=
  forall c, In c (constraints s) -> isSatisfied c s = Some (true, s).

(** ** Invariants of constraint generation *)

(** The table maps a name to a variable of that name. *)
Definition tableOK {AnalysisType : Type} (s : TypeSolver AnalysisType) : Prop :=
  forall n r, representatives s !! n = Some r -> exists i, r = AstVariable i n.

(** [s'] comes after [s] in a generation: a larger table, more
    constraints, the same types. *)
Definition solverExtends {AnalysisType : Type} (s s' : TypeSolver AnalysisType) : Prop :=
  representatives s ⊆ representatives s'
  /\ (forall c, In c (constraints s) -> In c (constraints s'))
  /\ typeMapping s' = typeMapping s.

(** The two sides of an equality have their constraints: from now on
    [lhs] and [rhs] are represented by [l] and [r], which represent
    themselves, and both [Variable(l, r)] and [Variable(r, l)] are
    present. *)
Definition equalityConstrained {AnalysisType : Type} (s : TypeSolver AnalysisType)
    (lhs rhs : AstArgument) : Prop :=
  exists l r,
    In (VariableConstraint l r) (constraints s)
    /\ In (VariableConstraint r l) (constraints s)
    /\ forall s'' : TypeSolver AnalysisType,
         representatives s ⊆ representatives s'' ->
         getRepresentative s'' lhs = (l, s'') /\ getRepresentative s'' rhs = (r, s'')
         /\ getRepresentative s'' l = (l, s'') /\ getRepresentative s'' r = (r, s'').

(** A generation step keeps the table well formed and extends the
    solver. *)
Definition goodStep {AnalysisType : Type} (s s' : TypeSolver AnalysisType) : Prop :=
  tableOK s' /\ solverExtends s s'.


(** ** What the loop needs of the generated constraints *)

(** The arguments a constraint reads or updates. *)
Definition constraintArguments {AnalysisType : Type} (c : TypeConstraint AnalysisType)
    : list AstArgument :=
  match c with
  | Fixed f => [fixedArgument f]
  | VariableConstraint lhs rhs => [lhs; rhs]
  | UnionConstraint argument firstBound secondBound => [argument; firstBound; secondBound]
  | ImplicationConstraint consequent requirements =>
      fixedArgument consequent :: map fixedArgument requirements
  end.

(** [hasType(arg)] holds and looking [arg] up leaves the table alone. *)
Definition typedIn {AnalysisType : Type} (s : TypeSolver AnalysisType) (a : AstArgument)
    : Prop :=
  (forall i n, a = AstVariable i n -> is_Some (representatives s !! n))
  /\ is_Some (typeMapping s !! getAddr (repOf (representatives s) a)).

Definition constraintsTyped {AnalysisType : Type} (s : TypeSolver AnalysisType) : Prop :=
  forall c, In c (constraints s) -> forall a, In a (constraintArguments c) -> typedIn s a.

(** The representatives and the arguments of the constraints are nodes
    among [ns]. *)
Definition rootedIn {AnalysisType : Type} (ns : list AstNode) (s : TypeSolver AnalysisType)
    : Prop :=
  (forall n r, representatives s !! n = Some r -> In (NodeArgument r) ns)
  /\ (forall c, In c (constraints s) ->
        forall a, In a (constraintArguments c) -> In (NodeArgument a) ns).

(** Same table, same constraints, and no type is lost. *)
Definition sameShape {AnalysisType : Type} (s s' : TypeSolver AnalysisType) : Prop :=
  representatives s' = representatives s
  /\ constraints s' = constraints s
  /\ forall k, is_Some (typeMapping s !! k) -> is_Some (typeMapping s' !! k).

(** * The other checks of the semantic checker

    The checks of [checkProgram] that the interface [ReportPasses] stands
    for, written out: types, name spaces and groundedness.  They live in
    a module of their own, under the names the source gives them. *)

Module Checker.

(** ** Types *)

Definition typeSrcLoc (t : AstType) : SrcLocation :=
  match t with
  | AstPrimitiveType l _ _ | AstUnionType l _ _ | AstRecordType l _ _ => l
  end.

(** [unionContainsNumber]: the recursion follows the type definitions of
    the program and has no bound of its own; [fuel] bounds its depth and
    [None] says that the bound was reached. *)
Fixpoint unionContainsNumber (fuel : nat) (program : AstProgram)
    (types : list AstTypeIdentifier) : option bool :=
  match fuel with
  | 0 => None
  | S fuel' =>
      (* check if any of the elements of the union are or contain a number primitive *)
      (fix elements (l : list AstTypeIdentifier) : option bool :=
         match l with
         | [] => Some false           (* no elements returned true, so no numbers *)
         | elemTypeID :: rest =>
             if String.eqb elemTypeID "number" then Some true
             else
               match getType program elemTypeID with
               | Some (AstUnionType _ _ types') =>
                   match unionContainsNumber fuel' program types' with
                   | Some true => Some true
                   | Some false => elements rest
                   | None => None
                   end
               | Some (AstPrimitiveType _ _ numeric) =>
                   if numeric then Some true else elements rest
               | _ => elements rest
               end
         end) types
  end.

(** [unionContainsSymbol]: a primitive type that is not numeric is
    symbolic. *)
Fixpoint unionContainsSymbol (fuel : nat) (program : AstProgram)
    (types : list AstTypeIdentifier) : option bool :=
  match fuel with
  | 0 => None
  | S fuel' =>
      (fix elements (l : list AstTypeIdentifier) : option bool :=
         match l with
         | [] => Some false
         | elemTypeID :: rest =>
             if String.eqb elemTypeID "symbol" then Some true
             else
               match getType program elemTypeID with
               | Some (AstUnionType _ _ types') =>
                   match unionContainsSymbol fuel' program types' with
                   | Some true => Some true
                   | Some false => elements rest
                   | None => None
                   end
               | Some (AstPrimitiveType _ _ numeric) =>
                   if negb numeric then Some true else elements rest
               | _ => elements rest
               end
         end) types
  end.

Definition checkUnionType (fuel : nat) (report : ErrorReport) (program : AstProgram)
    (srcLoc : SrcLocation) (name : AstTypeIdentifier) (types : list AstTypeIdentifier)
    : option ErrorReport :=
  (* check presence of all the element types and that all element types
     are based off a primitive *)
  let report :=
    fold_left
      (fun r sub =>
         if negb (String.eqb sub "number") && negb (String.eqb sub "symbol") then
           match getType program sub with
           | None =>
               addError r ("Undefined type " +:+ sub +:+ " in definition of union type "
                             +:+ name) srcLoc
           | Some (AstRecordType _ _ _) =>
               addError r ("Union type " +:+ name +:+ " contains the non-primitive type "
                             +:+ sub) srcLoc
           | Some _ => r
           end
         else r) types report in
  (* check all element types are based on the same primitive *)
  containsSymbol ← unionContainsSymbol fuel program types;
  if containsSymbol : bool then
    containsNumber ← unionContainsNumber fuel program types;
    if containsNumber : bool then
      Some (addError report
              ("Union type " +:+ name +:+ " contains a mixture of symbol and number types")
              srcLoc)
    else Some report
  else Some report.

Definition checkRecordType (report : ErrorReport) (program : AstProgram)
    (srcLoc : SrcLocation) (name : AstTypeIdentifier) (fields : list AstRecordField)
    : ErrorReport :=
  (* check proper definition of all field types *)
  let report :=
    fold_left
      (fun r field =>
         if negb (String.eqb (fieldType field) "number")
            && negb (String.eqb (fieldType field) "symbol")
            && negb (bool_decide (is_Some (getType program (fieldType field))))
         then addError r ("Undefined type " +:+ fieldType field +:+ " in definition of field "
                            +:+ fieldName field) srcLoc
         else r) fields report in
  (* check that field names are unique *)
  fold_left
    (fun r i =>
       match fields !! i with
       | Some cur =>
           let cur_name := fieldName cur in
           fold_left
             (fun r j =>
                match fields !! j with
                | Some field_j =>
                    if String.eqb (fieldName field_j) cur_name
                    then addError r ("Doubly defined field name " +:+ cur_name
                                       +:+ " in definition of type " +:+ name) srcLoc
                    else r
                | None => r
                end) (seq 0 i) r
       | None => r
       end) (seq 0 (length fields)) report.

Definition checkType (fuel : nat) (report : ErrorReport) (program : AstProgram)
    (type : AstType) : option ErrorReport :=
  match type with
  | AstUnionType srcLoc name types => checkUnionType fuel report program srcLoc name types
  | AstRecordType srcLoc name fields => Some (checkRecordType report program srcLoc name fields)
  | AstPrimitiveType _ _ _ => Some report
  end.

Definition checkTypes (fuel : nat) (report : ErrorReport) (program : AstProgram)
    : option ErrorReport :=
  (* check each type individually *)
  foldM (fun r cur => checkType fuel r program cur) (getTypes program) report.

(** ** Name spaces *)

(** The two loops of [checkNamespaces] share their body; [names] is the
    [std::map<std::string, SrcLocation>]. *)
Definition declareName (kind : string) (st : ErrorReport * gmap string SrcLocation)
    (name : string) (srcLoc : SrcLocation) : ErrorReport * gmap string SrcLocation :=
  let '(report, names) := st in
  match names !! name with
  | Some _ => (addError report ("Name clash on " +:+ kind +:+ " " +:+ name) srcLoc, names)
  | None => (report, <[name := srcLoc]> names)
  end.

Definition checkNamespaces (report : ErrorReport) (program : AstProgram) : ErrorReport :=
  let names : gmap string SrcLocation := ∅ in
  (* find all names and report redeclarations as we go *)
  let st :=
    fold_left (fun st type => declareName "type" st (typeName type) (typeSrcLoc type))
      (getTypes program) (report, names) in
  let st :=
    fold_left (fun st rel => declareName "relation" st (toString (relName rel)) (relSrcLoc rel))
      (getRelations program) st in
  fst st.

(** ** Groundedness *)

(** The two loops over one rule.  [getVariables] and [getRecords]
    (AstUtils) collect the variables and the record constructors of the
    clause depth-first; [reportedVars] is the [std::set] of the names
    reported so far. *)
Definition checkGroundednessClause `{GroundAnalysis} (report : ErrorReport)
    (clause : AstClause) : ErrorReport :=
  (* compute all grounded terms *)
  let isGrounded := getGroundedTerms clause in
  (* all variables must be grounded; only report a variable once *)
  let st :=
    fold_left
      (fun (st : ErrorReport * list string) (cur : NodeInfo * string) =>
         let '(report, reportedVars) := st in
         if negb (groundedAt isGrounded (nodeAddr (fst cur)))
            && negb (existsb (String.eqb (snd cur)) reportedVars)
         then (addError report ("Ungrounded variable " +:+ snd cur) (nodeSrcLoc (fst cur)),
               sset_insert (snd cur) reportedVars)
         else st)
      (visitVariables (nodesOfClause clause)) (report, []) in
  (* all records need to be grounded *)
  fold_left
    (fun r (cur : NodeInfo * AstTypeIdentifier * list AstArgument) =>
       if negb (groundedAt isGrounded (nodeAddr (fst (fst cur))))
       then addError r "Ungrounded record" (nodeSrcLoc (fst (fst cur)))
       else r)
    (visitRecordInits (nodesOfClause clause)) (fst st).

Definition checkGroundedness `{GroundAnalysis} (report : ErrorReport) (program : AstProgram)
    : ErrorReport :=
  fold_left
    (fun r clause =>
       (* only interested in rules *)
       if isFact clause then r else checkGroundednessClause r clause)
    (relationClauses program) report.

End Checker.

(** ** What the checks look for, as predicates *)

(** A list of element types holds, directly or through nested unions,
    the type [number] or a numeric primitive type. *)
Inductive containsNumber (program : AstProgram) : list AstTypeIdentifier -> Prop :=
| number_element rest : containsNumber program ("number" :: rest)
| numeric_primitive elem srcLoc name rest :
    getType program elem = Some (AstPrimitiveType srcLoc name true) ->
    containsNumber program (elem :: rest)
| number_in_union elem srcLoc name types rest :
    getType program elem = Some (AstUnionType srcLoc name types) ->
    containsNumber program types ->
    containsNumber program (elem :: rest)
| number_later elem rest :
    containsNumber program rest -> containsNumber program (elem :: rest).

(** The same for [symbol] and the symbolic primitive types. *)
Inductive containsSymbol (program : AstProgram) : list AstTypeIdentifier -> Prop :=
| symbol_element rest : containsSymbol program ("symbol" :: rest)
| symbolic_primitive elem srcLoc name rest :
    getType program elem = Some (AstPrimitiveType srcLoc name false) ->
    containsSymbol program (elem :: rest)
| symbol_in_union elem srcLoc name types rest :
    getType program elem = Some (AstUnionType srcLoc name types) ->
    containsSymbol program types ->
    containsSymbol program (elem :: rest)
| symbol_later elem rest :
    containsSymbol program rest -> containsSymbol program (elem :: rest).

(** The diagnostic of [checkIODirectives] for a directive, and the
    directives it is for. *)
Definition undefinedRelationError (directive : AstIO) : Diagnostic :=
  mkDiagnostic ERROR
    (mkDiagnosticMessage ("Undefined relation " +:+ toString (ioName directive))
       (Some (ioSrcLoc directive))) [].

Definition namesUndeclaredRelation (program : AstProgram) (directive : AstIO) : bool :=
  match getRelation program (ioName directive) with
  | None => true
  | Some _ => false
  end.

(** A node that is an aggregator. *)
Definition isAggregatorNode (n : AstNode) : bool :=
  match n with
  | NodeArgument (AstAggregator _ _ _ _) => true
  | _ => false
  end.

(** The name the node mapper gives to its [k]-th replacement. *)
Definition aggregatorVariableName (k : nat) : string := "+aggr_var_" +:+ pretty k.

(** What a run of the mapper does to its state: the counter only grows
    and the names recorded are exactly those of the counter values used. *)
Definition mapperStep (st st' : WitnessState * list string) : Prop :=
  numReplaced (fst st) <= numReplaced (fst st')
  /\ forall name, In name (snd st') <->
       In name (snd st)
       \/ exists k, numReplaced (fst st) <= k < numReplaced (fst st')
                    /\ name = aggregatorVariableName k.


(** No node of the list is an aggregator. *)
Definition noAggregator (ns : list AstNode) : Prop := existsb isAggregatorNode ns = false.


(** The warnings of a report, in the order of emission. *)
Definition warningsOf (report : ErrorReport) : ErrorReport :=
  List.filter (fun d => negb (isError d)) report.

(** The warning of [checkClause] for a variable name. *)
Definition useOnceWarning (name : string) (loc : SrcLocation) : Diagnostic :=
  mkDiagnostic WARNING
    (mkDiagnosticMessage ("Variable " +:+ name +:+ " only occurs once") (Some loc)) [].

(** The occurrences of a variable name among the variables visited. *)
Definition occurrencesOf (name : string) (vars : list (NodeInfo * string))
    : list (NodeInfo * string) :=
  List.filter (fun v => String.eqb (snd v) name) vars.

(** The keys of a [std::map] come in strictly ascending order. *)
Fixpoint keysAscend (keys : list string) : Prop :=
  match keys with
  | [] => True
  | k :: keys' => (forall k', In k' keys' -> String.compare k k' = Lt) /\ keysAscend keys'
  end.

(** The arguments on which [checkConstant] runs into its final
    [assert(false && "Unknown case")]: an aggregator, reached through
    type casts and record constructors only. *)
Fixpoint hitsUnknownCase (a : AstArgument) : bool :=
  match a with
  | AstAggregator _ _ _ _ => true
  | AstTypeCast _ _ value => hitsUnknownCase value
  | AstRecordInit _ _ args => existsb hitsUnknownCase args
  | _ => false
  end.



(** ** The recursion of the witness check, flattened *)

(** The bodies of the aggregators among the nodes, in visiting order. *)
Definition visitAggregatorBodies (ns : list AstNode) : list (list AstLiteral) :=
  omap (fun n => match n with
                 | NodeArgument (AstAggregator _ _ _ body) => Some body
                 | _ => None
                 end) ns.

(** The loop that follows a level of [usesInvalidWitness]: every
    aggregator below the literals, nested ones included, has its body
    checked by a call of its own with the arguments grounded on this
    level; the results are appended in visiting order. *)
Definition subAggregatorResults `{GroundAnalysis} (grounded : list AstArgument)
    (ns : list AstNode) (ws : WitnessState) : list SrcLocation * WitnessState :=
  let '(subresults, ws) :=
    mapAccum (fun aggrBodyLiterals ws => usesInvalidWitness aggrBodyLiterals grounded ws)
      (visitAggregatorBodies ns) ws in
  (concat subresults, ws).

(** ** What a node contributes to the constraints on its own *)

(** The constraint on the node itself that its visitor adds whatever the
    solver holds: constants and counters are constants of their kind, a
    cast has its target type, a functor and a counting or summing
    aggregator have the primitive type of their result.  The other
    constraints of a node name representatives. *)
Definition nodeConstraint {AnalysisType : Type} `{TypeLattice AnalysisType} `{FunctorOpInfo}
    (program : AstProgram) (a : AstArgument) : option (TypeConstraint AnalysisType) :=
  match a with
  | AstCounter _ | AstNumberConstant _ _ => Some (constantOf a NUMBER)
  | AstStringConstant _ _ => Some (constantOf a SYMBOL)
  | AstNullConstant _ => Some (constantOf a RECORD)
  | AstTypeCast _ type _ => Some (Fixed (mkFixedConstraint a (getAnalysisType type)))
  | AstIntrinsicFunctor _ function _ =>
      match function with
      | MAX | MIN => None
      | _ =>
          if isSymbolicFunctorOp function
          then Some (Fixed (mkFixedConstraint a (TopPrimitiveAnalysisType SYMBOL)))
          else if isNumericalFunctorOp function
               then Some (Fixed (mkFixedConstraint a (TopPrimitiveAnalysisType NUMBER)))
               else None
      end
  | AstUserDefinedFunctor _ name _ =>
      match getFunctorDeclaration program name with
      | Some funDecl =>
          if declIsSymbolic funDecl
          then Some (Fixed (mkFixedConstraint a (TopPrimitiveAnalysisType SYMBOL)))
          else if declIsNumerical funDecl
               then Some (Fixed (mkFixedConstraint a (TopPrimitiveAnalysisType NUMBER)))
               else None
      | None => None
      end
  | AstAggregator _ op _ _ =>
      match op with
      | aggr_count | aggr_sum =>
          Some (Fixed (mkFixedConstraint a (TopPrimitiveAnalysisType NUMBER)))
      | _ => None
      end
  | _ => None
  end.

(** The [Fixed] constraints of a positive atom: one per argument, on its
    representative in [solver], to the type of the declared attribute. *)
Definition attributeConstraints {AnalysisType : Type} `{TypeLattice AnalysisType}
    (solver : TypeSolver AnalysisType) (arguments : list AstArgument)
    (attributes : list AstAttribute) : list (TypeConstraint AnalysisType) :=
  map (fun p : AstArgument * AstAttribute =>
         Fixed (mkFixedConstraint (fst (getRepresentative solver (fst p)))
                  (getAnalysisType (getTypeName (snd p)))))
    (zip arguments attributes).

(** Visiting the subtree with nodes [ns] keeps the constraints there
    were and adds the constraint of every node on itself. *)
Definition collects {AnalysisType : Type} `{TypeLattice AnalysisType} `{FunctorOpInfo}
    (program : AstProgram) (ns : list AstNode) (s s' : TypeSolver AnalysisType) : Prop :=
  (forall c, In c (constraints s) -> In c (constraints s'))
  /\ forall a c, In a (visitArguments ns) -> nodeConstraint program a = Some c ->
       In c (constraints s').

(** The arguments of an atom among the nodes are among the nodes. *)
Definition closedUnderAtoms (ns : list AstNode) : Prop :=
  forall atom arg, In (NodeAtom atom) ns -> In arg (atomArguments atom) ->
    In (NodeArgument arg) ns.

(** * Concrete instances and programs

    A small lattice, instances of the interfaces, and the programs the
    examples below run the checker and the solver on. *)

(** ** A lattice of four layers

    [Bottom <= Constant k <= TopPrimitive k <= Top], one chain per kind. *)
Inductive LayeredType :=
| LTop
| LTopPrimitive (k : Kind)
| LConstant (k : Kind)
| LBottom.

Definition kindEqb (k1 k2 : Kind) : bool :=
  match k1, k2 with
  | SYMBOL, SYMBOL | NUMBER, NUMBER | RECORD, RECORD => true
  | _, _ => false
  end.

Definition layeredSubtype (a b : LayeredType) : bool :=
  match a, b with
  | LBottom, _ => true
  | _, LTop => true
  | LConstant k1, LConstant k2 => kindEqb k1 k2
  | LConstant k1, LTopPrimitive k2 => kindEqb k1 k2
  | LTopPrimitive k1, LTopPrimitive k2 => kindEqb k1 k2
  | _, _ => false
  end.

Definition layeredMeet (a b : LayeredType) : LayeredType :=
  if layeredSubtype a b then a
  else if layeredSubtype b a then b
  else LBottom.

Definition layeredJoin (a b : LayeredType) : LayeredType :=
  if layeredSubtype a b then b
  else if layeredSubtype b a then a
  else match a, b with
       | LConstant k1, LConstant k2 =>
           if kindEqb k1 k2 then LTopPrimitive k1 else LTop
       | _, _ => LTop
       end.

Definition layeredHeight (a : LayeredType) : nat :=
  match a with
  | LBottom => 0
  | LConstant _ => 1
  | LTopPrimitive _ => 2
  | LTop => 3
  end.

Definition layeredTypeOfName (n : AstTypeIdentifier) : LayeredType :=
  if String.eqb n "number" then LTopPrimitive NUMBER
  else if String.eqb n "symbol" then LTopPrimitive SYMBOL
  else LBottom.

Definition layeredEnvironment : TypeEnvironment :=
  fun n =>
    if String.eqb n "number" || String.eqb n "symbol" then Some (EnvPrimitiveType n)
    else None.

Definition layeredToString (a : LayeredType) : string :=
  match a with
  | LTop => "top"
  | LTopPrimitive NUMBER => "number"
  | LTopPrimitive SYMBOL => "symbol"
  | LTopPrimitive RECORD => "record"
  | LConstant NUMBER => "number constant"
  | LConstant SYMBOL => "symbol constant"
  | LConstant RECORD => "record constant"
  | LBottom => "bottom"
  end.

Definition layeredLattice : TypeLattice LayeredType := {|
  TopAnalysisType := LTop;
  ConstantAnalysisType := LConstant;
  TopPrimitiveAnalysisType := LTopPrimitive;
  getAnalysisType := layeredTypeOfName;
  getAnalysisTypeOfRecord := fun _ => LTopPrimitive RECORD;
  isSubtype := layeredSubtype;
  meet := layeredMeet;
  join := layeredJoin;
  isValid := true;
  isValidType := fun a => match a with LTop | LBottom => false | _ => true end;
  analysisTypeToString := layeredToString;
  getTypeEnvironment := layeredEnvironment
|}.

(** ** Instances of the other interfaces *)

(** Every intrinsic functor is numerical. *)
Definition numericFunctorOps : FunctorOpInfo := {|
  isNumericalFunctorOp := fun _ => true;
  isSymbolicFunctorOp := fun _ => false;
  functorOpAcceptsNumbers := fun _ _ => true;
  functorOpAcceptsSymbols := fun _ _ => false
|}.

Definition domain32 : AstDomainBounds := {|
  MIN_AST_DOMAIN := (-2147483648)%Z;
  MAX_AST_DOMAIN := 2147483647%Z
|}.

(** Modelled from the spec: AstUtils is not among the sources.  A clause
    of [r] negates [s] when a negation of its body names [s]; it
    aggregates over [s] when an atom below an aggregator names [s]. *)
Definition namesRelation (s : AstRelation) (l : AstLiteral) : bool :=
  match l with
  | AtomLiteral a | AstNegation _ a => bool_decide (atomName a = relName s)
  | _ => false
  end.

Definition negatesRelation (s : AstRelation) (l : AstLiteral) : bool :=
  match l with
  | AstNegation _ _ => namesRelation s l
  | _ => false
  end.

Definition aggregatesRelation (s : AstRelation) (l : AstLiteral) : bool :=
  existsb (fun n =>
             match n with
             | NodeArgument (AstAggregator _ _ _ body) => existsb (namesRelation s) body
             | _ => false
             end) (nodesOfLiteral l).

Definition bodyDependencies : DependencyQueries := {|
  hasClauseWithNegatedRelation := fun r s _ =>
    List.find (negatesRelation s) (flat_map getBodyLiterals (getClauses r));
  hasClauseWithAggregatedRelation := fun r s _ =>
    List.find (aggregatesRelation s) (flat_map getBodyLiterals (getClauses r))
|}.

(** Passes that report nothing. *)
Definition silentPasses : ReportPasses := {|
  checkTypes := fun report _ => Some report;
  checkNamespaces := fun report _ => Some report;
  checkInlining := fun report _ _ _ => Some report;
  checkGroundedness := fun report _ => Some report;
  checkTypeCorrectness := fun report _ => Some report
|}.

Definition noIO : IOType := {| isInput := fun _ => false; isOutput := fun _ => false |}.

(** ** Programs *)

Definition node (addr : nat) (srcLoc : SrcLocation) : NodeInfo := mkNodeInfo addr srcLoc.

Definition numberAttribute (srcLoc : SrcLocation) (name : string) : AstAttribute :=
  mkAstAttribute srcLoc name "number".

Definition declaration (srcLoc : SrcLocation) (name : string) (attrs : list AstAttribute)
    (clauses : list AstClause) : AstRelation :=
  mkAstRelation srcLoc [name] attrs (OtherRepresentation 0) false false clauses.

Definition programOf (relations : list AstRelation) : AstProgram :=
  mkAstProgram [] relations [] [] [] [] [].

(** [.decl r(x:number)  r(X).] *)
Definition variableFact : AstClause :=
  mkAstClause 20 (mkAstAtom 21 ["r"] [AstVariable (node 1 22) "X"]) [] None false.
Definition variableFactProgram : AstProgram :=
  programOf [declaration 10 "r" [numberAttribute 11 "x"] [variableFact]].

(** The same fact in a program that declares nothing. *)
Definition undeclaredFactProgram : AstProgram :=
  mkAstProgram [] [] [] [variableFact] [] [] [].

(** [.decl r(x:number,y:number)  .decl s(x:number)
     s(X) :- X = min Y : r(_,Y).] *)
Definition minOverR (first : AstArgument) : AstArgument :=
  AstAggregator (node 3 33) aggr_min (Some (AstVariable (node 4 34) "Y"))
    [AtomLiteral (mkAstAtom 35 ["r"] [first; AstVariable (node 6 37) "Y"])].
Definition aggregateClause : AstClause :=
  mkAstClause 30 (mkAstAtom 31 ["s"] [AstVariable (node 1 32) "X"])
    [AstBinaryConstraint 38 EQ (AstVariable (node 2 39) "X")
       (minOverR (AstUnnamedVariable (node 5 36)))] None false.
Definition aggregateProgram : AstProgram :=
  programOf [declaration 10 "r" [numberAttribute 11 "x"; numberAttribute 12 "y"] [];
             declaration 13 "s" [numberAttribute 14 "x"] [aggregateClause]].

(** [.decl r(x:number,y:number)  .decl s(x:number,z:number)
     s(X,Z) :- X = min Y : r(Z,Y).]: [Z] is bound inside the aggregator
    only and used in the head. *)
Definition leakingClause : AstClause :=
  mkAstClause 30 (mkAstAtom 31 ["s"] [AstVariable (node 1 32) "X"; AstVariable (node 7 40) "Z"])
    [AstBinaryConstraint 38 EQ (AstVariable (node 2 39) "X")
       (minOverR (AstVariable (node 5 36) "Z"))] None false.
Definition leakingProgram : AstProgram :=
  programOf [declaration 10 "r" [numberAttribute 11 "x"; numberAttribute 12 "y"] [];
             declaration 13 "s" [numberAttribute 14 "x"; numberAttribute 15 "z"]
               [leakingClause]].

Definition witnessDiagnostic (srcLoc : SrcLocation) : Diagnostic :=
  mkDiagnostic ERROR
    (mkDiagnosticMessage
       ("Witness problem: argument grounded by an aggregator's inner scope "
          +:+ "is used ungrounded in outer scope") (Some srcLoc)) [].

Definition freshState : WitnessState := mkWitnessState 100 0.

(** [.decl a(x:number)  .decl b(x:number)  a(X) :- b(X).  b(X) :- !a(X).] *)
Definition positiveRule : AstClause :=
  mkAstClause 50 (mkAstAtom 51 ["a"] [AstVariable (node 1 52) "X"])
    [AtomLiteral (mkAstAtom 53 ["b"] [AstVariable (node 2 54) "X"])] None false.
Definition negativeRule : AstClause :=
  mkAstClause 60 (mkAstAtom 61 ["b"] [AstVariable (node 3 62) "X"])
    [AstNegation 63 (mkAstAtom 64 ["a"] [AstVariable (node 4 65) "X"])] None false.
Definition relationA : AstRelation := declaration 10 "a" [numberAttribute 11 "x"] [positiveRule].
Definition relationB : AstRelation := declaration 12 "b" [numberAttribute 13 "x"] [negativeRule].
Definition negativeCycleProgram : AstProgram := programOf [relationA; relationB].

(** Its precedence graph: [a] and [b] reach each other. *)
Definition negativeCycleGraph : PrecedenceGraph := {|
  vertices := [relationA; relationB];
  reaches := fun _ _ => true;
  clique := fun _ => [relationA; relationB]
|}.

(** [.decl r(x:number)  .decl s(x:number)  s(X) :- r(Y), X = Y.] *)
Definition equalityClause : AstClause :=
  mkAstClause 70 (mkAstAtom 71 ["s"] [AstVariable (node 1 72) "X"])
    [AtomLiteral (mkAstAtom 73 ["r"] [AstVariable (node 2 74) "Y"]);
     AstBinaryConstraint 75 EQ (AstVariable (node 3 76) "X") (AstVariable (node 4 77) "Y")]
    None false.

(** [s(X) :- t(X).] with [t] undeclared. *)
Definition danglingClause : AstClause :=
  mkAstClause 80 (mkAstAtom 81 ["s"] [AstVariable (node 5 82) "X"])
    [AtomLiteral (mkAstAtom 83 ["t"] [AstVariable (node 6 84) "X"])] None false.

Definition equalityProgram : AstProgram :=
  programOf [declaration 10 "r" [numberAttribute 11 "x"] [];
             declaration 12 "s" [numberAttribute 13 "x"] [equalityClause; danglingClause]].

(** The analysis of [equalityProgram] and the solver of its first clause. *)
Definition equalityAnalysis : TypeAnalysis LayeredType :=
  match run (H := layeredLattice) (H0 := numericFunctorOps) 10 equalityProgram with
  | Some (Some ta) => ta
  | _ => mkTypeAnalysis ∅ [] false
  end.
Definition equalitySolver : TypeSolver LayeredType :=
  match newTypeSolver (H := layeredLattice) (H0 := numericFunctorOps) 10
          equalityProgram equalityClause with
  | Some (Some solver) => solver
  | _ => emptySolver
  end.

(** [.decl eq(x:number,y:number) eqrel] *)
Definition equivalenceDeclaration : AstRelation :=
  mkAstRelation 90 ["eq"] [numberAttribute 91 "x"; numberAttribute 92 "y"] EQREL
    false false [].

(** A program with no records and a load directive for sqlite. *)
Definition sqliteLoad : AstIO := mkAstIO 95 ["r"] {["IO" := "sqlite"]}.
Definition sqliteProgram : AstProgram :=
  mkAstProgram [] [declaration 10 "r" [numberAttribute 11 "x"] []] [] [] [sqliteLoad] [] [].

Definition interpreterConfig : Config := {["engine" := "interpreter"]}.

Definition checkedProgram (USE_MPI : bool) (program : AstProgram)
    (precedenceGraph : PrecedenceGraph) : option (ErrorReport * Config) :=
  checkProgram (H := numericFunctorOps) (H0 := domain32) (H1 := specGroundAnalysis)
    (H2 := bodyDependencies) (H3 := silentPasses) USE_MPI [] interpreterConfig freshState
    program layeredEnvironment precedenceGraph (fun _ => false) noIO.

Definition noEdges (program : AstProgram) : PrecedenceGraph := {|
  vertices := getRelations program;
  reaches := fun _ _ => false;
  clique := fun v => [v]
|}.

(** [!r(X + 1)] in [equalityProgram]: the arguments of the negated atom and
    the solver after visiting them. *)
Definition negatedArguments : list AstArgument :=
  [AstIntrinsicFunctor (node 8 98) (OtherFunctorOp 0)
     [AstVariable (node 9 99) "X"; AstNumberConstant (node 10 100) 1]].
Definition negatedArgumentsSolver : TypeSolver LayeredType :=
  default emptySolver
    (visitArguments_ (H := layeredLattice) (H0 := numericFunctorOps) equalityProgram
       negatedArguments emptySolver).

(** The outcome of [checkProgram] on [sqliteProgram] in a build without
    [USE_MPI]. *)
Definition checkedOutcome : ErrorReport * Config :=
  default ([], ∅) (checkedProgram false sqliteProgram (noEdges sqliteProgram)).

(** The constraints generated for [s(X) :- r(Y), X = Y.] *)
Definition equalityConstraints : TypeSolver LayeredType :=
  default emptySolver
    (generateConstraints (H := layeredLattice) (H0 := numericFunctorOps) equalityProgram
       equalityClause emptySolver).

(** [.decl r(x:number)] and the orphan fact [q(1).] of the undeclared
    relation [q]. *)
Definition orphanFact : AstClause :=
  mkAstClause 30 (mkAstAtom 31 ["q"] [AstNumberConstant (node 1 32) 1]) [] None false.
Definition orphanFactProgram : AstProgram :=
  mkAstProgram [] [declaration 10 "r" [numberAttribute 11 "x"] []] [] [orphanFact] [] [] [].

(** The layered lattice over an environment that is not valid. *)
Definition invalidLattice : TypeLattice LayeredType := {|
  TopAnalysisType := LTop;
  ConstantAnalysisType := LConstant;
  TopPrimitiveAnalysisType := LTopPrimitive;
  getAnalysisType := layeredTypeOfName;
  getAnalysisTypeOfRecord := fun _ => LTopPrimitive RECORD;
  isSubtype := layeredSubtype;
  meet := layeredMeet;
  join := layeredJoin;
  isValid := false;
  isValidType := fun a => match a with LTop | LBottom => false | _ => true end;
  analysisTypeToString := layeredToString;
  getTypeEnvironment := layeredEnvironment
|}.

(** [.decl r(x:number,y:number)  .decl s(x:number)  .decl t(x:number)
     s(X) :- X = min Y : { r(Y,W), W = max V : r(V,Q), !t(Q) }.]: inside
    the body of the outer aggregator, [Q] is bound by the inner
    aggregator only and used in the negation. *)
Definition innerMax : AstArgument :=
  AstAggregator (node 8 50) aggr_max (Some (AstVariable (node 9 51) "V"))
    [AtomLiteral (mkAstAtom 52 ["r"] [AstVariable (node 10 53) "V"; AstVariable (node 11 54) "Q"])].
Definition outerMin : AstArgument :=
  AstAggregator (node 3 33) aggr_min (Some (AstVariable (node 4 34) "Y"))
    [AtomLiteral (mkAstAtom 35 ["r"] [AstVariable (node 5 36) "Y"; AstVariable (node 6 37) "W"]);
     AstBinaryConstraint 55 EQ (AstVariable (node 7 56) "W") innerMax;
     AstNegation 57 (mkAstAtom 58 ["t"] [AstVariable (node 12 59) "Q"])].
Definition nestedLeakClause : AstClause :=
  mkAstClause 30 (mkAstAtom 31 ["s"] [AstVariable (node 1 32) "X"])
    [AstBinaryConstraint 38 EQ (AstVariable (node 2 39) "X") outerMin] None false.
Definition nestedLeakProgram : AstProgram :=
  programOf [declaration 10 "r" [numberAttribute 11 "x"; numberAttribute 12 "y"] [];
             declaration 13 "s" [numberAttribute 14 "x"] [nestedLeakClause];
             declaration 15 "t" [numberAttribute 16 "x"] []].

(** Functors with a symbolic one: [OtherFunctorOp 1] stands for [cat],
    which takes and gives symbols; every other intrinsic functor is
    numerical. *)
Definition isCat (function : FunctorOp) : bool :=
  match function with OtherFunctorOp 1 => true | _ => false end.
Definition catFunctorOps : FunctorOpInfo := {|
  isNumericalFunctorOp := fun function => negb (isCat function);
  isSymbolicFunctorOp := isCat;
  functorOpAcceptsNumbers := fun function _ => negb (isCat function);
  functorOpAcceptsSymbols := fun function _ => isCat function
|}.

(** [.decl r(x:symbol)  r(cat("a","b")).] *)
Definition catFact : AstClause :=
  mkAstClause 20
    (mkAstAtom 21 ["r"]
       [AstIntrinsicFunctor (node 1 22) (OtherFunctorOp 1)
          [AstStringConstant (node 2 23) "a"; AstStringConstant (node 3 24) "b"]])
    [] None false.
Definition catFactProgram : AstProgram :=
  programOf [declaration 10 "r" [mkAstAttribute 11 "x" "symbol"] [catFact]].

(** [.decl r(x:number)  r(1 + as(2, number)).] *)
Definition castSumFact : AstClause :=
  mkAstClause 20
    (mkAstAtom 21 ["r"]
       [AstIntrinsicFunctor (node 1 22) (OtherFunctorOp 0)
          [AstNumberConstant (node 2 23) 1;
           AstTypeCast (node 3 24) "number" (AstNumberConstant (node 4 25) 2)]])
    [] None false.
Definition castSumFactProgram : AstProgram :=
  programOf [declaration 10 "r" [numberAttribute 11 "x"] [castSumFact]].

(** [.decl r(x:symbol)  .decl s(x:number)  s(X) :- r(X).]: the body makes
    [X] a symbol, the head relation declares a number. *)
Definition headMismatchClause : AstClause :=
  mkAstClause 70 (mkAstAtom 71 ["s"] [AstVariable (node 1 72) "X"])
    [AtomLiteral (mkAstAtom 73 ["r"] [AstVariable (node 2 74) "X"])] None false.
Definition headMismatchProgram : AstProgram :=
  programOf [declaration 10 "r" [mkAstAttribute 11 "x" "symbol"] [];
             declaration 12 "s" [numberAttribute 13 "x"] [headMismatchClause]].
Definition headMismatchAnalysis : TypeAnalysis LayeredType :=
  match run (H := layeredLattice) (H0 := numericFunctorOps) 10 headMismatchProgram with
  | Some (Some ta) => ta
  | _ => mkTypeAnalysis ∅ [] false
  end.
Definition headMismatchError : Diagnostic :=
  mkDiagnostic ERROR
    (mkDiagnosticMessage "Relation expects value of type number but got argument of type symbol"
       (Some 72)) [].

(** ** More programs *)

(** [.type A = A | number]: a union that names itself. *)
Definition selfUnion : AstType := AstUnionType 1 "A" ["A"; "number"].
Definition selfUnionProgram : AstProgram := mkAstProgram [selfUnion] [] [] [] [] [] [].

(** [.type N = number  .type S = symbol  .type U = N | S] *)
Definition mixedUnionProgram : AstProgram :=
  mkAstProgram
    [AstPrimitiveType 1 "N" true; AstPrimitiveType 2 "S" false; AstUnionType 3 "U" ["N"; "S"]]
    [] [] [] [] [] [].

(** The report of [checkUnionType] on [U] of [mixedUnionProgram]. *)
Definition mixedUnionReport : ErrorReport :=
  default [] (Checker.checkUnionType 10 [] mixedUnionProgram 3 "U" ["N"; "S"]).

(** A report that already holds a diagnostic, and what [checkRules]
    makes of it on [variableFactProgram]. *)
Definition earlierReport : ErrorReport := addError [] "Undefined relation q" 5.
Definition rulesOutcome : ErrorReport * Config :=
  default ([], ∅)
    (checkRules (H := numericFunctorOps) earlierReport interpreterConfig layeredEnvironment
       variableFactProgram (fun _ => false) noIO).

(** The report of [checkClause] on [s(X) :- r(Y), X = Y.] with its head
    variable renamed: [s(Z) :- r(Y), X = Y.], where [X] and [Z] occur once. *)
Definition useOnceClause : AstClause :=
  mkAstClause 70 (mkAstAtom 71 ["s"] [AstVariable (node 1 72) "Z"])
    [AtomLiteral (mkAstAtom 73 ["r"] [AstVariable (node 2 74) "Y"]);
     AstBinaryConstraint 75 EQ (AstVariable (node 3 76) "X") (AstVariable (node 4 77) "Y")]
    None false.
Definition useOnceReport : ErrorReport :=
  default []
    (checkClause (H := numericFunctorOps) [] equalityProgram useOnceClause (fun _ => false)).

(** The solver after the first lookup of a variable [X]. *)
Definition firstLookup : AstArgument * TypeSolver LayeredType :=
  getRepresentative emptySolver (AstVariable (node 1 72) "X").

(** * Properties *)

(** ** Induction over the AST *)

Section AstInduction.
Variables (P : AstArgument -> Prop) (Q : AstAtom -> Prop) (R : AstLiteral -> Prop).
Hypothesis Hvar : forall i n, P (AstVariable i n).
Hypothesis Hunnamed : forall i, P (AstUnnamedVariable i).
Hypothesis Hnumber : forall i n, P (AstNumberConstant i n).
Hypothesis Hstring : forall i s, P (AstStringConstant i s).
Hypothesis Hnull : forall i, P (AstNullConstant i).
Hypothesis Hcounter : forall i, P (AstCounter i).
Hypothesis Hcast : forall i t v, P v -> P (AstTypeCast i t v).
Hypothesis Hintrinsic : forall i f args, Forall P args -> P (AstIntrinsicFunctor i f args).
Hypothesis Huser : forall i f args, Forall P args -> P (AstUserDefinedFunctor i f args).
Hypothesis Hrecord : forall i t args, Forall P args -> P (AstRecordInit i t args).
Hypothesis Haggregator : forall i op e body,
  (forall x, e = Some x -> P x) -> Forall R body -> P (AstAggregator i op e body).
Hypothesis Hatom : forall l n args, Forall P args -> Q (mkAstAtom l n args).
Hypothesis Hatomlit : forall a, Q a -> R (AtomLiteral a).
Hypothesis Hnegation : forall l a, Q a -> R (AstNegation l a).
Hypothesis Hbinary : forall l op x y, P x -> P y -> R (AstBinaryConstraint l op x y).
Hypothesis Hboolean : forall l b, R (AstBooleanConstraint l b).

Fixpoint AstArgument_mut (a : AstArgument) : P a :=
  match a with
  | AstVariable i n => Hvar i n
  | AstUnnamedVariable i => Hunnamed i
  | AstNumberConstant i n => Hnumber i n
  | AstStringConstant i s => Hstring i s
  | AstNullConstant i => Hnull i
  | AstCounter i => Hcounter i
  | AstTypeCast i t v => Hcast i t v (AstArgument_mut v)
  | AstIntrinsicFunctor i f args =>
      Hintrinsic i f args
        ((fix go l : Forall P l :=
            match l return Forall _ l with
            | [] => @List.Forall_nil _ P
            | x :: l' => @List.Forall_cons _ P x l' (AstArgument_mut x) (go l')
            end) args)
  | AstUserDefinedFunctor i f args =>
      Huser i f args
        ((fix go l : Forall P l :=
            match l return Forall _ l with
            | [] => @List.Forall_nil _ P
            | x :: l' => @List.Forall_cons _ P x l' (AstArgument_mut x) (go l')
            end) args)
  | AstRecordInit i t args =>
      Hrecord i t args
        ((fix go l : Forall P l :=
            match l return Forall _ l with
            | [] => @List.Forall_nil _ P
            | x :: l' => @List.Forall_cons _ P x l' (AstArgument_mut x) (go l')
            end) args)
  | AstAggregator i op e body =>
      Haggregator i op e body
        (match e as o return forall x, o = Some x -> P x with
         | Some y => fun x Heq =>
             eq_ind y P (AstArgument_mut y) x
               (f_equal (fun o => match o with Some z => z | None => y end) Heq)
         | None => fun x Heq =>
             False_ind _
               (eq_ind None (fun o => match o with None => True | Some _ => False end) I _ Heq)
         end)
        ((fix go l : Forall R l :=
            match l return Forall _ l with
            | [] => @List.Forall_nil _ R
            | x :: l' => @List.Forall_cons _ R x l' (AstLiteral_mut x) (go l')
            end) body)
  end
with AstAtom_mut (a : AstAtom) : Q a :=
  match a with
  | mkAstAtom l n args =>
      Hatom l n args
        ((fix go l : Forall P l :=
            match l return Forall _ l with
            | [] => @List.Forall_nil _ P
            | x :: l' => @List.Forall_cons _ P x l' (AstArgument_mut x) (go l')
            end) args)
  end
with AstLiteral_mut (l : AstLiteral) : R l :=
  match l with
  | AtomLiteral a => Hatomlit a (AstAtom_mut a)
  | AstNegation s a => Hnegation s a (AstAtom_mut a)
  | AstBinaryConstraint s op x y => Hbinary s op x y (AstArgument_mut x) (AstArgument_mut y)
  | AstBooleanConstraint s b => Hboolean s b
  end.

Lemma Ast_mutual_ind : (forall a, P a) /\ (forall a, Q a) /\ (forall l, R l).
Proof. split; [exact AstArgument_mut | split; [exact AstAtom_mut | exact AstLiteral_mut]]. Qed.

End AstInduction.

(** ** The report only grows *)

Lemma addDiagnostic_prefix (report : ErrorReport) d : report `prefix_of` addDiagnostic report d.
Proof. unfold addDiagnostic. by apply prefix_app_r. Qed.

Lemma addError_prefix (report : ErrorReport) m l : report `prefix_of` addError report m l.
Proof. apply addDiagnostic_prefix. Qed.

Lemma addWarning_prefix (report : ErrorReport) m l : report `prefix_of` addWarning report m l.
Proof. apply addDiagnostic_prefix. Qed.

Lemma fold_left_prefix {A} (f : ErrorReport -> A -> ErrorReport) (l : list A) :
  Forall (fun x => forall r, r `prefix_of` f r x) l ->
  forall r, r `prefix_of` fold_left f l r.
Proof.
  induction 1 as [|x l Hx _ IH]; intros r; simpl; [done|].
  etrans; [apply Hx | apply IH].
Qed.

Lemma fold_left_prefix_all {A} (f : ErrorReport -> A -> ErrorReport) (l : list A) :
  (forall r x, r `prefix_of` f r x) -> forall r, r `prefix_of` fold_left f l r.
Proof. intros Hf. apply fold_left_prefix, Forall_forall. intros x _ r. apply Hf. Qed.

Lemma foldM_nil {A B} (f : B -> A -> option B) b : foldM f [] b = Some b.
Proof. reflexivity. Qed.

Lemma fold_left_bind_None {A B} (f : B -> A -> option B) (l : list A) :
  fold_left (fun acc a => acc ≫= fun r => f r a) l None = None.
Proof. induction l; simpl; auto. Qed.

Lemma foldM_cons {A B} (f : B -> A -> option B) x l b :
  foldM f (x :: l) b = f b x ≫= foldM f l.
Proof.
  unfold foldM. simpl. destruct (f b x); simpl; [done|]. apply fold_left_bind_None.
Qed.

Lemma foldM_app {A B} (f : B -> A -> option B) l1 l2 b :
  foldM f (l1 ++ l2) b = foldM f l1 b ≫= foldM f l2.
Proof.
  revert b. induction l1 as [|x l1 IH]; intros b; [done|].
  rewrite <- app_comm_cons, !foldM_cons. destruct (f b x); simpl; [apply IH|done].
Qed.

Lemma foldM_prefix {A} (f : ErrorReport -> A -> option ErrorReport) (l : list A) :
  Forall (fun x => forall r r', f r x = Some r' -> r `prefix_of` r') l ->
  forall r r', foldM f l r = Some r' -> r `prefix_of` r'.
Proof.
  induction 1 as [|x l Hx _ IH]; intros r r'.
  - rewrite foldM_nil. by intros [= ->].
  - rewrite foldM_cons. destruct (f r x) as [r1|] eqn:E; simpl; [|done].
    intros Hr. etrans; [by apply Hx | by apply IH].
Qed.

Lemma check_prefix_mutual (program : AstProgram) :
  (forall a r, r `prefix_of` checkArgument r program a)
  /\ (forall a r, r `prefix_of` checkAtom r program a)
  /\ (forall l r, r `prefix_of` checkLiteral r program l).
Proof.
  apply Ast_mutual_ind; simpl; intros; try reflexivity.
  - apply fold_left_prefix. eapply Forall_impl; [eassumption|]. simpl. auto.
  - apply fold_left_prefix. eapply Forall_impl; [eassumption|]. simpl. auto.
  - apply fold_left_prefix. eapply Forall_impl; [eassumption|]. simpl. auto.
  - etrans; [|apply fold_left_prefix; eapply Forall_impl; [eassumption|]; simpl; auto].
    destruct (getRelation program n) as [rel|].
    + destruct (negb _); [apply addError_prefix | reflexivity].
    + apply addError_prefix.
  - auto.
  - auto.
  - etrans; [apply H|]. etrans; [apply H0|].
    destruct (hasUnnamedVariable x || hasUnnamedVariable y); [apply addError_prefix|reflexivity].
Qed.

Lemma checkAtom_prefix program a r : r `prefix_of` checkAtom r program a.
Proof. apply check_prefix_mutual. Qed.

Lemma checkLiteral_prefix program l r : r `prefix_of` checkLiteral r program l.
Proof. apply check_prefix_mutual. Qed.

Lemma checkConstant_prefix `{FunctorOpInfo} a :
  forall r r', checkConstant r a = Some r' -> r `prefix_of` r'.
Proof.
  induction a using AstArgument_mut with
    (Q := fun _ => True) (R := fun _ => True); simpl; try done; intros r r' Hc; auto;
    try (injection Hc as <-; first [apply addError_prefix | reflexivity]).
  - destruct (negb _); injection Hc as <-; [apply addError_prefix | reflexivity].
  - revert Hc. fold (foldM checkConstant args r). apply foldM_prefix.
    eapply Forall_impl; [eassumption|]. simpl. auto.
Qed.

Lemma checkFact_prefix `{FunctorOpInfo} program fact r r' :
  checkFact r program fact = Some r' -> r `prefix_of` r'.
Proof.
  unfold checkFact. destruct (negb (isFact fact)); [done|].
  destruct (getRelation program _); [|by intros [= ->]].
  apply foldM_prefix, Forall_forall. intros x _. apply checkConstant_prefix.
Qed.

Ltac prefix_step :=
  match goal with
  | |- ?r `prefix_of` ?r => reflexivity
  | |- _ `prefix_of` (if ?b then _ else _) => destruct b
  | |- _ `prefix_of` match ?o with Some _ => _ | None => _ end => destruct o
  | |- _ `prefix_of` addError _ _ _ => etrans; [|apply addError_prefix]
  | |- _ `prefix_of` addWarning _ _ _ => etrans; [|apply addWarning_prefix]
  | |- _ `prefix_of` checkAtom _ _ _ => etrans; [|apply checkAtom_prefix]
  | |- _ `prefix_of` checkLiteral _ _ _ => etrans; [|apply checkLiteral_prefix]
  | |- _ `prefix_of` fold_left _ _ _ =>
      etrans; [|apply fold_left_prefix_all; intros; repeat prefix_step]
  end.

Lemma checkClause_prefix `{FunctorOpInfo} program clause rec r r' :
  checkClause r program clause rec = Some r' -> r `prefix_of` r'.
Proof.
  unfold checkClause.
  match goal with |- (?m ≫= _) = _ -> _ => destruct m as [r1|] eqn:E1 end; simpl; [|done].
  intros [= <-].
  assert (r `prefix_of` r1) as Hr1.
  { etrans; [|destruct (isFact clause);
              [apply checkFact_prefix in E1; exact E1 | injection E1 as <-; reflexivity]].
    repeat prefix_step. }
  etrans; [exact Hr1|]. repeat prefix_step.
Qed.

Lemma fold_left_prefix_fst {A C} (f : ErrorReport * C -> A -> ErrorReport * C) (l : list A) :
  (forall st x, fst st `prefix_of` fst (f st x)) ->
  forall st, fst st `prefix_of` fst (fold_left f l st).
Proof.
  intros Hf. induction l as [|x l IH]; intros st; simpl; [done|].
  etrans; [apply Hf | apply IH].
Qed.

Lemma checkRelationDeclaration_prefix r config typeEnv program relation ioTypes :
  r `prefix_of` fst (checkRelationDeclaration r config typeEnv program relation ioTypes).
Proof.
  unfold checkRelationDeclaration.
  apply (fold_left_prefix_fst _ _) with (st := (r, config)).
  intros [r0 c0] i. simpl.
  destruct (getAttributes relation !! i) as [attr|]; simpl; [|done].
  match goal with
  | |- _ `prefix_of` fst (match typeEnv ?t with Some _ => _ | None => _ end) =>
      destruct (typeEnv t) as [ty|]
  end; [destruct (isRecordType ty)|]; simpl; repeat prefix_step.
Qed.

Lemma checkRelation_prefix `{FunctorOpInfo} r config typeEnv program relation rec ioTypes r' config' :
  checkRelation r config typeEnv program relation rec ioTypes = Some (r', config') ->
  checkEquivalence r relation `prefix_of` r'.
Proof.
  unfold checkRelation.
  pose proof (checkRelationDeclaration_prefix (checkEquivalence r relation) config typeEnv
                program relation ioTypes) as Hd.
  destruct (checkRelationDeclaration _ _ _ _ _ _) as [r1 c1]. simpl in Hd.
  match goal with |- (?m ≫= _) = _ -> _ => destruct m as [r2|] eqn:E2 end; simpl; [|done].
  intros [= <- <-].
  assert (r1 `prefix_of` r2) as H12.
  { eapply foldM_prefix; [|exact E2].
    apply Forall_forall. intros c _ ? ?. apply checkClause_prefix. }
  etrans; [exact Hd|]. etrans; [exact H12|]. repeat prefix_step.
Qed.

(** ** C9: equivalence relations *)

Lemma addError_neq (report : ErrorReport) m l : addError report m l <> report.
Proof.
  unfold addError, addDiagnostic. intros Heq.
  apply (f_equal length) in Heq. rewrite length_app in Heq. simpl in Heq. lia.
Qed.

(** C9. For a relation of representation [equivalence], the equivalence
    check adds no diagnostic if and only if the arity is 2 and the two
    attributes have the same type name; an arity other than 2 adds the
    "is not binary" error; two attributes with different type names add
    the "are different" error; and whatever [checkRelation] reports for
    the relation starts with the outcome of this check. *)
Theorem equivalence_relation_check `{FunctorOpInfo} (report : ErrorReport)
    (relation : AstRelation) :
  getRepresentation relation = EQREL ->
  (checkEquivalence report relation = report <->
     exists a0 a1, getAttributes relation = [a0; a1] /\ getTypeName a0 = getTypeName a1)
  /\ (getArity relation <> 2 ->
      checkEquivalence report relation =
        addError report
          ("Equivalence relation " +:+ toString (relName relation) +:+ " is not binary")
          (relSrcLoc relation))
  /\ (forall a0 a1, getAttributes relation = [a0; a1] ->
      getTypeName a0 <> getTypeName a1 ->
      checkEquivalence report relation =
        addError report
          ("Domains of equivalence relation " +:+ toString (relName relation)
             +:+ " are different")
          (relSrcLoc relation))
  /\ (forall config typeEnv program rec ioTypes report' config',
      checkRelation report config typeEnv program relation rec ioTypes
        = Some (report', config') ->
      checkEquivalence report relation `prefix_of` report').
Proof.
  intros Hrep. split; [|split; [|split]].
  4: { intros. eapply checkRelation_prefix. eassumption. }
  all: unfold checkEquivalence, getArity; rewrite Hrep.
  - split.
    + destruct (getAttributes relation) as [|a0 [|a1 [|a2 l]]]; simpl;
        try (intros Habs; exfalso; revert Habs; apply addError_neq).
      destruct (String.eqb (getTypeName a0) (getTypeName a1)) eqn:E; simpl.
      * intros _. exists a0, a1. split; [done|]. by apply String.eqb_eq.
      * intros Habs; exfalso; revert Habs; apply addError_neq.
    + intros (a0 & a1 & -> & Ht). simpl. rewrite Ht, String.eqb_refl. done.
  - intros Hne. destruct (Nat.eqb_spec (length (getAttributes relation)) 2); [done|done].
  - intros a0 a1 -> Hne. simpl.
    destruct (String.eqb_spec (getTypeName a0) (getTypeName a1)); [done|done].
Qed.
(** ** C4: facts *)

Lemma forallb_flat_map {A B} (p : B -> bool) (f : A -> list B) (l : list A) :
  forallb p (flat_map f l) = forallb (fun x => forallb p (f x)) l.
Proof.
  induction l as [|x l IH]; simpl; [done|]. by rewrite forallb_app, IH.
Qed.

Lemma forallb_Forall_ext {A} (p q : A -> bool) (l : list A) :
  Forall (fun x => p x = q x) l -> forallb p l = forallb q l.
Proof. induction 1 as [|x l Hx _ IH]; simpl; [done|]. by rewrite Hx, IH. Qed.

Lemma flat_map_Forall_ext {A B} (f g : A -> list B) (l : list A) :
  Forall (fun x => f x = g x) l -> flat_map f l = flat_map g l.
Proof. induction 1 as [|x l Hx _ IH]; simpl; [done|]. by rewrite Hx, IH. Qed.

(** The test of the code is the test on the nodes. *)
Lemma isConstantArithExpr_nodes `{FunctorOpInfo} (a : AstArgument) :
  isConstantArithExpr a = constantArithmetic a.
Proof.
  induction a using AstArgument_mut with
    (Q := fun _ => True) (R := fun _ => True); try done.
  unfold constantArithmetic. simpl. rewrite forallb_flat_map.
  destruct (isNumericalFunctorOp f); simpl; [|done].
  by apply forallb_Forall_ext.
Qed.

Lemma checkConstant_functor `{FunctorOpInfo} (r : ErrorReport) i f args :
  checkConstant r (AstIntrinsicFunctor i f args)
  = if constantArithmetic (AstIntrinsicFunctor i f args)
    then Some r else Some (addError r "Function in fact" (nodeSrcLoc i)).
Proof.
  rewrite <- isConstantArithExpr_nodes. cbn [checkConstant].
  by destruct (isConstantArithExpr (AstIntrinsicFunctor i f args)).
Qed.

Lemma foldM_checkConstant_spec `{FunctorOpInfo} (args : list AstArgument) :
  Forall (fun a => forall r r', checkConstant r a = Some r' ->
                     r' = r ++ map factError (factOffences a)) args ->
  forall r r', foldM checkConstant args r = Some r' ->
    r' = r ++ map factError (flat_map factOffences args).
Proof.
  induction 1 as [|a args Ha _ IH]; intros r r'.
  - rewrite foldM_nil. intros [= <-]. simpl. by rewrite app_nil_r.
  - rewrite foldM_cons. destruct (checkConstant r a) as [r1|] eqn:E; simpl; [|done].
    intros Hr. apply Ha in E. apply IH in Hr. subst.
    by rewrite map_app, app_assoc.
Qed.

Lemma checkConstant_spec `{FunctorOpInfo} (a : AstArgument) :
  forall r r', checkConstant r a = Some r' ->
    r' = r ++ map factError (factOffences a).
Proof.
  induction a using AstArgument_mut with
    (Q := fun _ => True) (R := fun _ => True); try done; intros r r' Hc;
    try (simpl in *; injection Hc as <-; first [reflexivity | by rewrite app_nil_r]).
  - rewrite checkConstant_functor in Hc. cbn [factOffences].
    destruct (constantArithmetic _); injection Hc as <-; [by rewrite app_nil_r|done].
  - simpl in *. revert Hc. fold (foldM checkConstant args r).
    by apply foldM_checkConstant_spec.
Qed.

Lemma foldM_checkConstant_accepts `{FunctorOpInfo} (args : list AstArgument) :
  Forall (fun a => forall r, checkConstant r a = Some r <-> acceptedInFact a = true) args ->
  forall r, foldM checkConstant args r = Some r <-> forallb acceptedInFact args = true.
Proof.
  induction 1 as [|a args Ha Hall IH]; intros r.
  - rewrite foldM_nil. done.
  - rewrite foldM_cons. simpl. rewrite andb_true_iff, <- (Ha r), <- (IH r). split.
    + destruct (checkConstant r a) as [r1|] eqn:E; simpl; [|done]. intros Hf.
      assert (r `prefix_of` r1) as [k1 ->] by (by eapply checkConstant_prefix).
      assert ((r ++ k1) `prefix_of` r) as [k2 Hk2].
      { eapply foldM_prefix; [|exact Hf]. apply Forall_forall.
        intros x _ ? ?. apply checkConstant_prefix. }
      apply (f_equal length) in Hk2. rewrite !length_app in Hk2.
      destruct k1; [|simpl in Hk2; lia]. rewrite app_nil_r in *. done.
    + intros [-> Hf]. done.
Qed.

Lemma checkConstant_accepts `{FunctorOpInfo} (a : AstArgument) :
  forall r, checkConstant r a = Some r <-> acceptedInFact a = true.
Proof.
  induction a using AstArgument_mut with
    (Q := fun _ => True) (R := fun _ => True); try done; intros r;
    try (simpl; split; [intros [= Habs]; exfalso; revert Habs; apply addError_neq | done]).
  - rewrite checkConstant_functor. cbn [acceptedInFact].
    destruct (constantArithmetic _); [done|].
    split; [intros [= Habs]; exfalso; revert Habs; apply addError_neq | done].
  - simpl. fold (foldM checkConstant args r). by apply foldM_checkConstant_accepts.
Qed.

(** What the code accepts reduces to a constant. *)
Lemma constantArithmetic_reduces `{FunctorOpInfo} (a : AstArgument) :
  constantArithmetic a = true -> reducesToConstant a = true.
Proof.
  induction a using AstArgument_mut with
    (Q := fun _ => True) (R := fun _ => True); try done.
  unfold constantArithmetic. simpl. rewrite forallb_flat_map.
  intros Hn. apply andb_true_iff in Hn as [_ Hargs].
  rewrite forallb_forall in *. rewrite List.Forall_forall in H0.
  intros x Hx. apply H0; [done|]. by apply Hargs.
Qed.

Lemma acceptedInFact_reduces `{FunctorOpInfo} (a : AstArgument) :
  acceptedInFact a = true -> reducesToConstant a = true.
Proof.
  induction a using AstArgument_mut with
    (Q := fun _ => True) (R := fun _ => True); try done.
  - apply (constantArithmetic_reduces (AstIntrinsicFunctor i f args)).
  - simpl. rewrite !forallb_forall. rewrite List.Forall_forall in H0.
    intros Hargs x Hx. apply H0; [done|]. by apply Hargs.
Qed.

(** Without functors and aggregators the code and the words agree. *)
Lemma offendingPositions_flat_map (args : list AstArgument) :
  omap offenceOf (visitArguments (flat_map nodesOfArgument args))
  = flat_map offendingPositions args.
Proof.
  induction args as [|a args IH]; simpl; [done|].
  unfold visitArguments in *. by rewrite !omap_app, IH.
Qed.

Lemma functorFree_agrees `{FunctorOpInfo} (a : AstArgument) :
  functorFree a = true ->
  acceptedInFact a = reducesToConstant a /\ factOffences a = offendingPositions a.
Proof.
  induction a using AstArgument_mut with
    (Q := fun _ => True) (R := fun _ => True); try done.
  - (* record *)
    unfold functorFree. simpl. rewrite forallb_flat_map. intros Hfree.
    rewrite forallb_forall in Hfree. rewrite List.Forall_forall in H0. split.
    + apply forallb_Forall_ext, List.Forall_forall. intros x Hx.
      by apply H0, Hfree.
    + unfold offendingPositions. simpl.
      rewrite offendingPositions_flat_map.
      apply flat_map_Forall_ext, List.Forall_forall. intros x Hx. by apply H0, Hfree.
Qed.

(** C4. For a fact whose head relation is declared, the fact check
    leaves the report as it is if and only if every head argument is
    built from constants and constant arithmetic expressions by casts
    and records; whenever it returns, it has added exactly one error, in
    order, for each variable, underscore, counter, user-defined functor
    and functor that is no constant arithmetic expression, at its
    location.  What it accepts reduces to a constant, and on arguments
    without functors and aggregators it accepts exactly what reduces to
    a constant and reports exactly the offending positions.  For a fact
    of an undeclared relation it reports nothing.  Checking
    [.decl r(x:number)  r(X).] gives one error, [Variable X in fact] at
    [X], and no other error. *)
Theorem fact_check_declared_relation :
  (forall (F : FunctorOpInfo) (report : ErrorReport) (program : AstProgram)
          (fact : AstClause),
     isFact fact = true ->
     is_Some (getRelation program (atomName (getHead fact))) ->
     (checkFact report program fact = Some report <->
        forallb acceptedInFact (atomArguments (getHead fact)) = true)
     /\ (forall report', checkFact report program fact = Some report' ->
           report' = report
                     ++ map factError (flat_map factOffences (atomArguments (getHead fact))))
     /\ (forallb acceptedInFact (atomArguments (getHead fact)) = true ->
         forallb reducesToConstant (atomArguments (getHead fact)) = true)
     /\ (forallb functorFree (atomArguments (getHead fact)) = true ->
         forallb acceptedInFact (atomArguments (getHead fact))
         = forallb reducesToConstant (atomArguments (getHead fact))
         /\ flat_map factOffences (atomArguments (getHead fact))
            = flat_map offendingPositions (atomArguments (getHead fact))))
  /\ (forall (F : FunctorOpInfo) (report : ErrorReport) (program : AstProgram)
             (fact : AstClause),
        isFact fact = true ->
        getRelation program (atomName (getHead fact)) = None ->
        checkFact report program fact = Some report)
  /\ (checkFact (H := numericFunctorOps) [] variableFactProgram variableFact
      = Some [factError (VariableInFact "X", 22)]
      /\ exists outcome,
           checkRules (H := numericFunctorOps) [] interpreterConfig layeredEnvironment
             variableFactProgram (fun _ => false) noIO = Some outcome
           /\ errorsOf (fst outcome) = [factError (VariableInFact "X", 22)]).
Proof.
  split; [|split].
  - intros F report program fact Hfact [rel Hrel]. unfold checkFact.
    rewrite Hfact, Hrel. simpl. split; [|split; [|split]].
    + apply foldM_checkConstant_accepts, Forall_forall. intros a _.
      apply checkConstant_accepts.
    + apply foldM_checkConstant_spec, Forall_forall. intros a _. apply checkConstant_spec.
    + rewrite !forallb_forall. intros Hall a Ha. by apply acceptedInFact_reduces, Hall.
    + intros Hfree. rewrite forallb_forall in Hfree. split.
      * apply forallb_Forall_ext, List.Forall_forall. intros a Ha.
        by apply functorFree_agrees, Hfree.
      * apply flat_map_Forall_ext, List.Forall_forall. intros a Ha.
        by apply functorFree_agrees, Hfree.
  - intros F report program fact Hfact Hrel. unfold checkFact. by rewrite Hfact, Hrel.
  - split; [reflexivity|]. eexists. split; [vm_compute; reflexivity|reflexivity].
Qed.

(** ** C1: which clauses the type analysis skips *)

Lemma fold_left_valid {A} (f : bool -> A -> bool) (ok : A -> bool) (l : list A) :
  (forall v x, f v x = if ok x then v else false) ->
  forall v, fold_left f l v = v && forallb ok l.
Proof.
  intros Hf. induction l as [|x l IH]; intros v; simpl.
  - by rewrite andb_true_r.
  - rewrite IH, Hf. destruct (ok x); simpl; [done|]. by rewrite andb_false_r.
Qed.

Lemma isInvalidClause_forallb (program : AstProgram) (clause : AstClause) :
  isInvalidClause program clause =
    forallb (atomCanBeTyped program) (visitAtoms (nodesOfClause clause))
    && forallb (functorCanBeTyped program) (visitUserDefinedFunctors (nodesOfClause clause))
    && forallb (recordCanBeTyped program) (visitRecordInits (nodesOfClause clause))
    && forallb (castCanBeTyped program) (visitTypeCasts (nodesOfClause clause)).
Proof.
  unfold isInvalidClause.
  rewrite (fold_left_valid _ (castCanBeTyped program)).
  2: { intros v [[i t] x]. unfold castCanBeTyped. simpl.
       destruct (String.eqb t "symbol"), (String.eqb t "number"),
         (bool_decide (is_Some (getType program t))); reflexivity. }
  rewrite (fold_left_valid _ (recordCanBeTyped program)).
  2: { intros v [[i t] args]. unfold recordCanBeTyped. simpl.
       destruct (getType program t) as [[]|]; try reflexivity.
       destruct (Nat.eqb _ _); reflexivity. }
  rewrite (fold_left_valid _ (functorCanBeTyped program)).
  2: { intros v [[i f] args]. unfold functorCanBeTyped. simpl.
       destruct (getFunctorDeclaration program f); try reflexivity.
       destruct (Nat.eqb _ _); reflexivity. }
  rewrite (fold_left_valid _ (atomCanBeTyped program)).
  2: { intros v atom. unfold atomCanBeTyped.
       destruct (getRelation program (atomName atom)); try reflexivity.
       destruct (Nat.eqb _ _); simpl; reflexivity. }
  reflexivity.
Qed.

Lemma forallb_false_iff {A} (f : A -> bool) (l : list A) :
  forallb f l = false <-> exists x, In x l /\ f x = false.
Proof.
  induction l as [|x l IH]; simpl.
  - split; [done|]. intros (? & [] & _).
  - rewrite andb_false_iff, IH. split.
    + intros [Hx|(y & Hy & Hfy)]; [exists x; auto | exists y; auto].
    + intros (y & [<-|Hy] & Hfy); [auto | right; exists y; auto].
Qed.

Lemma atomCanBeTyped_false (program : AstProgram) (atom : AstAtom) :
  atomCanBeTyped program atom = false <->
    getRelation program (atomName atom) = None
    \/ (exists rel, getRelation program (atomName atom) = Some rel
          /\ getArity rel <> atomArity atom)
    \/ (exists rel attr, getRelation program (atomName atom) = Some rel
          /\ In attr (getAttributes rel)
          /\ ~ declaredTypeName program (getTypeName attr)).
Proof.
  unfold atomCanBeTyped, declaredTypeName.
  destruct (getRelation program (atomName atom)) as [rel|]; [|by split; auto].
  rewrite andb_false_iff, forallb_false_iff, Nat.eqb_neq. split.
  - intros [Hne|(attr & Hin & Hattr)].
    + right; left. eauto.
    + right; right. exists rel, attr. repeat split; [done|].
      rewrite !orb_false_iff in Hattr. destruct Hattr as [[Hs Hn] Ht].
      apply String.eqb_neq in Hs, Hn. apply bool_decide_eq_false in Ht.
      intros [?|[?|?]]; done.
  - intros [?|[(rel' & [= <-] & Hne)|(rel' & attr & [= <-] & Hin & Hattr)]]; [done|by left|].
    right. exists attr. split; [done|].
    rewrite !orb_false_iff. repeat split.
    + apply String.eqb_neq. tauto.
    + apply String.eqb_neq. tauto.
    + apply bool_decide_eq_false. tauto.
Qed.

Lemma isInvalidClause_spec (program : AstProgram) (clause : AstClause) :
  isInvalidClause program clause = false <-> unfitForTyping program clause.
Proof.
  rewrite isInvalidClause_forallb, !andb_false_iff, !forallb_false_iff.
  unfold unfitForTyping, referencesUndefinedRelation, hasAtomArityMismatch,
    usesUndeclaredAttributeType, callsBadUserFunctor, usesBadRecordConstructor,
    castsToUndeclaredType.
  split.
  - intros [[[(atom & Hin & Hf)|([[i f] args] & Hin & Hf)]|([[i t] args] & Hin & Hf)]
           |([[i t] v] & Hin & Hf)].
    + apply atomCanBeTyped_false in Hf as [Hf|[(rel & Hr & Hne)|(rel & attr & Hr & Ha & Hd)]].
      * left. eauto.
      * right; left. eauto 6.
      * right; right; left. eauto 8.
    + right; right; right; left. exists i, f, args. split; [done|].
      unfold functorCanBeTyped in Hf. simpl in Hf.
      destruct (getFunctorDeclaration program f) as [d|]; [|by left].
      right. exists d. split; [done|]. by apply Nat.eqb_neq.
    + right; right; right; right; left. exists i, t, args. split; [done|].
      unfold recordCanBeTyped in Hf. simpl in Hf.
      destruct (getType program t) as [[l n b|l n ts|l n fields]|]; try (by left).
      right. exists l, n, fields. split; [done|]. by apply Nat.eqb_neq.
    + right; right; right; right; right. exists i, t, v. split; [done|].
      unfold castCanBeTyped in Hf. simpl in Hf.
      rewrite !orb_false_iff in Hf. destruct Hf as [[Hs Hn] Ht].
      apply String.eqb_neq in Hs, Hn. apply bool_decide_eq_false in Ht.
      repeat split; [done|done|].
      destruct (getType program t); [|done]. exfalso. apply Ht. eauto.
  - intros [(atom & Hin & Hf)|[(atom & rel & Hin & Hr & Hne)
           |[(atom & rel & attr & Hin & Hr & Ha & Hd)
           |[(i & f & args & Hin & Hf)|[(i & t & args & Hin & Hf)
           |(i & t & v & Hin & Hs & Hn & Ht)]]]]].
    + left; left; left. exists atom. split; [done|]. apply atomCanBeTyped_false. auto.
    + left; left; left. exists atom. split; [done|]. apply atomCanBeTyped_false. eauto.
    + left; left; left. exists atom. split; [done|]. apply atomCanBeTyped_false.
      right; right. eauto.
    + left; left; right. exists (i, f, args). split; [done|].
      unfold functorCanBeTyped. simpl.
      destruct Hf as [->|(d & -> & Hne)]; [done|]. by apply Nat.eqb_neq.
    + left; right. exists (i, t, args). split; [done|].
      unfold recordCanBeTyped. simpl.
      destruct Hf as [Hno|(l & n & fields & -> & Hne)]; [|by apply Nat.eqb_neq].
      destruct (getType program t) as [[l n b|l n ts|l n fields]|]; try done.
      by destruct (Hno l n fields).
    + right. exists (i, t, v). split; [done|].
      unfold castCanBeTyped. simpl. rewrite Ht.
      apply String.eqb_neq in Hs, Hn. rewrite Hs, Hn. done.
Qed.

Section TypeAnalysisRun.
Context {AnalysisType : Type} `{TypeLattice AnalysisType} `{FunctorOpInfo}.

Lemma runClause_stuck fuel program (l : list AstClause) acc :
  (forall ta, acc <> Some (Some ta)) ->
  fold_left (runClause fuel program) l acc = acc.
Proof.
  intros Hacc. induction l as [|c l IH]; simpl; [done|].
  destruct acc as [[ta|]|]; [by destruct (Hacc ta)| |]; exact IH.
Qed.

Lemma run_fold_spec fuel program (l : list AstClause) :
  forall ta0 ta,
    fold_left (runClause fuel program) l (Some (Some ta0)) = Some (Some ta) ->
    typedClauses ta = typedClauses ta0 ++ List.filter (isInvalidClause program) l
    /\ hasInvalidClauses ta =
         hasInvalidClauses ta0 || existsb (fun c => negb (isInvalidClause program c)) l.
Proof.
  induction l as [|c l IH]; intros ta0 ta; simpl.
  - intros [= <-]. by rewrite app_nil_r, orb_false_r.
  - destruct (isInvalidClause program c) eqn:Ec; simpl.
    + destruct (newTypeSolver fuel program c) as [[solver|]|].
      * destruct (storeSolutions c solver (typeSolutions ta0)) as [sol|]; simpl.
        -- intros Hf. apply IH in Hf as [-> ->]. simpl. by rewrite <- app_assoc.
        -- rewrite runClause_stuck by done. done.
      * rewrite runClause_stuck by done. done.
      * rewrite runClause_stuck by done. done.
    + intros Hf. apply IH in Hf as [-> ->]. simpl. by rewrite orb_true_r.
Qed.

Lemma storeSolutions_fold (args : list AstArgument) :
  forall (solutions : gmap nat AnalysisType) (solver : TypeSolver AnalysisType) solutions' solver',
    fold_left (fun acc arg =>
                 '(solutions, solver) ← acc;
                 '(t, solver) ← getType_solver solver arg;
                 Some (<[getAddr arg := t]> solutions, solver))
      args (Some (solutions, solver)) = Some (solutions', solver') ->
    (forall k, is_Some (solutions !! k) -> is_Some (solutions' !! k))
    /\ (forall a, In a args -> is_Some (solutions' !! getAddr a)).
Proof.
  induction args as [|x args IH]; intros solutions solver solutions' solver'; simpl.
  - intros [= <- <-]. by split.
  - destruct (getType_solver solver x) as [[t s1]|] eqn:E; simpl.
    + intros Hrest. apply IH in Hrest as [Hkeep Hall].
      assert (is_Some (solutions' !! getAddr x)) as Hx
        by (apply Hkeep; rewrite lookup_insert_eq; eauto).
      split.
      * intros k Hk. apply Hkeep.
        destruct (decide (getAddr x = k)) as [<-|Hne];
          [rewrite lookup_insert_eq; eauto|by rewrite lookup_insert_ne].
      * intros a [<-|Ha]; [done|by apply Hall].
    + intros Hrest. exfalso. revert Hrest. clear.
      induction args as [|y args IH]; simpl; [done|exact IH].
Qed.

Lemma storeSolutions_spec (clause : AstClause) (solver : TypeSolver AnalysisType)
    (solutions solutions' : gmap nat AnalysisType) :
  storeSolutions clause solver solutions = Some solutions' ->
  (forall k, is_Some (solutions !! k) -> is_Some (solutions' !! k))
  /\ (forall a, In a (visitArguments (nodesOfClause clause)) ->
        is_Some (solutions' !! getAddr a)).
Proof.
  unfold storeSolutions.
  destruct (fold_left _ _ _) as [[sol s]|] eqn:E; simpl; [|done].
  intros [= <-]. by eapply storeSolutions_fold.
Qed.

Lemma run_fold_types fuel program (l : list AstClause) :
  forall ta0 ta,
    (forall clause arg, In clause (typedClauses ta0) ->
                        In arg (visitArguments (nodesOfClause clause)) ->
                        is_Some (typeSolutions ta0 !! getAddr arg)) ->
    fold_left (runClause fuel program) l (Some (Some ta0)) = Some (Some ta) ->
    forall clause arg, In clause (typedClauses ta) ->
                       In arg (visitArguments (nodesOfClause clause)) ->
                       is_Some (typeSolutions ta !! getAddr arg).
Proof.
  induction l as [|c l IH]; intros ta0 ta Hinv; simpl.
  - by intros [= <-].
  - destruct (isInvalidClause program c) eqn:Ec; simpl.
    + destruct (newTypeSolver fuel program c) as [[solver|]|].
      * destruct (storeSolutions c solver (typeSolutions ta0)) as [sol|] eqn:Es; simpl.
        -- apply IH. simpl. apply storeSolutions_spec in Es as [Hkeep Hall].
           intros clause arg Hin Harg. apply in_app_iff in Hin as [Hin|[<-|[]]].
           ++ apply Hkeep. by eapply Hinv.
           ++ by apply Hall.
        -- rewrite runClause_stuck by done. done.
      * rewrite runClause_stuck by done. done.
      * rewrite runClause_stuck by done. done.
    + apply IH. simpl. exact Hinv.
Qed.

(** C1. Whenever the analysis returns: when the lattice is valid, a
    clause of a declared relation is left out of the typed clauses, with
    the invalid-clauses flag set, if and only if it references an
    undefined relation, has an atom-arity mismatch, uses an attribute of
    an undeclared type, calls an undefined or wrong-arity user-defined
    functor, uses a record constructor that names no record type or has
    the wrong number of arguments, or casts to an undeclared type; every
    other clause of a declared relation is typed.  No other clause is
    ever typed: an orphan clause is not visited, and with an invalid
    lattice no clause is.  The flag is set exactly when the lattice is
    valid and some clause of a declared relation is unfit. *)
Theorem skipped_clauses_are_the_unfit_ones (fuel : nat) (program : AstProgram)
    (ta : TypeAnalysis AnalysisType) (clause : AstClause) :
  run fuel program = Some (Some ta) ->
  (isValid = true -> In clause (relationClauses program) ->
   ((~ In clause (typedClauses ta) /\ hasInvalidClauses ta = true)
      <-> unfitForTyping program clause)
   /\ (~ unfitForTyping program clause -> In clause (typedClauses ta)))
  /\ (In clause (typedClauses ta) ->
      isValid = true /\ In clause (relationClauses program)
      /\ ~ unfitForTyping program clause)
  /\ (hasInvalidClauses ta = true <->
      isValid = true
      /\ exists unfit, In unfit (relationClauses program) /\ unfitForTyping program unfit).
Proof.
  intros Hrun. unfold run in Hrun. destruct isValid eqn:Hvalid.
  - apply run_fold_spec in Hrun as [Htyped Hflag]. simpl in Htyped, Hflag.
    rewrite Htyped, Hflag. clear Htyped Hflag. split; [|split].
    + intros _ Hin. rewrite <- isInvalidClause_spec, filter_In. split; [split|].
      * intros [Hnot _]. destruct (isInvalidClause program clause); [|done].
        exfalso. apply Hnot. auto.
      * intros Hc. split.
        -- intros [_ Habs]. congruence.
        -- apply existsb_exists. exists clause. split; [done|]. by rewrite Hc.
      * intros Hc. split; [done|]. by destruct (isInvalidClause program clause).
    + rewrite filter_In. intros [Hin Hc]. split; [done|]. split; [done|].
      rewrite <- isInvalidClause_spec. congruence.
    + rewrite existsb_exists. split.
      * intros (c & Hin & Hc). split; [done|]. exists c. split; [done|].
        apply isInvalidClause_spec. by destruct (isInvalidClause program c).
      * intros (_ & c & Hin & Hc). exists c. split; [done|].
        apply isInvalidClause_spec in Hc. by rewrite Hc.
  - injection Hrun as <-. simpl. split; [done|]. split; [done|].
    split; [done|]. by intros [? _].
Qed.

End TypeAnalysisRun.

(** ** C10: the configuration *)

Lemma unsetEngineIf_compose b1 b2 config :
  unsetEngineIf b1 (unsetEngineIf b2 config) = unsetEngineIf (b2 || b1) config.
Proof.
  unfold unsetEngineIf, config_unset. destruct b1, b2; simpl; try done.
  apply delete_delete_eq.
Qed.

Lemma fold_left_config {A} (f : ErrorReport * Config -> A -> ErrorReport * Config)
    (t : A -> bool) (l : list A) :
  (forall st x, snd (f st x) = unsetEngineIf (t x) (snd st)) ->
  forall st, snd (fold_left f l st) = unsetEngineIf (existsb t l) (snd st).
Proof.
  intros Hf. induction l as [|x l IH]; intros st; simpl; [done|].
  by rewrite IH, Hf, unsetEngineIf_compose.
Qed.

Lemma foldM_config {A} (f : ErrorReport * Config -> A -> option (ErrorReport * Config))
    (t : A -> bool) (l : list A) :
  (forall st x st', f st x = Some st' -> snd st' = unsetEngineIf (t x) (snd st)) ->
  forall st st', foldM f l st = Some st' ->
    snd st' = unsetEngineIf (existsb t l) (snd st).
Proof.
  intros Hf. induction l as [|x l IH]; intros st st'.
  - rewrite foldM_nil. by intros [= <-].
  - rewrite foldM_cons. destruct (f st x) as [st1|] eqn:E; simpl; [|done].
    intros Hl. apply IH in Hl. apply Hf in E.
    by rewrite Hl, E, unsetEngineIf_compose.
Qed.

Lemma existsb_lookup_seq {A} (t : A -> bool) (l : list A) :
  existsb (fun i => match l !! i with Some a => t a | None => false end) (seq 0 (length l))
  = existsb t l.
Proof.
  apply eq_true_iff_eq. rewrite !existsb_exists. split.
  - intros (i & _ & Hi). destruct (l !! i) as [a|] eqn:E; [|done].
    exists a. split; [|done]. apply list_elem_of_In, list_elem_of_lookup. eauto.
  - intros (a & Hin & Ha). apply list_elem_of_In, list_elem_of_lookup in Hin as [i Hi].
    exists i. split.
    + apply in_seq. apply lookup_lt_Some in Hi. lia.
    + by rewrite Hi.
Qed.

Lemma checkRelationDeclaration_config r config typeEnv program relation ioTypes :
  snd (checkRelationDeclaration r config typeEnv program relation ioTypes)
  = unsetEngineIf
      (existsb (fun attr => isRecordTypeName typeEnv (getTypeName attr))
         (getAttributes relation)) config.
Proof.
  unfold checkRelationDeclaration, getArity.
  rewrite <- existsb_lookup_seq.
  apply (fold_left_config _ _ _) with (st := (r, config)).
  intros [r0 c0] i. simpl.
  destruct (getAttributes relation !! i) as [attr|]; [|done].
  unfold isRecordTypeName.
  destruct (typeEnv (getTypeName attr)) as [ty|]; [|done].
  destruct (isRecordType ty); done.
Qed.

Lemma checkRelation_config `{FunctorOpInfo} r config typeEnv program relation rec ioTypes st' :
  checkRelation r config typeEnv program relation rec ioTypes = Some st' ->
  snd st' = unsetEngineIf
              (existsb (fun attr => isRecordTypeName typeEnv (getTypeName attr))
                 (getAttributes relation)) config.
Proof.
  unfold checkRelation.
  pose proof (checkRelationDeclaration_config (checkEquivalence r relation) config typeEnv
                program relation ioTypes) as Hd.
  destruct (checkRelationDeclaration _ _ _ _ _ _) as [r1 c1]. simpl in Hd.
  match goal with |- (?m ≫= _) = _ -> _ => destruct m as [r2|] end; simpl; [|done].
  by intros [= <-].
Qed.

Lemma checkRules_config `{FunctorOpInfo} r config typeEnv program rec ioTypes st' :
  checkRules r config typeEnv program rec ioTypes = Some st' ->
  snd st' = unsetEngineIf (hasRecordTypedAttribute typeEnv program) config.
Proof.
  unfold checkRules.
  match goal with |- (?m ≫= _) = _ -> _ => destruct m as [st1|] eqn:E1 end; simpl; [|done].
  match goal with |- (?m ≫= _) = _ -> _ => destruct m as [r2|] end; simpl; [|done].
  intros [= <-]. simpl.
  eapply (foldM_config _ _ _) in E1; [exact E1|].
  intros st x st'. apply checkRelation_config.
Qed.

Lemma existsb_const_false {A} (l : list A) : existsb (fun _ => false) l = false.
Proof. induction l; simpl; auto. Qed.

Lemma existsb_const_true {A} (l : list A) :
  existsb (fun _ => true) l = match l with [] => false | _ => true end.
Proof. destruct l; reflexivity. Qed.

Lemma checkIODirectives_config USE_MPI r config program :
  snd (checkIODirectives USE_MPI r config program)
  = unsetEngineIf (USE_MPI && hasSqliteDirective program) config.
Proof.
  unfold checkIODirectives, hasSqliteDirective.
  assert (forall l st, snd (fold_left (checkIODirective USE_MPI program) l st)
            = unsetEngineIf (USE_MPI && existsb isSqliteDirective l) (snd st)) as Hl.
  { intros l st. destruct USE_MPI; simpl.
    - apply fold_left_config. intros [r0 c0] d. unfold isSqliteDirective. simpl.
      destruct (getIODirectiveMap d !! "IO") as [v|]; [|done].
      by destruct (String.eqb v "sqlite").
    - rewrite (fold_left_config _ (fun _ => false)); [by rewrite existsb_const_false|].
      by intros [r0 c0] d. }
  rewrite !Hl. simpl. rewrite !unsetEngineIf_compose, !existsb_app.
  by rewrite <- !andb_orb_distrib_r, orb_assoc.
Qed.

Lemma checkTypeUsage_config `{AstDomainBounds} r config typeEnv program :
  snd (checkTypeUsage r config typeEnv program)
  = unsetEngineIf (hasRecordConstructor program) config.
Proof.
  unfold checkTypeUsage, hasRecordConstructor.
  rewrite <- existsb_const_true.
  match goal with
  | |- snd (let '(_, _) := fold_left ?f ?l ?st in _) = _ =>
      assert (snd (fold_left f l st) = unsetEngineIf (existsb (fun _ => true) l) (snd st))
        as Hf;
      [|destruct (fold_left f l st) as [r1 c1] eqn:E]
  end.
  - apply fold_left_config. intros [r0 c0] [[i t] args]. simpl.
    destruct (typeEnv t) as [[]|]; try done. by destruct (negb _).
  - simpl in *. done.
Qed.

Lemma map_conditionally_suppressed {B} (g : AstRelation -> B) (c : AstRelation -> bool)
    (rels : list AstRelation) :
  (forall r, g (setSuppressed r) = g r) ->
  map g (map (fun r => if c r then setSuppressed r else r) rels) = map g rels.
Proof.
  intros Hg. rewrite map_map. apply map_ext. intros r. destruct (c r); auto.
Qed.

Lemma suppressWarnings_relations {B} (g : AstRelation -> B) config program :
  (forall r, g (setSuppressed r) = g r) ->
  map g (getRelations (suppressWarnings config program)) = map g (getRelations program).
Proof.
  intros Hg. unfold suppressWarnings.
  destruct (config_has config "suppress-warnings"); [|done].
  destruct (existsb _ _); simpl.
  - apply (map_conditionally_suppressed g (fun _ => true)), Hg.
  - generalize (splitString (config_get config "suppress-warnings") ",").
    intros names. generalize (getRelations program).
    induction names as [|n names IH]; intros rels; simpl; [done|].
    rewrite IH. destruct (splitString n "."); [done|].
    destruct (List.find _ rels); [|done].
    by apply map_conditionally_suppressed.
Qed.

Lemma existsb_map_compose {A B} (f : B -> bool) (g : A -> B) (l : list A) :
  existsb f (map g l) = existsb (fun x => f (g x)) l.
Proof. induction l; simpl; congruence. Qed.

Lemma suppressWarnings_unsetsEngine USE_MPI typeEnv config program :
  unsetsEngine USE_MPI typeEnv (suppressWarnings config program)
  = unsetsEngine USE_MPI typeEnv program.
Proof.
  unfold unsetsEngine. f_equal; [f_equal|f_equal].
  - unfold hasRecordTypedAttribute.
    rewrite <- !(existsb_map_compose
                   (existsb (fun attr => isRecordTypeName typeEnv (getTypeName attr)))
                   getAttributes).
    by rewrite suppressWarnings_relations.
  - unfold hasRecordConstructor, relationClauses.
    rewrite !flat_map_concat_map. by rewrite suppressWarnings_relations.
  - unfold hasSqliteDirective, suppressWarnings.
    destruct (config_has _ _); [|done]. by destruct (existsb (String.eqb "*") _).
Qed.

(** C10. Whenever [checkProgram] returns, the configuration it
    leaves is the initial one with at most the key ["engine"] removed,
    and the key is removed exactly when a declared relation has an
    attribute of a record type, or a clause of a declared relation
    contains a record constructor, or (in a build with [USE_MPI]) an IO
    directive asks for sqlite; every other key keeps its value. *)
Theorem checkProgram_configuration `{FunctorOpInfo} `{AstDomainBounds} `{GroundAnalysis}
    `{DependencyQueries} `{ReportPasses} (USE_MPI : bool)
    (report : ErrorReport) (config : Config) (ws : WitnessState) (program : AstProgram)
    (typeEnv : TypeEnvironment) (precedenceGraph : PrecedenceGraph)
    (recursiveClauses : AstClause -> bool) (ioTypes : IOType)
    (report' : ErrorReport) (config' : Config) :
  checkProgram USE_MPI report config ws program typeEnv precedenceGraph
    recursiveClauses ioTypes = Some (report', config') ->
  config' = (if unsetsEngine USE_MPI typeEnv program
             then config_unset config "engine" else config)
  /\ (forall k, k <> "engine" -> config' !! k = config !! k).
Proof.
  intros Hc.
  assert (config' = unsetEngineIf (unsetsEngine USE_MPI typeEnv program) config) as ->.
  { rewrite <- (suppressWarnings_unsetsEngine USE_MPI typeEnv config program).
    revert Hc. unfold checkProgram.
    generalize (suppressWarnings config program). intros p.
    destruct (checkTypes report p) as [r1|]; simpl; [|done].
    destruct (checkRules r1 config typeEnv p recursiveClauses ioTypes) as [[r2 c2]|] eqn:E2;
      simpl; [|done].
    apply checkRules_config in E2. simpl in E2.
    destruct (checkNamespaces r2 p) as [r3|]; simpl; [|done].
    pose proof (checkIODirectives_config USE_MPI r3 c2 p) as E4.
    destruct (checkIODirectives USE_MPI r3 c2 p) as [r4 c4]. simpl in E4.
    destruct (checkWitnessProblem r4 p ws) as [r5 ws5].
    destruct (checkInlining r5 p precedenceGraph ioTypes) as [r6|]; simpl; [|done].
    destruct (checkGroundedness r6 p) as [r7|]; simpl; [|done].
    pose proof (checkTypeUsage_config r7 c4 typeEnv p) as E8.
    destruct (checkTypeUsage r7 c4 typeEnv p) as [r8 c8]. simpl in E8.
    destruct (checkTypeCorrectness r8 p) as [r9|]; simpl; [|done].
    intros [= _ <-]. rewrite E8, E4, E2, !unsetEngineIf_compose.
    unfold unsetsEngine. f_equal.
    destruct (hasRecordTypedAttribute typeEnv p), (hasRecordConstructor p),
      (USE_MPI && hasSqliteDirective p); reflexivity. }
  split; [done|].
  intros k Hk. unfold unsetEngineIf, config_unset.
  destruct (unsetsEngine _ _ _); [|done]. by apply lookup_delete_ne.
Qed.

(** ** C3: stratification *)

Lemma flat_map_eq_nil {A B} (f : A -> list B) (l : list A) :
  (forall x, In x l -> f x = []) -> flat_map f l = [].
Proof.
  induction l as [|x l IH]; simpl; [done|]. intros Hf.
  rewrite (Hf x), IH; auto.
Qed.

Section Stratification.
Context `{DependencyQueries}.

Lemma checkStratification_flat_map report program g :
  checkStratification report program g
  = report ++ flat_map (stratificationDiagnosticsOf program g) (vertices g).
Proof.
  unfold checkStratification. generalize (vertices g) as vs. intros vs. revert report.
  induction vs as [|cur vs IH]; intros report; simpl; [by rewrite app_nil_r|].
  rewrite IH. unfold stratificationDiagnosticsOf at 2.
  destruct (reaches g cur cur); [|done].
  destruct (findUnstratified program cur (clique g cur)) as [[[r neg] lit]|]; [|done].
  unfold addDiagnostic. by rewrite <- app_assoc.
Qed.

Lemma findUnstratified_None program cur (cl : list AstRelation) :
  findUnstratified program cur cl = None <->
    forall r, In r cl -> ~ dependsUnstratified program r cur.
Proof.
  unfold dependsUnstratified. induction cl as [|r cl IH]; simpl.
  - split; [intros _ r []|done].
  - destruct (hasClauseWithNegatedRelation r cur program) as [l1|] eqn:E1.
    { split; [done|]. intros Hall. exfalso. apply (Hall r); [by left|].
      left. rewrite E1. eauto. }
    destruct (hasClauseWithAggregatedRelation r cur program) as [l2|] eqn:E2.
    { split; [done|]. intros Hall. exfalso. apply (Hall r); [by left|].
      right. rewrite E2. eauto. }
    rewrite IH. split.
    + intros Hall r' [<-|Hin]; [|by apply Hall].
      rewrite E1, E2. intros [[? [=]]|[? [=]]].
    + intros Hall r' Hin. apply Hall. by right.
Qed.

Lemma findUnstratified_Some program cur (cl : list AstRelation) r neg lit :
  findUnstratified program cur cl = Some (r, neg, lit) ->
  In r cl
  /\ (if neg then hasClauseWithNegatedRelation r cur program = Some lit
      else hasClauseWithNegatedRelation r cur program = None
           /\ hasClauseWithAggregatedRelation r cur program = Some lit).
Proof.
  induction cl as [|r0 cl IH]; simpl; [done|].
  destruct (hasClauseWithNegatedRelation r0 cur program) as [l1|] eqn:E1.
  { intros [= -> <- <-]. auto. }
  destruct (hasClauseWithAggregatedRelation r0 cur program) as [l2|] eqn:E2.
  { intros [= -> <- <-]. auto. }
  intros Hf. apply IH in Hf as [Hin Hd]. auto.
Qed.

(** C3. Given the contract of the precedence graph, the stratification
    check adds no diagnostic if and only if, for every vertex on a cycle,
    no relation of its clique depends on a relation of that clique via
    negation or aggregation; and every diagnostic it adds is the one that
    lists the members of the clique of a vertex on a cycle and points at
    the literal found for a relation of that clique. *)
Theorem stratification_accepts_iff (report : ErrorReport) (program : AstProgram)
    (g : PrecedenceGraph) :
  PrecedenceGraphContract g ->
  (checkStratification report program g = report <->
     forall cur, In cur (vertices g) -> reaches g cur cur = true ->
       forall r s, In r (clique g cur) -> In s (clique g cur) ->
         ~ dependsUnstratified program r s)
  /\ exists ds,
       checkStratification report program g = report ++ ds
       /\ Forall (fun d =>
            exists cur r hasNegation foundLiteral,
              In cur (vertices g) /\ reaches g cur cur = true /\ In r (clique g cur)
              /\ (if hasNegation : bool
                  then hasClauseWithNegatedRelation r cur program = Some foundLiteral
                  else hasClauseWithNegatedRelation r cur program = None
                       /\ hasClauseWithAggregatedRelation r cur program = Some foundLiteral)
              /\ d = stratificationDiagnostic cur (clique g cur) hasNegation foundLiteral
              /\ msgText (diagPrimary d) =
                   "Unable to stratify relation(s) {"
                   +:+ String.concat "," (map (fun x => toString (relName x)) (clique g cur))
                   +:+ "}"
              /\ map msgLoc (diagAdditional d) =
                   [Some (relSrcLoc cur); Some (literalSrcLoc foundLiteral)]) ds.
Proof.
  intros [Htrans Hclique]. rewrite checkStratification_flat_map. split.
  - split.
    + intros Heq cur Hcur Hcyc r s Hr Hs.
      assert (flat_map (stratificationDiagnosticsOf program g) (vertices g) = []) as Hnil.
      { apply (f_equal length) in Heq. rewrite length_app in Heq.
        destruct (flat_map _ _); [done|simpl in Heq; lia]. }
      assert (forall v, In v (vertices g) -> reaches g v v = true ->
                findUnstratified program v (clique g v) = None) as Hnone.
      { intros v Hv Hvv.
        assert (stratificationDiagnosticsOf program g v = []) as Hd.
        { destruct (stratificationDiagnosticsOf program g v) as [|d ds] eqn:Ed; [done|].
          exfalso. assert (In d []) as []. rewrite <- Hnil.
          apply in_flat_map. exists v. split; [done|]. rewrite Ed. by left. }
        unfold stratificationDiagnosticsOf in Hd. rewrite Hvv in Hd.
        by destruct (findUnstratified program v (clique g v)) as [[[? ?] ?]|]. }
      (* s is a vertex on a cycle and r is in its clique *)
      assert (In s (vertices g) /\ reaches g s s = true
              /\ reaches g cur s = true /\ reaches g s cur = true) as (Hsv & Hss & Hcs & Hsc).
      { apply Hclique in Hs as [->|(Hsv & Hcs & Hsc)]; [done| |done].
        repeat split; eauto. }
      assert (In r (clique g s)) as Hrs.
      { apply Hclique; [done|]. apply Hclique in Hr as [->|(Hrv & Hcr & Hrc)]; [| |done].
        - right. auto.
        - right. repeat split; eauto. }
      specialize (Hnone s Hsv Hss). rewrite findUnstratified_None in Hnone. by apply Hnone.
    + intros Hall.
      assert (flat_map (stratificationDiagnosticsOf program g) (vertices g) = []) as ->;
        [|by rewrite app_nil_r].
      apply flat_map_eq_nil. intros cur Hcur.
      unfold stratificationDiagnosticsOf.
      destruct (reaches g cur cur) eqn:Hcyc; [|done].
      assert (findUnstratified program cur (clique g cur) = None) as ->; [|done].
      apply findUnstratified_None. intros r Hr. apply (Hall cur); try done.
      apply Hclique; [done|]. by left.
  - eexists. split; [reflexivity|].
    apply List.Forall_forall. intros d Hd.
    apply in_flat_map in Hd as (cur & Hcur & Hd).
    unfold stratificationDiagnosticsOf in Hd.
    destruct (reaches g cur cur) eqn:Hcyc; [|done].
    destruct (findUnstratified program cur (clique g cur)) as [[[r neg] lit]|] eqn:Ef; [|done].
    destruct Hd as [<-|[]]. apply findUnstratified_Some in Ef as [Hr Hdep].
    exists cur, r, neg, lit. repeat split; try done.
Qed.

End Stratification.

(** ** The solver: representatives *)

Section SolverProperties.
Context {AnalysisType : Type} `{TypeLattice AnalysisType} `{FunctorOpInfo}.

Lemma getRepresentative_spec (s : TypeSolver AnalysisType) (a : AstArgument) r s' :
  getRepresentative s a = (r, s') ->
  r = repOf (representatives s') a
  /\ representatives s ⊆ representatives s'
  /\ typeMapping s' = typeMapping s
  /\ constraints s' = constraints s.
Proof.
  unfold getRepresentative, repOf.
  destruct a; try (intros [= <- <-]; done).
  destruct (representatives s !! name) as [r0|] eqn:E.
  - intros [= <- <-]. by rewrite E.
  - intros [= <- <-]. simpl. rewrite lookup_insert_eq. simpl.
    repeat split; try done. by apply insert_subseteq.
Qed.

(** Once an argument has been looked up, any later table gives the
    same representative and is left as it is. *)
Lemma getRepresentative_stable (s : TypeSolver AnalysisType) (a : AstArgument) r s' :
  getRepresentative s a = (r, s') ->
  forall s'' : TypeSolver AnalysisType, representatives s' ⊆ representatives s'' ->
    getRepresentative s'' a = (r, s'').
Proof.
  unfold getRepresentative.
  destruct a; try (intros [= <- <-]; done).
  destruct (representatives s !! name) as [r0|] eqn:E.
  - intros [= <- <-] s'' Hsub.
    by rewrite (lookup_weaken _ _ _ _ E Hsub).
  - intros [= <- <-] s'' Hsub. simpl in Hsub.
    assert (representatives s'' !! name = Some (AstVariable i name)) as ->; [|done].
    eapply lookup_weaken; [|exact Hsub]. apply lookup_insert_eq.
Qed.

Lemma getRepresentative_idem (s : TypeSolver AnalysisType) (a : AstArgument) r s' :
  getRepresentative s a = (r, s') -> getRepresentative s' a = (r, s').
Proof. intros Hg. by eapply getRepresentative_stable. Qed.

Lemma addConstraint_representatives (s : TypeSolver AnalysisType) c :
  representatives (addConstraint s c) = representatives s.
Proof. done. Qed.

Lemma In_addConstraint (s : TypeSolver AnalysisType) c c' :
  In c' (constraints (addConstraint s c)) <-> In c' (constraints s) \/ c' = c.
Proof.
  unfold addConstraint. simpl. rewrite in_app_iff. simpl. split.
  - intros [?|[ <- | [] ]]; auto.
  - intros [?| ->]; auto.
Qed.

(** *** The loop of [visitAtom] *)

Lemma atomArgumentConstraints_spec (args : list AstArgument) :
  forall (attrs : list AstAttribute) (s : TypeSolver AnalysisType),
    let s' := atomArgumentConstraints args attrs s in
    representatives s ⊆ representatives s'
    /\ (forall c, In c (constraints s) -> In c (constraints s'))
    /\ (forall i a attr, args !! i = Some a -> attrs !! i = Some attr ->
          In (Fixed (mkFixedConstraint (fst (getRepresentative s' a))
                       (getAnalysisType (getTypeName attr))))
             (constraints s')).
Proof.
  induction args as [|a args IH]; intros attrs s; simpl; [by repeat split|].
  destruct attrs as [|attr attrs]; simpl; [by repeat split|].
  destruct (getRepresentative s a) as [r s1] eqn:E1.
  pose proof (getRepresentative_spec _ _ _ _ E1) as (_ & Hsub1 & _ & Hc1).
  specialize (IH attrs
    (addConstraint s1 (Fixed (mkFixedConstraint r (getAnalysisType (getTypeName attr)))))).
  simpl in IH. destruct IH as (Hsub & Hcs & Hfix).
  repeat split.
  - etrans; [exact Hsub1|]. exact Hsub.
  - intros c Hc. apply Hcs, In_addConstraint. left. by rewrite Hc1.
  - intros [|i] a' attr'; simpl.
    + intros [= <-] [= <-].
      erewrite getRepresentative_stable; [|exact E1|exact Hsub]. simpl.
      apply Hcs, In_addConstraint. by right.
    + apply Hfix.
Qed.

End SolverProperties.

(** ** C8: the head atom *)

Lemma visitAtoms_app (l1 l2 : list AstNode) :
  visitAtoms (l1 ++ l2) = visitAtoms l1 ++ visitAtoms l2.
Proof. unfold visitAtoms. apply omap_app. Qed.

Lemma visitAtoms_flat_map_In {A} (f : A -> list AstNode) (l : list A) x atom :
  In x l -> In atom (visitAtoms (f x)) -> In atom (visitAtoms (flat_map f l)).
Proof.
  induction l as [|y l IH]; simpl; [done|]. rewrite visitAtoms_app, in_app_iff.
  intros [->|Hin] Ha; auto.
Qed.

Lemma fold_left_bind_ext {A S} (f g : A -> S -> option S) (l : list A) :
  Forall (fun a => forall s, f a s = g a s) l ->
  forall acc, fold_left (fun acc a => acc ≫= f a) l acc
              = fold_left (fun acc a => acc ≫= g a) l acc.
Proof.
  induction 1 as [|a l Ha _ IH]; intros acc; simpl; [done|].
  rewrite IH. destruct acc as [s|]; simpl; [by rewrite Ha|done].
Qed.

Section HeadAtom.
Context {AnalysisType : Type} `{TypeLattice AnalysisType} `{FunctorOpInfo}.

(** Two programs that declare the same functors and agree on the
    relations of the atoms below a node generate the same constraints
    for the node. *)
Lemma visit_agree_mutual (program program' : AstProgram) :
  (forall f, getFunctorDeclaration program f = getFunctorDeclaration program' f) ->
  (forall a, (forall atom, In atom (visitAtoms (nodesOfArgument a)) ->
                getRelation program (atomName atom) = getRelation program' (atomName atom)) ->
             forall s : TypeSolver AnalysisType,
               visitArgument program a s = visitArgument program' a s)
  /\ (forall a, (forall atom, In atom (visitAtoms (nodesOfAtom a)) ->
                getRelation program (atomName atom) = getRelation program' (atomName atom)) ->
             forall s : TypeSolver AnalysisType, visitAtom program a s = visitAtom program' a s)
  /\ (forall l, (forall atom, In atom (visitAtoms (nodesOfLiteral l)) ->
                getRelation program (atomName atom) = getRelation program' (atomName atom)) ->
             forall s : TypeSolver AnalysisType,
               visitLiteral program l s = visitLiteral program' l s).
Proof.
  intros Hfun.
  assert (forall args : list AstArgument,
            Forall (fun a =>
              (forall atom, In atom (visitAtoms (nodesOfArgument a)) ->
                 getRelation program (atomName atom) = getRelation program' (atomName atom)) ->
              forall s : TypeSolver AnalysisType,
                visitArgument program a s = visitArgument program' a s) args ->
            (forall atom, In atom (visitAtoms (flat_map nodesOfArgument args)) ->
               getRelation program (atomName atom) = getRelation program' (atomName atom)) ->
            forall acc : option (TypeSolver AnalysisType),
              fold_left (fun acc a => acc ≫= visitArgument program a) args acc
              = fold_left (fun acc a => acc ≫= visitArgument program' a) args acc) as Hargs.
  { intros args Hall Hagree. apply fold_left_bind_ext.
    rewrite List.Forall_forall in *. intros a Ha s. apply Hall; [done|].
    intros atom Hatom. apply Hagree. by eapply visitAtoms_flat_map_In. }
  set (agree := fun ns : list AstNode =>
         forall atom, In atom (visitAtoms ns) ->
           getRelation program (atomName atom) = getRelation program' (atomName atom)).
  cut ((forall a, agree (nodesOfArgument a) ->
          forall s : TypeSolver AnalysisType,
            visitArgument program a s = visitArgument program' a s)
       /\ (forall a,
             (agree (nodesOfAtom a) ->
              forall s : TypeSolver AnalysisType, visitAtom program a s = visitAtom program' a s)
             /\ (agree (flat_map nodesOfArgument (atomArguments a)) ->
                 forall acc : option (TypeSolver AnalysisType),
                   fold_left (fun acc a => acc ≫= visitArgument program a) (atomArguments a) acc
                   = fold_left (fun acc a => acc ≫= visitArgument program' a)
                       (atomArguments a) acc))
       /\ (forall l, agree (nodesOfLiteral l) ->
             forall s : TypeSolver AnalysisType,
               visitLiteral program l s = visitLiteral program' l s)).
  { intros (Ha & Hq & Hl). split; [exact Ha|]. split; [|exact Hl]. intros a. apply Hq. }
  apply Ast_mutual_ind; unfold agree; simpl; try done.
  - (* type cast *)
    intros i t v IH Hagree s. rewrite IH; [done|]. exact Hagree.
  - (* intrinsic functor *)
    intros i f args IH Hagree s. by rewrite Hargs.
  - (* user-defined functor *)
    intros i f args IH Hagree s. by rewrite Hargs, Hfun.
  - (* record *)
    intros i t args IH Hagree s. by rewrite Hargs.
  - (* aggregator *)
    intros i op e body IHe IHbody Hagree s.
    assert (match e with Some x => visitArgument program x s | None => Some s end
            = match e with Some x => visitArgument program' x s | None => Some s end) as ->.
    { destruct e as [x|]; [|done]. apply (IHe x eq_refl).
      intros atom Hatom. apply Hagree. rewrite visitAtoms_app, in_app_iff. by left. }
    assert (forall acc : option (TypeSolver AnalysisType),
              fold_left (fun acc l => acc ≫= visitLiteral program l) body acc
              = fold_left (fun acc l => acc ≫= visitLiteral program' l) body acc) as Hbody.
    { apply fold_left_bind_ext. rewrite List.Forall_forall in *. intros l Hl s0.
      apply IHbody; [done|]. intros atom Hatom. apply Hagree.
      rewrite visitAtoms_app, in_app_iff. right. by eapply visitAtoms_flat_map_In. }
    destruct (match e with Some x => visitArgument program' x s | None => Some s end);
      simpl; [|done].
    by rewrite Hbody.
  - (* atom *)
    intros l n args IH. split.
    + intros Hagree s. rewrite Hargs; [|done|].
      * pose proof (Hagree (mkAstAtom l n args) (or_introl eq_refl)) as Hn.
        simpl in Hn. by rewrite Hn.
      * intros atom Hatom. apply Hagree. by right.
    + intros Hagree acc. by apply Hargs.
  - (* atom literal *)
    intros a [IH _] Hagree s. by apply IH.
  - (* negation *)
    intros l [al n args] [_ IH] Hagree s. simpl in *.
    apply IH. intros atom Hatom. apply Hagree. by right.
  - (* binary constraint *)
    intros l op x y IHx IHy Hagree s.
    rewrite IHx. 2: { intros atom Hatom. apply Hagree. rewrite visitAtoms_app, in_app_iff. auto. }
    destruct (visitArgument program' x s) as [s1|]; simpl; [|done].
    rewrite IHy; [done|]. intros atom Hatom. apply Hagree.
    rewrite visitAtoms_app, in_app_iff. auto.
Qed.


Lemma In_zip_seq {A} (l : list A) : forall k i a,
  In (i, a) (zip (seq k (length l)) l) <-> k <= i /\ l !! (i - k) = Some a.
Proof.
  induction l as [|x l IH]; intros k i a; simpl.
  - split; [done|]. intros [_ Hl]. done.
  - rewrite IH. split.
    + intros [[= <- <-]|[Hk Hl]].
      * split; [lia|]. by rewrite Nat.sub_diag.
      * split; [lia|]. replace (i - k) with (S (i - S k)) by lia. done.
    + intros [Hk Hl]. destruct (decide (i = k)) as [->|Hne].
      * left. rewrite Nat.sub_diag in Hl. simpl in Hl. by injection Hl as <-.
      * right. split; [lia|]. replace (i - k) with (S (i - S k)) in Hl by lia. done.
Qed.

Lemma foldM_step_of {A} (f : ErrorReport -> A -> option ErrorReport) (l : list A) x :
  (forall r y r', f r y = Some r' -> r `prefix_of` r') ->
  In x l ->
  forall r r', foldM f l r = Some r' ->
    exists r1 r2, r `prefix_of` r1 /\ f r1 x = Some r2 /\ r2 `prefix_of` r'.
Proof.
  intros Hmono. induction l as [|y l IH]; [done|].
  intros [->|Hin] r r'; rewrite foldM_cons;
    destruct (f r _) as [r0|] eqn:E; simpl; try done; intros Hl.
  - exists r, r0. repeat split; [done|done|].
    eapply foldM_prefix; [|exact Hl]. apply List.Forall_forall. intros ? _ ? ?. apply Hmono.
  - destruct (IH Hin _ _ Hl) as (r1 & r2 & H1 & H2 & H3).
    exists r1, r2. repeat split; [|done|done]. etrans; [by eapply Hmono|done].
Qed.

Lemma checkAtomArgumentTypes_prefix (ta : TypeAnalysis AnalysisType) rel args r r' :
  checkAtomArgumentTypes r ta rel args = Some r' -> r `prefix_of` r'.
Proof.
  unfold checkAtomArgumentTypes. apply foldM_prefix, List.Forall_forall.
  intros [i arg] _ r0 r0'.
  destruct (getType_analysis ta arg) as [T|]; simpl; [|done].
  destruct (negb (isValidType T)); [by intros [= <-]|].
  destruct (getAttributes rel !! i) as [attr|]; simpl; [|done].
  destruct (negb (isSubtype T _)); intros [= <-]; [apply addError_prefix|done].
Qed.

End HeadAtom.

(** ** The solver: queries and updates *)

Section SolverLoop.
Context {AnalysisType : Type} `{TypeLattice AnalysisType} `{FunctorOpInfo}.

(** A query reads types through representatives: it leaves the types
    and the constraints alone, can only extend the table, and gives the
    same answer, without touching the table, in any later state with the
    same types. *)
Definition stableQuery {B} (q : TypeSolver AnalysisType -> option (B * TypeSolver AnalysisType))
    : Prop :=
  forall s b s', q s = Some (b, s') ->
    representatives s ⊆ representatives s'
    /\ typeMapping s' = typeMapping s
    /\ constraints s' = constraints s
    /\ forall s'' : TypeSolver AnalysisType,
         representatives s' ⊆ representatives s'' ->
         typeMapping s'' = typeMapping s ->
         q s'' = Some (b, s'').

Lemma stableQuery_ret {B} (b : B) : stableQuery (fun s => Some (b, s)).
Proof. intros s b' s' [= <- <-]. repeat split; done. Qed.

Lemma stableQuery_bind {B C} (q : TypeSolver AnalysisType -> option (B * TypeSolver AnalysisType))
    (k : B -> TypeSolver AnalysisType -> option (C * TypeSolver AnalysisType)) :
  stableQuery q -> (forall b, stableQuery (k b)) ->
  stableQuery (fun s => match q s with Some (b, s1) => k b s1 | None => None end).
Proof.
  intros Hq Hk s c s2. destruct (q s) as [[b s1]|] eqn:E1; [|done]. intros E2.
  destruct (Hq _ _ _ E1) as (Hr1 & Hm1 & Hc1 & Hs1).
  destruct (Hk b _ _ _ E2) as (Hr2 & Hm2 & Hc2 & Hs2).
  repeat split.
  - by etrans.
  - congruence.
  - congruence.
  - intros s'' Hsub Hm. rewrite (Hs1 s''); [|by etrans|done].
    apply Hs2; [done|congruence].
Qed.

Lemma stableQuery_getType (a : AstArgument) : stableQuery (fun s => getType_solver s a).
Proof.
  intros s t s'. unfold getType_solver.
  destruct (getRepresentative s a) as [r s1] eqn:E.
  destruct (getRepresentative_spec _ _ _ _ E) as (_ & Hsub & Hm & Hc).
  destruct (typeMapping s1 !! getAddr r) as [t0|] eqn:Et; [|done].
  intros [= <- <-]. repeat split; try done.
  intros s'' Hsub' Hm'. rewrite (getRepresentative_stable _ _ _ _ E s'' Hsub').
  by rewrite Hm', <- Hm, Et.
Qed.

Lemma stableQuery_isSatisfiedFixed (c : FixedConstraint AnalysisType) :
  stableQuery (isSatisfiedFixed c).
Proof.
  pose proof (stableQuery_bind (fun s => getType_solver s (fixedArgument c))
                (fun t s => Some (isSubtype t (imposedType c), s))
                (stableQuery_getType _)) as Hb.
  intros s b s' Hq. apply Hb; [intros; apply stableQuery_ret|].
  revert Hq. unfold isSatisfiedFixed.
  destruct (getType_solver s (fixedArgument c)) as [[t s1]|]; done.
Qed.

Lemma stableQuery_requirementsHold (reqs : list (FixedConstraint AnalysisType)) :
  stableQuery (requirementsHold reqs).
Proof.
  induction reqs as [|c reqs IH]; simpl; [apply stableQuery_ret|].
  pose proof (stableQuery_bind (isSatisfiedFixed c)
                (fun (b : bool) s => if b then requirementsHold reqs s else Some (false, s))
                (stableQuery_isSatisfiedFixed c)) as Hb.
  intros s b s' Hq. apply Hb; [|by apply Hq].
  intros [|]; [exact IH|apply stableQuery_ret].
Qed.

Lemma stableQuery_isSatisfied (c : TypeConstraint AnalysisType) : stableQuery (isSatisfied c).
Proof.
  destruct c as [f|lhs rhs|a b1 b2|consequent reqs]; simpl.
  - apply stableQuery_isSatisfiedFixed.
  - pose proof (stableQuery_bind (fun s => getType_solver s lhs)
        (fun tl s => match getType_solver s rhs with
                     | Some (tr, s1) => Some (isSubtype tl tr, s1) | None => None end)
        (stableQuery_getType lhs)) as Hb.
    intros s b s' Hq. apply Hb.
    + intros tl. apply (stableQuery_bind (fun s => getType_solver s rhs)
                          (fun tr s => Some (isSubtype tl tr, s)) (stableQuery_getType rhs)).
      intros. apply stableQuery_ret.
    + revert Hq. simpl. destruct (getType_solver s lhs) as [[tl s1]|]; simpl; [|done].
      destruct (getType_solver s1 rhs) as [[tr s2]|]; done.
  - pose proof (stableQuery_bind (fun s => getType_solver s a)
        (fun ta s => match getType_solver s b1 with
                     | Some (t1, s1) =>
                         match getType_solver s1 b2 with
                         | Some (t2, s2) => Some (isSubtype ta (join t1 t2), s2)
                         | None => None end
                     | None => None end)
        (stableQuery_getType a)) as Hb.
    intros s b s' Hq. apply Hb.
    + intros ta. apply (stableQuery_bind (fun s => getType_solver s b1)
        (fun t1 s => match getType_solver s b2 with
                     | Some (t2, s2) => Some (isSubtype ta (join t1 t2), s2)
                     | None => None end) (stableQuery_getType b1)).
      intros t1. apply (stableQuery_bind (fun s => getType_solver s b2)
        (fun t2 s => Some (isSubtype ta (join t1 t2), s)) (stableQuery_getType b2)).
      intros. apply stableQuery_ret.
    + revert Hq. simpl. destruct (getType_solver s a) as [[ta s1]|]; simpl; [|done].
      destruct (getType_solver s1 b1) as [[t1 s2]|]; simpl; [|done].
      destruct (getType_solver s2 b2) as [[t2 s3]|]; done.
  - pose proof (stableQuery_bind (requirementsHold reqs)
        (fun (b : bool) s => if b then isSatisfiedFixed consequent s else Some (true, s))
        (stableQuery_requirementsHold reqs)) as Hb.
    intros s b s' Hq. apply Hb; [|exact Hq].
    intros [|]; [apply stableQuery_isSatisfiedFixed|apply stableQuery_ret].
Qed.

(** Reading a type and then setting it, in a state where the argument
    has been looked up. *)
Lemma setType_after_lookup (s s1 : TypeSolver AnalysisType) (a : AstArgument) r type :
  getRepresentative s a = (r, s1) ->
  forall s2 : TypeSolver AnalysisType,
    representatives s1 ⊆ representatives s2 ->
    setType s2 a type
    = mkTypeSolver (representatives s2) (<[getAddr r := type]> (typeMapping s2))
        (constraints s2).
Proof.
  intros E s2 Hsub. unfold setType.
  by rewrite (getRepresentative_stable _ _ _ _ E s2 Hsub).
Qed.

Lemma getType_solver_inv (s : TypeSolver AnalysisType) (a : AstArgument) t s' :
  getType_solver s a = Some (t, s') ->
  exists r, getRepresentative s a = (r, s') /\ typeMapping s' !! getAddr r = Some t.
Proof.
  unfold getType_solver. destruct (getRepresentative s a) as [r s1] eqn:E.
  destruct (typeMapping s1 !! getAddr r) as [t0|] eqn:Et; [|done].
  intros [= <- <-]. eauto.
Qed.

(** What an update does to the types: nothing, or one entry is replaced
    by its meet with a bound. *)
Definition lowersTo (m m' : gmap nat AnalysisType) (bound : option AnalysisType) : Prop :=
  match bound with
  | None => m' = m
  | Some x => exists k t, m !! k = Some t /\ m' = <[k := meet t x]> m
  end.

Lemma resolveFixed_spec (c : FixedConstraint AnalysisType) (s s' : TypeSolver AnalysisType) :
  resolveFixed c s = Some s' ->
  representatives s ⊆ representatives s'
  /\ constraints s' = constraints s
  /\ exists k t, typeMapping s !! k = Some t
       /\ typeMapping s' = <[k := meet t (imposedType c)]> (typeMapping s)
       /\ forall (s0 : TypeSolver AnalysisType) b,
            isSatisfiedFixed c s0 = Some (b, s) -> b = isSubtype t (imposedType c).
Proof.
  unfold resolveFixed.
  destruct (getType_solver s (fixedArgument c)) as [[t s1]|] eqn:E; simpl; [|done].
  intros [= <-].
  destruct (stableQuery_getType _ _ _ _ E) as (Hsub & Hm & Hc & _).
  destruct (getType_solver_inv _ _ _ _ E) as (r & Er & Ht).
  rewrite (setType_after_lookup _ _ _ _ _ Er s1) by done. simpl.
  split; [done|split; [done|]].
  exists (getAddr r), t. rewrite <- Hm. split; [done|split; [done|]].
  intros s0 b Hsat. unfold isSatisfiedFixed in Hsat.
  destruct (getType_solver s0 (fixedArgument c)) as [[t0 s01]|] eqn:E0; simpl in Hsat; [|done].
  injection Hsat as <- ->.
  destruct (stableQuery_getType _ _ _ _ E0) as (_ & Hm0 & _ & Hst).
  rewrite (Hst s) in E by done. by injection E as <- _.
Qed.


Lemma getType_solver_reread (s0 s1 s : TypeSolver AnalysisType) (a : AstArgument) t :
  getType_solver s0 a = Some (t, s1) ->
  representatives s1 ⊆ representatives s ->
  typeMapping s = typeMapping s0 ->
  getType_solver s a = Some (t, s).
Proof. intros E Hsub Hm. by apply (stableQuery_getType a _ _ _ E). Qed.

(** What resolving a constraint does: the table can only grow, the
    constraints stay, and one entry of the type mapping is replaced by
    its meet with a bound, or nothing is changed.  If the constraint was
    just found unsatisfied, an entry is replaced and its type was not a
    subtype of the bound. *)
Lemma resolve_spec (c : TypeConstraint AnalysisType) (s s' : TypeSolver AnalysisType) :
  resolve c s = Some s' ->
  representatives s ⊆ representatives s'
  /\ constraints s' = constraints s
  /\ ((typeMapping s' = typeMapping s
       /\ forall s0 : TypeSolver AnalysisType, isSatisfied c s0 <> Some (false, s))
      \/ exists k t x,
           typeMapping s !! k = Some t
           /\ typeMapping s' = <[k := meet t x]> (typeMapping s)
           /\ forall (s0 : TypeSolver AnalysisType) sat,
                isSatisfied c s0 = Some (sat, s) -> sat = isSubtype t x).
Proof.
  destruct c as [f|lhs rhs|a b1 b2|consequent reqs]; simpl.
  - intros Hr. apply resolveFixed_spec in Hr as (Hsub & Hc & k & t & Hk & Hm & Hsat).
    split; [done|split; [done|]]. right. exists k, t, (imposedType f). auto.
  - destruct (getType_solver s lhs) as [[tl s1]|] eqn:E1; simpl; [|done].
    destruct (getType_solver s1 rhs) as [[tr s2]|] eqn:E2; simpl; [|done].
    intros [= <-].
    destruct (stableQuery_getType _ _ _ _ E1) as (Hsub1 & Hm1 & Hc1 & _).
    destruct (stableQuery_getType _ _ _ _ E2) as (Hsub2 & Hm2 & Hc2 & _).
    destruct (getType_solver_inv _ _ _ _ E1) as (r & Er & Ht).
    rewrite (setType_after_lookup _ _ _ _ _ Er s2) by done. simpl.
    split; [by etrans|split; [congruence|]]. right.
    exists (getAddr r), tl, tr. rewrite Hm2, Hm1, <- Hm1. split; [done|split; [done|]].
    intros s0 sat. destruct (getType_solver s0 lhs) as [[tl0 sa]|] eqn:E01; simpl; [|done].
    destruct (getType_solver sa rhs) as [[tr0 sb]|] eqn:E02; simpl; [|done].
    intros [= <- ->].
    destruct (stableQuery_getType _ _ _ _ E01) as (Hs01 & Hm01 & _ & _).
    destruct (stableQuery_getType _ _ _ _ E02) as (Hs02 & Hm02 & _ & _).
    rewrite (getType_solver_reread _ _ s _ _ E01) in E1; [|done|congruence].
    injection E1 as <- <-.
    rewrite (getType_solver_reread _ _ s _ _ E02) in E2; [|done|congruence].
    by injection E2 as <- _.
  - destruct (getType_solver s a) as [[ta s1]|] eqn:E1; simpl; [|done].
    destruct (getType_solver s1 b1) as [[t1 s2]|] eqn:E2; simpl; [|done].
    destruct (getType_solver s2 b2) as [[t2 s3]|] eqn:E3; simpl; [|done].
    intros [= <-].
    destruct (stableQuery_getType _ _ _ _ E1) as (Hsub1 & Hm1 & Hc1 & _).
    destruct (stableQuery_getType _ _ _ _ E2) as (Hsub2 & Hm2 & Hc2 & _).
    destruct (stableQuery_getType _ _ _ _ E3) as (Hsub3 & Hm3 & Hc3 & _).
    destruct (getType_solver_inv _ _ _ _ E1) as (r & Er & Ht).
    rewrite (setType_after_lookup _ _ _ _ _ Er s3) by (by etrans). simpl.
    split; [by do 2 (etrans; [eassumption|])|split; [congruence|]]. right.
    exists (getAddr r), ta, (join t1 t2). rewrite Hm3, Hm2, Hm1, <- Hm1.
    split; [done|split; [done|]].
    intros s0 sat. destruct (getType_solver s0 a) as [[ta0 sa]|] eqn:E01; simpl; [|done].
    destruct (getType_solver sa b1) as [[t10 sb]|] eqn:E02; simpl; [|done].
    destruct (getType_solver sb b2) as [[t20 sc]|] eqn:E03; simpl; [|done].
    intros [= <- ->].
    destruct (stableQuery_getType _ _ _ _ E01) as (Hs01 & Hm01 & _ & _).
    destruct (stableQuery_getType _ _ _ _ E02) as (Hs02 & Hm02 & _ & _).
    destruct (stableQuery_getType _ _ _ _ E03) as (Hs03 & Hm03 & _ & _).
    rewrite (getType_solver_reread _ _ s _ _ E01) in E1;
      [|by do 2 (etrans; [eassumption|])|congruence].
    injection E1 as <- <-.
    rewrite (getType_solver_reread _ _ s _ _ E02) in E2; [|by etrans|congruence].
    injection E2 as <- <-.
    rewrite (getType_solver_reread _ _ s _ _ E03) in E3; [|done|congruence].
    by injection E3 as <- _.
  - destruct (requirementsHold reqs s) as [[b s1]|] eqn:E1; [|done].
    destruct (stableQuery_requirementsHold _ _ _ _ E1) as (Hsub1 & Hm1 & Hc1 & _).
    destruct b.
    + intros Hr. apply resolveFixed_spec in Hr as (Hsub & Hc & k & t & Hk & Hm & Hsat).
      split; [by etrans|split; [congruence|]]. right.
      exists k, t, (imposedType consequent). rewrite <- Hm1. split; [done|split; [done|]].
      intros s0 sat. destruct (requirementsHold reqs s0) as [[b0 sa]|] eqn:E01; [|done].
      destruct (stableQuery_requirementsHold _ _ _ _ E01) as (Hs01 & Hm01 & _ & Hst01).
      destruct b0.
      * intros Hsat0.
        destruct (stableQuery_isSatisfiedFixed _ _ _ _ Hsat0) as (Hs02 & Hm02 & _ & _).
        rewrite (Hst01 s) in E1; [|done|congruence]. injection E1 as <-.
        by apply (Hsat sa).
      * intros [= <- ->]. rewrite (Hst01 s) in E1 by done. done.
    + intros [= <-]. split; [done|split; [done|]]. left. split; [done|].
      intros s0. destruct (requirementsHold reqs s0) as [[b0 sa]|] eqn:E01; [|done].
      destruct (stableQuery_requirementsHold _ _ _ _ E01) as (Hs01 & Hm01 & _ & Hst01).
      destruct b0; [|done]. intros Hsat0.
      destruct (stableQuery_isSatisfiedFixed _ _ _ _ Hsat0) as (Hs02 & Hm02 & _ & _).
      rewrite (Hst01 s) in E1; [|done|congruence]. done.
Qed.

End SolverLoop.

(** ** C5: the fixed-point loop terminates *)

Section Termination.
Context {AnalysisType : Type} `{TypeLattice AnalysisType} `{FunctorOpInfo}.
Context `{!TypeLatticeLaws}.
Variable height : AnalysisType -> nat.
Hypothesis height_strict :
  forall a b, isSubtype a b = true -> a <> b -> height a < height b.

Lemma typeMeasure_insert (m : gmap nat AnalysisType) k t t' :
  m !! k = Some t ->
  typeMeasure height (<[k := t']> m) + height t = typeMeasure height m + height t'.
Proof.
  intros Hk. unfold typeMeasure.
  rewrite (map_fold_delete_L _ _ k t m); [|intros; lia|done].
  rewrite <- (insert_delete_eq m).
  rewrite (map_fold_insert_L _ _ k t' (delete k m)); [|intros; lia|apply lookup_delete_eq].
  lia.
Qed.

Lemma meet_strictly_lower (t x : AnalysisType) :
  isSubtype t x = false -> height (meet t x) < height t.
Proof.
  intros Hns. apply height_strict; [apply meet_lower_l|].
  intros Heq. pose proof (meet_lower_r t x) as Hr. rewrite Heq in Hr. congruence.
Qed.

Lemma descends_refl (m : gmap nat AnalysisType) : descends m m.
Proof.
  intros k. destruct (m !! k) as [t|] eqn:E; [|done].
  exists t. split; [done|apply isSubtype_refl].
Qed.

Lemma descends_trans (m1 m2 m3 : gmap nat AnalysisType) :
  descends m1 m2 -> descends m2 m3 -> descends m1 m3.
Proof.
  intros H12 H23 k. specialize (H12 k). specialize (H23 k).
  destruct (m3 !! k) as [t3|].
  - destruct H23 as (t2 & E2 & Hs). rewrite E2 in H12.
    destruct H12 as (t1 & E1 & Hs'). exists t1. split; [done|].
    by eapply isSubtype_trans.
  - by rewrite H23 in H12.
Qed.

Lemma descends_meet (m : gmap nat AnalysisType) k t x :
  m !! k = Some t -> descends m (<[k := meet t x]> m).
Proof.
  intros Hk j. destruct (decide (k = j)) as [<-|Hne].
  - rewrite lookup_insert_eq. exists t. split; [done|apply meet_lower_l].
  - rewrite lookup_insert_ne by done. apply descends_refl.
Qed.

(** One constraint of a pass. *)
Lemma resolvePass_step (c : TypeConstraint AnalysisType) changed
    (s : TypeSolver AnalysisType) changed' s' :
  match isSatisfied c s with
  | Some (sat, s1) =>
      if negb sat then
        match resolve c s1 with
        | Some s2 => Some (true, s2)
        | None => None
        end
      else Some (changed, s1)
  | None => None
  end = Some (changed', s') ->
  representatives s ⊆ representatives s'
  /\ constraints s' = constraints s
  /\ descends (typeMapping s) (typeMapping s')
  /\ ((changed' = changed /\ typeMapping s' = typeMapping s
       /\ exists s1, isSatisfied c s = Some (true, s1)
            /\ representatives s1 ⊆ representatives s')
      \/ (changed' = true
          /\ typeMeasure height (typeMapping s') < typeMeasure height (typeMapping s))).
Proof.
  destruct (isSatisfied c s) as [[sat s1]|] eqn:Es; [|done].
  destruct (stableQuery_isSatisfied _ _ _ _ Es) as (Hsub1 & Hm1 & Hc1 & _).
  destruct sat; simpl.
  - intros [= <- <-]. repeat split; try done.
    + rewrite Hm1. apply descends_refl.
    + left. repeat split; try done. by exists s1.
  - destruct (resolve c s1) as [s2|] eqn:Er; [|done]. intros [= <- <-].
    apply resolve_spec in Er as (Hsub2 & Hc2 & [[_ Hno]|(k & t & x & Hk & Hm2 & Hsat)]).
    + by destruct (Hno s).
    + specialize (Hsat s false Es).
      repeat split.
      * by etrans.
      * congruence.
      * rewrite Hm2, <- Hm1. by apply descends_meet.
      * right. split; [done|]. rewrite Hm2, <- Hm1.
        pose proof (typeMeasure_insert _ _ _ (meet t x) Hk).
        pose proof (meet_strictly_lower t x (eq_sym Hsat)). lia.
Qed.

Lemma resolvePass_None (cs : list (TypeConstraint AnalysisType)) :
  fold_left
    (fun acc cons =>
       match acc with
       | Some (changed, solver) =>
           match isSatisfied cons solver with
           | Some (sat, solver) =>
               if negb sat then
                 match resolve cons solver with
                 | Some solver => Some (true, solver)
                 | None => None
                 end
               else Some (changed, solver)
           | None => None
           end
       | None => None
       end) cs None = None.
Proof. induction cs; simpl; auto. Qed.

Lemma resolvePass_fold (cs : list (TypeConstraint AnalysisType)) :
  forall changed (s : TypeSolver AnalysisType) changed' s',
    fold_left
      (fun acc cons =>
         match acc with
         | Some (changed, solver) =>
             match isSatisfied cons solver with
             | Some (sat, solver) =>
                 if negb sat then
                   match resolve cons solver with
                   | Some solver => Some (true, solver)
                   | None => None
                   end
                 else Some (changed, solver)
             | None => None
             end
         | None => None
         end) cs (Some (changed, s)) = Some (changed', s') ->
    representatives s ⊆ representatives s'
    /\ constraints s' = constraints s
    /\ descends (typeMapping s) (typeMapping s')
    /\ typeMeasure height (typeMapping s') <= typeMeasure height (typeMapping s)
    /\ (changed' = true ->
          changed = true
          \/ typeMeasure height (typeMapping s') < typeMeasure height (typeMapping s))
    /\ (changed' = false ->
          changed = false
          /\ typeMapping s' = typeMapping s
          /\ forall c, In c cs -> isSatisfied c s' = Some (true, s')).
Proof.
  induction cs as [|c cs IH]; intros changed s changed' s'; simpl.
  - intros [= <- <-]. repeat split; try done; auto. apply descends_refl.
  - match goal with
    | |- fold_left _ _ ?x = _ -> _ => destruct x as [[ch1 s1]|] eqn:E1
    end; [|by rewrite resolvePass_None].
    intros Hfold. apply resolvePass_step in E1 as (Hsub1 & Hc1 & Hd1 & Hcase).
    apply IH in Hfold as (Hsub2 & Hc2 & Hd2 & Hle2 & Hch2 & Hun2).
    assert (typeMeasure height (typeMapping s1) <= typeMeasure height (typeMapping s))
      as Hle1.
    { destruct Hcase as [(_ & -> & _)|[_ Hlt]]; lia. }
    split; [by etrans|]. split; [congruence|].
    split; [by eapply descends_trans|]. split; [lia|]. split.
    + intros ->. destruct (Hch2 eq_refl) as [->|Hlt]; [|right; lia].
      destruct Hcase as [(-> & _)|[_ Hlt]]; [by left|right; lia].
    + intros ->. destruct (Hun2 eq_refl) as (-> & Hm2 & Hsat2).
      destruct Hcase as [(<- & Hm1 & sa & Hsat & Hsa)|[[=] _]].
      split; [done|]. split; [congruence|].
      intros c' [<-|Hin]; [|by apply Hsat2].
      destruct (stableQuery_isSatisfied _ _ _ _ Hsat) as (_ & _ & _ & Hst).
      apply Hst; [by etrans|congruence].
Qed.


Lemma resolveLoop_spec (n : nat) :
  forall (s s' : TypeSolver AnalysisType),
    resolveLoop n s = Some (Some s') ->
    representatives s ⊆ representatives s'
    /\ constraints s' = constraints s
    /\ descends (typeMapping s) (typeMapping s')
    /\ allSatisfied s'.
Proof.
  induction n as [|n IH]; intros s s'; simpl; [done|].
  destruct (resolvePass (constraints s) s) as [[changed s1]|] eqn:Ep; [|done].
  apply resolvePass_fold in Ep as (Hsub & Hc & Hd & _ & _ & Hun).
  destruct changed.
  - intros Hl. apply IH in Hl as (Hsub' & Hc' & Hd' & Hall).
    split; [by etrans|]. split; [congruence|]. split; [by eapply descends_trans|done].
  - intros [= <-]. destruct (Hun eq_refl) as (_ & _ & Hsat).
    split; [done|]. split; [done|]. split; [done|].
    intros c Hin. apply Hsat. by rewrite <- Hc.
Qed.

Lemma resolveLoop_terminates (n : nat) :
  forall s : TypeSolver AnalysisType,
    typeMeasure height (typeMapping s) < n ->
    exists result, resolveLoop n s = Some result.
Proof.
  induction n as [|n IH]; intros s Hlt; [lia|]. simpl.
  destruct (resolvePass (constraints s) s) as [[changed s1]|] eqn:Ep; [|by eexists].
  apply resolvePass_fold in Ep as (_ & _ & _ & Hle & Hch & _).
  destruct changed; [|by eexists].
  apply IH. destruct (Hch eq_refl) as [?|?]; [done|lia].
Qed.

Lemma resolveLoop_more_fuel (n : nat) :
  forall (s : TypeSolver AnalysisType) result,
    resolveLoop n s = Some result ->
    forall n', n <= n' -> resolveLoop n' s = Some result.
Proof.
  induction n as [|n IH]; intros s result; simpl; [done|].
  intros Hl [|n'] Hle; [lia|]. simpl.
  destruct (resolvePass (constraints s) s) as [[[|] s1]|]; try done.
  apply IH; [done|lia].
Qed.

Lemma resolve_descends (c : TypeConstraint AnalysisType) (s s' : TypeSolver AnalysisType) :
  resolve c s = Some s' -> descends (typeMapping s) (typeMapping s').
Proof.
  intros Hr. apply resolve_spec in Hr as (_ & _ & [[-> _]|(k & t & x & Hk & -> & _)]).
  - apply descends_refl.
  - by apply descends_meet.
Qed.

End Termination.

(** ** C6: the two sides of an equality *)

Section EqualityConstraints.
Context {AnalysisType : Type} `{TypeLattice AnalysisType} `{FunctorOpInfo}.

Lemma solverExtends_refl (s : TypeSolver AnalysisType) : solverExtends s s.
Proof. by repeat split. Qed.

Lemma solverExtends_trans (s1 s2 s3 : TypeSolver AnalysisType) :
  solverExtends s1 s2 -> solverExtends s2 s3 -> solverExtends s1 s3.
Proof.
  intros (Hr1 & Hc1 & Hm1) (Hr2 & Hc2 & Hm2).
  split; [by etrans|]. split; [auto|congruence].
Qed.

Lemma solverExtends_addConstraint (s : TypeSolver AnalysisType) c :
  solverExtends s (addConstraint s c).
Proof.
  split; [done|]. split; [|done]. intros c' Hc'. apply In_addConstraint. by left.
Qed.

Lemma tableOK_addConstraint (s : TypeSolver AnalysisType) c :
  tableOK s -> tableOK (addConstraint s c).
Proof. done. Qed.

Lemma getRepresentative_good (s : TypeSolver AnalysisType) (a : AstArgument) r s' :
  tableOK s ->
  getRepresentative s a = (r, s') ->
  tableOK s' /\ solverExtends s s'
  /\ forall s'' : TypeSolver AnalysisType,
       representatives s' ⊆ representatives s'' ->
       getRepresentative s'' a = (r, s'') /\ getRepresentative s'' r = (r, s'').
Proof.
  intros Hok Hg.
  pose proof (getRepresentative_spec _ _ _ _ Hg) as (_ & Hsub & Hm & Hc).
  assert (tableOK s') as Hok'.
  { revert Hg. unfold getRepresentative. destruct a; try (by intros [= _ <-]).
    destruct (representatives s !! name) as [r0|] eqn:E; [by intros [= _ <-]|].
    intros [= _ <-] n r'. simpl. destruct (decide (name = n)) as [<-|Hne].
    - rewrite lookup_insert_eq. intros [= <-]. eauto.
    - rewrite lookup_insert_ne by done. apply Hok. }
  split; [done|]. split; [split; [done|split; [by rewrite Hc|done]]|].
  intros s'' Hsub''. split; [by eapply getRepresentative_stable|].
  revert Hg. unfold getRepresentative at 1.
  destruct a; try (intros [= <- <-]; reflexivity).
  destruct (representatives s !! name) as [r0|] eqn:E.
  - intros [= <- <-]. destruct (Hok _ _ E) as [i' ->]. simpl.
    by rewrite (lookup_weaken _ _ _ _ E Hsub'').
  - intros [= <- <-]. simpl. simpl in Hsub''.
    assert (representatives s'' !! name = Some (AstVariable i name)) as ->; [|done].
    eapply lookup_weaken; [|exact Hsub'']. apply lookup_insert_eq.
Qed.

Lemma functorRequirements_good (acceptsSymbols acceptsNumbers : nat -> bool)
    (args : list AstArgument) :
  forall i (s : TypeSolver AnalysisType) reqs s',
    tableOK s ->
    functorRequirements acceptsSymbols acceptsNumbers i args s = Some (reqs, s') ->
    goodStep s s'.
Proof.
  induction args as [|a args IH]; intros i s reqs s' Hok; simpl.
  - intros [= _ <-]. split; [done|apply solverExtends_refl].
  - destruct (getRepresentative s a) as [r s1] eqn:E.
    destruct (getRepresentative_good _ _ _ _ Hok E) as (Hok1 & Hext1 & _).
    destruct (acceptsSymbols i); [|destruct (acceptsNumbers i); [|done]].
    all: destruct (functorRequirements _ _ _ _ _) as [[reqs' s2]|] eqn:E2; simpl; [|done].
    all: intros [= _ <-]; destruct (IH _ _ _ _ Hok1 E2) as [Hok2 Hext2].
    all: split; [done|by eapply solverExtends_trans].
Qed.

Lemma functorConstraints_good (functor : AstArgument) kind
    (acceptsSymbols acceptsNumbers : nat -> bool) (args : list AstArgument)
    (s s' : TypeSolver AnalysisType) :
  tableOK s ->
  functorConstraints functor kind acceptsSymbols acceptsNumbers args s = Some s' ->
  goodStep s s'.
Proof.
  intros Hok. unfold functorConstraints.
  destruct (functorRequirements _ _ _ _ _) as [[reqs s1]|] eqn:E; simpl; [|done].
  intros [= <-].
  apply functorRequirements_good in E as [Hok1 Hext1]; [|by apply tableOK_addConstraint].
  split; [by apply tableOK_addConstraint|].
  eapply solverExtends_trans; [apply solverExtends_addConstraint|].
  eapply solverExtends_trans; [exact Hext1|apply solverExtends_addConstraint].
Qed.

Lemma recordArgumentConstraints_good (record : AstArgument) (args : list AstArgument) :
  forall (fields : list AstRecordField) (s : TypeSolver AnalysisType),
    tableOK s -> goodStep s (recordArgumentConstraints record args fields s).
Proof.
  induction args as [|a args IH]; intros fields s Hok; simpl.
  - split; [done|apply solverExtends_refl].
  - destruct fields as [|f fields]; [split; [done|apply solverExtends_refl]|].
    destruct (getRepresentative s a) as [r s1] eqn:E.
    destruct (getRepresentative_good _ _ _ _ Hok E) as (Hok1 & Hext1 & _).
    match goal with
    | |- goodStep _ (recordArgumentConstraints _ _ _ ?s2) =>
        destruct (IH fields s2) as [Hok2 Hext2]; [by apply tableOK_addConstraint|]
    end.
    split; [done|].
    eapply solverExtends_trans; [exact Hext1|].
    eapply solverExtends_trans; [apply solverExtends_addConstraint|exact Hext2].
Qed.

Lemma recordRequirements_good (args : list AstArgument) :
  forall (fields : list AstRecordField) (s : TypeSolver AnalysisType),
    tableOK s -> goodStep s (snd (recordRequirements args fields s)).
Proof.
  induction args as [|a args IH]; intros fields s Hok; simpl.
  - split; [done|apply solverExtends_refl].
  - destruct fields as [|f fields]; [split; [done|apply solverExtends_refl]|].
    destruct (getRepresentative s a) as [r s1] eqn:E.
    destruct (getRepresentative_good _ _ _ _ Hok E) as (Hok1 & Hext1 & _).
    specialize (IH fields s1 Hok1).
    destruct (recordRequirements args fields s1) as [reqs s2]. simpl in *.
    destruct IH as [Hok2 Hext2]. split; [done|by eapply solverExtends_trans].
Qed.

Lemma atomArgumentConstraints_good (args : list AstArgument) :
  forall (attrs : list AstAttribute) (s : TypeSolver AnalysisType),
    tableOK s -> goodStep s (atomArgumentConstraints args attrs s).
Proof.
  induction args as [|a args IH]; intros attrs s Hok; simpl.
  - split; [done|apply solverExtends_refl].
  - destruct attrs as [|attr attrs]; [split; [done|apply solverExtends_refl]|].
    destruct (getRepresentative s a) as [r s1] eqn:E.
    destruct (getRepresentative_good _ _ _ _ Hok E) as (Hok1 & Hext1 & _).
    match goal with
    | |- goodStep _ (atomArgumentConstraints _ _ ?s2) =>
        destruct (IH attrs s2) as [Hok2 Hext2]; [by apply tableOK_addConstraint|]
    end.
    split; [done|].
    eapply solverExtends_trans; [exact Hext1|].
    eapply solverExtends_trans; [apply solverExtends_addConstraint|exact Hext2].
Qed.

Lemma equalityConstrained_mono (s s' : TypeSolver AnalysisType) lhs rhs :
  solverExtends s s' -> equalityConstrained s lhs rhs -> equalityConstrained s' lhs rhs.
Proof.
  intros (Hr & Hc & _) (l & r & H1 & H2 & Hrep).
  exists l, r. split; [auto|]. split; [auto|].
  intros s'' Hsub. apply Hrep. by etrans.
Qed.


(** What visiting a subtree with nodes [ns] guarantees. *)
Definition visitGuarantee (ns : list AstNode) (s s' : TypeSolver AnalysisType) : Prop :=
  goodStep s s'
  /\ forall srcLoc lhs rhs,
       In (NodeLiteral (AstBinaryConstraint srcLoc EQ lhs rhs)) ns ->
       equalityConstrained s' lhs rhs.

Lemma fold_visit_guarantee {A} (visit : A -> TypeSolver AnalysisType -> option (TypeSolver AnalysisType))
    (nodes : A -> list AstNode) (l : list A) :
  Forall (fun a => forall s s', tableOK s -> visit a s = Some s' ->
                     visitGuarantee (nodes a) s s') l ->
  forall s s', tableOK s ->
    fold_left (fun acc a => acc ≫= visit a) l (Some s) = Some s' ->
    visitGuarantee (flat_map nodes l) s s'.
Proof.
  induction 1 as [|a l Ha _ IH]; intros s s' Hok; simpl.
  - intros [= <-]. split; [split; [done|apply solverExtends_refl]|]. by intros.
  - destruct (visit a s) as [s1|] eqn:E; simpl; [|by rewrite fold_left_bind_None].
    intros Hf. destruct (Ha _ _ Hok E) as [[Hok1 Hext1] Heq1].
    destruct (IH _ _ Hok1 Hf) as [[Hok2 Hext2] Heq2].
    split; [split; [done|by eapply solverExtends_trans]|].
    intros srcLoc lhs rhs Hin. apply in_app_iff in Hin as [Hin|Hin].
    + eapply equalityConstrained_mono; [exact Hext2|]. by eapply Heq1.
    + by eapply Heq2.
Qed.

Lemma visitGuarantee_extend (ns : list AstNode) (s s1 s2 : TypeSolver AnalysisType) :
  visitGuarantee ns s s1 -> goodStep s1 s2 -> visitGuarantee ns s s2.
Proof.
  intros [[Hok1 Hext1] Heq] [Hok2 Hext2].
  split; [split; [done|by eapply solverExtends_trans]|].
  intros srcLoc lhs rhs Hin. eapply equalityConstrained_mono; [exact Hext2|]. by eapply Heq.
Qed.

Lemma visitGuarantee_cons_argument (a : AstArgument) (ns : list AstNode)
    (s s' : TypeSolver AnalysisType) :
  visitGuarantee ns s s' -> visitGuarantee (NodeArgument a :: ns) s s'.
Proof.
  intros [Hg Heq]. split; [done|]. intros srcLoc lhs rhs [Habs|Hin]; [done|]. by eapply Heq.
Qed.

Lemma goodStep_addConstraint (s : TypeSolver AnalysisType) c :
  tableOK s -> goodStep s (addConstraint s c).
Proof. intros Hok. split; [done|apply solverExtends_addConstraint]. Qed.

Lemma visit_guarantee_mutual (program : AstProgram) :
  (forall a s s', tableOK s -> visitArgument program a s = Some s' ->
                  visitGuarantee (nodesOfArgument a) s s')
  /\ (forall a,
        (forall s s', tableOK s -> visitAtom program a s = Some s' ->
                      visitGuarantee (nodesOfAtom a) s s')
        /\ (forall s s', tableOK s ->
              fold_left (fun acc x => acc ≫= visitArgument program x) (atomArguments a) (Some s)
                = Some s' ->
              visitGuarantee (flat_map nodesOfArgument (atomArguments a)) s s'))
  /\ (forall l s s', tableOK s -> visitLiteral program l s = Some s' ->
                     visitGuarantee (nodesOfLiteral l) s s').
Proof.
  assert (forall a (s : TypeSolver AnalysisType) c,
            tableOK s -> visitGuarantee [NodeArgument a] s (addConstraint s c)) as Hleaf.
  { intros a s c Hok. apply visitGuarantee_cons_argument.
    split; [by apply goodStep_addConstraint|]. by intros. }
  apply Ast_mutual_ind; simpl.
  - (* variable *)
    intros i n s s' Hok [= <-]. apply visitGuarantee_cons_argument.
    split; [split; [done|apply solverExtends_refl]|]. by intros.
  - (* unnamed variable *)
    intros i s s' Hok [= <-]. apply visitGuarantee_cons_argument.
    split; [split; [done|apply solverExtends_refl]|]. by intros.
  - intros i n s s' Hok [= <-]. by apply Hleaf.
  - intros i n s s' Hok [= <-]. by apply Hleaf.
  - intros i s s' Hok [= <-]. by apply Hleaf.
  - intros i s s' Hok [= <-]. by apply Hleaf.
  - (* type cast *)
    intros i t v IH s s' Hok.
    destruct (visitArgument program v s) as [s1|] eqn:E; simpl; [|done].
    intros [= <-]. apply visitGuarantee_cons_argument.
    eapply visitGuarantee_extend; [by apply IH|].
    apply goodStep_addConstraint. by destruct (IH _ _ Hok E) as [[? _] _].
  - (* intrinsic functor *)
    intros i f args IH s s' Hok.
    destruct (fold_left _ args (Some s)) as [s1|] eqn:E; simpl; [|done].
    pose proof (fold_visit_guarantee _ nodesOfArgument args IH s s1 Hok E) as Hg.
    assert (tableOK s1) as Hok1 by (by destruct Hg as [[? _] _]).
    intros Hrest. apply visitGuarantee_cons_argument.
    eapply visitGuarantee_extend; [exact Hg|].
    destruct f.
    + destruct (args !! 0) as [a0|]; [|done]. destruct (args !! 1) as [a1|]; [|done].
      destruct (getRepresentative s1 a0) as [lhs s2] eqn:E2.
      destruct (getRepresentative_good _ _ _ _ Hok1 E2) as (Hok2 & Hext2 & _).
      destruct (getRepresentative s2 a1) as [rhs s3] eqn:E3.
      destruct (getRepresentative_good _ _ _ _ Hok2 E3) as (Hok3 & Hext3 & _).
      injection Hrest as <-. split; [done|].
      eapply solverExtends_trans; [exact Hext2|].
      eapply solverExtends_trans; [exact Hext3|apply solverExtends_addConstraint].
    + destruct (args !! 0) as [a0|]; [|done]. destruct (args !! 1) as [a1|]; [|done].
      destruct (getRepresentative s1 a0) as [lhs s2] eqn:E2.
      destruct (getRepresentative_good _ _ _ _ Hok1 E2) as (Hok2 & Hext2 & _).
      destruct (getRepresentative s2 a1) as [rhs s3] eqn:E3.
      destruct (getRepresentative_good _ _ _ _ Hok2 E3) as (Hok3 & Hext3 & _).
      injection Hrest as <-. split; [done|].
      eapply solverExtends_trans; [exact Hext2|].
      eapply solverExtends_trans; [exact Hext3|apply solverExtends_addConstraint].
    + destruct (isSymbolicFunctorOp _); [by eapply functorConstraints_good|].
      destruct (isNumericalFunctorOp _); [by eapply functorConstraints_good|done].
  - (* user-defined functor *)
    intros i f args IH s s' Hok.
    destruct (fold_left _ args (Some s)) as [s1|] eqn:E; simpl; [|done].
    pose proof (fold_visit_guarantee _ nodesOfArgument args IH s s1 Hok E) as Hg.
    assert (tableOK s1) as Hok1 by (by destruct Hg as [[? _] _]).
    destruct (getFunctorDeclaration program f) as [funDecl|]; simpl; [|done].
    intros Hrest. apply visitGuarantee_cons_argument.
    eapply visitGuarantee_extend; [exact Hg|].
    destruct (declIsSymbolic funDecl); [by eapply functorConstraints_good|].
    destruct (declIsNumerical funDecl); [by eapply functorConstraints_good|done].
  - (* record *)
    intros i t args IH s s' Hok.
    destruct (fold_left _ args (Some s)) as [s1|] eqn:E; simpl; [|done].
    pose proof (fold_visit_guarantee _ nodesOfArgument args IH s s1 Hok E) as Hg.
    assert (tableOK s1) as Hok1 by (by destruct Hg as [[? _] _]).
    destruct (getTypeEnvironment t) as [[| |n fields]|]; try done.
    destruct (negb _); [done|].
    destruct (recordArgumentConstraints_good (AstRecordInit i t args) args fields s1 Hok1)
      as [Hok2 Hext2].
    pose proof (recordRequirements_good args fields _ Hok2) as [Hok3 Hext3].
    destruct (recordRequirements args fields _) as [reqs s3]. simpl in *.
    intros [= <-]. apply visitGuarantee_cons_argument.
    eapply visitGuarantee_extend; [exact Hg|]. split; [done|].
    eapply solverExtends_trans; [exact Hext2|].
    eapply solverExtends_trans; [exact Hext3|apply solverExtends_addConstraint].
  - (* aggregator *)
    intros i op e body IHe IHbody s s' Hok.
    destruct (match e with Some x => visitArgument program x s | None => Some s end)
      as [s1|] eqn:E1; simpl; [|done].
    assert (visitGuarantee (match e with Some x => nodesOfArgument x | None => [] end) s s1)
      as Hg1.
    { destruct e as [x|].
      - by apply (IHe x eq_refl).
      - injection E1 as <-. split; [split; [done|apply solverExtends_refl]|]. by intros. }
    assert (tableOK s1) as Hok1 by (by destruct Hg1 as [[? _] _]).
    destruct (fold_left _ body (Some s1)) as [s2|] eqn:E2; simpl; [|done].
    pose proof (fold_visit_guarantee _ nodesOfLiteral body IHbody s1 s2 Hok1 E2) as Hg2.
    assert (tableOK s2) as Hok2 by (by destruct Hg2 as [[? _] _]).
    assert (visitGuarantee
              (match e with Some x => nodesOfArgument x | None => [] end
               ++ flat_map nodesOfLiteral body) s s2) as Hg.
    { destruct Hg1 as [[_ Hext1] Heq1]. destruct Hg2 as [[_ Hext2] Heq2].
      split; [split; [done|by eapply solverExtends_trans]|].
      intros srcLoc lhs rhs Hin. apply in_app_iff in Hin as [Hin|Hin].
      - eapply equalityConstrained_mono; [exact Hext2|]. by eapply Heq1.
      - by eapply Heq2. }
    intros Hrest. apply visitGuarantee_cons_argument.
    eapply visitGuarantee_extend; [exact Hg|].
    destruct op.
    + destruct e as [x|]; [|done].
      destruct (getRepresentative s2 x) as [t s3] eqn:E3.
      destruct (getRepresentative_good _ _ _ _ Hok2 E3) as (Hok3 & Hext3 & _).
      injection Hrest as <-. split; [done|].
      eapply solverExtends_trans; [exact Hext3|apply solverExtends_addConstraint].
    + destruct e as [x|]; [|done].
      destruct (getRepresentative s2 x) as [t s3] eqn:E3.
      destruct (getRepresentative_good _ _ _ _ Hok2 E3) as (Hok3 & Hext3 & _).
      injection Hrest as <-. split; [done|].
      eapply solverExtends_trans; [exact Hext3|apply solverExtends_addConstraint].
    + injection Hrest as <-. by apply goodStep_addConstraint.
    + injection Hrest as <-. by apply goodStep_addConstraint.
  - (* atom *)
    intros l n args IH. split.
    + intros s s' Hok.
      destruct (fold_left _ args (Some s)) as [s1|] eqn:E; simpl; [|done].
      pose proof (fold_visit_guarantee _ nodesOfArgument args IH s s1 Hok E) as Hg.
      assert (tableOK s1) as Hok1 by (by destruct Hg as [[? _] _]).
      destruct (getRelation program n) as [rel|]; simpl; [|done].
      destruct (negb _); [done|]. intros [= <-].
      destruct Hg as [Hg Heq].
      pose proof (atomArgumentConstraints_good args (getAttributes rel) s1 Hok1) as Hext.
      eapply (visitGuarantee_extend _ s s1); [|exact Hext].
      split; [done|]. intros srcLoc lhs rhs [Habs|Hin]; [done|]. by eapply Heq.
    + intros s s' Hok E. by apply (fold_visit_guarantee _ nodesOfArgument args IH).
  - (* atom literal *)
    intros a [IH _]. exact IH.
  - (* negation *)
    intros l [al n args] [_ IH] s s' Hok E. simpl in *.
    destruct (IH s s' Hok E) as [Hg Heq]. split; [done|].
    intros srcLoc lhs rhs [Habs|[Habs|Hin]]; [done|done|]. by eapply Heq.
  - (* binary constraint *)
    intros l op x y IHx IHy s s' Hok.
    destruct (visitArgument program x s) as [s1|] eqn:E1; simpl; [|done].
    destruct (IHx _ _ Hok E1) as [[Hok1 Hext1] Heq1].
    destruct (visitArgument program y s1) as [s2|] eqn:E2; simpl; [|done].
    destruct (IHy _ _ Hok1 E2) as [[Hok2 Hext2] Heq2].
    assert (forall s3 : TypeSolver AnalysisType, goodStep s2 s3 ->
              forall srcLoc lhs rhs,
                In (NodeLiteral (AstBinaryConstraint srcLoc EQ lhs rhs))
                   (nodesOfArgument x ++ nodesOfArgument y) ->
                equalityConstrained s3 lhs rhs) as Hnested.
    { intros s3 [_ Hext3] srcLoc lhs rhs Hin.
      eapply equalityConstrained_mono; [exact Hext3|].
      apply in_app_iff in Hin as [Hin|Hin].
      - eapply equalityConstrained_mono; [exact Hext2|]. by eapply Heq1.
      - by eapply Heq2. }
    destruct op.
    + (* EQ *)
      destruct (getRepresentative s2 x) as [lr s3] eqn:E3.
      destruct (getRepresentative_good _ _ _ _ Hok2 E3) as (Hok3 & Hext3 & Hst3).
      destruct (getRepresentative s3 y) as [rr s4] eqn:E4.
      destruct (getRepresentative_good _ _ _ _ Hok3 E4) as (Hok4 & Hext4 & Hst4).
      intros [= <-].
      assert (goodStep s2 (addConstraint (addConstraint s4 (VariableConstraint lr rr))
                             (VariableConstraint rr lr))) as Hgood.
      { split; [done|].
        eapply solverExtends_trans; [exact Hext3|].
        eapply solverExtends_trans; [exact Hext4|].
        eapply solverExtends_trans; apply solverExtends_addConstraint. }
      split.
      * destruct Hgood as [Hok5 Hext5]. split; [done|].
        eapply solverExtends_trans; [exact Hext1|].
        eapply solverExtends_trans; [exact Hext2|exact Hext5].
      * intros srcLoc lhs rhs [Heq|Hin]; [|by eapply Hnested].
        injection Heq as _ <- <-. exists lr, rr.
        split; [apply In_addConstraint; left; apply In_addConstraint; by right|].
        split; [apply In_addConstraint; by right|].
        intros s'' Hsub. simpl in Hsub.
        destruct (Hst4 s'' Hsub) as [Hy Hr].
        destruct Hext4 as (Hsub4 & _).
        destruct (Hst3 s'' ltac:(by etrans)) as [Hx Hl]. done.
    + intros [= <-]. split; [split; [done|by eapply solverExtends_trans]|].
      intros srcLoc lhs rhs [Heq|Hin]; [done|].
      eapply Hnested; [|exact Hin]. split; [done|apply solverExtends_refl].
    + intros [= <-]. split; [split; [done|by eapply solverExtends_trans]|].
      intros srcLoc lhs rhs [Heq|Hin]; [done|].
      eapply Hnested; [|exact Hin]. split; [done|apply solverExtends_refl].
  - (* boolean constraint *)
    intros l b s s' Hok [= <-]. split; [split; [done|apply solverExtends_refl]|].
    intros srcLoc lhs rhs [Habs|[]]. done.
Qed.

End EqualityConstraints.

Section EqualityTheorem.
Context {AnalysisType : Type} `{TypeLattice AnalysisType} `{FunctorOpInfo}.

Lemma setType_fold_spec (args : list AstArgument) (t : AnalysisType) :
  forall s : TypeSolver AnalysisType,
    let s' := fold_left (fun s arg => setType s arg t) args s in
    representatives s ⊆ representatives s' /\ constraints s' = constraints s.
Proof.
  induction args as [|a args IH]; intros s; simpl; [done|].
  destruct (IH (setType s a t)) as [Hsub Hc]. unfold setType in *.
  destruct (getRepresentative s a) as [r s1] eqn:E.
  destruct (getRepresentative_spec _ _ _ _ E) as (_ & Hsub1 & _ & Hc1). simpl in *.
  split; [by etrans|congruence].
Qed.

Lemma getType_solver_via_representative (s : TypeSolver AnalysisType) (a r : AstArgument) :
  getRepresentative s a = (r, s) ->
  getType_solver s a = (fun t => (t, s)) <$> (typeMapping s !! getAddr r).
Proof. unfold getType_solver. intros ->. by destruct (typeMapping s !! getAddr r). Qed.

Lemma generateConstraints_equalities (program : AstProgram) (clause : AstClause)
    (s : TypeSolver AnalysisType) srcLoc lhs rhs :
  generateConstraints program clause emptySolver = Some s ->
  In (NodeLiteral (AstBinaryConstraint srcLoc EQ lhs rhs)) (nodesOfClause clause) ->
  equalityConstrained s lhs rhs.
Proof.
  unfold generateConstraints, visitClause, visitArguments_, nodesOfClause.
  destruct (visit_guarantee_mutual program) as (Harg & _ & Hlit).
  assert (tableOK (emptySolver : TypeSolver AnalysisType)) as Hok0.
  { intros n r Hn. simpl in Hn. by rewrite lookup_empty in Hn. }
  destruct (fold_left _ (getBodyLiterals clause) (Some emptySolver)) as [s1|] eqn:E1;
    simpl; [|done].
  intros E2 Hin.
  assert (visitGuarantee (flat_map nodesOfLiteral (getBodyLiterals clause)) emptySolver s1)
    as [[Hok1 Hext1] Heq1].
  { apply (fold_visit_guarantee (visitLiteral program) nodesOfLiteral); [|done|done].
    apply List.Forall_forall. intros l _. apply Hlit. }
  assert (visitGuarantee (flat_map nodesOfArgument (atomArguments (getHead clause))) s1 s)
    as [[Hok2 Hext2] Heq2].
  { apply (fold_visit_guarantee (visitArgument program) nodesOfArgument); [|done|done].
    apply List.Forall_forall. intros a _. apply Harg. }
  apply in_app_iff in Hin as [Hin|Hin].
  - destruct (getHead clause) as [l n args]. simpl in *.
    destruct Hin as [Habs|Hin]; [done|]. by eapply Heq2.
  - eapply equalityConstrained_mono; [exact Hext2|]. by eapply Heq1.
Qed.

(** C6. When the solver of a clause is built without a failed
    assertion, the two sides of every equality constraint of the clause
    have the same type at the fixed point: generation adds the
    constraints [Variable(lhs, rhs)] and [Variable(rhs, lhs)], both hold
    once the loop ends, and subtyping is antisymmetric. *)
Theorem equality_sides_have_equal_types `{!TypeLatticeLaws} (fuel : nat)
    (program : AstProgram) (clause : AstClause) (solver : TypeSolver AnalysisType)
    (srcLoc : SrcLocation) (lhs rhs : AstArgument) :
  newTypeSolver fuel program clause = Some (Some solver) ->
  In (NodeLiteral (AstBinaryConstraint srcLoc EQ lhs rhs)) (nodesOfClause clause) ->
  exists (l r : AstArgument) (t : AnalysisType),
    In (VariableConstraint l r) (constraints solver)
    /\ In (VariableConstraint r l) (constraints solver)
    /\ getRepresentative solver lhs = (l, solver)
    /\ getRepresentative solver rhs = (r, solver)
    /\ getType_solver solver lhs = Some (t, solver)
    /\ getType_solver solver rhs = Some (t, solver).
Proof.
  unfold newTypeSolver.
  destruct (generateConstraints program clause emptySolver) as [s1|] eqn:Eg; [|done].
  intros Hres Hin.
  pose proof (generateConstraints_equalities _ _ _ _ _ _ Eg Hin) as (l & r & Hlr & Hrl & Hrep).
  unfold resolveConstraints in Hres.
  destruct (setType_fold_spec (visitArguments (nodesOfClause clause)) TopAnalysisType
              (mkTypeSolver (representatives s1) ∅ (constraints s1))) as [Hsub0 Hc0].
  simpl in Hsub0, Hc0.
  destruct finite_height as [height Hheight].
  apply (resolveLoop_spec height Hheight) in Hres as (Hsub & Hc & _ & Hall).
  destruct (Hrep solver ltac:(by etrans)) as (Hlhs & Hrhs & Hl & Hr).
  assert (In (VariableConstraint l r) (constraints solver)) as Hlr' by congruence.
  assert (In (VariableConstraint r l) (constraints solver)) as Hrl' by congruence.
  pose proof (Hall _ Hlr') as Hs1. pose proof (Hall _ Hrl') as Hs2.
  simpl in Hs1, Hs2.
  rewrite (getType_solver_via_representative _ _ _ Hl) in Hs1.
  destruct (typeMapping solver !! getAddr l) as [tl|] eqn:Etl; simpl in Hs1; [|done].
  rewrite (getType_solver_via_representative _ _ _ Hr) in Hs1, Hs2.
  destruct (typeMapping solver !! getAddr r) as [tr|] eqn:Etr; simpl in Hs1, Hs2; [|done].
  rewrite (getType_solver_via_representative _ _ _ Hl), Etl in Hs2. simpl in Hs2.
  injection Hs1 as Hs1. injection Hs2 as Hs2.
  assert (tl = tr) as -> by (by apply isSubtype_antisym).
  exists l, r, tr. repeat (split; [done|]).
  rewrite (getType_solver_via_representative _ _ _ Hlhs), Etl.
  rewrite (getType_solver_via_representative _ _ _ Hrhs), Etr. done.
Qed.

End EqualityTheorem.

(** ** The witness check *)

Section WitnessCheck.

Lemma witnessLevel_result `{GroundAnalysis} (literals : list AstLiteral)
    (groundedArguments : list AstArgument) (ws : WitnessState) :
  let level := fst (witnessLevel literals groundedArguments ws) in
  levelResult level =
    omap (fun pair : AstArgument * bool =>
            if negb (snd pair)
               && match identicalSubnodeMap level !! getAddr (fst pair) with
                  | Some first => groundedAt (getGroundedTerms (originalClause level)) first
                  | None => false
                  end
            then Some (getSrcLoc (fst pair)) else None)
      (getGroundedTerms (aggregatorlessClause level)).
Proof.
  unfold witnessLevel.
  repeat match goal with
         | |- context [let '(_, _) := ?x in _] => destruct x
         end.
  reflexivity.
Qed.

Lemma mapAccum_app {A B S} (f : A -> S -> B * S) (l1 l2 : list A) (s : S) :
  mapAccum f (l1 ++ l2) s
  = (fst (mapAccum f l1 s) ++ fst (mapAccum f l2 (snd (mapAccum f l1 s))),
     snd (mapAccum f l2 (snd (mapAccum f l1 s)))).
Proof.
  revert s. induction l1 as [|x l1 IH]; intros s; simpl.
  - by destruct (mapAccum f l2 s).
  - destruct (f x s) as [y s1]. rewrite IH.
    destruct (mapAccum f l1 s1) as [ys s2]. simpl.
    by destruct (mapAccum f l2 s2).
Qed.

Lemma subAggregatorResults_nil `{GroundAnalysis} grounded ws :
  subAggregatorResults grounded [] ws = ([], ws).
Proof. reflexivity. Qed.

Lemma subAggregatorResults_app `{GroundAnalysis} grounded (ns1 ns2 : list AstNode) ws :
  subAggregatorResults grounded (ns1 ++ ns2) ws
  = (fst (subAggregatorResults grounded ns1 ws)
       ++ fst (subAggregatorResults grounded ns2 (snd (subAggregatorResults grounded ns1 ws))),
     snd (subAggregatorResults grounded ns2 (snd (subAggregatorResults grounded ns1 ws)))).
Proof.
  unfold subAggregatorResults, visitAggregatorBodies. rewrite omap_app, mapAccum_app.
  destruct (mapAccum _ _ ws) as [r1 ws1]. simpl.
  destruct (mapAccum _ _ ws1) as [r2 ws2]. simpl.
  by rewrite concat_app.
Qed.

Lemma subAggregatorResults_skip `{GroundAnalysis} grounded (n : AstNode) ns ws :
  isAggregatorNode n = false ->
  subAggregatorResults grounded (n :: ns) ws = subAggregatorResults grounded ns ws.
Proof.
  intros Hn. unfold subAggregatorResults, visitAggregatorBodies. simpl.
  destruct n as [[]| |]; try done.
Qed.

Lemma subAggregatorResults_aggregator `{GroundAnalysis} grounded i op e body ns ws :
  subAggregatorResults grounded (NodeArgument (AstAggregator i op e body) :: ns) ws
  = (fst (usesInvalidWitness body grounded ws)
       ++ fst (subAggregatorResults grounded ns (snd (usesInvalidWitness body grounded ws))),
     snd (subAggregatorResults grounded ns (snd (usesInvalidWitness body grounded ws)))).
Proof.
  unfold subAggregatorResults, visitAggregatorBodies. simpl.
  destruct (usesInvalidWitness body grounded ws) as [r1 ws1]. simpl.
  by destruct (mapAccum _ _ ws1) as [r2 ws2].
Qed.

(** A traversal of a list of subtrees, given the traversal of each. *)
Lemma subWitness_list `{GroundAnalysis} {A} (visit : list AstArgument -> A -> WitnessState ->
                                              list SrcLocation * WitnessState)
    (nodes : A -> list AstNode) (l : list A) :
  Forall (fun x => forall grounded ws,
            visit grounded x ws = subAggregatorResults grounded (nodes x) ws) l ->
  forall grounded ws,
    (concat (fst (mapAccum (visit grounded) l ws)), snd (mapAccum (visit grounded) l ws))
    = subAggregatorResults grounded (flat_map nodes l) ws.
Proof.
  induction 1 as [|x l Hx _ IH]; intros grounded ws; simpl; [done|].
  rewrite subAggregatorResults_app, <- Hx.
  destruct (visit grounded x ws) as [r1 ws1]. simpl. rewrite <- IH.
  by destruct (mapAccum (visit grounded) l ws1) as [rs ws2].
Qed.

(** The structural traversal below a node visits the aggregators of the
    node in depth-first order. *)
Lemma subWitness_mutual `{GroundAnalysis} :
  (forall a grounded ws,
     subWitnessArgument grounded a ws = subAggregatorResults grounded (nodesOfArgument a) ws)
  /\ (forall a : AstAtom, forall grounded ws,
        (concat (fst (mapAccum (subWitnessArgument grounded) (atomArguments a) ws)),
         snd (mapAccum (subWitnessArgument grounded) (atomArguments a) ws))
        = subAggregatorResults grounded (flat_map nodesOfArgument (atomArguments a)) ws)
  /\ (forall l grounded ws,
        subWitnessLiteral grounded l ws = subAggregatorResults grounded (nodesOfLiteral l) ws).
Proof.
  apply Ast_mutual_ind; try (intros; simpl; by rewrite subAggregatorResults_skip).
  - (* intrinsic functor *)
    intros i f args IH grounded ws. simpl. rewrite subAggregatorResults_skip by done.
    rewrite <- (subWitness_list subWitnessArgument nodesOfArgument args IH).
    by destruct (mapAccum _ args ws).
  - (* user-defined functor *)
    intros i f args IH grounded ws. simpl. rewrite subAggregatorResults_skip by done.
    rewrite <- (subWitness_list subWitnessArgument nodesOfArgument args IH).
    by destruct (mapAccum _ args ws).
  - (* record *)
    intros i t args IH grounded ws. simpl. rewrite subAggregatorResults_skip by done.
    rewrite <- (subWitness_list subWitnessArgument nodesOfArgument args IH).
    by destruct (mapAccum _ args ws).
  - (* aggregator *)
    intros i op e body IHe IHbody grounded ws.
    change (nodesOfArgument (AstAggregator i op e body))
      with (NodeArgument (AstAggregator i op e body)
            :: (match e with Some x => nodesOfArgument x | None => [] end
                ++ flat_map nodesOfLiteral body)).
    rewrite subAggregatorResults_aggregator, subAggregatorResults_app.
    rewrite <- (subWitness_list subWitnessLiteral nodesOfLiteral body IHbody).
    simpl. unfold usesInvalidWitness.
    destruct (witnessLevel body grounded ws) as [level ws1].
    destruct (mapAccum (subWitnessLiteral (newlyGroundedArguments level)) body ws1)
      as [sub ws2]. simpl.
    assert (match e with
            | Some x => subWitnessArgument grounded x ws2
            | None => ([], ws2)
            end
            = subAggregatorResults grounded
                match e with Some x => nodesOfArgument x | None => [] end ws2) as ->.
    { destruct e as [x|]; [by apply IHe|done]. }
    destruct (subAggregatorResults grounded _ ws2) as [r1 ws3]. simpl.
    destruct (mapAccum (subWitnessLiteral grounded) body ws3) as [r2 ws4]. simpl.
    by rewrite <- app_assoc.
  - (* atom *)
    intros l n args IH grounded ws. simpl.
    apply (subWitness_list subWitnessArgument nodesOfArgument args IH).
  - (* atom literal *)
    intros [l n args] IH grounded ws. simpl in *.
    rewrite subAggregatorResults_skip by done. rewrite <- IH.
    by destruct (mapAccum _ args ws).
  - (* negation *)
    intros s [l n args] IH grounded ws. simpl in *.
    rewrite !subAggregatorResults_skip by done. rewrite <- IH.
    by destruct (mapAccum _ args ws).
  - (* binary constraint *)
    intros s op x y IHx IHy grounded ws. simpl.
    rewrite subAggregatorResults_skip by done.
    rewrite subAggregatorResults_app, <- IHx.
    destruct (subWitnessArgument grounded x ws) as [r1 ws1]. simpl. rewrite <- IHy.
    by destruct (subWitnessArgument grounded y ws1).
Qed.



End WitnessCheck.

(** ** The examples satisfy the assumptions *)

Lemma layeredLattice_laws : @TypeLatticeLaws LayeredType layeredLattice.
Proof.
  split; simpl.
  - by intros [|[]|[]|].
  - by intros [|[]|[]|] [|[]|[]|] [|[]|[]|].
  - by intros [|[]|[]|] [|[]|[]|].
  - by intros [|[]|[]|] [|[]|[]|].
  - by intros [|[]|[]|] [|[]|[]|].
  - exists layeredHeight.
    intros [|[]|[]|] [|[]|[]|]; simpl; intros Hle Hne; try done; lia.
Qed.

Lemma negativeCycleGraph_contract : PrecedenceGraphContract negativeCycleGraph.
Proof.
  split; [done|]. intros v u Hv. simpl in *. split.
  - intros Hin. by right.
  - by intros [->|(Hin & _)].
Qed.

(** [.decl r(x:number)  r(X).]: the clause check reports one error, the
    variable in the fact, and warns that [X] occurs once. *)
Example variable_fact_gets_one_error :
  errorsOf <$> checkClause (H := numericFunctorOps) [] variableFactProgram variableFact
                 (fun _ => false)
  = Some [factError (VariableInFact "X", 22)].
Proof. vm_compute. reflexivity. Qed.

(** [a(X) :- b(X).  b(X) :- !a(X).]: one diagnostic, for the clique of
    [a], at the negation in the rule of [b]. *)
Example negative_cycle_is_rejected :
  checkStratification (H := bodyDependencies) [] negativeCycleProgram negativeCycleGraph
  = [stratificationDiagnostic relationA [relationA; relationB] true
       (AstNegation 63 (mkAstAtom 64 ["a"] [AstVariable (node 4 65) "X"]))].
Proof. vm_compute. reflexivity. Qed.

(** ** The loop on the constraints generated for a clause

    Every argument of a generated constraint is a node of the clause,
    and every node of the clause has a type once [resolveConstraints]
    has restored the top type; so no lookup of the loop fails. *)

Section Progress.
Context {AnalysisType : Type} `{TypeLattice AnalysisType} `{FunctorOpInfo}.

Lemma getRepresentative_typed (s : TypeSolver AnalysisType) (a : AstArgument) :
  typedIn s a -> getRepresentative s a = (repOf (representatives s) a, s).
Proof.
  intros [Hn _]. unfold getRepresentative, repOf. destruct a; try done.
  destruct (Hn _ _ eq_refl) as [r Hr]. by rewrite Hr.
Qed.

Lemma getType_solver_typed (s : TypeSolver AnalysisType) (a : AstArgument) :
  typedIn s a -> exists t, getType_solver s a = Some (t, s).
Proof.
  intros Ht. unfold getType_solver. rewrite (getRepresentative_typed _ _ Ht).
  destruct Ht as [_ [t Ht]]. rewrite Ht. eauto.
Qed.

Lemma setType_typed (s : TypeSolver AnalysisType) (a : AstArgument) t :
  typedIn s a -> sameShape s (setType s a t).
Proof.
  intros Ht. unfold setType. rewrite (getRepresentative_typed _ _ Ht). simpl.
  split; [done|split; [done|]]. simpl. intros k Hk.
  destruct (decide (k = getAddr (repOf (representatives s) a))) as [->|Hne].
  - rewrite lookup_insert_eq. eauto.
  - by rewrite lookup_insert_ne.
Qed.

Lemma sameShape_refl (s : TypeSolver AnalysisType) : sameShape s s.
Proof. by split; [|split]. Qed.

Lemma sameShape_trans (s1 s2 s3 : TypeSolver AnalysisType) :
  sameShape s1 s2 -> sameShape s2 s3 -> sameShape s1 s3.
Proof.
  intros (Hr1 & Hc1 & Hk1) (Hr2 & Hc2 & Hk2).
  split; [congruence|split; [congruence|]]. intros k Hk. by apply Hk2, Hk1.
Qed.

Lemma typedIn_sameShape (s s' : TypeSolver AnalysisType) (a : AstArgument) :
  sameShape s s' -> typedIn s a -> typedIn s' a.
Proof. intros (Hr & _ & Hk) [Hn Ht]. split; rewrite Hr; [done|by apply Hk]. Qed.

Lemma isSatisfiedFixed_typed (c : FixedConstraint AnalysisType) (s : TypeSolver AnalysisType) :
  typedIn s (fixedArgument c) -> exists b, isSatisfiedFixed c s = Some (b, s).
Proof.
  intros Ht. unfold isSatisfiedFixed.
  destruct (getType_solver_typed _ _ Ht) as [t ->]. simpl. eauto.
Qed.

Lemma resolveFixed_typed (c : FixedConstraint AnalysisType) (s : TypeSolver AnalysisType) :
  typedIn s (fixedArgument c) -> exists s', resolveFixed c s = Some s' /\ sameShape s s'.
Proof.
  intros Ht. unfold resolveFixed.
  destruct (getType_solver_typed _ _ Ht) as [t ->]. simpl.
  eexists. split; [done|]. by apply setType_typed.
Qed.

Lemma requirementsHold_typed (reqs : list (FixedConstraint AnalysisType))
    (s : TypeSolver AnalysisType) :
  (forall a, In a (map fixedArgument reqs) -> typedIn s a) ->
  exists b, requirementsHold reqs s = Some (b, s).
Proof.
  induction reqs as [|r reqs IH]; simpl; intros Hall; [eauto|].
  destruct (isSatisfiedFixed_typed r s) as [b ->]; [apply Hall; by left|].
  destruct b; [|eauto]. apply IH. intros a Ha. apply Hall. by right.
Qed.

Lemma isSatisfied_typed (c : TypeConstraint AnalysisType) (s : TypeSolver AnalysisType) :
  (forall a, In a (constraintArguments c) -> typedIn s a) ->
  exists b, isSatisfied c s = Some (b, s).
Proof.
  destruct c as [f|lhs rhs|a b1 b2|consequent reqs]; simpl; intros Hall.
  - apply isSatisfiedFixed_typed. apply Hall. by left.
  - destruct (getType_solver_typed s lhs) as [tl ->]; [apply Hall; auto|]. simpl.
    destruct (getType_solver_typed s rhs) as [tr ->]; [apply Hall; auto|]. simpl. eauto.
  - destruct (getType_solver_typed s a) as [ta ->]; [apply Hall; auto|]. simpl.
    destruct (getType_solver_typed s b1) as [t1 ->]; [apply Hall; auto|]. simpl.
    destruct (getType_solver_typed s b2) as [t2 ->]; [apply Hall; auto|]. simpl. eauto.
  - destruct (requirementsHold_typed reqs s) as [b ->]; [intros a Ha; apply Hall; by right|].
    destruct b; [|eauto]. apply isSatisfiedFixed_typed. apply Hall. by left.
Qed.

Lemma resolve_typed (c : TypeConstraint AnalysisType) (s : TypeSolver AnalysisType) :
  (forall a, In a (constraintArguments c) -> typedIn s a) ->
  exists s', resolve c s = Some s' /\ sameShape s s'.
Proof.
  destruct c as [f|lhs rhs|a b1 b2|consequent reqs]; simpl; intros Hall.
  - apply resolveFixed_typed. apply Hall. by left.
  - destruct (getType_solver_typed s lhs) as [tl ->]; [apply Hall; auto|]. simpl.
    destruct (getType_solver_typed s rhs) as [tr ->]; [apply Hall; auto|]. simpl.
    eexists. split; [done|]. apply setType_typed. apply Hall. auto.
  - destruct (getType_solver_typed s a) as [ta ->]; [apply Hall; auto|]. simpl.
    destruct (getType_solver_typed s b1) as [t1 ->]; [apply Hall; auto|]. simpl.
    destruct (getType_solver_typed s b2) as [t2 ->]; [apply Hall; auto|]. simpl.
    eexists. split; [done|]. apply setType_typed. apply Hall. auto.
  - destruct (requirementsHold_typed reqs s) as [b ->]; [intros a Ha; apply Hall; by right|].
    destruct b.
    + apply resolveFixed_typed. apply Hall. by left.
    + eexists. split; [done|apply sameShape_refl].
Qed.

Lemma resolvePass_typed (cs : list (TypeConstraint AnalysisType)) :
  forall changed (s : TypeSolver AnalysisType),
    (forall c, In c cs -> forall a, In a (constraintArguments c) -> typedIn s a) ->
    exists changed' s',
      fold_left
        (fun acc cons =>
           match acc with
           | Some (changed, solver) =>
               match isSatisfied cons solver with
               | Some (sat, solver) =>
                   if negb sat then
                     match resolve cons solver with
                     | Some solver => Some (true, solver)
                     | None => None
                     end
                   else Some (changed, solver)
               | None => None
               end
           | None => None
           end) cs (Some (changed, s)) = Some (changed', s')
      /\ sameShape s s'.
Proof.
  induction cs as [|c cs IH]; intros changed s Hall; simpl.
  - exists changed, s. split; [done|apply sameShape_refl].
  - destruct (isSatisfied_typed c s) as [sat ->]; [apply Hall; by left|].
    destruct sat; simpl.
    + apply IH. intros c' Hc'. apply Hall. by right.
    + destruct (resolve_typed c s) as (s1 & -> & Hshape); [apply Hall; by left|].
      destruct (IH true s1) as (changed' & s' & Hfold & Hshape').
      { intros c' Hc' a Ha. eapply typedIn_sameShape; [exact Hshape|].
        apply (Hall c'); [by right|done]. }
      exists changed', s'. split; [done|by eapply sameShape_trans].
Qed.

Lemma resolveLoop_typed (n : nat) :
  forall (s : TypeSolver AnalysisType) result,
    constraintsTyped s -> resolveLoop n s = Some result -> exists s', result = Some s'.
Proof.
  induction n as [|n IH]; intros s result Htyped; simpl; [done|].
  destruct (resolvePass_typed (constraints s) false s Htyped)
    as (changed & s1 & Hpass & Hshape).
  unfold resolvePass. rewrite Hpass. destruct changed; [|intros [= <-]; eauto].
  apply IH. intros c Hc a Ha. eapply typedIn_sameShape; [exact Hshape|].
  destruct Hshape as (_ & Hcs & _). rewrite Hcs in Hc. by apply (Htyped c).
Qed.

(** *** Restoring the top type *)

Lemma setType_establishes (s : TypeSolver AnalysisType) (b : AstArgument) t :
  typedIn (setType s b t) b
  /\ constraints (setType s b t) = constraints s
  /\ forall a, typedIn s a -> typedIn (setType s b t) a.
Proof.
  unfold setType. destruct (getRepresentative s b) as [r s1] eqn:E. simpl.
  pose proof (getRepresentative_spec _ _ _ _ E) as (Hr & Hsub & Hm & Hc).
  split; [|split; [done|]].
  - split; simpl.
    + intros i n ->. unfold getRepresentative in E.
      destruct (representatives s !! n) as [r0|] eqn:En.
      * injection E as <- <-. by rewrite En.
      * injection E as <- <-. simpl. rewrite lookup_insert_eq. eauto.
    + rewrite <- Hr, lookup_insert_eq. eauto.
  - intros a [Hn [ta Hta]]. split; simpl.
    + intros i n ->. destruct (Hn _ _ eq_refl) as [r0 Hr0].
      exists r0. by eapply lookup_weaken.
    + assert (repOf (representatives s1) a = repOf (representatives s) a) as ->.
      { unfold repOf. destruct a; try done.
        destruct (Hn _ _ eq_refl) as [r0 Hr0].
        by rewrite Hr0, (lookup_weaken _ _ _ _ Hr0 Hsub). }
      destruct (decide (getAddr (repOf (representatives s) a) = getAddr r)) as [->|Hne].
      * rewrite lookup_insert_eq. eauto.
      * rewrite lookup_insert_ne by done. rewrite Hm, Hta. eauto.
Qed.

Lemma setType_fold_typed (args : list AstArgument) (t : AnalysisType) :
  forall s : TypeSolver AnalysisType,
    let s' := fold_left (fun s arg => setType s arg t) args s in
    (forall a, typedIn s a -> typedIn s' a)
    /\ (forall a, In a args -> typedIn s' a).
Proof.
  induction args as [|b args IH]; intros s; simpl; [by split|].
  destruct (IH (setType s b t)) as [Hkeep Hall].
  destruct (setType_establishes s b t) as (Hb & _ & Hold).
  split.
  - intros a Ha. by apply Hkeep, Hold.
  - intros a [ <- |Ha]; [by apply Hkeep|by apply Hall].
Qed.

(** *** Generation stays within the clause *)

Lemma nodesOfArgument_self (a : AstArgument) : In (NodeArgument a) (nodesOfArgument a).
Proof. destruct a; by left. Qed.

Lemma argument_among_nodes (args : list AstArgument) (a : AstArgument) :
  In a args -> In (NodeArgument a) (flat_map nodesOfArgument args).
Proof.
  intros Ha. apply in_flat_map. exists a. split; [done|apply nodesOfArgument_self].
Qed.

Lemma rootedIn_addConstraint (ns : list AstNode) (s : TypeSolver AnalysisType) c :
  rootedIn ns s ->
  (forall a, In a (constraintArguments c) -> In (NodeArgument a) ns) ->
  rootedIn ns (addConstraint s c).
Proof.
  intros [Hreps Hcs] Hc. split; [done|]. intros c' Hc'.
  apply In_addConstraint in Hc' as [Hc'| ->]; [by apply Hcs|done].
Qed.

Lemma getRepresentative_rooted (ns : list AstNode) (s s' : TypeSolver AnalysisType) a r :
  rootedIn ns s -> In (NodeArgument a) ns ->
  getRepresentative s a = (r, s') ->
  rootedIn ns s' /\ In (NodeArgument r) ns.
Proof.
  intros [Hreps Hcs] Ha. unfold getRepresentative.
  destruct a; try (intros [= <- <-]; by split).
  destruct (representatives s !! name) as [r0|] eqn:E.
  - intros [= <- <-]. split; [by split|]. by eapply Hreps.
  - intros [= <- <-]. split; [|done]. split; [|done]. simpl.
    intros n r0. destruct (decide (n = name)) as [->|Hne].
    + rewrite lookup_insert_eq. by intros [= <-].
    + rewrite lookup_insert_ne by done. apply Hreps.
Qed.

Lemma functorRequirements_rooted (ns : list AstNode) acceptsSymbols acceptsNumbers
    (args : list AstArgument) :
  forall i (s : TypeSolver AnalysisType) reqs s',
    rootedIn ns s -> (forall a, In a args -> In (NodeArgument a) ns) ->
    functorRequirements acceptsSymbols acceptsNumbers i args s = Some (reqs, s') ->
    rootedIn ns s' /\ forall a, In a (map fixedArgument reqs) -> In (NodeArgument a) ns.
Proof.
  induction args as [|x args IH]; intros i s reqs s' Hroot Hargs; simpl.
  - intros [= <- <-]. by split.
  - destruct (getRepresentative s x) as [r s1] eqn:E.
    destruct (getRepresentative_rooted ns _ _ _ _ Hroot (Hargs x (or_introl eq_refl)) E)
      as [Hroot1 Hr].
    assert (forall a, In a args -> In (NodeArgument a) ns) as Hargs'
      by (intros a Ha; apply Hargs; by right).
    destruct (acceptsSymbols i).
    + destruct (functorRequirements _ _ (S i) args s1) as [[reqs' s2]|] eqn:E'; simpl; [|done].
      intros [= <- <-]. destruct (IH _ _ _ _ Hroot1 Hargs' E') as [Hroot2 Hreqs].
      split; [done|]. intros a [ <- |Ha]; [done|by apply Hreqs].
    + destruct (acceptsNumbers i); [|done].
      destruct (functorRequirements _ _ (S i) args s1) as [[reqs' s2]|] eqn:E'; simpl; [|done].
      intros [= <- <-]. destruct (IH _ _ _ _ Hroot1 Hargs' E') as [Hroot2 Hreqs].
      split; [done|]. intros a [ <- |Ha]; [done|by apply Hreqs].
Qed.

Lemma functorConstraints_rooted (ns : list AstNode) (functor : AstArgument) kind
    acceptsSymbols acceptsNumbers (args : list AstArgument)
    (s s' : TypeSolver AnalysisType) :
  rootedIn ns s -> In (NodeArgument functor) ns ->
  (forall a, In a args -> In (NodeArgument a) ns) ->
  functorConstraints functor kind acceptsSymbols acceptsNumbers args s = Some s' ->
  rootedIn ns s'.
Proof.
  intros Hroot Hf Hargs. unfold functorConstraints.
  destruct (functorRequirements _ _ 0 args _) as [[reqs s1]|] eqn:E; simpl; [|done].
  intros [= <-].
  apply functorRequirements_rooted with (ns := ns) in E as [Hroot1 Hreqs]; [|idtac|done].
  - apply rootedIn_addConstraint; [done|]. intros a [ <- |Ha]; [done|by apply Hreqs].
  - apply rootedIn_addConstraint; [done|]. by intros a [ <- |[]].
Qed.

Lemma recordArgumentConstraints_rooted (ns : list AstNode) (record : AstArgument)
    (args : list AstArgument) :
  forall fields (s : TypeSolver AnalysisType),
    rootedIn ns s -> In (NodeArgument record) ns ->
    (forall a, In a args -> In (NodeArgument a) ns) ->
    rootedIn ns (recordArgumentConstraints record args fields s).
Proof.
  induction args as [|x args IH]; intros fields s Hroot Hrec Hargs; simpl; [done|].
  destruct fields as [|f fields]; [done|].
  destruct (getRepresentative s x) as [r s1] eqn:E.
  destruct (getRepresentative_rooted ns _ _ _ _ Hroot (Hargs x (or_introl eq_refl)) E)
    as [Hroot1 Hr].
  apply IH; [|done|intros a Ha; apply Hargs; by right].
  apply rootedIn_addConstraint; [done|].
  intros a [ <- |[ <- |[]]]; done.
Qed.

Lemma recordRequirements_rooted (ns : list AstNode) (args : list AstArgument) :
  forall fields (s : TypeSolver AnalysisType),
    rootedIn ns s -> (forall a, In a args -> In (NodeArgument a) ns) ->
    rootedIn ns (snd (recordRequirements args fields s))
    /\ forall a, In a (map fixedArgument (fst (recordRequirements args fields s))) ->
         In (NodeArgument a) ns.
Proof.
  induction args as [|x args IH]; intros fields s Hroot Hargs; simpl; [by split|].
  destruct fields as [|f fields]; [by split|].
  destruct (getRepresentative s x) as [r s1] eqn:E.
  destruct (getRepresentative_rooted ns _ _ _ _ Hroot (Hargs x (or_introl eq_refl)) E)
    as [Hroot1 Hr].
  destruct (IH fields s1 Hroot1) as [Hroot2 Hreqs]; [intros a Ha; apply Hargs; by right|].
  destruct (recordRequirements args fields s1) as [reqs s2]. simpl in *.
  split; [done|]. intros a [ <- |Ha]; [done|by apply Hreqs].
Qed.

Lemma atomArgumentConstraints_rooted (ns : list AstNode) (args : list AstArgument) :
  forall attrs (s : TypeSolver AnalysisType),
    rootedIn ns s -> (forall a, In a args -> In (NodeArgument a) ns) ->
    rootedIn ns (atomArgumentConstraints args attrs s).
Proof.
  induction args as [|x args IH]; intros attrs s Hroot Hargs; simpl; [done|].
  destruct attrs as [|attr attrs]; [done|].
  destruct (getRepresentative s x) as [r s1] eqn:E.
  destruct (getRepresentative_rooted ns _ _ _ _ Hroot (Hargs x (or_introl eq_refl)) E)
    as [Hroot1 Hr].
  apply IH; [|intros a Ha; apply Hargs; by right].
  apply rootedIn_addConstraint; [done|]. by intros a [ <- |[]].
Qed.

Lemma fold_visit_rooted {A} (visit : A -> TypeSolver AnalysisType -> option (TypeSolver AnalysisType))
    (nodes : A -> list AstNode) (ns : list AstNode) (l : list A) :
  Forall (fun x => forall s s', incl (nodes x) ns -> rootedIn ns s ->
                     visit x s = Some s' -> rootedIn ns s') l ->
  forall s s', incl (flat_map nodes l) ns -> rootedIn ns s ->
    fold_left (fun acc x => acc ≫= visit x) l (Some s) = Some s' ->
    rootedIn ns s'.
Proof.
  induction 1 as [|x l Hx _ IH]; intros s s' Hincl Hroot; simpl.
  - by intros [= <-].
  - destruct (visit x s) as [s1|] eqn:E; simpl; [|by rewrite fold_left_bind_None].
    simpl in Hincl. apply IH.
    + intros n Hn. apply Hincl, in_app_iff. by right.
    + eapply Hx; [|done|done]. intros n Hn. apply Hincl, in_app_iff. by left.
Qed.

Lemma visit_rooted_mutual (program : AstProgram) (ns : list AstNode) :
  (forall a s s', incl (nodesOfArgument a) ns -> rootedIn ns s ->
                  visitArgument program a s = Some s' -> rootedIn ns s')
  /\ (forall a,
        (forall s s', incl (nodesOfAtom a) ns -> rootedIn ns s ->
                      visitAtom program a s = Some s' -> rootedIn ns s')
        /\ (forall s s', incl (flat_map nodesOfArgument (atomArguments a)) ns ->
              rootedIn ns s ->
              fold_left (fun acc x => acc ≫= visitArgument program x) (atomArguments a)
                (Some s) = Some s' ->
              rootedIn ns s'))
  /\ (forall l s s', incl (nodesOfLiteral l) ns -> rootedIn ns s ->
                     visitLiteral program l s = Some s' -> rootedIn ns s').
Proof.
  assert (forall a (s : TypeSolver AnalysisType) x,
            incl (nodesOfArgument a) ns -> rootedIn ns s ->
            rootedIn ns (addConstraint s (Fixed (mkFixedConstraint a x)))) as Hleaf.
  { intros a s x Hincl Hroot. apply rootedIn_addConstraint; [done|].
    intros a' [ <- |[]]. apply Hincl, nodesOfArgument_self. }
  apply Ast_mutual_ind.
  - intros i n s s' _ Hroot [= <-]. done.
  - intros i s s' _ Hroot [= <-]. done.
  - intros i n s s' Hincl Hroot [= <-]. by apply Hleaf.
  - intros i n s s' Hincl Hroot [= <-]. by apply Hleaf.
  - intros i s s' Hincl Hroot [= <-]. by apply Hleaf.
  - intros i s s' Hincl Hroot [= <-]. by apply Hleaf.
  - (* type cast *)
    intros i t v IH s s' Hincl Hroot. simpl.
    destruct (visitArgument program v s) as [s1|] eqn:E; simpl; [|done].
    intros [= <-]. apply Hleaf; [done|].
    eapply IH; [|done|done]. intros n Hn. apply Hincl. by right.
  - (* intrinsic functor *)
    intros i f args IH s s' Hincl Hroot. simpl.
    destruct (fold_left _ args (Some s)) as [s1|] eqn:E; simpl; [|done].
    assert (incl (flat_map nodesOfArgument args) ns) as Hsub
      by (intros n Hn; apply Hincl; by right).
    pose proof (fold_visit_rooted _ nodesOfArgument ns args IH s s1 Hsub Hroot E) as Hroot1.
    assert (forall a, In a args -> In (NodeArgument a) ns) as Hargs
      by (intros a Ha; by apply Hsub, argument_among_nodes).
    assert (In (NodeArgument (AstIntrinsicFunctor i f args)) ns) as Hself
      by (apply Hincl; by left).
    assert (forall a0 a1, args !! 0 = Some a0 -> args !! 1 = Some a1 ->
              forall lhs s2 rhs s3,
                getRepresentative s1 a0 = (lhs, s2) -> getRepresentative s2 a1 = (rhs, s3) ->
                rootedIn ns (addConstraint s3
                               (UnionConstraint (AstIntrinsicFunctor i f args) lhs rhs)))
      as Hunion.
    { intros a0 a1 Ha0 Ha1 lhs s2 rhs s3 E2 E3.
      apply list_elem_of_lookup_2, list_elem_of_In in Ha0, Ha1.
      destruct (getRepresentative_rooted ns _ _ _ _ Hroot1 (Hargs _ Ha0) E2) as [Hroot2 Hl].
      destruct (getRepresentative_rooted ns _ _ _ _ Hroot2 (Hargs _ Ha1) E3) as [Hroot3 Hr].
      apply rootedIn_addConstraint; [done|]. intros a [ <- |[ <- |[ <- |[]]]]; done. }
    destruct f.
    + destruct (args !! 0) as [a0|] eqn:Ha0; [|done].
      destruct (args !! 1) as [a1|] eqn:Ha1; [|done].
      destruct (getRepresentative s1 a0) as [lhs s2] eqn:E2.
      destruct (getRepresentative s2 a1) as [rhs s3] eqn:E3.
      intros [= <-]. by eapply Hunion.
    + destruct (args !! 0) as [a0|] eqn:Ha0; [|done].
      destruct (args !! 1) as [a1|] eqn:Ha1; [|done].
      destruct (getRepresentative s1 a0) as [lhs s2] eqn:E2.
      destruct (getRepresentative s2 a1) as [rhs s3] eqn:E3.
      intros [= <-]. by eapply Hunion.
    + destruct (isSymbolicFunctorOp _); [by eapply functorConstraints_rooted|].
      destruct (isNumericalFunctorOp _); [by eapply functorConstraints_rooted|done].
  - (* user-defined functor *)
    intros i f args IH s s' Hincl Hroot. simpl.
    destruct (fold_left _ args (Some s)) as [s1|] eqn:E; simpl; [|done].
    assert (incl (flat_map nodesOfArgument args) ns) as Hsub
      by (intros n Hn; apply Hincl; by right).
    pose proof (fold_visit_rooted _ nodesOfArgument ns args IH s s1 Hsub Hroot E) as Hroot1.
    assert (forall a, In a args -> In (NodeArgument a) ns) as Hargs
      by (intros a Ha; by apply Hsub, argument_among_nodes).
    assert (In (NodeArgument (AstUserDefinedFunctor i f args)) ns) as Hself
      by (apply Hincl; by left).
    destruct (getFunctorDeclaration program f) as [funDecl|]; simpl; [|done].
    destruct (declIsSymbolic funDecl); [by eapply functorConstraints_rooted|].
    destruct (declIsNumerical funDecl); [by eapply functorConstraints_rooted|done].
  - (* record *)
    intros i t args IH s s' Hincl Hroot. simpl.
    destruct (fold_left _ args (Some s)) as [s1|] eqn:E; simpl; [|done].
    assert (incl (flat_map nodesOfArgument args) ns) as Hsub
      by (intros n Hn; apply Hincl; by right).
    pose proof (fold_visit_rooted _ nodesOfArgument ns args IH s s1 Hsub Hroot E) as Hroot1.
    assert (forall a, In a args -> In (NodeArgument a) ns) as Hargs
      by (intros a Ha; by apply Hsub, argument_among_nodes).
    assert (In (NodeArgument (AstRecordInit i t args)) ns) as Hself
      by (apply Hincl; by left).
    destruct (getTypeEnvironment t) as [[| |n fields]|]; try done.
    destruct (negb _); [done|].
    pose proof (recordArgumentConstraints_rooted ns (AstRecordInit i t args) args fields s1
                  Hroot1 Hself Hargs) as Hroot2.
    pose proof (recordRequirements_rooted ns args fields _ Hroot2 Hargs) as [Hroot3 Hreqs].
    destruct (recordRequirements args fields _) as [reqs s3]. simpl in *.
    intros [= <-]. apply rootedIn_addConstraint; [done|].
    intros a [ <- |Ha]; [done|by apply Hreqs].
  - (* aggregator *)
    intros i op e body IHe IHbody s s' Hincl Hroot. simpl.
    assert (In (NodeArgument (AstAggregator i op e body)) ns) as Hself
      by (apply Hincl; by left).
    destruct (match e with Some x => visitArgument program x s | None => Some s end)
      as [s1|] eqn:E1; simpl; [|done].
    assert (rootedIn ns s1) as Hroot1.
    { destruct e as [x|]; [|by injection E1 as <-].
      eapply (IHe x eq_refl); [|done|done].
      intros n Hn. apply Hincl. right. apply in_app_iff. by left. }
    destruct (fold_left _ body (Some s1)) as [s2|] eqn:E2; simpl; [|done].
    assert (rootedIn ns s2) as Hroot2.
    { eapply (fold_visit_rooted _ nodesOfLiteral ns body IHbody s1 s2); [|done|done].
      intros n Hn. apply Hincl. right. apply in_app_iff. by right. }
    assert (forall x t s3, e = Some x -> getRepresentative s2 x = (t, s3) ->
              rootedIn ns (addConstraint s3
                             (VariableConstraint (AstAggregator i op e body) t))) as Htarget.
    { intros x t s3 -> E3.
      destruct (getRepresentative_rooted ns _ _ _ _ Hroot2
                  ltac:(apply Hincl; right; apply in_app_iff; left;
                        apply nodesOfArgument_self) E3) as [Hroot3 Ht].
      apply rootedIn_addConstraint; [done|]. intros a [ <- |[ <- |[]]]; done. }
    destruct op.
    + destruct e as [x|] eqn:Ee; [|done].
      destruct (getRepresentative s2 x) as [t s3] eqn:E3. intros [= <-]. by eapply Htarget.
    + destruct e as [x|] eqn:Ee; [|done].
      destruct (getRepresentative s2 x) as [t s3] eqn:E3. intros [= <-]. by eapply Htarget.
    + intros [= <-]. apply rootedIn_addConstraint; [done|]. by intros a [ <- |[]].
    + intros [= <-]. apply rootedIn_addConstraint; [done|]. by intros a [ <- |[]].
  - (* atom *)
    intros l n args IH. split.
    + intros s s' Hincl Hroot. simpl.
      destruct (fold_left _ args (Some s)) as [s1|] eqn:E; simpl; [|done].
      assert (incl (flat_map nodesOfArgument args) ns) as Hsub
        by (intros x Hx; apply Hincl; by right).
      pose proof (fold_visit_rooted _ nodesOfArgument ns args IH s s1 Hsub Hroot E) as Hroot1.
      destruct (getRelation program n) as [rel|]; simpl; [|done].
      destruct (negb _); [done|]. intros [= <-].
      apply atomArgumentConstraints_rooted; [done|].
      intros a Ha. by apply Hsub, argument_among_nodes.
    + intros s s' Hincl Hroot E. simpl in *.
      by apply (fold_visit_rooted _ nodesOfArgument ns args IH s s').
  - (* atom literal *)
    intros a [IH _]. exact IH.
  - (* negation *)
    intros l [al n args] [_ IH] s s' Hincl Hroot E. simpl in *.
    apply (IH s s'); [|done|done]. intros x Hx. apply Hincl. right. by right.
  - (* binary constraint *)
    intros l op x y IHx IHy s s' Hincl Hroot. simpl.
    destruct (visitArgument program x s) as [s1|] eqn:E1; simpl; [|done].
    assert (incl (nodesOfArgument x) ns) as Hix
      by (intros n Hn; apply Hincl; right; apply in_app_iff; by left).
    assert (incl (nodesOfArgument y) ns) as Hiy
      by (intros n Hn; apply Hincl; right; apply in_app_iff; by right).
    pose proof (IHx _ _ Hix Hroot E1) as Hroot1.
    destruct (visitArgument program y s1) as [s2|] eqn:E2; simpl; [|done].
    pose proof (IHy _ _ Hiy Hroot1 E2) as Hroot2.
    destruct op; [|by intros [= <-]|by intros [= <-]].
    destruct (getRepresentative s2 x) as [lr s3] eqn:E3.
    destruct (getRepresentative_rooted ns _ _ _ _ Hroot2
                (Hix _ (nodesOfArgument_self x)) E3) as [Hroot3 Hl].
    destruct (getRepresentative s3 y) as [rr s4] eqn:E4.
    destruct (getRepresentative_rooted ns _ _ _ _ Hroot3
                (Hiy _ (nodesOfArgument_self y)) E4) as [Hroot4 Hr].
    intros [= <-].
    apply rootedIn_addConstraint; [apply rootedIn_addConstraint; [done|]|];
      intros a [ <- |[ <- |[]]]; done.
  - (* boolean constraint *)
    intros l b s s' _ Hroot [= <-]. done.
Qed.

Lemma generateConstraints_rooted (program : AstProgram) (clause : AstClause)
    (s : TypeSolver AnalysisType) :
  generateConstraints program clause emptySolver = Some s ->
  rootedIn (nodesOfClause clause) s.
Proof.
  unfold generateConstraints, visitClause, visitArguments_, nodesOfClause.
  set (ns := nodesOfAtom (getHead clause) ++ flat_map nodesOfLiteral (getBodyLiterals clause)).
  destruct (visit_rooted_mutual program ns) as (Harg & _ & Hlit).
  assert (rootedIn ns (emptySolver : TypeSolver AnalysisType)) as Hroot0.
  { split; simpl.
    - intros n r Hn. by rewrite lookup_empty in Hn.
    - by intros c []. }
  destruct (fold_left _ (getBodyLiterals clause) (Some emptySolver)) as [s1|] eqn:E1;
    simpl; [|done].
  intros E2.
  assert (rootedIn ns s1) as Hroot1.
  { apply (fold_visit_rooted (visitLiteral program) nodesOfLiteral ns
             (getBodyLiterals clause)) with (s := emptySolver); [| |done|done].
    - apply List.Forall_forall. intros l _. apply Hlit.
    - intros n Hn. apply in_app_iff. by right. }
  apply (fold_visit_rooted (visitArgument program) nodesOfArgument ns
           (atomArguments (getHead clause))) with (s := s1); [| |done|done].
  - apply List.Forall_forall. intros a _. apply Harg.
  - intros n Hn. apply in_app_iff. left.
    destruct (getHead clause) as [l name args]. by right.
Qed.

(** The loop of [resolveConstraints] on the constraints generated for
    the clause ends without a failed lookup. *)
Lemma resolveConstraints_generated (fuel : nat) (program : AstProgram) (clause : AstClause)
    (s : TypeSolver AnalysisType) result :
  generateConstraints program clause emptySolver = Some s ->
  resolveConstraints fuel clause s = Some result ->
  exists s', result = Some s'.
Proof.
  intros Hgen. apply generateConstraints_rooted in Hgen as [_ Hcs].
  unfold resolveConstraints. apply resolveLoop_typed.
  pose proof (setType_fold_typed (visitArguments (nodesOfClause clause)) TopAnalysisType
                (mkTypeSolver (representatives s) ∅ (constraints s))) as [_ Hall].
  pose proof (setType_fold_spec (visitArguments (nodesOfClause clause)) TopAnalysisType
                (mkTypeSolver (representatives s) ∅ (constraints s))) as [_ Hc0].
  simpl in Hall, Hc0.
  intros c Hc a Ha. apply Hall. rewrite Hc0 in Hc. simpl in Hc.
  unfold visitArguments. apply list_elem_of_In, list_elem_of_omap.
  exists (NodeArgument a). split; [|done]. apply list_elem_of_In. by eapply Hcs.
Qed.

End Progress.

Section TerminationTheorem.
Context {AnalysisType : Type} `{TypeLattice AnalysisType} `{FunctorOpInfo}.

(** C5. With a lattice that obeys its laws (subtyping is a partial
    order, [meet] is a lower bound, the height is finite), the loop of
    [resolveConstraints] terminates for every clause and every set of
    constraints: some number of passes is enough, and any larger bound
    gives the same outcome.  On a normal exit the constraints are the
    ones it started with and every one of them is satisfied; for the
    constraints generated for the clause the exit is normal.  A resolve
    step never raises a type. *)
Theorem resolveConstraints_terminates `{!TypeLatticeLaws} (clause : AstClause)
    (solver : TypeSolver AnalysisType) :
  (exists fuel result,
     resolveConstraints fuel clause solver = Some result
     /\ (forall fuel', fuel <= fuel' ->
           resolveConstraints fuel' clause solver = Some result)
     /\ (forall s', result = Some s' ->
           constraints s' = constraints solver /\ allSatisfied s')
     /\ (forall program,
           generateConstraints program clause emptySolver = Some solver ->
           exists s', result = Some s'))
  /\ (forall c (s s' : TypeSolver AnalysisType),
        resolve c s = Some s' -> descends (typeMapping s) (typeMapping s')).
Proof.
  destruct finite_height as [height Hheight]. split.
  - pose proof (setType_fold_spec (visitArguments (nodesOfClause clause)) TopAnalysisType
                  (mkTypeSolver (representatives solver) ∅ (constraints solver))) as [_ Hc0].
    simpl in Hc0.
    set (s0 := fold_left (fun s arg => setType s arg TopAnalysisType)
                 (visitArguments (nodesOfClause clause))
                 (mkTypeSolver (representatives solver) ∅ (constraints solver))) in *.
    destruct (resolveLoop_terminates height Hheight
                (S (typeMeasure height (typeMapping s0))) s0) as [result Hres]; [lia|].
    exists (S (typeMeasure height (typeMapping s0))), result.
    split; [done|]. split; [|split].
    + intros fuel' Hle. by eapply resolveLoop_more_fuel.
    + intros s' ->. apply (resolveLoop_spec height Hheight) in Hres as (_ & Hc & _ & Hall).
      split; [congruence|done].
    + intros program Hgen. by eapply resolveConstraints_generated.
  - intros c s s'. apply resolve_descends.
Qed.

End TerminationTheorem.

(** ** C7: negated atoms *)

Section NegatedAtoms.
Context {AnalysisType : Type} `{TypeLattice AnalysisType} `{FunctorOpInfo}.

Lemma collects_refl program (s : TypeSolver AnalysisType) : collects program [] s s.
Proof. split; [done|]. by intros a c []. Qed.

Lemma collects_extend program ns (s s1 s2 : TypeSolver AnalysisType) :
  collects program ns s s1 ->
  (forall c, In c (constraints s1) -> In c (constraints s2)) ->
  collects program ns s s2.
Proof. intros [Hk Hn] Hk2. split; [auto|]. intros a c Ha Hc. eauto. Qed.

Lemma collects_app program ns1 ns2 (s s1 s2 : TypeSolver AnalysisType) :
  collects program ns1 s s1 -> collects program ns2 s1 s2 ->
  collects program (ns1 ++ ns2) s s2.
Proof.
  intros [Hk1 Hn1] [Hk2 Hn2]. split; [auto|]. intros a c Ha Hc.
  unfold visitArguments in Ha. rewrite omap_app in Ha.
  apply in_app_iff in Ha as [Ha|Ha]; [eapply Hk2, Hn1|eapply Hn2]; eauto.
Qed.

Lemma collects_argument program (a : AstArgument) ns (s s' : TypeSolver AnalysisType) :
  collects program ns s s' ->
  (forall c, nodeConstraint program a = Some c -> In c (constraints s')) ->
  collects program (NodeArgument a :: ns) s s'.
Proof.
  intros [Hk Hn] Ha. split; [done|]. intros x c [<-|Hx] Hc; [by apply Ha|by eapply Hn].
Qed.

Lemma collects_atom program (atom : AstAtom) ns (s s' : TypeSolver AnalysisType) :
  collects program ns s s' -> collects program (NodeAtom atom :: ns) s s'.
Proof. done. Qed.

Lemma collects_literal program (l : AstLiteral) ns (s s' : TypeSolver AnalysisType) :
  collects program ns s s' -> collects program (NodeLiteral l :: ns) s s'.
Proof. done. Qed.

Lemma fold_collects {A} program
    (visit : A -> TypeSolver AnalysisType -> option (TypeSolver AnalysisType))
    (nodes : A -> list AstNode) (l : list A) :
  Forall (fun x => forall s s', visit x s = Some s' -> collects program (nodes x) s s') l ->
  forall s s',
    fold_left (fun acc x => acc ≫= visit x) l (Some s) = Some s' ->
    collects program (flat_map nodes l) s s'.
Proof.
  induction 1 as [|x l Hx _ IH]; intros s s'; simpl.
  - intros [= <-]. apply collects_refl.
  - destruct (visit x s) as [s1|] eqn:E; simpl; [|by rewrite fold_left_bind_None].
    intros Hf. eapply collects_app; [by apply Hx|by apply IH].
Qed.

Lemma getRepresentative_constraints (s : TypeSolver AnalysisType) a r s' :
  getRepresentative s a = (r, s') -> constraints s' = constraints s.
Proof. intros Hg. by apply getRepresentative_spec in Hg as (_ & _ & _ & ?). Qed.

Lemma functorRequirements_constraints (acceptsSymbols acceptsNumbers : nat -> bool)
    (args : list AstArgument) :
  forall i (s : TypeSolver AnalysisType) reqs s',
    functorRequirements acceptsSymbols acceptsNumbers i args s = Some (reqs, s') ->
    constraints s' = constraints s.
Proof.
  induction args as [|a args IH]; intros i s reqs s'; simpl.
  - by intros [= _ <-].
  - destruct (getRepresentative s a) as [r s1] eqn:E.
    apply getRepresentative_constraints in E.
    destruct (acceptsSymbols i); [|destruct (acceptsNumbers i); [|done]];
      destruct (functorRequirements _ _ (S i) args s1) as [[reqs' s2]|] eqn:E2;
      simpl; try done; intros [= _ <-]; apply IH in E2; congruence.
Qed.

Lemma functorConstraints_adds (functor : AstArgument) (kind : Kind)
    (acceptsSymbols acceptsNumbers : nat -> bool) (args : list AstArgument)
    (s s' : TypeSolver AnalysisType) :
  functorConstraints functor kind acceptsSymbols acceptsNumbers args s = Some s' ->
  (forall c, In c (constraints s) -> In c (constraints s'))
  /\ In (Fixed (mkFixedConstraint functor (TopPrimitiveAnalysisType kind))) (constraints s').
Proof.
  unfold functorConstraints.
  destruct (functorRequirements _ _ 0 args _) as [[reqs s1]|] eqn:E; simpl; [|done].
  apply functorRequirements_constraints in E. intros [= <-]. simpl in *.
  rewrite E. split.
  - intros c Hc. rewrite !in_app_iff. auto.
  - rewrite !in_app_iff. left; right. by left.
Qed.

Lemma recordArgumentConstraints_keeps (record : AstArgument) (args : list AstArgument) :
  forall fields (s : TypeSolver AnalysisType) c,
    In c (constraints s) ->
    In c (constraints (recordArgumentConstraints record args fields s)).
Proof.
  induction args as [|a args IH]; intros [|f fields] s c Hc; simpl; try done.
  destruct (getRepresentative s a) as [r s1] eqn:E.
  apply getRepresentative_constraints in E.
  apply IH. apply In_addConstraint. left. by rewrite E.
Qed.

Lemma recordRequirements_constraints (args : list AstArgument) :
  forall fields (s : TypeSolver AnalysisType),
    constraints (snd (recordRequirements args fields s)) = constraints s.
Proof.
  induction args as [|a args IH]; intros [|f fields] s; simpl; try done.
  destruct (getRepresentative s a) as [r s1] eqn:E.
  apply getRepresentative_constraints in E.
  specialize (IH fields s1). destruct (recordRequirements args fields s1) as [reqs s2].
  simpl in *. congruence.
Qed.

(** Visiting a subtree adds the constraint of every node of it. *)
Lemma visit_collects_mutual (program : AstProgram) :
  (forall a (s s' : TypeSolver AnalysisType),
     visitArgument program a s = Some s' -> collects program (nodesOfArgument a) s s')
  /\ (forall a,
        (forall s s' : TypeSolver AnalysisType,
           visitAtom program a s = Some s' -> collects program (nodesOfAtom a) s s')
        /\ (forall s s' : TypeSolver AnalysisType,
              fold_left (fun acc x => acc ≫= visitArgument program x) (atomArguments a)
                (Some s) = Some s' ->
              collects program (flat_map nodesOfArgument (atomArguments a)) s s'))
  /\ (forall l (s s' : TypeSolver AnalysisType),
        visitLiteral program l s = Some s' -> collects program (nodesOfLiteral l) s s').
Proof.
  assert (forall a (s : TypeSolver AnalysisType) c,
            nodeConstraint program a = Some c ->
            collects program [NodeArgument a] s (addConstraint s c)) as Hleaf.
  { intros a s c Hc. apply collects_argument.
    - eapply collects_extend; [apply collects_refl|].
      intros c' Hc'. apply In_addConstraint. by left.
    - intros c' Hc'. apply In_addConstraint. right. congruence. }
  assert (forall (s : TypeSolver AnalysisType) c c',
            In c' (constraints s) -> In c' (constraints (addConstraint s c))) as Hadd.
  { intros s c c' Hc'. apply In_addConstraint. by left. }
  apply Ast_mutual_ind.
  - (* variable *)
    intros i n s s' [= <-]. apply collects_argument; [apply collects_refl|done].
  - (* unnamed variable *)
    intros i s s' [= <-]. apply collects_argument; [apply collects_refl|done].
  - (* number constant *)
    intros i n s s' [= <-]. by apply Hleaf.
  - (* string constant *)
    intros i n s s' [= <-]. by apply Hleaf.
  - (* null constant *)
    intros i s s' [= <-]. by apply Hleaf.
  - (* counter *)
    intros i s s' [= <-]. by apply Hleaf.
  - (* type cast *)
    intros i t v IH s s'. simpl.
    destruct (visitArgument program v s) as [s1|] eqn:E; simpl; [|done].
    intros [= <-]. apply collects_argument.
    + eapply collects_extend; [by apply IH|]. apply Hadd.
    + intros c [= <-]. apply In_addConstraint. by right.
  - (* intrinsic functor *)
    intros i f args IH s s'. simpl.
    destruct (fold_left _ args (Some s)) as [s1|] eqn:E; simpl; [|done].
    apply (fold_collects program (visitArgument program) nodesOfArgument args IH) in E.
    intros Hf.
    assert ((forall c, In c (constraints s1) -> In c (constraints s'))
            /\ forall c, nodeConstraint program (AstIntrinsicFunctor i f args) = Some c ->
                 In c (constraints s')) as [Hk Hc].
    { simpl. destruct f as [| |code].
      - destruct (args !! 0) as [a0|]; [|done]. destruct (args !! 1) as [a1|]; [|done].
        destruct (getRepresentative s1 a0) as [l s2] eqn:E0.
        destruct (getRepresentative s2 a1) as [r s3] eqn:E1.
        apply getRepresentative_constraints in E0, E1. injection Hf as <-.
        split; [|done]. intros c Hc. apply Hadd. congruence.
      - destruct (args !! 0) as [a0|]; [|done]. destruct (args !! 1) as [a1|]; [|done].
        destruct (getRepresentative s1 a0) as [l s2] eqn:E0.
        destruct (getRepresentative s2 a1) as [r s3] eqn:E1.
        apply getRepresentative_constraints in E0, E1. injection Hf as <-.
        split; [|done]. intros c Hc. apply Hadd. congruence.
      - destruct (isSymbolicFunctorOp (OtherFunctorOp code)).
        + apply functorConstraints_adds in Hf as [Hk Hin].
          split; [done|]. by intros c [= <-].
        + destruct (isNumericalFunctorOp (OtherFunctorOp code)); [|done].
          apply functorConstraints_adds in Hf as [Hk Hin].
          split; [done|]. by intros c [= <-]. }
    apply collects_argument; [|done]. by eapply collects_extend.
  - (* user-defined functor *)
    intros i f args IH s s'. simpl.
    destruct (fold_left _ args (Some s)) as [s1|] eqn:E; simpl; [|done].
    apply (fold_collects program (visitArgument program) nodesOfArgument args IH) in E.
    destruct (getFunctorDeclaration program f) as [funDecl|] eqn:Ed; simpl; [|done].
    intros Hf.
    assert ((forall c, In c (constraints s1) -> In c (constraints s'))
            /\ forall c,
                 (if declIsSymbolic funDecl
                  then Some (Fixed (mkFixedConstraint (AstUserDefinedFunctor i f args)
                                      (TopPrimitiveAnalysisType SYMBOL)))
                  else if declIsNumerical funDecl
                       then Some (Fixed (mkFixedConstraint (AstUserDefinedFunctor i f args)
                                           (TopPrimitiveAnalysisType NUMBER)))
                       else None) = Some c ->
                 In c (constraints s')) as [Hk Hc].
    { destruct (declIsSymbolic funDecl).
      - apply functorConstraints_adds in Hf as [Hk Hin]. split; [done|]. by intros c [= <-].
      - destruct (declIsNumerical funDecl); [|done].
        apply functorConstraints_adds in Hf as [Hk Hin]. split; [done|]. by intros c [= <-]. }
    apply collects_argument; [by eapply collects_extend|].
    intros c Hnode. apply Hc. simpl in Hnode. by rewrite Ed in Hnode.
  - (* record *)
    intros i t args IH s s'. simpl.
    destruct (fold_left _ args (Some s)) as [s1|] eqn:E; simpl; [|done].
    apply (fold_collects program (visitArgument program) nodesOfArgument args IH) in E.
    destruct (getTypeEnvironment t) as [[| |n fields]|]; try done.
    destruct (negb _); [done|].
    pose proof (recordRequirements_constraints args fields
                  (recordArgumentConstraints (AstRecordInit i t args) args fields s1)) as Hreq.
    destruct (recordRequirements args fields _) as [reqs s3]. simpl in Hreq.
    intros [= <-]. apply collects_argument; [|done].
    eapply collects_extend; [exact E|]. intros c Hc. apply Hadd. rewrite Hreq.
    by apply recordArgumentConstraints_keeps.
  - (* aggregator *)
    intros i op e body IHe IHbody s s'.
    change (nodesOfArgument (AstAggregator i op e body))
      with (NodeArgument (AstAggregator i op e body)
            :: (match e with Some x => nodesOfArgument x | None => [] end
                ++ flat_map nodesOfLiteral body)).
    simpl.
    destruct (match e with Some x => visitArgument program x s | None => Some s end)
      as [s1|] eqn:E1; simpl; [|done].
    assert (collects program match e with Some x => nodesOfArgument x | None => [] end s s1)
      as He.
    { destruct e as [x|]; [by apply (IHe x)|]. injection E1 as <-. apply collects_refl. }
    destruct (fold_left _ body (Some s1)) as [s2|] eqn:E2; simpl; [|done].
    apply (fold_collects program (visitLiteral program) nodesOfLiteral body IHbody) in E2.
    pose proof (collects_app _ _ _ _ _ _ He E2) as Hboth.
    intros Hop.
    assert ((forall c, In c (constraints s2) -> In c (constraints s'))
            /\ forall c, nodeConstraint program (AstAggregator i op e body) = Some c ->
                 In c (constraints s')) as [Hk Hc].
    { simpl. destruct op.
      - destruct e as [x|]; [|done].
        destruct (getRepresentative s2 x) as [r s3] eqn:E3.
        apply getRepresentative_constraints in E3. injection Hop as <-.
        split; [|done]. intros c Hc. apply Hadd. congruence.
      - destruct e as [x|]; [|done].
        destruct (getRepresentative s2 x) as [r s3] eqn:E3.
        apply getRepresentative_constraints in E3. injection Hop as <-.
        split; [|done]. intros c Hc. apply Hadd. congruence.
      - injection Hop as <-. split; [apply Hadd|].
        intros c [= <-]. apply In_addConstraint. by right.
      - injection Hop as <-. split; [apply Hadd|].
        intros c [= <-]. apply In_addConstraint. by right. }
    apply collects_argument; [|done]. by eapply collects_extend.
  - (* atom *)
    intros l n args IH. split.
    + intros s s'. simpl.
      destruct (fold_left _ args (Some s)) as [s1|] eqn:E; simpl; [|done].
      apply (fold_collects program (visitArgument program) nodesOfArgument args IH) in E.
      destruct (getRelation program n) as [rel|]; simpl; [|done].
      destruct (negb _); [done|]. intros [= <-]. apply collects_atom.
      eapply collects_extend; [exact E|].
      apply (atomArgumentConstraints_spec args (getAttributes rel) s1).
    + intros s s'. apply (fold_collects program (visitArgument program) nodesOfArgument args IH).
  - (* atom literal *)
    intros a [IH _] s s'. apply IH.
  - (* negation *)
    intros l [al n args] [_ IH] s s' Hv. simpl in *.
    apply collects_literal, collects_atom. by apply IH.
  - (* binary constraint *)
    intros l op x y IHx IHy s s'. simpl.
    destruct (visitArgument program x s) as [s1|] eqn:Ex; simpl; [|done].
    destruct (visitArgument program y s1) as [s2|] eqn:Ey; simpl; [|done].
    pose proof (collects_app _ _ _ _ _ _ (IHx _ _ Ex) (IHy _ _ Ey)) as Hboth.
    intros Hop. apply collects_literal. eapply collects_extend; [exact Hboth|].
    destruct op; try (injection Hop as <-; done).
    destruct (getRepresentative s2 x) as [lr s3] eqn:E3.
    destruct (getRepresentative s3 y) as [rr s4] eqn:E4.
    apply getRepresentative_constraints in E3, E4. injection Hop as <-.
    intros c Hc. apply Hadd, Hadd. congruence.
  - (* boolean constraint *)
    intros l b s s' [= <-]. apply collects_literal, collects_refl.
Qed.

(** The loop of [visitAtom] adds its constraints at the end, one per
    argument. *)
Lemma atomArgumentConstraints_exact (args : list AstArgument) :
  forall (attrs : list AstAttribute) (s : TypeSolver AnalysisType),
    constraints (atomArgumentConstraints args attrs s)
    = constraints s
      ++ attributeConstraints (atomArgumentConstraints args attrs s) args attrs.
Proof.
  unfold attributeConstraints.
  induction args as [|a args IH]; intros attrs s; simpl; [by rewrite app_nil_r|].
  destruct attrs as [|attr attrs]; simpl; [by rewrite app_nil_r|].
  destruct (getRepresentative s a) as [r s1] eqn:E1.
  pose proof (getRepresentative_spec _ _ _ _ E1) as (_ & _ & _ & Hc1).
  set (s2 := addConstraint s1 (Fixed (mkFixedConstraint r (getAnalysisType (getTypeName attr))))).
  rewrite (IH attrs s2).
  pose proof (atomArgumentConstraints_spec args attrs s2) as (Hsub & _ & _).
  simpl in Hsub.
  erewrite (getRepresentative_stable s a r s1 E1 (atomArgumentConstraints args attrs s2) Hsub).
  simpl. rewrite Hc1, <- app_assoc. done.
Qed.

(** C7. Visiting a negated atom visits the arguments of its atom and
    nothing else.  It keeps the constraints there were and picks up, for
    every constant, counter, cast, functor and counting or summing
    aggregator at any depth below the atom, the constraint of that node
    on itself.  The outcome is the same for any relation name, in any
    program that declares the same functors and agrees on the atoms
    nested below the arguments, and a negated atom over plain variables
    adds nothing at all.  Visiting the positive atom of a declared
    relation of the right arity gives the same constraints followed by
    one [Fixed] constraint per argument (on its representative) to the
    analysis type of the declared attribute. *)
Theorem negation_skips_attribute_constraints (program : AstProgram)
    (solver : TypeSolver AnalysisType) (srcLoc atomLoc : SrcLocation)
    (name : AstRelationIdentifier) (arguments : list AstArgument) (rel : AstRelation)
    (solver' : TypeSolver AnalysisType) :
  getRelation program name = Some rel ->
  getArity rel = length arguments ->
  visitLiteral program (AstNegation srcLoc (mkAstAtom atomLoc name arguments)) solver
    = Some solver' ->
  (forall c, In c (constraints solver) -> In c (constraints solver'))
  /\ (forall a c,
        In a (visitArguments (flat_map nodesOfArgument arguments)) ->
        nodeConstraint program a = Some c ->
        In c (constraints solver'))
  /\ (forall program' srcLoc' atomLoc' name',
        (forall f, getFunctorDeclaration program f = getFunctorDeclaration program' f) ->
        (forall atom, In atom (visitAtoms (flat_map nodesOfArgument arguments)) ->
           getRelation program (atomName atom) = getRelation program' (atomName atom)) ->
        visitLiteral program' (AstNegation srcLoc' (mkAstAtom atomLoc' name' arguments)) solver
        = Some solver')
  /\ (forallb isPlainVariable arguments = true -> solver' = solver)
  /\ exists solver'',
       visitLiteral program (AtomLiteral (mkAstAtom atomLoc name arguments)) solver
         = Some solver''
       /\ constraints solver''
          = constraints solver' ++ attributeConstraints solver'' arguments (getAttributes rel)
       /\ length (attributeConstraints solver'' arguments (getAttributes rel))
          = length arguments.
Proof.
  intros Hrel Harity Hargs. simpl in Hargs.
  destruct (visit_collects_mutual program) as (Hcollect & _ & _).
  pose proof (fold_collects program (visitArgument program) nodesOfArgument arguments
                (proj2 (List.Forall_forall _ _) (fun a _ => Hcollect a)) _ _ Hargs)
    as [Hkeep Hnodes].
  split; [exact Hkeep|]. split; [exact Hnodes|]. split; [|split].
  - intros program' srcLoc' atomLoc' name' Hfun Hagree. simpl. rewrite <- Hargs.
    symmetry. destruct (visit_agree_mutual program program' Hfun) as (Harg & _ & _).
    apply fold_left_bind_ext, List.Forall_forall. intros a Ha s. apply Harg.
    intros atom Hatom. apply Hagree. by eapply visitAtoms_flat_map_In.
  - intros Hplain. revert Hargs. clear -Hplain.
    revert solver. induction arguments as [|a args IH]; intros solver; simpl.
    + by intros [= <-].
    + simpl in Hplain. apply andb_true_iff in Hplain as [Ha Hargs].
      destruct a; try discriminate; simpl; by apply IH.
  - exists (atomArgumentConstraints arguments (getAttributes rel) solver'). split; [|split].
    + simpl. rewrite Hargs. simpl. rewrite Hrel. simpl.
      rewrite Harity, Nat.eqb_refl. done.
    + apply atomArgumentConstraints_exact.
    + unfold attributeConstraints. rewrite length_map, length_zip.
      unfold getArity in Harity. lia.
Qed.

End NegatedAtoms.

(** ** C8: the head atom *)

Lemma foldM_total {A B} (f : B -> A -> option B) (l : list A) :
  Forall (fun x => forall r, is_Some (f r x)) l ->
  forall r, is_Some (foldM f l r).
Proof.
  induction 1 as [|x l Hx _ IH]; intros r.
  - rewrite foldM_nil. by eexists.
  - rewrite foldM_cons. destruct (Hx r) as [r1 ->]. simpl. apply IH.
Qed.

Lemma visitAtoms_In (ns : list AstNode) (atom : AstAtom) :
  In atom (visitAtoms ns) <-> In (NodeAtom atom) ns.
Proof.
  unfold visitAtoms. rewrite <- !list_elem_of_In, list_elem_of_omap. split.
  - intros (n & Hn & Hsome). destruct n; try done. by injection Hsome as ->.
  - intros Hn. by exists (NodeAtom atom).
Qed.

Lemma visitArguments_In (ns : list AstNode) (a : AstArgument) :
  In a (visitArguments ns) <-> In (NodeArgument a) ns.
Proof.
  unfold visitArguments. rewrite <- !list_elem_of_In, list_elem_of_omap. split.
  - intros (n & Hn & Hsome). destruct n; try done. by injection Hsome as ->.
  - intros Hn. by exists (NodeArgument a).
Qed.

Lemma closedUnderAtoms_app (ns1 ns2 : list AstNode) :
  closedUnderAtoms ns1 -> closedUnderAtoms ns2 -> closedUnderAtoms (ns1 ++ ns2).
Proof.
  intros H1 H2 atom arg Hin Harg. rewrite in_app_iff in *.
  destruct Hin as [Hin|Hin]; [left; by eapply H1|right; by eapply H2].
Qed.

Lemma closedUnderAtoms_flat_map {A} (nodes : A -> list AstNode) (l : list A) :
  Forall (fun x => closedUnderAtoms (nodes x)) l -> closedUnderAtoms (flat_map nodes l).
Proof.
  induction 1 as [|x l Hx _ IH]; simpl; [by intros ? ? []|].
  by apply closedUnderAtoms_app.
Qed.

Lemma closedUnderAtoms_cons (n : AstNode) (ns : list AstNode) :
  (forall atom, n <> NodeAtom atom) -> closedUnderAtoms ns -> closedUnderAtoms (n :: ns).
Proof.
  intros Hn Hns atom arg [Hin|Hin] Harg; [by destruct (Hn atom)|].
  right. by eapply Hns.
Qed.

Lemma nodes_closed_mutual :
  (forall a, closedUnderAtoms (nodesOfArgument a))
  /\ (forall a, closedUnderAtoms (nodesOfAtom a))
  /\ (forall l, closedUnderAtoms (nodesOfLiteral l)).
Proof.
  apply Ast_mutual_ind;
    try (intros; simpl; apply closedUnderAtoms_cons; [done|]; by intros ? ? []).
  - intros i t v IH. simpl. by apply closedUnderAtoms_cons.
  - intros i f args IH. simpl. apply closedUnderAtoms_cons; [done|].
    by apply closedUnderAtoms_flat_map.
  - intros i f args IH. simpl. apply closedUnderAtoms_cons; [done|].
    by apply closedUnderAtoms_flat_map.
  - intros i t args IH. simpl. apply closedUnderAtoms_cons; [done|].
    by apply closedUnderAtoms_flat_map.
  - intros i op e body IHe IHbody.
    change (nodesOfArgument (AstAggregator i op e body))
      with (NodeArgument (AstAggregator i op e body)
            :: (match e with Some x => nodesOfArgument x | None => [] end
                ++ flat_map nodesOfLiteral body)).
    apply closedUnderAtoms_cons; [done|]. apply closedUnderAtoms_app.
    + destruct e as [x|]; [by apply IHe|by intros ? ? []].
    + by apply closedUnderAtoms_flat_map.
  - intros l n args IH atom arg [[= <-]|Hin] Harg.
    + right. by apply argument_among_nodes.
    + right. eapply (closedUnderAtoms_flat_map nodesOfArgument args IH); [exact Hin|done].
  - intros a IH. exact IH.
  - intros s a IH. simpl. by apply closedUnderAtoms_cons.
  - intros s op x y IHx IHy. simpl. apply closedUnderAtoms_cons; [done|].
    by apply closedUnderAtoms_app.
Qed.

Lemma nodesOfClause_closed (clause : AstClause) : closedUnderAtoms (nodesOfClause clause).
Proof.
  destruct nodes_closed_mutual as (_ & Hatom & Hlit).
  apply closedUnderAtoms_app; [apply Hatom|].
  apply closedUnderAtoms_flat_map, List.Forall_forall. intros l _. apply Hlit.
Qed.

Section HeadAtomCheck.
Context {AnalysisType : Type} `{TypeLattice AnalysisType} `{FunctorOpInfo}.

(** The typed clauses are clauses that can be typed. *)
Lemma typedClauses_can_be_typed fuel program (ta : TypeAnalysis AnalysisType) clause :
  run fuel program = Some (Some ta) ->
  In clause (typedClauses ta) ->
  isInvalidClause program clause = true.
Proof.
  unfold run. destruct isValid.
  - intros Hrun. apply run_fold_spec in Hrun as [-> _]. simpl.
    rewrite filter_In. by intros [_ ?].
  - by intros [= <-] [].
Qed.

Lemma typedClauses_types fuel program (ta : TypeAnalysis AnalysisType) clause arg :
  run fuel program = Some (Some ta) ->
  In clause (typedClauses ta) ->
  In arg (visitArguments (nodesOfClause clause)) ->
  is_Some (getType_analysis ta arg).
Proof.
  unfold run. destruct isValid.
  - intros Hrun. eapply run_fold_types; [|exact Hrun]. by intros ? ? [].
  - by intros [= <-] [].
Qed.

(** After a run that returns, the check of the atoms returns too. *)
Lemma checkTypeCorrectnessAtoms_total fuel program (ta : TypeAnalysis AnalysisType) report :
  run fuel program = Some (Some ta) ->
  is_Some (checkTypeCorrectnessAtoms report ta program).
Proof.
  intros Hrun. unfold checkTypeCorrectnessAtoms.
  apply foldM_total, List.Forall_forall. intros atom Hatom r.
  apply visitAtoms_In, in_flat_map in Hatom as (clause & Hclause & Hatom).
  pose proof (typedClauses_can_be_typed _ _ _ _ Hrun Hclause) as Hc.
  rewrite isInvalidClause_forallb, !andb_true_iff in Hc.
  destruct Hc as [[[Hatoms _] _] _]. rewrite forallb_forall in Hatoms.
  specialize (Hatoms atom (proj2 (visitAtoms_In _ _) Hatom)).
  unfold atomCanBeTyped in Hatoms.
  destruct (getRelation program (atomName atom)) as [rel|]; [|done]. simpl.
  apply andb_true_iff in Hatoms as [Harity _]. apply Nat.eqb_eq in Harity.
  unfold checkAtomArgumentTypes.
  apply foldM_total, List.Forall_forall. intros [i arg] Hin r0.
  apply In_zip_seq in Hin as [_ Hi]. rewrite Nat.sub_0_r in Hi.
  assert (is_Some (getType_analysis ta arg)) as [T ->].
  { eapply typedClauses_types; [exact Hrun|exact Hclause|].
    apply visitArguments_In. eapply nodesOfClause_closed; [exact Hatom|].
    apply list_elem_of_In. by eapply list_elem_of_lookup_2. }
  simpl. destruct (negb (isValidType T)); [by eexists|].
  assert (is_Some (getAttributes rel !! i)) as [attr ->].
  { apply lookup_lt_is_Some. apply lookup_lt_Some in Hi.
    unfold getArity, atomArity in Harity. lia. }
  simpl. destruct (negb _); by eexists.
Qed.

(** C8. The constraints generated for a clause come from its body
    literals and from the children of its head only: they do not depend
    on the relation the head names, nor on how a program declares any
    relation that no atom of the body or below the head names; and so
    the solver of the clause, with every type it infers, is the same
    whatever the head relation declares.  After a run of the analysis
    that returns, the check of the atoms returns as well; it visits
    every atom of the typed clauses, the head among them, and reports
    an argument whose inferred type is valid but not a subtype of the
    declared attribute type; when it reports nothing, every such
    argument conforms. *)
Theorem head_attribute_types_checked_after_solving (fuel : nat) (program : AstProgram)
    (clause : AstClause) (ta : TypeAnalysis AnalysisType) (report : ErrorReport) :
  run fuel program = Some (Some ta) ->
  (forall solver srcLoc name,
     generateConstraints program
       (mkAstClause (clauseSrcLoc clause)
          (mkAstAtom srcLoc name (atomArguments (getHead clause)))
          (getBodyLiterals clause) (getExecutionPlan clause) (isGenerated clause)) solver
     = generateConstraints program clause solver)
  /\ (forall solver program',
        (forall f, getFunctorDeclaration program f = getFunctorDeclaration program' f) ->
        (forall atom,
           In atom (visitAtoms (flat_map nodesOfLiteral (getBodyLiterals clause)
                                ++ flat_map nodesOfArgument (atomArguments (getHead clause)))) ->
           getRelation program (atomName atom) = getRelation program' (atomName atom)) ->
        generateConstraints program clause solver = generateConstraints program' clause solver)
  /\ (forall program' srcLoc name,
        (forall f, getFunctorDeclaration program f = getFunctorDeclaration program' f) ->
        (forall atom,
           In atom (visitAtoms (flat_map nodesOfLiteral (getBodyLiterals clause)
                                ++ flat_map nodesOfArgument (atomArguments (getHead clause)))) ->
           getRelation program (atomName atom) = getRelation program' (atomName atom)) ->
        newTypeSolver fuel program'
          (mkAstClause (clauseSrcLoc clause)
             (mkAstAtom srcLoc name (atomArguments (getHead clause)))
             (getBodyLiterals clause) (getExecutionPlan clause) (isGenerated clause))
        = newTypeSolver fuel program clause)
  /\ exists report',
       checkTypeCorrectnessAtoms report ta program = Some report'
       /\ (In clause (typedClauses ta) ->
           In (getHead clause) (visitAtoms (flat_map nodesOfClause (typedClauses ta)))
           /\ forall atom rel i arg attr T,
                In atom (visitAtoms (flat_map nodesOfClause (typedClauses ta))) ->
                getRelation program (atomName atom) = Some rel ->
                atomArguments atom !! i = Some arg ->
                getAttributes rel !! i = Some attr ->
                getType_analysis ta arg = Some T ->
                isValidType T = true ->
                (isSubtype T (getAnalysisType (getTypeName attr)) = false ->
                   exists r1, report `prefix_of` r1
                     /\ addError r1 ("Relation expects value of type " +:+ getTypeName attr
                                       +:+ " but got argument of type "
                                       +:+ analysisTypeToString T) (getSrcLoc arg)
                        `prefix_of` report')
                /\ (report' = report ->
                      isSubtype T (getAnalysisType (getTypeName attr)) = true)).
Proof.
  intros Hrun.
  assert (forall solver program',
            (forall f, getFunctorDeclaration program f = getFunctorDeclaration program' f) ->
            (forall atom,
               In atom (visitAtoms (flat_map nodesOfLiteral (getBodyLiterals clause)
                                    ++ flat_map nodesOfArgument
                                         (atomArguments (getHead clause)))) ->
               getRelation program (atomName atom) = getRelation program' (atomName atom)) ->
            generateConstraints program clause solver
            = generateConstraints program' clause solver) as Hagrees.
  { intros solver program' Hfun Hagree.
    destruct (visit_agree_mutual program program' Hfun) as (Harg & _ & Hlit).
    unfold generateConstraints, visitClause, visitArguments_.
    rewrite (fold_left_bind_ext (visitLiteral program) (visitLiteral program')).
    2: { apply List.Forall_forall. intros l Hl s. apply Hlit. intros atom Hatom.
         apply Hagree. rewrite visitAtoms_app, in_app_iff. left.
         by eapply visitAtoms_flat_map_In. }
    destruct (fold_left _ (getBodyLiterals clause) (Some solver)) as [s1|]; simpl; [|done].
    apply fold_left_bind_ext, List.Forall_forall. intros a Ha s. apply Harg.
    intros atom Hatom. apply Hagree. rewrite visitAtoms_app, in_app_iff. right.
    by eapply visitAtoms_flat_map_In. }
  split; [|split; [|split]].
  - intros solver srcLoc name. reflexivity.
  - exact Hagrees.
  - intros program' srcLoc name Hfun Hagree. unfold newTypeSolver.
    change (generateConstraints program'
              (mkAstClause (clauseSrcLoc clause)
                 (mkAstAtom srcLoc name (atomArguments (getHead clause)))
                 (getBodyLiterals clause) (getExecutionPlan clause) (isGenerated clause))
              emptySolver)
      with (generateConstraints program' clause emptySolver).
    rewrite <- (Hagrees emptySolver program' Hfun Hagree).
    destruct (generateConstraints program clause emptySolver) as [solver|]; [|done].
    unfold resolveConstraints, nodesOfClause. destruct clause as [l [al an args] body plan gen].
    reflexivity.
  - destruct (checkTypeCorrectnessAtoms_total fuel program ta report Hrun)
      as [report' Hcheck].
    exists report'. split; [exact Hcheck|]. revert Hcheck. generalize report'.
    clear report'.
    intros report' Hcheck Hclause. split.
    + eapply visitAtoms_flat_map_In; [exact Hclause|].
      unfold nodesOfClause. rewrite visitAtoms_app, in_app_iff. left.
      destruct (getHead clause). simpl. by left.
    + intros atom rel i arg attr T Hatom Hrel Harg Hattr HT Hvalid.
      assert (isSubtype T (getAnalysisType (getTypeName attr)) = false ->
              exists r1, report `prefix_of` r1
                /\ addError r1 ("Relation expects value of type " +:+ getTypeName attr
                                  +:+ " but got argument of type "
                                  +:+ analysisTypeToString T) (getSrcLoc arg)
                   `prefix_of` report') as Hreported.
      { intros Hsub. unfold checkTypeCorrectnessAtoms in Hcheck.
        eapply (foldM_step_of _ _ atom) in Hcheck as (r1 & r2 & H1 & Hstep & H2);
          [| |exact Hatom].
        2: { intros r y r'. destruct (getRelation program (atomName y)); simpl; [|done].
             apply checkAtomArgumentTypes_prefix. }
        rewrite Hrel in Hstep. simpl in Hstep.
        unfold checkAtomArgumentTypes in Hstep.
        eapply (foldM_step_of _ _ (i, arg)) in Hstep as (r3 & r4 & H3 & Hstep & H4).
        2: { intros r [j y] r'.
             destruct (getType_analysis ta y) as [T'|]; simpl; [|done].
             destruct (negb (isValidType T')); [by intros [= <-]|].
             destruct (getAttributes rel !! j) as [attr'|]; simpl; [|done].
             destruct (negb (isSubtype T' _)); intros [= <-]; [apply addError_prefix|done]. }
        2: { apply In_zip_seq. split; [lia|]. by rewrite Nat.sub_0_r. }
        simpl in Hstep. rewrite HT in Hstep. simpl in Hstep.
        rewrite Hvalid, Hattr in Hstep. simpl in Hstep. rewrite Hsub in Hstep.
        simpl in Hstep. injection Hstep as <-.
        exists r3. split; [by etrans|]. by do 2 (etrans; [|eassumption]). }
      split; [exact Hreported|].
      intros ->. destruct (isSubtype T _) eqn:Hsub; [done|].
      destruct (Hreported eq_refl) as (r1 & [k1 ->] & [k2 Hk2]).
      apply (f_equal length) in Hk2. unfold addError, addDiagnostic in Hk2.
      rewrite !length_app in Hk2. simpl in Hk2. lia.
Qed.

End HeadAtomCheck.

(** * Further properties of the checker *)

(** ** Checks that add diagnostics one by one *)

Lemma prefix_of_antisym {A} (l1 l2 : list A) :
  l1 `prefix_of` l2 -> l2 `prefix_of` l1 -> l1 = l2.
Proof.
  intros [k1 ->] [k2 Hk]. rewrite <- app_assoc in Hk.
  rewrite <- (app_nil_r l1) in Hk at 1. apply app_inv_head in Hk.
  symmetry in Hk. apply app_eq_nil in Hk as [-> _]. by rewrite app_nil_r.
Qed.

(** A loop whose steps only append leaves the report as it is exactly
    when no step appends. *)
Lemma fold_left_unchanged {A} (f : ErrorReport -> A -> ErrorReport) (l : list A) :
  (forall r x, r `prefix_of` f r x) ->
  forall r, fold_left f l r = r <-> forall x, In x l -> f r x = r.
Proof.
  intros Hf. induction l as [|x l IH]; intros r; simpl; [by split|]. split.
  - intros Heq.
    assert (f r x = r) as Hx.
    { symmetry. apply prefix_of_antisym; [apply Hf|].
      rewrite <- Heq at 2. by apply fold_left_prefix_all. }
    rewrite Hx in Heq. intros y [<-|Hy]; [done|]. by apply IH.
  - intros Hall. rewrite (Hall x) by (by left). apply IH. intros y Hy. apply Hall. by right.
Qed.

Lemma addError_changes (report : ErrorReport) m l : addError report m l <> report.
Proof.
  unfold addError, addDiagnostic. intros Heq.
  apply (f_equal length) in Heq. rewrite length_app in Heq. simpl in Heq. lia.
Qed.

Lemma addWarning_changes (report : ErrorReport) m l : addWarning report m l <> report.
Proof.
  unfold addWarning, addDiagnostic. intros Heq.
  apply (f_equal length) in Heq. rewrite length_app in Heq. simpl in Heq. lia.
Qed.

(** The pairwise loop over the earlier entries with the same key. *)
Lemma earlier_duplicates_unchanged {A} (key : A -> string) (l : list A)
    (message : A -> string) (srcLoc : A -> SrcLocation) (report : ErrorReport) :
  fold_left
    (fun r i =>
       match l !! i with
       | Some cur =>
           fold_left
             (fun r j =>
                match l !! j with
                | Some x =>
                    if String.eqb (key x) (key cur)
                    then addError r (message cur) (srcLoc cur) else r
                | None => r
                end) (seq 0 i) r
       | None => r
       end) (seq 0 (length l)) report = report
  <-> NoDup (map key l).
Proof.
  rewrite fold_left_unchanged.
  2: { intros r i. destruct (l !! i); [|done].
       apply fold_left_prefix_all. intros r' j. destruct (l !! j); [|done].
       destruct (String.eqb _ _); [apply addError_prefix|done]. }
  rewrite NoDup_alt. split.
  - intros Hall i j k Hi Hj.
    rewrite list_lookup_fmap in Hi, Hj.
    destruct (l !! i) as [xi|] eqn:Ei; [|done]. destruct (l !! j) as [xj|] eqn:Ej; [|done].
    simpl in Hi, Hj. injection Hi as Hi. injection Hj as Hj.
    assert (forall a b xa xb, a < b -> l !! a = Some xa -> l !! b = Some xb ->
              key xa <> key xb) as Hlt.
    { intros a b xa xb Hab Ea Eb Hkey.
      pose proof (lookup_lt_Some _ _ _ Eb) as Hb.
      specialize (Hall b ltac:(apply in_seq; lia)). rewrite Eb in Hall.
      rewrite fold_left_unchanged in Hall.
      2: { intros r' j'. destruct (l !! j'); [|done].
           destruct (String.eqb _ _); [apply addError_prefix|done]. }
      specialize (Hall a ltac:(apply in_seq; lia)). rewrite Ea in Hall.
      rewrite Hkey, String.eqb_refl in Hall. by apply addError_changes in Hall. }
    destruct (Nat.lt_trichotomy i j) as [Hij|[Hij|Hij]]; [|done|].
    + exfalso. eapply (Hlt i j); [done|done|done|congruence].
    + exfalso. eapply (Hlt j i); [done|done|done|congruence].
  - intros Hnd i Hi. apply in_seq in Hi. destruct (l !! i) as [cur|] eqn:Ei; [|done].
    apply fold_left_unchanged.
    { intros r' j'. destruct (l !! j'); [|done].
      destruct (String.eqb _ _); [apply addError_prefix|done]. }
    intros j Hj. apply in_seq in Hj. destruct (l !! j) as [x|] eqn:Ej; [|done].
    destruct (String.eqb (key x) (key cur)) eqn:Ek; [|done].
    apply String.eqb_eq in Ek. exfalso.
    assert (j = i); [|lia].
    apply (Hnd j i (key cur)); rewrite list_lookup_fmap.
    + by rewrite Ej, <- Ek.
    + by rewrite Ei.
Qed.

(** ** Record types *)

(** X2. [checkRecordType] adds no diagnostic if and only if every field
    has a type that is [number], [symbol] or declared, and no two fields
    have the same name. *)
Theorem record_type_accepted_iff (report : ErrorReport) (program : AstProgram)
    (srcLoc : SrcLocation) (name : AstTypeIdentifier) (fields : list AstRecordField) :
  Checker.checkRecordType report program srcLoc name fields = report
  <-> (forall field, In field fields ->
         fieldType field = "number" \/ fieldType field = "symbol"
         \/ is_Some (getType program (fieldType field)))
      /\ NoDup (map fieldName fields).
Proof.
  unfold Checker.checkRecordType.
  set (r1 := fold_left _ fields report).
  assert (report `prefix_of` r1) as Hp1.
  { apply fold_left_prefix_all. intros r field.
    destruct (_ && _); [apply addError_prefix|done]. }
  assert (r1 = report <->
          forall field, In field fields ->
            fieldType field = "number" \/ fieldType field = "symbol"
            \/ is_Some (getType program (fieldType field))) as H1.
  { unfold r1. rewrite fold_left_unchanged.
    2: { intros r field. destruct (_ && _); [apply addError_prefix|done]. }
    split; intros Hall field Hin; specialize (Hall field Hin).
    - destruct (String.eqb (fieldType field) "number") eqn:En;
        [left; by apply String.eqb_eq|].
      destruct (String.eqb (fieldType field) "symbol") eqn:Es;
        [right; left; by apply String.eqb_eq|].
      destruct (bool_decide (is_Some (getType program (fieldType field)))) eqn:Et;
        [right; right; by apply bool_decide_eq_true in Et|].
      simpl in Hall. by apply addError_changes in Hall.
    - destruct Hall as [->|[->|Hs]]; [done|done|].
      rewrite (bool_decide_eq_true_2 _ Hs). by rewrite !andb_false_r. }
  pose proof (earlier_duplicates_unchanged fieldName fields
                (fun cur => "Doubly defined field name " +:+ fieldName cur
                              +:+ " in definition of type " +:+ name)
                (fun _ => srcLoc)) as H2.
  match goal with |- ?x = _ <-> _ => set (r2 := x) end.
  assert (r1 `prefix_of` r2) as Hp2.
  { apply fold_left_prefix_all. intros r i. destruct (fields !! i); [|done].
    apply fold_left_prefix_all. intros r' j. destruct (fields !! j); [|done].
    destruct (String.eqb _ _); [apply addError_prefix|done]. }
  split.
  - intros Heq.
    assert (r1 = report) as Hr1.
    { symmetry. apply prefix_of_antisym; [done|]. by rewrite <- Heq. }
    split; [by apply H1|]. apply (H2 report). unfold r2 in Heq. by rewrite Hr1 in Heq.
  - intros [Hknown Hnodup]. apply H1 in Hknown. unfold r2. rewrite Hknown. by apply H2.
Qed.

(** ** Name spaces *)

Lemma declareName_fold {A} (kind : string) (nm : A -> string) (loc : A -> SrcLocation)
    (l : list A) :
  forall (r : ErrorReport) (names : gmap string SrcLocation),
    let st' := fold_left (fun st x => Checker.declareName kind st (nm x) (loc x)) l (r, names) in
    r `prefix_of` fst st'
    /\ (fst st' = r <-> NoDup (map nm l) /\ forall x, In x l -> names !! nm x = None)
    /\ (forall k, is_Some (snd st' !! k) <-> is_Some (names !! k) \/ In k (map nm l)).
Proof.
  induction l as [|x l IH]; intros r names; simpl.
  - split; [done|]. split; [|intros k; tauto].
    split; [intros _; split; [constructor|tauto]|done].
  - destruct (names !! nm x) as [old|] eqn:Ex.
    + destruct (IH (addError r ("Name clash on " +:+ kind +:+ " " +:+ nm x) (loc x)) names)
        as (Hp & _ & Hdom).
      split; [etrans; [apply addError_prefix|exact Hp]|]. split.
      * split.
        -- intros Heq. exfalso. rewrite Heq in Hp.
           eapply addError_changes. apply prefix_of_antisym; [exact Hp|apply addError_prefix].
        -- intros [_ Hnone]. specialize (Hnone x (or_introl eq_refl)). congruence.
      * intros k. rewrite Hdom. split; [tauto|].
        intros [?|[<-|?]]; [tauto| |tauto]. left. by rewrite Ex.
    + destruct (IH r (<[nm x := loc x]> names)) as (Hp & Hiff & Hdom).
      split; [done|]. split.
      * rewrite Hiff, NoDup_cons. split.
        -- intros [Hnd Hnone]. split; [split; [|done]|].
           ++ intros Hin. apply list_elem_of_In, in_map_iff in Hin as (y & Hy & Hin).
              specialize (Hnone y Hin). rewrite <- Hy, lookup_insert_eq in Hnone. done.
           ++ intros y [<-|Hy]; [done|]. specialize (Hnone y Hy).
              destruct (decide (nm x = nm y)) as [Heq|Hne].
              ** rewrite Heq, lookup_insert_eq in Hnone. done.
              ** by rewrite lookup_insert_ne in Hnone.
        -- intros [[Hnotin Hnd] Hnone]. split; [done|]. intros y Hy.
           rewrite lookup_insert_ne; [apply Hnone; by right|].
           intros Heq. apply Hnotin. rewrite Heq.
           apply list_elem_of_In, in_map. done.
      * intros k. rewrite Hdom. destruct (decide (nm x = k)) as [<-|Hne].
        -- rewrite lookup_insert_eq. split; [intros _; right; by left|eauto].
        -- rewrite lookup_insert_ne by done. split; [tauto|].
           intros [?|[?|?]]; [tauto|done|tauto].
Qed.

(** X1. [checkNamespaces] adds no diagnostic if and only if the names of
    the types and the dotted names of the relations are pairwise
    distinct; whatever it adds comes after the diagnostics it was
    given. *)
Theorem namespaces_accepted_iff (report : ErrorReport) (program : AstProgram) :
  report `prefix_of` Checker.checkNamespaces report program
  /\ (Checker.checkNamespaces report program = report
      <-> NoDup (map typeName (getTypes program)
                 ++ map (fun rel => toString (relName rel)) (getRelations program))).
Proof.
  unfold Checker.checkNamespaces.
  pose proof (declareName_fold "type" typeName Checker.typeSrcLoc (getTypes program)
                report ∅) as (Hp1 & Hiff1 & Hdom1).
  simpl in Hp1, Hiff1, Hdom1.
  destruct (fold_left _ (getTypes program) (report, ∅)) as [r1 names1] eqn:E1.
  simpl in Hp1, Hiff1, Hdom1.
  pose proof (declareName_fold "relation" (fun rel => toString (relName rel)) relSrcLoc
                (getRelations program) r1 names1) as (Hp2 & Hiff2 & _).
  simpl in Hp2, Hiff2.
  split; [by etrans|]. rewrite NoDup_app. split.
  - intros Heq.
    assert (r1 = report) as Hr1.
    { symmetry. apply prefix_of_antisym; [done|]. by rewrite <- Heq. }
    apply Hiff1 in Hr1 as Hnd1. destruct Hnd1 as [Hnd1 _].
    subst r1. apply Hiff2 in Heq as [Hnd2 Hnone].
    split; [done|]. split; [|done].
    intros k Hk Hk'. apply list_elem_of_In, in_map_iff in Hk' as (rel & <- & Hrel).
    specialize (Hnone rel Hrel).
    assert (is_Some (names1 !! toString (relName rel))) as [? Hsome].
    { apply Hdom1. right. by apply list_elem_of_In. }
    congruence.
  - intros (Hnd1 & Hdisj & Hnd2).
    assert (r1 = report) as Hr1.
    { apply Hiff1. split; [done|]. intros x _. apply lookup_empty. }
    subst r1. apply Hiff2. split; [done|]. intros rel Hrel.
    destruct (names1 !! toString (relName rel)) as [old|] eqn:Eold; [|done].
    exfalso. assert (is_Some (names1 !! toString (relName rel))) as Hs by eauto.
    apply Hdom1 in Hs as [Hs|Hs].
    + rewrite lookup_empty in Hs. by destruct Hs.
    + apply (Hdisj (toString (relName rel))); [by apply list_elem_of_In|].
      apply list_elem_of_In, in_map_iff. eauto.
Qed.

(** ** Union types *)

Lemma unionContainsNumber_spec (program : AstProgram) (fuel : nat) :
  forall types b,
    Checker.unionContainsNumber fuel program types = Some b ->
    (b = true <-> containsNumber program types)
    /\ forall fuel', fuel <= fuel' ->
         Checker.unionContainsNumber fuel' program types = Some b.
Proof.
  induction fuel as [|fuel IH]; intros types b; [done|].
  assert (forall fuel', S fuel <= fuel' -> exists n, fuel' = S n /\ fuel <= n) as Hfuel.
  { intros [|n] Hle; [lia|]. exists n. split; [done|lia]. }
  simpl. induction types as [|elem rest IHl].
  - intros [= <-]. split.
    + split; [done|]. inversion 1.
    + intros fuel' Hle. by destruct (Hfuel _ Hle) as (n & -> & _).
  - destruct (String.eqb elem "number") eqn:En.
    { apply String.eqb_eq in En as ->. intros [= <-]. split.
      - split; [intros _; constructor|done].
      - intros fuel' Hle. destruct (Hfuel _ Hle) as (n & -> & _). by simpl. }
    assert (elem <> "number") as Hne by (by apply String.eqb_neq).
    assert (forall b,
              (forall srcLoc name, getType program elem <> Some (AstPrimitiveType srcLoc name true)) ->
              (forall srcLoc name types',
                 getType program elem = Some (AstUnionType srcLoc name types') ->
                 ~ containsNumber program types') ->
              (b = true <-> containsNumber program rest) ->
              (b = true <-> containsNumber program (elem :: rest))) as Hrest.
    { intros b' Hprim Hunion [Hto Hfrom]. split.
      - intros Hb. apply number_later. by apply Hto.
      - inversion 1; subst; [done|by destruct (Hprim srcLoc name)|by destruct (Hunion _ _ _ H2)|].
        by apply Hfrom. }
    destruct (getType program elem) as [[l n numeric|l n types'|l n fields]|] eqn:Et.
    + destruct numeric.
      * intros [= <-]. split.
        -- split; [intros _; by eapply numeric_primitive|done].
        -- intros fuel' Hle. destruct (Hfuel _ Hle) as (k & -> & _). simpl.
           by rewrite En, Et.
      * intros Hrec. destruct (IHl Hrec) as [Hiff Hmore]. split.
        -- apply Hrest; [by intros ? ? [=]|by intros ? ? ? [=]|done].
        -- intros fuel' Hle. destruct (Hfuel _ Hle) as (k & -> & Hk). simpl.
           rewrite En, Et. specialize (Hmore (S k) ltac:(lia)). exact Hmore.
    + destruct (Checker.unionContainsNumber fuel program types') as [[|]|] eqn:Er; [| |done].
      * intros [= <-]. destruct (IH _ _ Er) as [Hiff Hmore]. split.
        -- split; [intros _|done]. eapply number_in_union; [done|]. by apply Hiff.
        -- intros fuel' Hle. destruct (Hfuel _ Hle) as (k & -> & Hk). simpl.
           by rewrite En, Et, (Hmore k Hk).
      * intros Hrec. destruct (IH _ _ Er) as [Hiff Hmore].
        destruct (IHl Hrec) as [Hiff' Hmore']. split.
        -- apply Hrest; [by intros ? ? [=]| |done].
           intros ? ? ? [= <- <- <-] Hc. apply Hiff in Hc. done.
        -- intros fuel' Hle. destruct (Hfuel _ Hle) as (k & -> & Hk). simpl.
           rewrite En, Et, (Hmore k Hk). exact (Hmore' (S k) ltac:(lia)).
    + intros Hrec. destruct (IHl Hrec) as [Hiff Hmore]. split.
      * apply Hrest; [by intros ? ? [=]|by intros ? ? ? [=]|done].
      * intros fuel' Hle. destruct (Hfuel _ Hle) as (k & -> & Hk). simpl.
        rewrite En, Et. exact (Hmore (S k) ltac:(lia)).
    + intros Hrec. destruct (IHl Hrec) as [Hiff Hmore]. split.
      * apply Hrest; [by intros ? ? [=]|by intros ? ? ? [=]|done].
      * intros fuel' Hle. destruct (Hfuel _ Hle) as (k & -> & Hk). simpl.
        rewrite En, Et. exact (Hmore (S k) ltac:(lia)).
Qed.

Lemma unionContainsSymbol_spec (program : AstProgram) (fuel : nat) :
  forall types b,
    Checker.unionContainsSymbol fuel program types = Some b ->
    (b = true <-> containsSymbol program types)
    /\ forall fuel', fuel <= fuel' ->
         Checker.unionContainsSymbol fuel' program types = Some b.
Proof.
  induction fuel as [|fuel IH]; intros types b; [done|].
  assert (forall fuel', S fuel <= fuel' -> exists n, fuel' = S n /\ fuel <= n) as Hfuel.
  { intros [|n] Hle; [lia|]. exists n. split; [done|lia]. }
  simpl. induction types as [|elem rest IHl].
  - intros [= <-]. split.
    + split; [done|]. inversion 1.
    + intros fuel' Hle. by destruct (Hfuel _ Hle) as (n & -> & _).
  - destruct (String.eqb elem "symbol") eqn:En.
    { apply String.eqb_eq in En as ->. intros [= <-]. split.
      - split; [intros _; constructor|done].
      - intros fuel' Hle. destruct (Hfuel _ Hle) as (n & -> & _). by simpl. }
    assert (elem <> "symbol") as Hne by (by apply String.eqb_neq).
    assert (forall b,
              (forall srcLoc name, getType program elem <> Some (AstPrimitiveType srcLoc name false)) ->
              (forall srcLoc name types',
                 getType program elem = Some (AstUnionType srcLoc name types') ->
                 ~ containsSymbol program types') ->
              (b = true <-> containsSymbol program rest) ->
              (b = true <-> containsSymbol program (elem :: rest))) as Hrest.
    { intros b' Hprim Hunion [Hto Hfrom]. split.
      - intros Hb. apply symbol_later. by apply Hto.
      - inversion 1; subst; [done|by destruct (Hprim srcLoc name)|by destruct (Hunion _ _ _ H2)|].
        by apply Hfrom. }
    destruct (getType program elem) as [[l n numeric|l n types'|l n fields]|] eqn:Et.
    + destruct numeric; simpl.
      * intros Hrec. destruct (IHl Hrec) as [Hiff Hmore]. split.
        -- apply Hrest; [by intros ? ? [=]|by intros ? ? ? [=]|done].
        -- intros fuel' Hle. destruct (Hfuel _ Hle) as (k & -> & Hk). simpl.
           rewrite En, Et. simpl. exact (Hmore (S k) ltac:(lia)).
      * intros [= <-]. split.
        -- split; [intros _; by eapply symbolic_primitive|done].
        -- intros fuel' Hle. destruct (Hfuel _ Hle) as (k & -> & _). simpl.
           by rewrite En, Et.
    + destruct (Checker.unionContainsSymbol fuel program types') as [[|]|] eqn:Er; [| |done].
      * intros [= <-]. destruct (IH _ _ Er) as [Hiff Hmore]. split.
        -- split; [intros _|done]. eapply symbol_in_union; [done|]. by apply Hiff.
        -- intros fuel' Hle. destruct (Hfuel _ Hle) as (k & -> & Hk). simpl.
           by rewrite En, Et, (Hmore k Hk).
      * intros Hrec. destruct (IH _ _ Er) as [Hiff Hmore].
        destruct (IHl Hrec) as [Hiff' Hmore']. split.
        -- apply Hrest; [by intros ? ? [=]| |done].
           intros ? ? ? [= <- <- <-] Hc. apply Hiff in Hc. done.
        -- intros fuel' Hle. destruct (Hfuel _ Hle) as (k & -> & Hk). simpl.
           rewrite En, Et, (Hmore k Hk). exact (Hmore' (S k) ltac:(lia)).
    + intros Hrec. destruct (IHl Hrec) as [Hiff Hmore]. split.
      * apply Hrest; [by intros ? ? [=]|by intros ? ? ? [=]|done].
      * intros fuel' Hle. destruct (Hfuel _ Hle) as (k & -> & Hk). simpl.
        rewrite En, Et. exact (Hmore (S k) ltac:(lia)).
    + intros Hrec. destruct (IHl Hrec) as [Hiff Hmore]. split.
      * apply Hrest; [by intros ? ? [=]|by intros ? ? ? [=]|done].
      * intros fuel' Hle. destruct (Hfuel _ Hle) as (k & -> & Hk). simpl.
        rewrite En, Et. exact (Hmore (S k) ltac:(lia)).
Qed.

(** X3. When [unionContainsNumber] returns, its answer says whether the
    elements hold [number] or a numeric primitive type, directly or
    through nested unions, and a larger bound on the depth gives the same
    answer; likewise [unionContainsSymbol] for [symbol] and the symbolic
    primitive types. *)
Theorem union_contains_answers (program : AstProgram) (types : list AstTypeIdentifier) :
  (forall fuel b,
     Checker.unionContainsNumber fuel program types = Some b ->
     (b = true <-> containsNumber program types)
     /\ forall fuel', fuel <= fuel' ->
          Checker.unionContainsNumber fuel' program types = Some b)
  /\ (forall fuel b,
        Checker.unionContainsSymbol fuel program types = Some b ->
        (b = true <-> containsSymbol program types)
        /\ forall fuel', fuel <= fuel' ->
             Checker.unionContainsSymbol fuel' program types = Some b).
Proof.
  split; intros fuel b.
  - apply unionContainsNumber_spec.
  - apply unionContainsSymbol_spec.
Qed.

Lemma checkUnionType_elements (report : ErrorReport) (program : AstProgram)
    (srcLoc : SrcLocation) (name : AstTypeIdentifier) (types : list AstTypeIdentifier) :
  let r1 :=
    fold_left
      (fun r sub =>
         if negb (String.eqb sub "number") && negb (String.eqb sub "symbol") then
           match getType program sub with
           | None =>
               addError r ("Undefined type " +:+ sub +:+ " in definition of union type "
                             +:+ name) srcLoc
           | Some (AstRecordType _ _ _) =>
               addError r ("Union type " +:+ name +:+ " contains the non-primitive type "
                             +:+ sub) srcLoc
           | Some _ => r
           end
         else r) types report in
  report `prefix_of` r1
  /\ (r1 = report <->
      forall sub, In sub types ->
        sub = "number" \/ sub = "symbol"
        \/ (exists l n numeric, getType program sub = Some (AstPrimitiveType l n numeric))
        \/ (exists l n types', getType program sub = Some (AstUnionType l n types'))).
Proof.
  intros r1.
  assert (forall r sub,
            r `prefix_of`
              (if negb (String.eqb sub "number") && negb (String.eqb sub "symbol")
               then match getType program sub with
                    | None => addError r ("Undefined type " +:+ sub
                                            +:+ " in definition of union type " +:+ name) srcLoc
                    | Some (AstRecordType _ _ _) =>
                        addError r ("Union type " +:+ name
                                      +:+ " contains the non-primitive type " +:+ sub) srcLoc
                    | Some _ => r
                    end
               else r)) as Hstep.
  { intros r sub. destruct (_ && _); [|done].
    destruct (getType program sub) as [[| |]|]; try done; apply addError_prefix. }
  split; [by apply fold_left_prefix_all|].
  unfold r1. rewrite fold_left_unchanged by done.
  split; intros Hall sub Hin; specialize (Hall sub Hin).
  - destruct (String.eqb sub "number") eqn:En; [left; by apply String.eqb_eq|].
    destruct (String.eqb sub "symbol") eqn:Es; [right; left; by apply String.eqb_eq|].
    simpl in Hall. right. right.
    destruct (getType program sub) as [[l n numeric|l n types'|l n fields]|].
    + left. eauto.
    + right. eauto.
    + by apply addError_changes in Hall.
    + by apply addError_changes in Hall.
  - destruct Hall as [->|[->|[(l & n & numeric & ->)|(l & n & types' & ->)]]];
      try done; by destruct (_ && _).
Qed.

(** X4. When [checkUnionType] returns, it has added no diagnostic if and
    only if every element is [number], [symbol] or a declared primitive
    or union type, and the union does not hold both a symbol and a
    number. *)
Theorem union_type_accepted_iff (fuel : nat) (report report' : ErrorReport)
    (program : AstProgram) (srcLoc : SrcLocation) (name : AstTypeIdentifier)
    (types : list AstTypeIdentifier) :
  Checker.checkUnionType fuel report program srcLoc name types = Some report' ->
  report `prefix_of` report'
  /\ (report' = report
      <-> (forall sub, In sub types ->
             sub = "number" \/ sub = "symbol"
             \/ (exists l n numeric, getType program sub = Some (AstPrimitiveType l n numeric))
             \/ (exists l n types', getType program sub = Some (AstUnionType l n types')))
          /\ ~ (containsSymbol program types /\ containsNumber program types)).
Proof.
  unfold Checker.checkUnionType.
  pose proof (checkUnionType_elements report program srcLoc name types) as [Hp1 H1].
  cbv zeta in Hp1, H1.
  destruct (Checker.unionContainsSymbol fuel program types) as [containsS|] eqn:Es;
    simpl; [|done].
  destruct (unionContainsSymbol_spec _ _ _ _ Es) as [HS _].
  destruct containsS.
  - destruct (Checker.unionContainsNumber fuel program types) as [containsN|] eqn:En;
      simpl; [|done].
    destruct (unionContainsNumber_spec _ _ _ _ En) as [HN _].
    destruct containsN; intros [= <-].
    + split; [etrans; [exact Hp1|apply addError_prefix]|]. split.
      * intros Heq. exfalso. eapply addError_changes.
        apply prefix_of_antisym; [|apply addError_prefix]. rewrite Heq. exact Hp1.
      * intros [_ Hmix]. exfalso. apply Hmix. split; [by apply HS|by apply HN].
    + split; [done|]. rewrite H1. split; [|tauto].
      intros Hall. split; [done|]. intros [_ Hn]. apply HN in Hn. done.
  - intros [= <-]. split; [done|]. rewrite H1. split; [|tauto].
    intros Hall. split; [done|]. intros [Hs _]. apply HS in Hs. done.
Qed.

Lemma foldM_stuck {A B} (f : B -> A -> option B) (l : list A) (x : A) :
  In x l -> (forall b, f b x = None) -> forall b, foldM f l b = None.
Proof.
  induction l as [|y l IH]; intros Hin Hx b; [done|].
  rewrite foldM_cons. destruct Hin as [->|Hin].
  - by rewrite Hx.
  - destruct (f b y); simpl; [by apply IH|done].
Qed.

(** X5. A union type whose first element resolves to a union with the
    same elements (a union that names itself, as in [.type A = A | number])
    makes [unionContainsSymbol] recurse without end, and with it
    [checkTypes], on every program that declares such a type: no bound on
    the depth is enough. *)
Theorem self_referential_union_never_checked (program : AstProgram)
    (srcLoc srcLoc' : SrcLocation) (name name' : AstTypeIdentifier)
    (first : AstTypeIdentifier) (rest : list AstTypeIdentifier) :
  In (AstUnionType srcLoc name (first :: rest)) (getTypes program) ->
  first <> "symbol" ->
  getType program first = Some (AstUnionType srcLoc' name' (first :: rest)) ->
  forall fuel report,
    Checker.unionContainsSymbol fuel program (first :: rest) = None
    /\ Checker.checkTypes fuel report program = None.
Proof.
  intros Hin Hne Hself.
  assert (forall fuel, Checker.unionContainsSymbol fuel program (first :: rest) = None)
    as Hloop.
  { induction fuel as [|fuel IH]; [done|]. simpl.
    apply String.eqb_neq in Hne. by rewrite Hne, Hself, IH. }
  intros fuel report. split; [apply Hloop|].
  unfold Checker.checkTypes. eapply foldM_stuck; [exact Hin|].
  intros r. simpl. unfold Checker.checkUnionType. by rewrite Hloop.
Qed.

(** ** Groundedness *)

Section Groundedness.
Context `{GroundAnalysis}.

Lemma ungrounded_variables_fold (isGrounded : list (AstArgument * bool))
    (vars : list (NodeInfo * string)) :
  forall (r : ErrorReport) (reportedVars : list string),
    let st' :=
      fold_left
        (fun (st : ErrorReport * list string) (cur : NodeInfo * string) =>
           let '(report, reportedVars) := st in
           if negb (groundedAt isGrounded (nodeAddr (fst cur)))
              && negb (existsb (String.eqb (snd cur)) reportedVars)
           then (addError report ("Ungrounded variable " +:+ snd cur) (nodeSrcLoc (fst cur)),
                 sset_insert (snd cur) reportedVars)
           else st) vars (r, reportedVars) in
    r `prefix_of` fst st'
    /\ (fst st' = r <->
        forall cur, In cur vars ->
          groundedAt isGrounded (nodeAddr (fst cur)) = true
          \/ existsb (String.eqb (snd cur)) reportedVars = true).
Proof.
  induction vars as [|cur vars IH]; intros r reportedVars; simpl.
  - split; [done|]. split; [by intros _ ? []|done].
  - destruct (groundedAt isGrounded (nodeAddr (fst cur))) eqn:Eg; simpl.
    { destruct (IH r reportedVars) as [Hp Hiff]. split; [done|].
      rewrite Hiff. split.
      - intros Hall c [<-|Hc]; [by left|by apply Hall].
      - intros Hall c Hc. apply Hall. by right. }
    destruct (existsb (String.eqb (snd cur)) reportedVars) eqn:Er; simpl.
    { destruct (IH r reportedVars) as [Hp Hiff]. split; [done|].
      rewrite Hiff. split.
      - intros Hall c [<-|Hc]; [by right|by apply Hall].
      - intros Hall c Hc. apply Hall. by right. }
    destruct (IH (addError r ("Ungrounded variable " +:+ snd cur) (nodeSrcLoc (fst cur)))
                (sset_insert (snd cur) reportedVars)) as [Hp _].
    split; [etrans; [apply addError_prefix|exact Hp]|]. split.
    + intros Heq. exfalso. rewrite Heq in Hp. eapply addError_changes.
      apply prefix_of_antisym; [exact Hp|apply addError_prefix].
    + intros Hall. destruct (Hall cur (or_introl eq_refl)); congruence.
Qed.

Lemma checkGroundednessClause_spec (report : ErrorReport) (clause : AstClause) :
  report `prefix_of` Checker.checkGroundednessClause report clause
  /\ (Checker.checkGroundednessClause report clause = report <->
      (forall cur, In cur (visitVariables (nodesOfClause clause)) ->
         groundedAt (getGroundedTerms clause) (nodeAddr (fst cur)) = true)
      /\ (forall cur, In cur (visitRecordInits (nodesOfClause clause)) ->
            groundedAt (getGroundedTerms clause) (nodeAddr (fst (fst cur))) = true)).
Proof.
  unfold Checker.checkGroundednessClause.
  pose proof (ungrounded_variables_fold (getGroundedTerms clause)
                (visitVariables (nodesOfClause clause)) report []) as [Hp1 H1].
  cbv zeta in Hp1, H1.
  match type of Hp1 with _ `prefix_of` fst ?st => set (st1 := st) in * end.
  assert (forall (r : ErrorReport) (cur : NodeInfo * AstTypeIdentifier * list AstArgument),
            r `prefix_of`
              (if negb (groundedAt (getGroundedTerms clause) (nodeAddr (fst (fst cur))))
               then addError r "Ungrounded record" (nodeSrcLoc (fst (fst cur)))
               else r)) as Hstep.
  { intros r cur. destruct (negb _); [apply addError_prefix|done]. }
  match goal with |- _ `prefix_of` ?x /\ _ => set (r2 := x) end.
  assert (fst st1 `prefix_of` r2) as Hp2 by (by apply fold_left_prefix_all).
  assert (r2 = fst st1 <->
          forall cur, In cur (visitRecordInits (nodesOfClause clause)) ->
            groundedAt (getGroundedTerms clause) (nodeAddr (fst (fst cur))) = true) as H2.
  { unfold r2. rewrite fold_left_unchanged by done.
    split; intros Hall cur Hin; specialize (Hall cur Hin).
    - destruct (groundedAt _ _); [done|]. simpl in Hall. by apply addError_changes in Hall.
    - by rewrite Hall. }
  split; [by etrans|]. split.
  - intros Heq.
    assert (fst st1 = report) as Hr1.
    { symmetry. apply prefix_of_antisym; [done|]. by rewrite <- Heq. }
    split.
    + intros cur Hin. destruct (proj1 H1 Hr1 cur Hin) as [?|?]; done.
    + apply H2. congruence.
  - intros [Hvars Hrecs].
    assert (fst st1 = report) as Hr1
      by (apply (proj2 H1); intros cur Hin; left; by apply Hvars).
    etrans; [|exact Hr1]. by apply (proj2 H2).
Qed.

(** X6. [checkGroundedness] adds no diagnostic if and only if, in every
    rule of a declared relation, every variable and every record
    constructor is grounded; facts are not looked at. *)
Theorem groundedness_accepted_iff (report : ErrorReport) (program : AstProgram) :
  report `prefix_of` Checker.checkGroundedness report program
  /\ (Checker.checkGroundedness report program = report <->
      forall clause, In clause (relationClauses program) -> isFact clause = false ->
        (forall cur, In cur (visitVariables (nodesOfClause clause)) ->
           groundedAt (getGroundedTerms clause) (nodeAddr (fst cur)) = true)
        /\ (forall cur, In cur (visitRecordInits (nodesOfClause clause)) ->
              groundedAt (getGroundedTerms clause) (nodeAddr (fst (fst cur))) = true)).
Proof.
  unfold Checker.checkGroundedness.
  assert (forall r clause,
            r `prefix_of`
              (if isFact clause then r else Checker.checkGroundednessClause r clause))
    as Hstep.
  { intros r clause. destruct (isFact clause); [done|].
    apply checkGroundednessClause_spec. }
  split; [by apply fold_left_prefix_all|].
  rewrite fold_left_unchanged by done.
  split; intros Hall clause Hin.
  - intros Hrule. specialize (Hall clause Hin). rewrite Hrule in Hall.
    by apply (proj2 (checkGroundednessClause_spec report clause)).
  - destruct (isFact clause) eqn:Ef; [done|].
    apply (proj2 (checkGroundednessClause_spec report clause)). by apply Hall.
Qed.

End Groundedness.

(** ** Checks that thread the configuration *)

Lemma fold_left_unchanged_fst {A C} (f : ErrorReport * C -> A -> ErrorReport * C)
    (l : list A) :
  (forall st x, fst st `prefix_of` fst (f st x)) ->
  (forall r c c' x, fst (f (r, c) x) = r -> fst (f (r, c') x) = r) ->
  forall r c, fst (fold_left f l (r, c)) = r <-> forall x, In x l -> fst (f (r, c) x) = r.
Proof.
  intros Hf Hind. induction l as [|x l IH]; intros r c; simpl; [by split|]. split.
  - intros Heq.
    assert (fst (f (r, c) x) = r) as Hx.
    { symmetry. apply prefix_of_antisym; [apply (Hf (r, c))|].
      rewrite <- Heq at 2. by apply fold_left_prefix_fst. }
    destruct (f (r, c) x) as [r1 c1] eqn:E. simpl in Hx. subst r1.
    intros y [<-|Hy]; [by rewrite E|].
    apply (Hind r c1). by apply (proj1 (IH r c1)).
  - intros Hall. pose proof (Hall x (or_introl eq_refl)) as Hx.
    destruct (f (r, c) x) as [r1 c1] eqn:E. simpl in Hx. subst r1.
    apply IH. intros y Hy. apply (Hind r c). apply Hall. by right.
Qed.

Lemma unchanged_chain (r0 r1 r2 : ErrorReport) :
  r0 `prefix_of` r1 -> r1 `prefix_of` r2 -> (r2 = r0 <-> r1 = r0 /\ r2 = r1).
Proof.
  intros H01 H12. split; [|intros [-> ->]; done].
  intros ->. assert (r1 = r0) as -> by (by apply prefix_of_antisym). done.
Qed.

Lemma NoDup_earlier {A} (key : A -> string) (l : list A) :
  NoDup (map key l) <->
  forall i j xi xj, j < i -> l !! i = Some xi -> l !! j = Some xj -> key xi <> key xj.
Proof.
  rewrite NoDup_alt. split.
  - intros Hnd i j xi xj Hlt Ei Ej Hkey.
    assert (i = j); [|lia].
    apply (Hnd i j (key xi)); rewrite list_lookup_fmap; [by rewrite Ei|by rewrite Ej, Hkey].
  - intros Hall i j k Hi Hj. rewrite list_lookup_fmap in Hi, Hj.
    destruct (l !! i) as [xi|] eqn:Ei; [|done]. destruct (l !! j) as [xj|] eqn:Ej; [|done].
    simpl in Hi, Hj. injection Hi as Hi. injection Hj as Hj.
    destruct (Nat.lt_trichotomy i j) as [Hij|[Hij|Hij]]; [|done|].
    + exfalso. eapply (Hall j i); [done|done|done|congruence].
    + exfalso. eapply (Hall i j); [done|done|done|congruence].
Qed.

(** ** IO directives *)

Lemma checkIODirective_fold USE_MPI program (l : list AstIO) :
  forall st,
    fst (fold_left (checkIODirective USE_MPI program) l st)
    = fst st ++ map undefinedRelationError (List.filter (namesUndeclaredRelation program) l).
Proof.
  induction l as [|d l IH]; intros [r c]; simpl; [by rewrite app_nil_r|].
  rewrite IH. unfold namesUndeclaredRelation at 2.
  destruct (getRelation program (ioName d)); simpl; [done|].
  unfold addError, addDiagnostic. by rewrite <- app_assoc.
Qed.

(** X7. [checkIODirectives] adds one "Undefined relation" error for each
    directive that names an undeclared relation, first for the loads,
    then the print sizes, then the stores, and nothing else; the build
    flag and the configuration have no part in the report. *)
Theorem io_directives_report (USE_MPI : bool) (report : ErrorReport) (config : Config)
    (program : AstProgram) :
  fst (checkIODirectives USE_MPI report config program)
  = report ++ map undefinedRelationError
                (List.filter (namesUndeclaredRelation program)
                   (getLoads program ++ getPrintSizes program ++ getStores program))
  /\ (fst (checkIODirectives USE_MPI report config program) = report <->
      forall directive,
        In directive (getLoads program ++ getPrintSizes program ++ getStores program) ->
        is_Some (getRelation program (ioName directive))).
Proof.
  assert (fst (checkIODirectives USE_MPI report config program)
          = report ++ map undefinedRelationError
                        (List.filter (namesUndeclaredRelation program)
                           (getLoads program ++ getPrintSizes program ++ getStores program)))
    as Heq.
  { unfold checkIODirectives. rewrite !checkIODirective_fold. simpl.
    by rewrite !List.filter_app, !map_app, <- !app_assoc. }
  split; [done|]. rewrite Heq. split.
  - intros Hnil directive Hin.
    rewrite <- (app_nil_r report) in Hnil at 2. apply app_inv_head in Hnil.
    apply map_eq_nil in Hnil.
    destruct (getRelation program (ioName directive)) as [rel|] eqn:Er; [eauto|].
    exfalso. assert (In directive []) as []. rewrite <- Hnil.
    apply filter_In. split; [done|]. unfold namesUndeclaredRelation. by rewrite Er.
  - intros Hall.
    assert (List.filter (namesUndeclaredRelation program)
              (getLoads program ++ getPrintSizes program ++ getStores program) = []) as ->;
      [|by rewrite app_nil_r].
    destruct (List.filter _ _) as [|d ds] eqn:Ef; [done|]. exfalso.
    assert (In d (d :: ds)) as Hd by (by left). rewrite <- Ef in Hd.
    apply filter_In in Hd as [Hin Hu]. destruct (Hall d Hin) as [rel Hrel].
    unfold namesUndeclaredRelation in Hu. by rewrite Hrel in Hu.
Qed.

(** ** Rules *)

(** X8. [checkRules] only appends: whenever it returns, the diagnostics
    it was given are still there, in front and in order.  The same holds
    for [checkRelation] and [checkClause], which it calls. *)
Theorem rules_check_only_appends `{FunctorOpInfo} (report : ErrorReport) (config : Config)
    (typeEnv : TypeEnvironment) (program : AstProgram)
    (recursiveClauses : AstClause -> bool) (ioTypes : IOType)
    (report' : ErrorReport) (config' : Config) :
  checkRules report config typeEnv program recursiveClauses ioTypes
    = Some (report', config') ->
  report `prefix_of` report'.
Proof.
  unfold checkRules.
  match goal with |- (?m ≫= _) = _ -> _ => destruct m as [[r1 c1]|] eqn:E1 end;
    simpl; [|done].
  match goal with |- (?m ≫= _) = _ -> _ => destruct m as [r2|] eqn:E2 end; simpl; [|done].
  intros [= <- <-].
  assert (report `prefix_of` r1) as H1.
  { change report with (fst (report, config)). change r1 with (fst (r1, c1)).
    revert E1. generalize (report, config) (r1, c1). generalize (getRelations program).
    induction l as [|rel rels IH]; intros st st'.
    - rewrite foldM_nil. by intros [= <-].
    - rewrite foldM_cons.
      destruct (checkRelation st.1 st.2 typeEnv program rel recursiveClauses ioTypes)
        as [[ra ca]|] eqn:Er; simpl; [|done].
      intros Hrest. apply IH in Hrest. etrans; [|exact Hrest]. simpl.
      apply checkRelation_prefix in Er. etrans; [|exact Er].
      unfold checkEquivalence. destruct (getRepresentation rel); [|done].
      destruct (Nat.eqb _ _); [|apply addError_prefix].
      destruct (_ !! 0); [|done]. destruct (_ !! 1); [|done].
      destruct (negb _); [apply addError_prefix|done]. }
  etrans; [exact H1|]. eapply foldM_prefix; [|exact E2].
  apply Forall_forall. intros c _ ? ?. apply checkClause_prefix.
Qed.

(** ** Type usage *)

Section TypeUsage.
Context `{AstDomainBounds}.

(** X9. [checkTypeUsage] adds no diagnostic if and only if, in the
    clauses of the declared relations, every type cast names a type of
    the environment, every record constructor names a record type of the
    environment and has as many arguments as the type has fields, every
    number constant lies within the domain bounds, and every user-defined
    functor is declared with as many arguments as it is given. *)
Theorem type_usage_accepted_iff (report : ErrorReport) (config : Config)
    (typeEnv : TypeEnvironment) (program : AstProgram) :
  let nodes := flat_map nodesOfClause (relationClauses program) in
  report `prefix_of` fst (checkTypeUsage report config typeEnv program)
  /\ (fst (checkTypeUsage report config typeEnv program) = report <->
      (forall cast, In cast (visitTypeCasts nodes) ->
         isType typeEnv (snd (fst cast)) = true)
      /\ (forall record, In record (visitRecordInits nodes) ->
            exists name fields,
              typeEnv (snd (fst record)) = Some (EnvRecordType name fields)
              /\ length (snd record) = length fields)
      /\ (forall constant, In constant (visitNumberConstants nodes) ->
            (MIN_AST_DOMAIN <= snd constant <= MAX_AST_DOMAIN)%Z)
      /\ (forall functor, In functor (visitUserDefinedFunctors nodes) ->
            exists funDecl,
              getFunctorDeclaration program (snd (fst functor)) = Some funDecl
              /\ getArgCount funDecl = length (snd functor))).
Proof.
  intros nodes. unfold checkTypeUsage. fold nodes.
  (* type casts *)
  set (f1 := fun (r : ErrorReport) '(i, t, _) =>
               if negb (isType typeEnv t)
               then addError r ("Type cast is to undeclared type " +:+ t) (nodeSrcLoc i)
               else r : ErrorReport).
  set (r1 := fold_left f1 (visitTypeCasts nodes) report).
  assert (forall r x, r `prefix_of` f1 r x) as Hs1.
  { intros r [[i t] v]. simpl. destruct (negb _); [apply addError_prefix|done]. }
  assert (report `prefix_of` r1) as Hp1 by (by apply fold_left_prefix_all).
  assert (r1 = report <->
          forall cast, In cast (visitTypeCasts nodes) ->
            isType typeEnv (snd (fst cast)) = true) as H1.
  { unfold r1. rewrite fold_left_unchanged by done.
    split; intros Hall [[i t] v] Hin; specialize (Hall _ Hin); simpl in *.
    - destruct (isType typeEnv t); [done|]. by apply addError_changes in Hall.
    - by rewrite Hall. }
  (* record constructors *)
  match goal with
  | |- context [fold_left ?f (visitRecordInits nodes) (r1, config)] => set (f2 := f)
  end.
  assert (forall st x, fst st `prefix_of` fst (f2 st x)) as Hs2.
  { intros [r c] [[i t] args]. simpl.
    destruct (typeEnv t) as [[n|n|n fields]|]; simpl; try apply addError_prefix.
    destruct (negb _); simpl; [apply addError_prefix|done]. }
  assert (forall r c x,
            fst (f2 (r, c) x) = r <->
            exists name fields,
              typeEnv (snd (fst x)) = Some (EnvRecordType name fields)
              /\ length (snd x) = length fields) as Hf2.
  { intros r c [[i t] args]. simpl.
    destruct (typeEnv t) as [[n|n|n fields]|]; simpl.
    - split; [intros Hch; by apply addError_changes in Hch|by intros (? & ? & [=] & _)].
    - split; [intros Hch; by apply addError_changes in Hch|by intros (? & ? & [=] & _)].
    - destruct (Nat.eqb (length args) (length fields)) eqn:El; simpl.
      + apply Nat.eqb_eq in El. split; [eauto|done].
      + apply Nat.eqb_neq in El. split; [intros Hch; by apply addError_changes in Hch|].
        intros (? & ? & [= <- <-] & ?). done.
    - split; [intros Hch; by apply addError_changes in Hch|by intros (? & ? & [=] & _)]. }
  pose proof (fold_left_prefix_fst f2 (visitRecordInits nodes) Hs2 (r1, config)) as Hp2.
  pose proof (fold_left_unchanged_fst f2 (visitRecordInits nodes) Hs2
                ltac:(intros r c c' x Hx; apply Hf2; by apply Hf2 in Hx) r1 config) as H2.
  destruct (fold_left f2 (visitRecordInits nodes) (r1, config)) as [r2 c2]. simpl in Hp2, H2.
  (* number constants *)
  match goal with
  | |- context [fold_left ?f (visitNumberConstants nodes) r2] => set (f3 := f)
  end.
  set (r3 := fold_left f3 (visitNumberConstants nodes) r2).
  assert (forall r x, r `prefix_of` f3 r x) as Hs3.
  { intros r [i idx]. simpl. destruct (_ || _)%bool; [apply addError_prefix|done]. }
  assert (r2 `prefix_of` r3) as Hp3 by (by apply fold_left_prefix_all).
  assert (r3 = r2 <->
          forall constant, In constant (visitNumberConstants nodes) ->
            (MIN_AST_DOMAIN <= snd constant <= MAX_AST_DOMAIN)%Z) as H3.
  { unfold r3. rewrite fold_left_unchanged by done.
    split; intros Hall [i idx] Hin; specialize (Hall _ Hin); simpl in *.
    - destruct (Z.ltb MAX_AST_DOMAIN idx) eqn:E1; simpl in Hall;
        [by apply addError_changes in Hall|].
      destruct (Z.ltb idx MIN_AST_DOMAIN) eqn:E2; simpl in Hall;
        [by apply addError_changes in Hall|].
      apply Z.ltb_ge in E1, E2. lia.
    - assert (Z.ltb MAX_AST_DOMAIN idx = false) as -> by (apply Z.ltb_ge; lia).
      assert (Z.ltb idx MIN_AST_DOMAIN = false) as -> by (apply Z.ltb_ge; lia). done. }
  (* user-defined functors *)
  match goal with
  | |- context [fold_left ?f (visitUserDefinedFunctors nodes) r3] => set (f4 := f)
  end.
  set (r4 := fold_left f4 (visitUserDefinedFunctors nodes) r3).
  assert (forall r x, r `prefix_of` f4 r x) as Hs4.
  { intros r [[i f] args]. simpl. destruct (getFunctorDeclaration program f); simpl;
      [destruct (negb _)|]; try apply addError_prefix; done. }
  assert (r3 `prefix_of` r4) as Hp4 by (by apply fold_left_prefix_all).
  assert (r4 = r3 <->
          forall functor, In functor (visitUserDefinedFunctors nodes) ->
            exists funDecl,
              getFunctorDeclaration program (snd (fst functor)) = Some funDecl
              /\ getArgCount funDecl = length (snd functor)) as H4.
  { unfold r4. rewrite fold_left_unchanged by done.
    split; intros Hall [[i f] args] Hin; specialize (Hall _ Hin); simpl in *.
    - destruct (getFunctorDeclaration program f) as [d|];
        [|by apply addError_changes in Hall].
      destruct (Nat.eqb (getArgCount d) (length args)) eqn:El; simpl in Hall;
        [|by apply addError_changes in Hall].
      apply Nat.eqb_eq in El. eauto.
    - destruct Hall as (d & -> & Hl). by rewrite Hl, Nat.eqb_refl. }
  simpl. split; [etrans; [exact Hp1|]; etrans; [exact Hp2|]; by etrans|].
  rewrite (unchanged_chain report r3 r4); [|by do 2 (etrans; [eassumption|])|done].
  rewrite (unchanged_chain report r2 r3); [|by etrans|done].
  rewrite (unchanged_chain report r1 r2); [|done|done].
  rewrite H1, H4, H3. split.
  - intros (((Hc & Hr) & Hn) & Hf). split; [done|]. split; [|done].
    intros record Hin. apply (Hf2 r1 config). by apply (proj1 H2 Hr).
  - intros (Hc & Hr & Hn & Hf). split; [split; [split; [done|]|done]|done].
    apply (proj2 H2). intros record Hin. apply (Hf2 r1 config). by apply Hr.
Qed.

End TypeUsage.

(** ** Relation declarations *)

(** X10. [checkRelationDeclaration] adds no diagnostic if and only if
    every attribute has a type that is [number], [symbol] or declared,
    no two attributes have the same name, and no attribute of an input
    or output relation has a record type. *)
Theorem relation_declaration_accepted_iff (report : ErrorReport) (config : Config)
    (typeEnv : TypeEnvironment) (program : AstProgram) (relation : AstRelation)
    (ioTypes : IOType) :
  report `prefix_of`
    fst (checkRelationDeclaration report config typeEnv program relation ioTypes)
  /\ (fst (checkRelationDeclaration report config typeEnv program relation ioTypes) = report
      <-> (forall attr, In attr (getAttributes relation) ->
             getTypeName attr = "number" \/ getTypeName attr = "symbol"
             \/ is_Some (getType program (getTypeName attr)))
          /\ NoDup (map getAttributeName (getAttributes relation))
          /\ (forall attr, In attr (getAttributes relation) ->
                isRecordTypeName typeEnv (getTypeName attr) = true ->
                isInput ioTypes relation = false /\ isOutput ioTypes relation = false)).
Proof.
  split; [apply checkRelationDeclaration_prefix|].
  unfold checkRelationDeclaration.
  match goal with
  | |- fst (fold_left ?f _ _) = _ <-> _ => set (step := f)
  end.
  assert (forall st x, fst st `prefix_of` fst (step st x)) as Hstep.
  { intros [r0 c0] i. unfold step. simpl.
    destruct (getAttributes relation !! i) as [attr|]; simpl; [|done].
    match goal with
    | |- _ `prefix_of` fst (match typeEnv ?t with Some _ => _ | None => _ end) =>
        destruct (typeEnv t) as [ty|]
    end; [destruct (isRecordType ty)|]; simpl; repeat prefix_step. }
  (* what one attribute adds *)
  assert (forall r c i,
            fst (step (r, c) i) = r <->
            match getAttributes relation !! i with
            | None => True
            | Some attr =>
                (getTypeName attr = "number" \/ getTypeName attr = "symbol"
                 \/ is_Some (getType program (getTypeName attr)))
                /\ (forall j attr_j, j < i -> getAttributes relation !! j = Some attr_j ->
                      getAttributeName attr <> getAttributeName attr_j)
                /\ (isRecordTypeName typeEnv (getTypeName attr) = true ->
                    isInput ioTypes relation = false /\ isOutput ioTypes relation = false)
            end) as Hone.
  { intros r c i. unfold step. simpl.
    destruct (getAttributes relation !! i) as [attr|] eqn:Ei; simpl; [|done].
    set (ra := if _ && _ && _ then _ else r).
    assert (r `prefix_of` ra) as Hpa by (unfold ra; destruct (_ && _ && _); repeat prefix_step).
    assert (ra = r <->
            getTypeName attr = "number" \/ getTypeName attr = "symbol"
            \/ is_Some (getType program (getTypeName attr))) as Ha.
    { unfold ra.
      destruct (String.eqb (getTypeName attr) "number") eqn:En; simpl.
      { apply String.eqb_eq in En. split; [auto|done]. }
      destruct (String.eqb (getTypeName attr) "symbol") eqn:Es; simpl.
      { apply String.eqb_eq in Es. split; [auto|done]. }
      apply String.eqb_neq in En, Es.
      destruct (bool_decide (is_Some (getType program (getTypeName attr)))) eqn:Et; simpl.
      - apply bool_decide_eq_true in Et. split; [auto|done].
      - apply bool_decide_eq_false in Et.
        split; [intros Hch; by apply addError_changes in Hch|].
        intros [?|[?|?]]; done. }
    set (rb := fold_left _ (seq 0 i) ra).
    assert (forall r' j,
              r' `prefix_of`
                match getAttributes relation !! j with
                | Some attr_j =>
                    if String.eqb (getAttributeName attr) (getAttributeName attr_j)
                    then addError r' ("Doubly defined attribute name "
                                        +:+ getAttributeName attr +:+ ":" +:+ getTypeName attr)
                           (attrSrcLoc attr)
                    else r'
                | None => r'
                end) as Hsb.
    { intros r' j. destruct (_ !! j) as [attr_j|]; [|done].
      destruct (String.eqb (getAttributeName attr) (getAttributeName attr_j));
        [apply addError_prefix|done]. }
    assert (ra `prefix_of` rb) as Hpb by (by apply fold_left_prefix_all).
    assert (rb = ra <->
            forall j attr_j, j < i -> getAttributes relation !! j = Some attr_j ->
              getAttributeName attr <> getAttributeName attr_j) as Hb.
    { unfold rb. rewrite fold_left_unchanged by done. split.
      - intros Hall j attr_j Hlt Ej Hname.
        specialize (Hall j ltac:(apply in_seq; lia)). rewrite Ej, Hname in Hall.
        rewrite String.eqb_refl in Hall. by apply addError_changes in Hall.
      - intros Hall j Hj. apply in_seq in Hj.
        destruct (getAttributes relation !! j) as [attr_j|] eqn:Ej; [|done].
        destruct (String.eqb (getAttributeName attr) (getAttributeName attr_j)) eqn:Ee;
          [|done].
        apply String.eqb_eq in Ee. by destruct (Hall j attr_j ltac:(lia) Ej). }
    match goal with |- fst ?x = r <-> _ => set (rc := fst x) end.
    assert (rb `prefix_of` rc) as Hpc.
    { unfold rc. destruct (typeEnv (getTypeName attr)) as [ty|]; [|done].
      destruct (isRecordType ty); [|done]. simpl. repeat prefix_step. }
    assert (rc = rb <->
            (isRecordTypeName typeEnv (getTypeName attr) = true ->
             isInput ioTypes relation = false /\ isOutput ioTypes relation = false)) as Hc.
    { unfold rc, isRecordTypeName.
      destruct (typeEnv (getTypeName attr)) as [ty|]; [|by split].
      destruct (isRecordType ty); [|by split]. simpl.
      destruct (isInput ioTypes relation); simpl.
      - split; [|intros Hno; by destruct (Hno eq_refl)].
        intros Hch. exfalso. destruct (isOutput ioTypes relation).
        + apply (f_equal length) in Hch.
          unfold addWarning, addError, addDiagnostic in Hch.
          rewrite !length_app in Hch. simpl in Hch. lia.
        + by apply addError_changes in Hch.
      - destruct (isOutput ioTypes relation).
        + split; [intros Hch; by apply addWarning_changes in Hch|].
          intros Hno; by destruct (Hno eq_refl).
        + by split. }
    rewrite (unchanged_chain r rb rc); [|by etrans|done].
    rewrite (unchanged_chain r ra rb); [|done|done].
    rewrite Ha, Hb, Hc. tauto. }
  rewrite fold_left_unchanged_fst; [|done|].
  2: { intros r c c' x Hx. apply Hone. by apply Hone in Hx. }
  unfold getArity. split.
  - intros Hall.
    assert (forall i attr, getAttributes relation !! i = Some attr ->
              (getTypeName attr = "number" \/ getTypeName attr = "symbol"
               \/ is_Some (getType program (getTypeName attr)))
              /\ (forall j attr_j, j < i -> getAttributes relation !! j = Some attr_j ->
                    getAttributeName attr <> getAttributeName attr_j)
              /\ (isRecordTypeName typeEnv (getTypeName attr) = true ->
                  isInput ioTypes relation = false /\ isOutput ioTypes relation = false))
      as Hattr.
    { intros i attr Ei. pose proof (lookup_lt_Some _ _ _ Ei) as Hlt.
      specialize (Hall i ltac:(apply in_seq; lia)). apply Hone in Hall.
      by rewrite Ei in Hall. }
    split; [|split].
    + intros attr Hin. apply list_elem_of_In, list_elem_of_lookup in Hin as [i Ei].
      by destruct (Hattr i attr Ei) as (? & _ & _).
    + apply NoDup_earlier. intros i j xi xj Hlt Ei Ej.
      destruct (Hattr i xi Ei) as (_ & Hearlier & _). by apply (Hearlier j xj).
    + intros attr Hin. apply list_elem_of_In, list_elem_of_lookup in Hin as [i Ei].
      by destruct (Hattr i attr Ei) as (_ & _ & ?).
  - intros (Hknown & Hnd & Hrec) i Hi. apply Hone.
    destruct (getAttributes relation !! i) as [attr|] eqn:Ei; [|done].
    assert (In attr (getAttributes relation)) as Hin
      by (apply list_elem_of_In, list_elem_of_lookup; eauto).
    split; [by apply Hknown|]. split; [|by apply Hrec].
    intros j attr_j Hlt Ej. by apply (proj1 (NoDup_earlier _ _) Hnd i j).
Qed.

(** ** The type analysis and its solver *)

Section AnalysisResults.
Context {AnalysisType : Type} `{TypeLattice AnalysisType} `{FunctorOpInfo}.

(** X11. When the analysis returns, it holds a type for every argument
    of every typed clause: [getType] is never null on the nodes of the
    clauses that [getTypedClauses] lists. *)
Theorem typed_clauses_have_types (fuel : nat) (program : AstProgram)
    (ta : TypeAnalysis AnalysisType) (clause : AstClause) (arg : AstArgument) :
  run fuel program = Some (Some ta) ->
  In clause (typedClauses ta) ->
  In arg (visitArguments (nodesOfClause clause)) ->
  is_Some (getType_analysis ta arg).
Proof.
  unfold run. destruct isValid.
  - intros Hrun. eapply run_fold_types; [|exact Hrun]. by intros ? ? [].
  - by intros [= <-] [].
Qed.

(** X12. The constraints generated for a clause stay within the clause:
    no type is set, every representative is a variable of the clause
    that carries the name it stands for, and every argument a constraint
    reads or updates is a node of the clause. *)
Theorem generated_constraints_stay_in_clause (program : AstProgram) (clause : AstClause)
    (solver : TypeSolver AnalysisType) :
  generateConstraints program clause emptySolver = Some solver ->
  typeMapping solver = ∅
  /\ (forall name r, representatives solver !! name = Some r ->
        (exists i, r = AstVariable i name) /\ In (NodeArgument r) (nodesOfClause clause))
  /\ (forall c a, In c (constraints solver) -> In a (constraintArguments c) ->
        In (NodeArgument a) (nodesOfClause clause)).
Proof.
  intros Hgen. pose proof (generateConstraints_rooted _ _ _ Hgen) as [Hreps Hcs].
  assert (tableOK solver /\ typeMapping solver = ∅) as [Hok Hm].
  { revert Hgen. unfold generateConstraints, visitClause, visitArguments_.
    destruct (visit_guarantee_mutual program) as (Harg & _ & Hlit).
    assert (tableOK (emptySolver : TypeSolver AnalysisType)) as Hok0.
    { intros n r Hn. simpl in Hn. by rewrite lookup_empty in Hn. }
    destruct (fold_left _ (getBodyLiterals clause) (Some emptySolver)) as [s1|] eqn:E1;
      simpl; [|done].
    intros E2.
    assert (visitGuarantee (flat_map nodesOfLiteral (getBodyLiterals clause)) emptySolver s1)
      as [[Hok1 (_ & _ & Hm1)] _].
    { apply (fold_visit_guarantee (visitLiteral program) nodesOfLiteral); [|done|done].
      apply List.Forall_forall. intros l _. apply Hlit. }
    assert (visitGuarantee (flat_map nodesOfArgument (atomArguments (getHead clause)))
              s1 solver) as [[Hok2 (_ & _ & Hm2)] _].
    { apply (fold_visit_guarantee (visitArgument program) nodesOfArgument); [|done|done].
      apply List.Forall_forall. intros a _. apply Harg. }
    split; [done|]. by rewrite Hm2, Hm1. }
  split; [done|]. split.
  - intros name r Hr. split; [by apply Hok|by eapply Hreps].
  - intros c a Hc Ha. by eapply Hcs.
Qed.

End AnalysisResults.

(** ** Stratification *)

(** X13. The stratification check adds at most one diagnostic per vertex
    of the precedence graph, and none at all when no vertex reaches
    itself, whatever the clauses negate or aggregate. *)
Theorem stratification_reports_once_per_vertex `{DependencyQueries} (report : ErrorReport)
    (program : AstProgram) (g : PrecedenceGraph) :
  length (checkStratification report program g) <= length report + length (vertices g)
  /\ ((forall v, In v (vertices g) -> reaches g v v = false) ->
      checkStratification report program g = report).
Proof.
  rewrite checkStratification_flat_map, length_app. split.
  - apply Nat.add_le_mono_l. induction (vertices g) as [|v vs IH]; simpl; [done|].
    rewrite length_app. apply le_n_S in IH.
    assert (length (stratificationDiagnosticsOf program g v) <= 1); [|lia].
    unfold stratificationDiagnosticsOf. destruct (reaches g v v); [|simpl; lia].
    destruct (findUnstratified program v (clique g v)) as [[[? ?] ?]|]; simpl; lia.
  - intros Hacyclic.
    rewrite flat_map_eq_nil; [by rewrite app_nil_r|].
    intros v Hv. unfold stratificationDiagnosticsOf. by rewrite (Hacyclic v Hv).
Qed.

(** ** The node mapper of the witness check *)

Lemma sset_insert_In (k x : string) (s : list string) :
  In x (sset_insert k s) <-> x = k \/ In x s.
Proof.
  induction s as [|k' s IH]; simpl; [by intuition|].
  destruct (String.compare k k') eqn:E; simpl.
  - apply String.compare_eq_iff in E as ->. by intuition.
  - by intuition.
  - rewrite IH. by intuition.
Qed.

Lemma mapperStep_refl st : mapperStep st st.
Proof.
  split; [done|]. intros name. split; [by left|].
  intros [Hin|(k & Hk & _)]; [done|lia].
Qed.

Lemma mapperStep_trans st1 st2 st3 :
  mapperStep st1 st2 -> mapperStep st2 st3 -> mapperStep st1 st3.
Proof.
  intros [Hle1 Hn1] [Hle2 Hn2]. split; [lia|].
  intros name. rewrite Hn2, Hn1. split.
  - intros [[Hin|(k & Hk & ->)]|(k & Hk & ->)]; [by left| |]; right; exists k; split; (lia || done).
  - intros [Hin|(k & Hk & ->)]; [by left; left|].
    destruct (Nat.lt_ge_cases k (numReplaced (fst st2))).
    + left; right. exists k. split; [lia|done].
    + right. exists k. split; [lia|done].
Qed.

Lemma replaceAggregators_list (args : list AstArgument) :
  Forall (fun a => forall st,
            noAggregator (nodesOfArgument (fst (replaceAggregators a st)))
            /\ mapperStep st (snd (replaceAggregators a st))) args ->
  forall st,
    noAggregator (flat_map nodesOfArgument (fst (mapAccum replaceAggregators args st)))
    /\ mapperStep st (snd (mapAccum replaceAggregators args st)).
Proof.
  induction 1 as [|a args Ha _ IH]; intros st; simpl.
  - split; [done|apply mapperStep_refl].
  - destruct (Ha st) as [Hn1 Hs1]. destruct (replaceAggregators a st) as [a' st1].
    destruct (IH st1) as [Hn2 Hs2].
    destruct (mapAccum replaceAggregators args st1) as [args' st2]. simpl in *.
    split; [|by eapply mapperStep_trans].
    unfold noAggregator in *. rewrite existsb_app, Hn1, Hn2. done.
Qed.

Lemma replaceAggregators_mutual :
  (forall a st,
     noAggregator (nodesOfArgument (fst (replaceAggregators a st)))
     /\ mapperStep st (snd (replaceAggregators a st)))
  /\ (forall _ : AstAtom, True) /\ (forall _ : AstLiteral, True).
Proof.
  apply Ast_mutual_ind;
    try done;
    try (intros; simpl; split; [done|apply mapperStep_refl]).
  - intros i t v IH st. simpl. destruct (IH st) as [Hn Hs].
    destruct (replaceAggregators v st) as [v' st']. simpl in *. by split.
  - intros i f args IH st. simpl.
    destruct (replaceAggregators_list args IH st) as [Hn Hs].
    destruct (mapAccum replaceAggregators args st) as [args' st']. by split.
  - intros i f args IH st. simpl.
    destruct (replaceAggregators_list args IH st) as [Hn Hs].
    destruct (mapAccum replaceAggregators args st) as [args' st']. by split.
  - intros i t args IH st. simpl.
    destruct (replaceAggregators_list args IH st) as [Hn Hs].
    destruct (mapAccum replaceAggregators args st) as [args' st']. by split.
  - intros i op e body _ _ [ws vars]. simpl. split; [done|].
    split; [simpl; lia|]. intros name. simpl. rewrite sset_insert_In. split.
    + intros [->|Hin]; [right|by left]. exists (numReplaced ws). split; [lia|done].
    + intros [Hin|(k & Hk & ->)]; [by right|left].
      by replace k with (numReplaced ws) by lia.
Qed.

Lemma replaceAggregators_spec (a : AstArgument) (st : WitnessState * list string) :
  noAggregator (nodesOfArgument (fst (replaceAggregators a st)))
  /\ mapperStep st (snd (replaceAggregators a st)).
Proof. apply replaceAggregators_mutual. Qed.

Lemma replaceAggregatorsLiteral_spec (l : AstLiteral) (st : WitnessState * list string) :
  noAggregator (nodesOfLiteral (fst (replaceAggregatorsLiteral l st)))
  /\ mapperStep st (snd (replaceAggregatorsLiteral l st)).
Proof.
  assert (forall atom st,
            noAggregator (nodesOfAtom (fst (replaceAggregatorsAtom atom st)))
            /\ mapperStep st (snd (replaceAggregatorsAtom atom st))) as Hatom.
  { intros [s n args] st0. simpl.
    destruct (replaceAggregators_list args
                (proj2 (List.Forall_forall _ _) (fun a _ => replaceAggregators_spec a)) st0)
      as [Hn Hs].
    destruct (mapAccum replaceAggregators args st0) as [args' st']. by split. }
  destruct l as [atom|s atom|s op x y|s b]; simpl.
  - destruct (Hatom atom st) as [Hn Hs].
    destruct (replaceAggregatorsAtom atom st) as [atom' st']. by split.
  - destruct (Hatom atom st) as [Hn Hs].
    destruct (replaceAggregatorsAtom atom st) as [atom' st']. by split.
  - destruct (replaceAggregators_spec x st) as [Hn1 Hs1].
    destruct (replaceAggregators x st) as [x' st1].
    destruct (replaceAggregators_spec y st1) as [Hn2 Hs2].
    destruct (replaceAggregators y st1) as [y' st2]. simpl in *.
    split; [|by eapply mapperStep_trans].
    unfold noAggregator in *. simpl. rewrite existsb_app, Hn1, Hn2. done.
  - split; [done|apply mapperStep_refl].
Qed.

(** X14. Mapping a body with the aggregator-replacing node mapper, from
    an empty set of aggregator variables, leaves no aggregator in the
    body, never lowers the replacement counter, and records exactly the
    names [+aggr_var_k] of the counter values [k] it used. *)
Theorem aggregators_replaced_by_numbered_variables (literals : list AstLiteral)
    (ws : WitnessState) :
  let r := mapAccum replaceAggregatorsLiteral literals (ws, []) in
  existsb isAggregatorNode (flat_map nodesOfLiteral (fst r)) = false
  /\ numReplaced ws <= numReplaced (fst (snd r))
  /\ forall name, In name (snd (snd r)) <->
       exists k, numReplaced ws <= k < numReplaced (fst (snd r))
                 /\ name = aggregatorVariableName k.
Proof.
  assert (forall l st,
            noAggregator (flat_map nodesOfLiteral (fst (mapAccum replaceAggregatorsLiteral l st)))
            /\ mapperStep st (snd (mapAccum replaceAggregatorsLiteral l st))) as Hlist.
  { induction l as [|x l IH]; intros st; simpl.
    - split; [done|apply mapperStep_refl].
    - destruct (replaceAggregatorsLiteral_spec x st) as [Hn1 Hs1].
      destruct (replaceAggregatorsLiteral x st) as [x' st1].
      destruct (IH st1) as [Hn2 Hs2].
      destruct (mapAccum replaceAggregatorsLiteral l st1) as [l' st2]. simpl in *.
      split; [|by eapply mapperStep_trans].
      unfold noAggregator in *. rewrite existsb_app, Hn1, Hn2. done. }
  intros r. destruct (Hlist literals (ws, [])) as [Hn [Hle Hnames]]. fold r in Hn, Hle, Hnames.
  split; [exact Hn|]. split; [exact Hle|].
  intros name. rewrite Hnames. simpl. by intuition.
Qed.

(** ** Use-once variables *)

Lemma string_compare_refl (s : string) : String.compare s s = Eq.
Proof.
  induction s as [|c s IH]; simpl; [done|].
  unfold Ascii.compare. by rewrite N.compare_refl.
Qed.

Lemma string_compare_trans (a b c : string) :
  String.compare a b = Lt -> String.compare b c = Lt -> String.compare a c = Lt.
Proof.
  revert b c. induction a as [|x a IH]; intros [|y b] [|z c]; simpl; try done.
  destruct (Ascii.compare x y) eqn:Exy; try done.
  - apply Ascii.compare_eq_iff in Exy as ->.
    destruct (Ascii.compare y z); try done. apply IH.
  - intros _. destruct (Ascii.compare y z) eqn:Eyz; try done.
    + apply Ascii.compare_eq_iff in Eyz as <-. by rewrite Exy.
    + intros _. unfold Ascii.compare in *.
      apply N.compare_lt_iff in Exy. apply N.compare_lt_iff in Eyz.
      pose proof (N.lt_trans _ _ _ Exy Eyz) as Hlt.
      apply N.compare_lt_iff in Hlt. by rewrite Hlt.
Qed.

Lemma string_compare_Gt (a b : string) :
  String.compare a b = Gt -> String.compare b a = Lt.
Proof. rewrite String.compare_antisym. by destruct (String.compare b a). Qed.

Lemma string_compare_Lt_neq (a b : string) : String.compare a b = Lt -> a <> b.
Proof. intros Hlt ->. by rewrite string_compare_refl in Hlt. Qed.

Lemma smap_lookup_below {V} (k : string) (m : list (string * V)) :
  (forall k', In k' (map fst m) -> String.compare k k' = Lt) -> smap_lookup k m = None.
Proof.
  induction m as [|[k' v] m IH]; simpl; [done|]. intros Hlt.
  destruct (String.eqb_spec k k') as [->|_].
  - specialize (Hlt k' (or_introl eq_refl)). by rewrite string_compare_refl in Hlt.
  - apply IH. intros x Hx. apply Hlt. by right.
Qed.

Lemma smap_alter_keys {V} (f : option V -> V) (k : string) (m : list (string * V)) (x : string) :
  In x (map fst (smap_alter f k m)) <-> x = k \/ In x (map fst m).
Proof.
  induction m as [|[k' v] m IH]; simpl; [by intuition|].
  destruct (String.compare k k') eqn:E; simpl.
  - apply String.compare_eq_iff in E as ->. by intuition.
  - by intuition.
  - rewrite IH. by intuition.
Qed.

Lemma smap_alter_ascend {V} (f : option V -> V) (k : string) (m : list (string * V)) :
  keysAscend (map fst m) -> keysAscend (map fst (smap_alter f k m)).
Proof.
  induction m as [|[k' v] m IH]; simpl; [by intuition|].
  intros [Hlt Hrest]. destruct (String.compare k k') eqn:E; simpl.
  - apply String.compare_eq_iff in E as ->. by split.
  - split; [|by split]. intros x [<-|Hx]; [done|].
    eapply string_compare_trans; [exact E|by apply Hlt].
  - split; [|by apply IH]. intros x Hx. apply smap_alter_keys in Hx as [->|Hx].
    + by apply string_compare_Gt.
    + by apply Hlt.
Qed.

Lemma smap_lookup_alter {V} (f : option V -> V) (k x : string) (m : list (string * V)) :
  keysAscend (map fst m) ->
  smap_lookup x (smap_alter f k m)
  = if String.eqb x k then Some (f (smap_lookup k m)) else smap_lookup x m.
Proof.
  induction m as [|[k' v] m IH]; simpl; [done|].
  intros [Hlt Hrest]. destruct (String.compare k k') eqn:E; simpl.
  - apply String.compare_eq_iff in E as ->. rewrite String.eqb_refl.
    by destruct (String.eqb x _).
  - destruct (String.eqb_spec k k') as [->|_];
      [by rewrite string_compare_refl in E|].
    rewrite (smap_lookup_below k m); [done|].
    intros y Hy. eapply string_compare_trans; [exact E|by apply Hlt].
  - assert (k <> k') as Hne.
    { intros ->. by rewrite string_compare_refl in E. }
    destruct (String.eqb_spec k k') as [|_]; [done|].
    rewrite (IH Hrest).
    destruct (String.eqb_spec x k') as [->|_]; [|done].
    by destruct (String.eqb_spec k' k) as [->|_].
Qed.

Lemma smap_In_lookup {V} (k : string) (v : V) (m : list (string * V)) :
  keysAscend (map fst m) -> In (k, v) m <-> smap_lookup k m = Some v.
Proof.
  induction m as [|[k' v'] m IH]; simpl; [by intuition|].
  intros [Hlt Hrest]. destruct (String.eqb_spec k k') as [->|Hne].
  - split.
    + intros [[= ->]|Hin]; [done|].
      exfalso. eapply string_compare_Lt_neq; [apply (Hlt k')|done].
      apply in_map_iff. by exists (k', v).
    + intros [= ->]. by left.
  - rewrite <- (IH Hrest). split; [|by right].
    intros [[= -> ->]|Hin]; done.
Qed.

Lemma keysAscend_NoDup_filter {V} (p : string * V -> bool) (m : list (string * V)) :
  keysAscend (map fst m) -> NoDup (map fst (List.filter p m)).
Proof.
  induction m as [|[k v] m IH]; simpl; [intros _; constructor|].
  intros [Hlt Hrest]. destruct (p (k, v)); simpl; [|by apply IH].
  constructor; [|by apply IH].
  intros Hin. apply list_elem_of_In, in_map_iff in Hin as ([k' v'] & Hk & Hin).
  simpl in Hk. subst k'. apply filter_In in Hin as [Hin _].
  eapply string_compare_Lt_neq; [apply (Hlt k)|done].
  apply in_map_iff. by exists (k, v').
Qed.

Lemma smap_fold_ascend {A V} (step : A -> option V -> V) (key : A -> string) (l : list A) :
  forall m, keysAscend (map fst m) ->
    keysAscend (map fst (fold_left (fun m v => smap_alter (step v) (key v) m) l m)).
Proof.
  induction l as [|v l IH]; intros m Hm; simpl; [done|].
  by apply IH, smap_alter_ascend.
Qed.

(** The counting map holds, for each name, its number of occurrences. *)
Lemma var_count_lookup (vars : list (NodeInfo * string)) :
  forall (m : list (string * nat)) (k : string),
    keysAscend (map fst m) ->
    smap_lookup k (fold_left (fun m v => smap_alter (fun o => S (default 0 o)) (snd v) m) vars m)
    = match length (occurrencesOf k vars) with
      | 0 => smap_lookup k m
      | S n => Some (S n + default 0 (smap_lookup k m))
      end.
Proof.
  induction vars as [|v vars IH]; intros m k Hm; simpl; [done|].
  rewrite IH by by apply smap_alter_ascend.
  rewrite smap_lookup_alter by done.
  destruct (String.eqb_spec (snd v) k) as [->|Hne]; simpl.
  - rewrite String.eqb_refl.
    destruct (length (occurrencesOf _ vars)); simpl; f_equal; lia.
  - destruct (String.eqb_spec k (snd v)) as [->|_]; done.
Qed.

(** The position map holds, for each name, the location of its last occurrence. *)
Lemma var_pos_single (vars : list (NodeInfo * string)) (i : NodeInfo) (name : string) :
  occurrencesOf name vars = [(i, name)] ->
  smap_lookup name
    (fold_left (fun m v => smap_alter (fun _ => nodeSrcLoc (fst v)) (snd v) m) vars [])
  = Some (nodeSrcLoc i).
Proof.
  induction vars as [|v vars IH] using rev_ind; [done|].
  unfold occurrencesOf. rewrite List.filter_app, fold_left_app. simpl.
  rewrite smap_lookup_alter
    by apply (smap_fold_ascend (fun v _ => nodeSrcLoc (fst v)) snd vars [] I).
  destruct (String.eqb_spec (snd v) name) as [Heq|Hne].
  - intros Hocc. subst name. rewrite String.eqb_refl.
    destruct (List.filter _ vars) as [|w ws]; simpl in Hocc.
    + by injection Hocc as ->.
    + injection Hocc as _ Hws. by destruct ws.
  - rewrite app_nil_r. intros Hocc.
    destruct (String.eqb_spec name (snd v)) as [->|_]; [done|].
    by apply IH.
Qed.

Lemma warningsOf_addError (report : ErrorReport) m l :
  warningsOf (addError report m l) = warningsOf report.
Proof.
  unfold warningsOf, addError, addDiagnostic. rewrite List.filter_app. simpl. apply app_nil_r.
Qed.

Lemma fold_left_warnings {A} (f : ErrorReport -> A -> ErrorReport) (l : list A) :
  Forall (fun x => forall r, warningsOf (f r x) = warningsOf r) l ->
  forall r, warningsOf (fold_left f l r) = warningsOf r.
Proof.
  induction 1 as [|x l Hx _ IH]; intros r; simpl; [done|].
  by rewrite IH, Hx.
Qed.

Lemma fold_left_warnings_all {A} (f : ErrorReport -> A -> ErrorReport) (l : list A) :
  (forall r x, warningsOf (f r x) = warningsOf r) ->
  forall r, warningsOf (fold_left f l r) = warningsOf r.
Proof. intros Hf. apply fold_left_warnings, Forall_forall. intros x _ r. apply Hf. Qed.

Lemma check_warnings_mutual (program : AstProgram) :
  (forall a r, warningsOf (checkArgument r program a) = warningsOf r)
  /\ (forall a r, warningsOf (checkAtom r program a) = warningsOf r)
  /\ (forall l r, warningsOf (checkLiteral r program l) = warningsOf r).
Proof.
  apply Ast_mutual_ind; simpl; intros; try reflexivity.
  - apply fold_left_warnings. eapply Forall_impl; [eassumption|]. simpl. auto.
  - apply fold_left_warnings. eapply Forall_impl; [eassumption|]. simpl. auto.
  - apply fold_left_warnings. eapply Forall_impl; [eassumption|]. simpl. auto.
  - rewrite fold_left_warnings by (eapply Forall_impl; [eassumption|]; simpl; auto).
    destruct (getRelation program n) as [rel|].
    + destruct (negb _); [apply warningsOf_addError | reflexivity].
    + apply warningsOf_addError.
  - auto.
  - auto.
  - destruct (hasUnnamedVariable x || hasUnnamedVariable y);
      rewrite ?warningsOf_addError; congruence.
Qed.

Lemma foldM_warnings {A} (f : ErrorReport -> A -> option ErrorReport) (l : list A) :
  Forall (fun x => forall r r', f r x = Some r' -> warningsOf r' = warningsOf r) l ->
  forall r r', foldM f l r = Some r' -> warningsOf r' = warningsOf r.
Proof.
  induction 1 as [|x l Hx _ IH]; intros r r'.
  - rewrite foldM_nil. by intros [= ->].
  - rewrite foldM_cons. destruct (f r x) as [r1|] eqn:E; simpl; [|done].
    intros Hr. etrans; [by apply IH | by apply Hx].
Qed.

Lemma checkConstant_warnings `{FunctorOpInfo} a :
  forall r r', checkConstant r a = Some r' -> warningsOf r' = warningsOf r.
Proof.
  induction a using AstArgument_mut with
    (Q := fun _ => True) (R := fun _ => True); simpl; try done; intros r r' Hc; auto;
    try (injection Hc as <-; first [apply warningsOf_addError | reflexivity]).
  - destruct (negb _); injection Hc as <-; [apply warningsOf_addError | reflexivity].
  - revert Hc. fold (foldM checkConstant args r). apply foldM_warnings.
    eapply Forall_impl; [eassumption|]. simpl. auto.
Qed.

Lemma checkFact_warnings `{FunctorOpInfo} program fact r r' :
  checkFact r program fact = Some r' -> warningsOf r' = warningsOf r.
Proof.
  unfold checkFact. destruct (negb (isFact fact)); [done|].
  destruct (getRelation program _); [|by intros [= ->]].
  apply foldM_warnings, Forall_forall. intros x _. apply checkConstant_warnings.
Qed.

Lemma use_once_fold (var_pos : list (string * SrcLocation)) (var_count : list (string * nat)) :
  forall r,
    warningsOf
      (fold_left (fun r cur =>
                    if Nat.eqb (snd cur) 1 && negb (startsWithUnderscore (fst cur))
                    then addWarning r ("Variable " +:+ fst cur +:+ " only occurs once")
                           (default 0 (smap_lookup (fst cur) var_pos))
                    else r) var_count r)
    = warningsOf r
      ++ map (fun cur => useOnceWarning (fst cur) (default 0 (smap_lookup (fst cur) var_pos)))
           (List.filter (fun cur => Nat.eqb (snd cur) 1 && negb (startsWithUnderscore (fst cur)))
              var_count).
Proof.
  induction var_count as [|cur m IH]; intros r; simpl; [by rewrite app_nil_r|].
  rewrite IH. destruct (Nat.eqb (snd cur) 1 && negb (startsWithUnderscore (fst cur))); [|done].
  simpl. unfold warningsOf at 1, addWarning, addDiagnostic.
  rewrite List.filter_app. simpl. by rewrite <- app_assoc.
Qed.

(** X15. The warnings [checkClause] adds are the use-once warnings and
    nothing else: none for a generated clause, and otherwise one for
    each variable name that occurs exactly once in the clause and does
    not start with an underscore, located at that occurrence. *)
Theorem clause_warnings_are_the_use_once_variables `{FunctorOpInfo} (report : ErrorReport)
    (program : AstProgram) (clause : AstClause) (recursiveClauses : AstClause -> bool)
    (report' : ErrorReport) :
  checkClause report program clause recursiveClauses = Some report' ->
  exists names : list (string * SrcLocation),
    warningsOf report'
    = warningsOf report ++ map (fun p => useOnceWarning (fst p) (snd p)) names
    /\ NoDup (map fst names)
    /\ forall name loc,
         In (name, loc) names <->
         isGenerated clause = false
         /\ startsWithUnderscore name = false
         /\ exists i,
              occurrencesOf name (visitVariables (nodesOfClause clause)) = [(i, name)]
              /\ loc = nodeSrcLoc i.
Proof.
  unfold checkClause.
  match goal with |- (?m ≫= _) = _ -> _ => destruct m as [r1|] eqn:E1 end; simpl; [|done].
  intros [= <-].
  assert (warningsOf r1 = warningsOf report) as Hr1.
  { destruct (check_warnings_mutual program) as (_ & Hatom & Hlit).
    assert (forall l r, warningsOf (fold_left (fun r lit => checkLiteral r program lit) l r)
                        = warningsOf r) as Hfold
      by (intros l r; apply fold_left_warnings_all; intros; apply Hlit).
    assert (warningsOf
              (if existsb hasUnnamedVariable (atomArguments (getHead clause))
               then addError (checkAtom report program (getHead clause))
                      "Underscore in head of rule" (atomSrcLoc (getHead clause))
               else checkAtom report program (getHead clause)) = warningsOf report) as Hhead.
    { destruct (existsb _ _); rewrite ?warningsOf_addError; apply Hatom. }
    destruct (isFact clause).
    - apply checkFact_warnings in E1. rewrite E1, !Hfold. exact Hhead.
    - injection E1 as <-. rewrite !Hfold. exact Hhead. }
  set (vars := visitVariables (nodesOfClause clause)).
  set (var_count :=
         fold_left (fun m v => smap_alter (fun o => S (default 0 o)) (snd v) m) vars []).
  set (var_pos :=
         fold_left (fun m v => smap_alter (fun _ => nodeSrcLoc (fst v)) (snd v) m) vars []).
  assert (keysAscend (map fst var_count)) as Hascend
    by apply (smap_fold_ascend (fun _ o => S (default 0 o)) snd vars [] I).
  assert (forall name, In (name, 1) var_count <-> length (occurrencesOf name vars) = 1)
    as Hcount.
  { intros name. rewrite (smap_In_lookup name 1 var_count Hascend).
    unfold var_count. rewrite (var_count_lookup vars [] name I). simpl.
    destruct (length (occurrencesOf name vars)) as [|n]; [done|].
    split; [intros [= Hn]|intros [= ->]]; f_equal; lia. }
  exists (if isGenerated clause then []
          else map (fun cur => (fst cur, default 0 (smap_lookup (fst cur) var_pos)))
                 (List.filter
                    (fun cur => Nat.eqb (snd cur) 1 && negb (startsWithUnderscore (fst cur)))
                    var_count)).
  split; [|split].
  - assert (forall r, warningsOf
              match getExecutionPlan clause with
              | Some orders =>
                  fold_left (fun r cur =>
                               if negb (Nat.eqb (orderSize (snd cur)) (length (getAtoms clause)))
                                  || negb (orderIsComplete (snd cur))
                               then addError r "Invalid execution plan" (orderSrcLoc (snd cur))
                               else r) orders r
              | None => r
              end = warningsOf r) as Hplan.
    { intros r. destruct (getExecutionPlan clause); [|done].
      apply fold_left_warnings_all. intros r0 x.
      destruct (_ || _); [apply warningsOf_addError|done]. }
    destruct (recursiveClauses clause);
      rewrite ?fold_left_warnings_all by (intros; apply warningsOf_addError);
      rewrite Hplan; destruct (isGenerated clause); simpl;
      rewrite ?use_once_fold, ?Hr1, ?app_nil_r, ?map_map; done.
  - destruct (isGenerated clause); [constructor|].
    rewrite map_map. simpl.
    by apply keysAscend_NoDup_filter.
  - intros name loc. destruct (isGenerated clause).
    { split; [done|]. by intros [? _]. }
    rewrite in_map_iff. split.
    + intros ([k n] & [= -> <-] & Hin). simpl.
      apply filter_In in Hin as [Hin Hcond]. simpl in Hcond.
      apply andb_true_iff in Hcond as [Hn Hname].
      apply Nat.eqb_eq in Hn as ->. apply negb_true_iff in Hname.
      split; [done|]. split; [done|].
      apply Hcount in Hin.
      destruct (occurrencesOf name vars) as [|[i x] [|? ?]] eqn:Eocc; try done.
      assert (x = name) as ->.
      { assert (In (i, x) (occurrencesOf name vars)) as Hx by (rewrite Eocc; by left).
        apply filter_In in Hx as [_ Hx]. by apply String.eqb_eq in Hx. }
      exists i. split; [done|].
      unfold var_pos. by rewrite (var_pos_single vars i name Eocc).
    + intros (_ & Hname & i & Hocc & ->).
      exists (name, 1). simpl. split.
      * unfold var_pos. by rewrite (var_pos_single vars i name Hocc).
      * apply filter_In. split; [apply Hcount; by rewrite Hocc|].
        simpl. by rewrite Hname.
Qed.

(** ** When the check of a constant does not return *)

Lemma foldM_None_iff {A B} (f : B -> A -> option B) (p : A -> bool) (l : list A) :
  Forall (fun x => forall r, f r x = None <-> p x = true) l ->
  forall r, foldM f l r = None <-> existsb p l = true.
Proof.
  induction 1 as [|x l Hx _ IH]; intros r.
  - rewrite foldM_nil. simpl. split; discriminate.
  - rewrite foldM_cons. simpl. destruct (f r x) as [r1|] eqn:E; simpl.
    + destruct (p x) eqn:Ep; [|apply IH].
      pose proof (proj2 (Hx r) eq_refl). congruence.
    + rewrite (proj1 (Hx r) E). done.
Qed.

Lemma checkConstant_None `{FunctorOpInfo} (a : AstArgument) :
  forall r, checkConstant r a = None <-> hitsUnknownCase a = true.
Proof.
  induction a using AstArgument_mut with
    (Q := fun _ => True) (R := fun _ => True); try done; simpl; intros r;
    try (split; discriminate).
  - destruct (negb _); split; discriminate.
  - fold (foldM checkConstant args r). by apply foldM_None_iff.
Qed.

Lemma hitsUnknownCase_aggregator (a : AstArgument) :
  hitsUnknownCase a = true -> existsb isAggregatorNode (nodesOfArgument a) = true.
Proof.
  induction a using AstArgument_mut with
    (Q := fun _ => True) (R := fun _ => True); try done.
  simpl. rewrite !existsb_exists. rewrite List.Forall_forall in H.
  intros (x & Hx & Hhit). specialize (H x Hx Hhit).
  apply existsb_exists in H as (n & Hn & Hagg).
  exists n. split; [|done]. apply in_flat_map. by exists x.
Qed.

(** X16. [checkConstant] runs into its final assertion, the unknown
    case, exactly on an argument in which an aggregator is reached
    through type casts and record constructors; the same holds for the
    loop over a list of arguments.  On every other argument it returns,
    whatever the report, and so it does on every argument without an
    aggregator. *)
Theorem constant_check_stops_iff `{FunctorOpInfo} (report : ErrorReport)
    (argument : AstArgument) (arguments : list AstArgument) :
  (checkConstant report argument = None <-> hitsUnknownCase argument = true)
  /\ (foldM checkConstant arguments report = None
      <-> exists arg, In arg arguments /\ hitsUnknownCase arg = true)
  /\ (existsb isAggregatorNode (nodesOfArgument argument) = false ->
      exists report', checkConstant report argument = Some report'
                      /\ report `prefix_of` report').
Proof.
  split; [apply checkConstant_None|]. split.
  - rewrite <- existsb_exists. apply foldM_None_iff, List.Forall_forall.
    intros a _. apply checkConstant_None.
  - intros Hnone. destruct (checkConstant report argument) as [report'|] eqn:E.
    + exists report'. split; [done|]. by eapply checkConstant_prefix.
    + apply checkConstant_None, hitsUnknownCase_aggregator in E. congruence.
Qed.

(** ** Representatives of variables *)

Section Representatives.
Context {AnalysisType : Type}.

(** X17. All variables of one name share one representative: once a
    variable has been looked up, looking up any variable of that name
    returns the same argument and leaves the solver as it is.  The
    representative is the first variable looked up under the name; the
    lookup touches no other name, no type and no constraint. *)
Theorem same_name_variables_share_a_representative (s s1 : TypeSolver AnalysisType)
    (i1 i2 : NodeInfo) (name : string) (r : AstArgument) :
  getRepresentative s (AstVariable i1 name) = (r, s1) ->
  getRepresentative s1 (AstVariable i2 name) = (r, s1)
  /\ (representatives s !! name = None -> r = AstVariable i1 name)
  /\ (forall other, other <> name ->
        representatives s1 !! other = representatives s !! other)
  /\ typeMapping s1 = typeMapping s
  /\ constraints s1 = constraints s.
Proof.
  unfold getRepresentative.
  destruct (representatives s !! name) as [r0|] eqn:E.
  - intros [= <- <-]. rewrite E. by repeat split.
  - intros [= <- <-]. simpl. rewrite lookup_insert_eq. repeat split.
    intros other Hne. by rewrite lookup_insert_ne.
Qed.

End Representatives.

(** ** The theorems at concrete programs *)

(** C1 on [equalityProgram]: the clause that names the undeclared
    relation [t] is the one left out. *)
Lemma skipped_clauses_example :
  run (H := layeredLattice) (H0 := numericFunctorOps) 10 equalityProgram
    = Some (Some equalityAnalysis)
  /\ (@isValid _ layeredLattice = true -> In danglingClause (relationClauses equalityProgram) ->
      ((~ In danglingClause (typedClauses equalityAnalysis)
        /\ hasInvalidClauses equalityAnalysis = true)
       <-> unfitForTyping equalityProgram danglingClause)
      /\ (~ unfitForTyping equalityProgram danglingClause ->
          In danglingClause (typedClauses equalityAnalysis)))
  /\ (In danglingClause (typedClauses equalityAnalysis) ->
      @isValid _ layeredLattice = true /\ In danglingClause (relationClauses equalityProgram)
      /\ ~ unfitForTyping equalityProgram danglingClause)
  /\ (hasInvalidClauses equalityAnalysis = true <->
      @isValid _ layeredLattice = true
      /\ exists unfit, In unfit (relationClauses equalityProgram)
                       /\ unfitForTyping equalityProgram unfit).
Proof.
  split; [vm_compute; reflexivity|].
  apply (skipped_clauses_are_the_unfit_ones (H := layeredLattice) (H0 := numericFunctorOps)
           10 equalityProgram equalityAnalysis danglingClause).
  vm_compute. reflexivity.
Defined.

(** C3 on the program [a(X) :- b(X).  b(X) :- !a(X).] *)
Lemma stratification_example :
  PrecedenceGraphContract negativeCycleGraph
  /\ (checkStratification (H := bodyDependencies) [] negativeCycleProgram negativeCycleGraph
        = []
      <-> forall cur, In cur (vertices negativeCycleGraph) ->
            reaches negativeCycleGraph cur cur = true ->
            forall r s, In r (clique negativeCycleGraph cur) ->
                        In s (clique negativeCycleGraph cur) ->
              ~ dependsUnstratified (H := bodyDependencies) negativeCycleProgram r s).
Proof.
  split; [exact negativeCycleGraph_contract|].
  exact (proj1 (stratification_accepts_iff (H := bodyDependencies) [] negativeCycleProgram
                  negativeCycleGraph negativeCycleGraph_contract)).
Defined.

(** C4 on [.decl r(x:number)  r(X).] *)
Lemma variable_fact_example :
  isFact variableFact = true
  /\ is_Some (getRelation variableFactProgram (atomName (getHead variableFact)))
  /\ (checkFact (H := numericFunctorOps) [] variableFactProgram variableFact = Some []
      <-> forallb (acceptedInFact (H := numericFunctorOps))
            (atomArguments (getHead variableFact)) = true)
  /\ (forall report',
        checkFact (H := numericFunctorOps) [] variableFactProgram variableFact = Some report' ->
        report' = [] ++ map factError
                          (flat_map (factOffences (H := numericFunctorOps))
                             (atomArguments (getHead variableFact))))
  /\ (forallb (acceptedInFact (H := numericFunctorOps))
        (atomArguments (getHead variableFact)) = true ->
      forallb reducesToConstant (atomArguments (getHead variableFact)) = true)
  /\ (forallb functorFree (atomArguments (getHead variableFact)) = true ->
      forallb (acceptedInFact (H := numericFunctorOps)) (atomArguments (getHead variableFact))
      = forallb reducesToConstant (atomArguments (getHead variableFact))
      /\ flat_map (factOffences (H := numericFunctorOps))
           (atomArguments (getHead variableFact))
         = flat_map offendingPositions (atomArguments (getHead variableFact))).
Proof.
  split; [reflexivity|]. split; [by eexists|].
  apply (proj1 fact_check_declared_relation numericFunctorOps [] variableFactProgram
           variableFact).
  - reflexivity.
  - by eexists.
Defined.

(** C5 on the constraints generated for [s(X) :- r(Y), X = Y.] *)
Lemma termination_example :
  generateConstraints (H := layeredLattice) (H0 := numericFunctorOps) equalityProgram
    equalityClause emptySolver = Some equalityConstraints
  /\ exists fuel s',
       resolveConstraints (H := layeredLattice) fuel equalityClause equalityConstraints
         = Some (Some s')
       /\ constraints s' = constraints equalityConstraints
       /\ allSatisfied (H := layeredLattice) s'.
Proof.
  split; [reflexivity|].
  destruct (proj1 (@resolveConstraints_terminates LayeredType layeredLattice
                     numericFunctorOps layeredLattice_laws equalityClause
                     equalityConstraints))
    as (fuel & result & Hresult & _ & Hexit & Hgenerated).
  destruct (Hgenerated equalityProgram eq_refl) as [s' ->].
  exists fuel, s'. split; [exact Hresult|]. by apply Hexit.
Defined.

(** C6 on [s(X) :- r(Y), X = Y.] *)
Lemma equality_example :
  newTypeSolver (H := layeredLattice) (H0 := numericFunctorOps) 10 equalityProgram
    equalityClause = Some (Some equalitySolver)
  /\ exists (l r : AstArgument) (t : LayeredType),
       In (VariableConstraint l r) (constraints equalitySolver)
       /\ In (VariableConstraint r l) (constraints equalitySolver)
       /\ getRepresentative equalitySolver (AstVariable (node 3 76) "X") = (l, equalitySolver)
       /\ getRepresentative equalitySolver (AstVariable (node 4 77) "Y") = (r, equalitySolver)
       /\ getType_solver equalitySolver (AstVariable (node 3 76) "X")
            = Some (t, equalitySolver)
       /\ getType_solver equalitySolver (AstVariable (node 4 77) "Y")
            = Some (t, equalitySolver).
Proof.
  split; [vm_compute; reflexivity|].
  apply (@equality_sides_have_equal_types LayeredType layeredLattice numericFunctorOps
           layeredLattice_laws 10 equalityProgram equalityClause equalitySolver 75).
  - vm_compute. reflexivity.
  - simpl. auto 10.
Defined.

(** C7 on [!r(X + 1)] and [r(X + 1)] in [equalityProgram]. *)
Lemma negation_example :
  getRelation equalityProgram ["r"] = Some (declaration 10 "r" [numberAttribute 11 "x"] [])
  /\ getArity (declaration 10 "r" [numberAttribute 11 "x"] []) = length negatedArguments
  /\ visitLiteral (H := layeredLattice) (H0 := numericFunctorOps) equalityProgram
       (AstNegation 97 (mkAstAtom 96 ["r"] negatedArguments)) emptySolver
     = Some negatedArgumentsSolver
  /\ (forall c, In c (constraints (@emptySolver LayeredType)) ->
                In c (constraints negatedArgumentsSolver))
  /\ (forall a c,
        In a (visitArguments (flat_map nodesOfArgument negatedArguments)) ->
        nodeConstraint (H := layeredLattice) (H0 := numericFunctorOps) equalityProgram a
          = Some c ->
        In c (constraints negatedArgumentsSolver))
  /\ (forall program' srcLoc' atomLoc' name',
        (forall f, getFunctorDeclaration equalityProgram f = getFunctorDeclaration program' f) ->
        (forall atom, In atom (visitAtoms (flat_map nodesOfArgument negatedArguments)) ->
           getRelation equalityProgram (atomName atom) = getRelation program' (atomName atom)) ->
        visitLiteral (H := layeredLattice) (H0 := numericFunctorOps) program'
          (AstNegation srcLoc' (mkAstAtom atomLoc' name' negatedArguments)) emptySolver
        = Some negatedArgumentsSolver)
  /\ (forallb isPlainVariable negatedArguments = true -> negatedArgumentsSolver = emptySolver)
  /\ exists solver'',
       visitLiteral (H := layeredLattice) (H0 := numericFunctorOps) equalityProgram
         (AtomLiteral (mkAstAtom 96 ["r"] negatedArguments)) emptySolver = Some solver''
       /\ constraints solver''
          = constraints negatedArgumentsSolver
            ++ attributeConstraints (H := layeredLattice) solver'' negatedArguments
                 (getAttributes (declaration 10 "r" [numberAttribute 11 "x"] []))
       /\ length (attributeConstraints (H := layeredLattice) solver'' negatedArguments
                    (getAttributes (declaration 10 "r" [numberAttribute 11 "x"] [])))
          = length negatedArguments.
Proof.
  split; [reflexivity|]. split; [reflexivity|]. split; [reflexivity|].
  apply (negation_skips_attribute_constraints (H := layeredLattice) (H0 := numericFunctorOps)
           equalityProgram emptySolver 97 96 ["r"] negatedArguments
           (declaration 10 "r" [numberAttribute 11 "x"] []) negatedArgumentsSolver).
  - vm_compute. reflexivity.
  - reflexivity.
  - reflexivity.
Defined.

(** C8 on [.decl r(x:symbol)  .decl s(x:number)  s(X) :- r(X).]: the
    head variable is a symbol, whatever [s] declares, and the check
    after solving reports it. *)
Lemma head_type_example :
  run (H := layeredLattice) (H0 := numericFunctorOps) 10 headMismatchProgram
    = Some (Some headMismatchAnalysis)
  /\ In headMismatchClause (typedClauses headMismatchAnalysis)
  /\ getType_analysis headMismatchAnalysis (AstVariable (node 1 72) "X")
     = Some (LTopPrimitive SYMBOL)
  /\ checkTypeCorrectnessAtoms (H := layeredLattice) [] headMismatchAnalysis
       headMismatchProgram = Some [headMismatchError]
  /\ (forall program' srcLoc name,
        (forall f, getFunctorDeclaration headMismatchProgram f
                   = getFunctorDeclaration program' f) ->
        (forall atom,
           In atom (visitAtoms
                      (flat_map nodesOfLiteral (getBodyLiterals headMismatchClause)
                       ++ flat_map nodesOfArgument
                            (atomArguments (getHead headMismatchClause)))) ->
           getRelation headMismatchProgram (atomName atom)
           = getRelation program' (atomName atom)) ->
        newTypeSolver (H := layeredLattice) (H0 := numericFunctorOps) 10 program'
          (mkAstClause (clauseSrcLoc headMismatchClause)
             (mkAstAtom srcLoc name (atomArguments (getHead headMismatchClause)))
             (getBodyLiterals headMismatchClause) (getExecutionPlan headMismatchClause)
             (isGenerated headMismatchClause))
        = newTypeSolver (H := layeredLattice) (H0 := numericFunctorOps) 10
            headMismatchProgram headMismatchClause)
  /\ exists report',
       checkTypeCorrectnessAtoms (H := layeredLattice) [] headMismatchAnalysis
         headMismatchProgram = Some report'
       /\ (In headMismatchClause (typedClauses headMismatchAnalysis) ->
           In (getHead headMismatchClause)
             (visitAtoms (flat_map nodesOfClause (typedClauses headMismatchAnalysis)))
           /\ forall atom rel (i : nat) arg attr T,
                In atom (visitAtoms
                           (flat_map nodesOfClause (typedClauses headMismatchAnalysis))) ->
                getRelation headMismatchProgram (atomName atom) = Some rel ->
                atomArguments atom !! i = Some arg ->
                getAttributes rel !! i = Some attr ->
                getType_analysis headMismatchAnalysis arg = Some T ->
                @isValidType _ layeredLattice T = true ->
                (@isSubtype _ layeredLattice T
                   (@getAnalysisType _ layeredLattice (getTypeName attr)) = false ->
                   exists r1, [] `prefix_of` r1
                     /\ addError r1 ("Relation expects value of type " +:+ getTypeName attr
                                       +:+ " but got argument of type "
                                       +:+ @analysisTypeToString _ layeredLattice T)
                          (getSrcLoc arg)
                        `prefix_of` report')
                /\ (report' = [] ->
                      @isSubtype _ layeredLattice T
                        (@getAnalysisType _ layeredLattice (getTypeName attr)) = true)).
Proof.
  split; [vm_compute; reflexivity|]. split; [vm_compute; auto|].
  split; [vm_compute; reflexivity|]. split; [vm_compute; reflexivity|].
  apply (proj2 (proj2 (head_attribute_types_checked_after_solving (H := layeredLattice)
                         (H0 := numericFunctorOps) 10 headMismatchProgram headMismatchClause
                         headMismatchAnalysis [] eq_refl))).
Defined.

(** C9 on [.decl eq(x:number,y:number) eqrel]. *)
Lemma equivalence_example :
  getRepresentation equivalenceDeclaration = EQREL
  /\ (checkEquivalence [] equivalenceDeclaration = []
      <-> exists a0 a1, getAttributes equivalenceDeclaration = [a0; a1]
                        /\ getTypeName a0 = getTypeName a1).
Proof.
  split; [reflexivity|].
  exact (proj1 (equivalence_relation_check (H := numericFunctorOps) []
                  equivalenceDeclaration eq_refl)).
Defined.

(** C10 on [sqliteProgram] in a build without [USE_MPI]. *)
Lemma configuration_example :
  checkedProgram false sqliteProgram (noEdges sqliteProgram) = Some checkedOutcome
  /\ snd checkedOutcome =
       (if unsetsEngine false layeredEnvironment sqliteProgram
        then config_unset interpreterConfig "engine" else interpreterConfig)
  /\ (forall k, k <> "engine" -> snd checkedOutcome !! k = interpreterConfig !! k).
Proof.
  split; [vm_compute; reflexivity|].
  apply (checkProgram_configuration (H := numericFunctorOps) (H0 := domain32)
           (H1 := specGroundAnalysis) (H2 := bodyDependencies) (H3 := silentPasses)
           false [] interpreterConfig freshState sqliteProgram layeredEnvironment
           (noEdges sqliteProgram) (fun _ => false) noIO (fst checkedOutcome)
           (snd checkedOutcome)).
  vm_compute. reflexivity.
Defined.

(** ** Where the checker departs from a plain reading *)

(** The type analysis does not look at every clause: the orphan fact
    [q(1).] names an undeclared relation, yet the analysis of its
    program records no invalid clause; and with a lattice that is not
    valid the clause [s(X) :- r(Y), X = Y.], which is fit for typing, is
    not typed. *)
Lemma orphan_clause_is_not_flagged :
  (In orphanFact (programClauses orphanFactProgram)
   /\ unfitForTyping orphanFactProgram orphanFact
   /\ exists ta,
        run (H := layeredLattice) (H0 := numericFunctorOps) 10 orphanFactProgram
          = Some (Some ta)
        /\ ~ In orphanFact (typedClauses ta)
        /\ hasInvalidClauses ta = false)
  /\ (In equalityClause (relationClauses equalityProgram)
      /\ ~ unfitForTyping equalityProgram equalityClause
      /\ exists ta,
           run (H := invalidLattice) (H0 := numericFunctorOps) 10 equalityProgram
             = Some (Some ta)
           /\ ~ In equalityClause (typedClauses ta)).
Proof.
  split.
  - split; [by left|]. split.
    + left. exists (mkAstAtom 31 ["q"] [AstNumberConstant (node 1 32) 1]).
      split; [by left|reflexivity].
    + eexists. split; [reflexivity|]. split; [by intros []|reflexivity].
  - split; [simpl; by left|]. split.
    + rewrite <- isInvalidClause_spec. by vm_compute.
    + eexists. split; [reflexivity|]. by intros [].
Qed.

(** The fact check and reduction to a constant part ways in both
    directions.  The fact [r(X).] of an undeclared relation [r] gets
    nothing from the fact check, although [X] is no constant.  The facts
    [r(cat("a","b")).] and [r(1 + as(2, number)).] of a declared relation
    have arguments that reduce to constants, without any offending
    position, and each gets the error [Function in fact]. *)
Lemma fact_check_is_not_constant_reduction :
  (isFact variableFact = true
   /\ checkFact (H := numericFunctorOps) [] undeclaredFactProgram variableFact = Some []
   /\ forallb reducesToConstant (atomArguments (getHead variableFact)) = false)
  /\ (isFact catFact = true
      /\ forallb reducesToConstant (atomArguments (getHead catFact)) = true
      /\ flat_map offendingPositions (atomArguments (getHead catFact)) = []
      /\ checkFact (H := catFunctorOps) [] catFactProgram catFact
         = Some [factError (FunctionInFact, 22)])
  /\ (isFact castSumFact = true
      /\ forallb reducesToConstant (atomArguments (getHead castSumFact)) = true
      /\ flat_map offendingPositions (atomArguments (getHead castSumFact)) = []
      /\ checkFact (H := numericFunctorOps) [] castSumFactProgram castSumFact
         = Some [factError (FunctionInFact, 22)]).
Proof. repeat split. Qed.

(** In a build with [USE_MPI], a directive for sqlite removes the key
    ["engine"] from the configuration of a program without records. *)
Lemma sqlite_directive_unsets_engine :
  hasRecordTypedAttribute layeredEnvironment sqliteProgram = false
  /\ hasRecordConstructor sqliteProgram = false
  /\ interpreterConfig !! "engine" = Some "interpreter"
  /\ exists report config',
       checkedProgram true sqliteProgram (noEdges sqliteProgram) = Some (report, config')
       /\ config' !! "engine" = None.
Proof.
  split; [reflexivity|]. split; [reflexivity|]. split; [reflexivity|].
  eexists _, _. split; [vm_compute; reflexivity|]. reflexivity.
Qed.

(** ** Further theorems at concrete programs *)

(** X4 on [.type U = N | S] with [N] numeric and [S] symbolic. *)
Lemma mixed_union_example :
  Checker.checkUnionType 10 [] mixedUnionProgram 3 "U" ["N"; "S"] = Some mixedUnionReport
  /\ [] `prefix_of` mixedUnionReport
  /\ (mixedUnionReport = []
      <-> (forall sub, In sub ["N"; "S"] ->
             sub = "number" \/ sub = "symbol"
             \/ (exists l n numeric,
                   getType mixedUnionProgram sub = Some (AstPrimitiveType l n numeric))
             \/ (exists l n types',
                   getType mixedUnionProgram sub = Some (AstUnionType l n types')))
          /\ ~ (containsSymbol mixedUnionProgram ["N"; "S"]
                /\ containsNumber mixedUnionProgram ["N"; "S"])).
Proof.
  split; [vm_compute; reflexivity|].
  apply (union_type_accepted_iff 10 [] mixedUnionReport mixedUnionProgram 3 "U" ["N"; "S"]).
  vm_compute. reflexivity.
Defined.

(** X5 on [.type A = A | number]. *)
Lemma self_union_example :
  In (AstUnionType 1 "A" ["A"; "number"]) (getTypes selfUnionProgram)
  /\ "A" <> "symbol"
  /\ getType selfUnionProgram "A" = Some (AstUnionType 1 "A" ["A"; "number"])
  /\ Checker.unionContainsSymbol 1000 selfUnionProgram ["A"; "number"] = None
  /\ Checker.checkTypes 1000 [] selfUnionProgram = None.
Proof.
  split; [by left|]. split; [discriminate|]. split; [reflexivity|].
  apply (self_referential_union_never_checked selfUnionProgram 1 1 "A" "A" "A" ["number"]).
  - by left.
  - discriminate.
  - reflexivity.
Defined.

(** X8 on [.decl r(x:number)  r(X).], checked after an earlier diagnostic. *)
Lemma rules_example :
  checkRules (H := numericFunctorOps) earlierReport interpreterConfig layeredEnvironment
    variableFactProgram (fun _ => false) noIO = Some rulesOutcome
  /\ earlierReport `prefix_of` fst rulesOutcome.
Proof.
  split; [vm_compute; reflexivity|].
  apply (rules_check_only_appends (H := numericFunctorOps) earlierReport interpreterConfig
           layeredEnvironment variableFactProgram (fun _ => false) noIO
           (fst rulesOutcome) (snd rulesOutcome)).
  vm_compute. reflexivity.
Defined.

(** X11 on [equalityProgram]: the variable [X] of the constraint [X = Y]. *)
Lemma typed_clause_example :
  run (H := layeredLattice) (H0 := numericFunctorOps) 10 equalityProgram
    = Some (Some equalityAnalysis)
  /\ In equalityClause (typedClauses equalityAnalysis)
  /\ In (AstVariable (node 3 76) "X") (visitArguments (nodesOfClause equalityClause))
  /\ is_Some (getType_analysis equalityAnalysis (AstVariable (node 3 76) "X")).
Proof.
  split; [vm_compute; reflexivity|]. split; [vm_compute; auto|].
  split; [vm_compute; auto|].
  apply (typed_clauses_have_types (H := layeredLattice) (H0 := numericFunctorOps) 10
           equalityProgram equalityAnalysis equalityClause (AstVariable (node 3 76) "X")).
  - vm_compute. reflexivity.
  - vm_compute. auto.
  - vm_compute. auto.
Defined.

(** X12 on the constraints generated for [s(X) :- r(Y), X = Y.] *)
Lemma generated_constraints_example :
  generateConstraints (H := layeredLattice) (H0 := numericFunctorOps) equalityProgram
    equalityClause emptySolver = Some equalityConstraints
  /\ typeMapping equalityConstraints = ∅
  /\ (forall name r, representatives equalityConstraints !! name = Some r ->
        (exists i, r = AstVariable i name)
        /\ In (NodeArgument r) (nodesOfClause equalityClause))
  /\ (forall c a, In c (constraints equalityConstraints) -> In a (constraintArguments c) ->
        In (NodeArgument a) (nodesOfClause equalityClause)).
Proof.
  split; [reflexivity|].
  apply (generated_constraints_stay_in_clause (H := layeredLattice) (H0 := numericFunctorOps)
           equalityProgram equalityClause equalityConstraints).
  reflexivity.
Defined.

(** X15 on [s(Z) :- r(Y), X = Y.] *)
Lemma use_once_example :
  checkClause (H := numericFunctorOps) [] equalityProgram useOnceClause (fun _ => false)
    = Some useOnceReport
  /\ exists names : list (string * SrcLocation),
       warningsOf useOnceReport
       = warningsOf [] ++ map (fun p => useOnceWarning (fst p) (snd p)) names
       /\ NoDup (map fst names)
       /\ forall name loc,
            In (name, loc) names <->
            isGenerated useOnceClause = false
            /\ startsWithUnderscore name = false
            /\ exists i,
                 occurrencesOf name (visitVariables (nodesOfClause useOnceClause)) = [(i, name)]
                 /\ loc = nodeSrcLoc i.
Proof.
  split; [vm_compute; reflexivity|].
  apply (clause_warnings_are_the_use_once_variables (H := numericFunctorOps) []
           equalityProgram useOnceClause (fun _ => false) useOnceReport).
  vm_compute. reflexivity.
Defined.

(** X17 on two variables named [X]. *)
Lemma shared_representative_example :
  getRepresentative (@emptySolver LayeredType) (AstVariable (node 1 72) "X") = firstLookup
  /\ getRepresentative (snd firstLookup) (AstVariable (node 3 76) "X")
     = (fst firstLookup, snd firstLookup)
  /\ (representatives (@emptySolver LayeredType) !! "X" = None ->
      fst firstLookup = AstVariable (node 1 72) "X")
  /\ (forall other, other <> "X" ->
        representatives (snd firstLookup) !! other
        = representatives (@emptySolver LayeredType) !! other)
  /\ typeMapping (snd firstLookup) = typeMapping (@emptySolver LayeredType)
  /\ constraints (snd firstLookup) = constraints (@emptySolver LayeredType).
Proof.
  split; [reflexivity|].
  apply (same_name_variables_share_a_representative emptySolver (snd firstLookup)
           (node 1 72) (node 3 76) "X" (fst firstLookup)).
  reflexivity.
Defined.
